(** * homekit-bridge: the single-threaded asynchronous execution engine

    A shallow embedding of the run loop of the ESP port
    ([HAPPlatformRunLoop.c]) and of the Lua bindings built on it
    ([lmqlib.c], the socket binding and the DNS binding), with the
    properties of the design document stated over it. The searcher
    of embedded modules ([app.c]) and the miIO message format
    ([protocol.lua]), which use the bindings, follow.

    Conventions.
    - C unsigned integers are [Z] with the wrap-around written out
      ([wrap]); [HAPTime] deadlines are only compared, they are [N].
    - The heap of file handles is a finite map from addresses to structs;
      address [0] is [&runLoop.fileHandleSentinel].
    - A Lua C function either returns values, raises an error, or yields
      with a continuation; this is an explicit result type.
    - A Lua string that holds binary data is a list of bytes. *)

From Stdlib Require Import ZArith NArith List Bool Lia String Sorted.
From Stdlib.Strings Require Import Byte.
From stdpp Require Import base option list gmap strings.

Local Open Scope Z_scope.

(** ** Lua values and the outcome of a Lua C function *)

Module Lua.

(** The Lua values that the bindings put on the stack. *)
Inductive value :=
| LNil
| LInteger (n : Z)
| LString (s : string)
| LBoolean (b : bool)
| LLightUserdata (p : Z)
| LUserdata (p : Z).

(** [lua_isstring]: strings and numbers are accepted. *)
Definition lua_isstring (v : value) : bool :=
  match v with
  | LString _ | LInteger _ => true
  | _ => false
  end.

(** [lua_tointeger]: 0 when the value is not convertible. Strings are
    never put where the bindings read an integer; they read as 0 here. *)
Definition lua_tointeger (v : value) : Z :=
  match v with
  | LInteger n => n
  | _ => 0
  end.

(** [lua_touserdata]: the address, or NULL. *)
Definition lua_touserdata (v : value) : Z :=
  match v with
  | LLightUserdata p | LUserdata p => p
  | _ => 0
  end.

(** The stack of a C function, bottom first: index 1 is the head,
    index -1 is the last element. *)
Definition stack := list value.

(** [top_index st i] is the value at index [-i]: offset [i] from the
    top, offset 1 being the top. An index outside the stack reads as
    nil. *)
Definition top_index (st : stack) (i : nat) : value :=
  match i with
  | O => LNil
  | S k => nth k (rev st) LNil
  end.

(** The [n] topmost values, in stack order: what [return n] hands back. *)
Definition results (st : stack) (n : nat) : list value :=
  skipn (length st - n)%nat st.

Definition LUA_YIELD : Z := 1.

(** The text of the error that [luaL_argerror(L, arg, extramsg)]
    raises in a function that is not called as a method; [fname] is
    the name that the debug information of the call gives for the
    function, [arg] the number of the argument in decimal digits. *)
Definition luaL_argerror (fname arg extramsg : string) : string :=
  "bad argument #" ++ arg ++ " to '" ++ fname ++ "' (" ++ extramsg ++ ")".

End Lua.

(** ** The blocking message queue ([lmqlib.c]) *)

Module LMQ.

Record lmq_obj := mk_obj { first : Z; last : Z; size : Z }.

(** The border of a table, as the Lua manual defines what the length
    operator returns. The table holds the value [m !! i] at key
    [i + 1] when it is not nil; a key given nil is absent. [n] is a
    border when it is 0 or key [n] is present, and key [n + 1] is
    absent. *)
Definition border {value : Type} (is_nil : value -> bool) (m : list value) (n : nat)
    : Prop :=
  (n <= length m)%nat
  /\ (n = 0%nat \/ exists v, m !! (n - 1)%nat = Some v /\ is_nil v = false)
  /\ (forall v, m !! n = Some v -> is_nil v = true).

Section Width.

(** The number of bits of [size_t], whose arithmetic is modular: 32
    on the ESP32, for which the sources under [platform/esp] are
    built, 64 on a 64-bit host. *)
Variable SIZE_WIDTH : Z.

Definition wrap (z : Z) : Z := z mod 2 ^ SIZE_WIDTH.

(** [lmq_size]: the number of buffered messages as the code computes it. *)
Definition lmq_size (obj : lmq_obj) : Z :=
  if first obj >? last obj
  then wrap (wrap (size obj - first obj) + last obj)
  else wrap (last obj - first obj).

Section Queue.

(** Lua values carried by messages and coroutine identities. *)
Variable value : Type.
Variable thread : Type.

(** [luaL_len] on the table of a message: what the length operator
    gives for the table that [lmq_obj_send] made of the values
    [m], with room for all of them and key [i + 1] set to
    [m !! i]. Lua promises a border of the table and no more; the
    properties below take it to be one ([border]). *)
Variable luaL_len : list value -> nat.

(** The queue: the userdata and its user value, a table holding the
    buffered messages at integer keys and the list of waiting
    coroutines under the key ["wait"] (absent when nil). A buffered
    message is the table of its values, kept as the list of the
    values it was made of, nil included. The table of waiting
    coroutines holds no nil, its length is the number of them. *)
Record lmq := mk_lmq {
  obj : lmq_obj;
  slots : gmap Z (list value);
  wait : option (list thread)
}.

Inductive outcome (A : Type) :=
| Returned (a : A)
| Raised (msg : string)
| Yielded (a : A).
Arguments Returned {A} a.
Arguments Raised {A} msg.
Arguments Yielded {A} a.

(** [lc_resumethread co L narg]: the resumed coroutine runs until it
    returns or yields again; whatever it does to the queue meanwhile
    is a state transformer chosen by the scripts. *)
Variable lc_resumethread : thread -> list value -> lmq -> lmq.

(** [lmq_create]: [size] is the Lua integer converted to [size_t].
    [luaL_argcheck] raises the argument error; [fname] is the name
    under which the function was called. *)
Definition lmq_create (fname : string) (n : Z) : outcome lmq :=
  let sz := wrap n in
  if sz >? 0
  then Returned {| obj := mk_obj 1 1 sz; slots := ∅; wait := None |}
  else Raised (Lua.luaL_argerror fname "1" "size out of range").

(** The loop [for (i = 1; i <= waiting; i++)] of [lmq_obj_send] over
    the detached wait table [ws]: element [i] is resumed with copies
    of the arguments. The second component logs the resumptions. *)
Fixpoint resume_waiters (ws : list thread) (i : nat) (n : nat)
    (args : list value) (q : lmq) (log : list (thread * list value))
    : lmq * list (thread * list value) :=
  match n with
  | O => (q, log)
  | S n' =>
      match ws !! (i - 1)%nat with
      | Some co =>
          resume_waiters ws (S i) n' args
            (lc_resumethread co args q) (log ++ [(co, args)])
      | None => (q, log)
      end
  end.

Definition set_wait (w : option (list thread)) (q : lmq) : lmq :=
  {| obj := obj q; slots := slots q; wait := w |}.

Definition lmq_obj_send (q : lmq) (args : list value)
    : outcome (lmq * list (thread * list value)) :=
  match wait q with
  | Some ws =>
      (* que.wait = nil, then every element of the old table is resumed *)
      Returned (resume_waiters ws 1 (length ws) args (set_wait None q) [])
  | None =>
      if lmq_size (obj q) =? size (obj q)
      then Raised "the message queue is full"
      else
        let o := obj q in
        let last1 := wrap (last o + 1) in
        let last2 := if last1 >? wrap (size o + 1) then 1 else last1 in
        Returned ({| obj := mk_obj (first o) last2 (size o);
                     slots := <[last o := args]> (slots q);
                     wait := wait q |}, [])
  end.

(** [lmq_obj_recv] called by coroutine [co] with the queue as its only
    argument. [Yielded] is [lua_yield(L, 0)]: the caller is suspended
    and its [recv] returns the values it is later resumed with. A
    buffered message is read back from its table: the values at
    the keys 1 to [luaL_len], a nil where a key is absent. *)
Definition lmq_obj_recv (q : lmq) (co : thread) : outcome (lmq * list value) :=
  let o := obj q in
  if last o =? first o
  then
    match wait q with
    | None => Yielded (set_wait (Some [co]) q, [])
    | Some ws => Yielded (set_wait (Some (ws ++ [co])) q, [])
    end
  else
    match slots q !! first o with
    | None => Raised "attempt to get length of a nil value"
    | Some m =>
        let first1 := wrap (first o + 1) in
        let first2 := if first1 >? wrap (size o + 1) then 1 else first1 in
        let nargs := luaL_len m in
        Returned ({| obj := mk_obj first2 (last o) (size o);
                     slots := delete (first o) (slots q);
                     wait := wait q |}, take nargs m)
    end.

(** The state a successful call leaves, for chaining calls. *)
Definition state_of {A} (d : lmq) (r : outcome (lmq * A)) : lmq :=
  match r with
  | Returned (q, _) | Yielded (q, _) => q
  | Raised _ => d
  end.

Definition succeeded {A} (r : outcome A) : bool :=
  match r with Returned _ => true | _ => false end.

Definition is_full_error {A} (r : outcome A) : bool :=
  match r with
  | Raised msg => String.eqb msg "the message queue is full"
  | _ => false
  end.

(** [n] consecutive sends of the same message; the list of outcomes. *)
Fixpoint send_many (n : nat) (q : lmq) (args : list value)
    : list bool * lmq :=
  match n with
  | O => ([], q)
  | S n' =>
      let r := lmq_obj_send q args in
      let '(rs, q') := send_many n' (state_of q r) args in
      (succeeded r :: rs, q')
  end.

End Queue.

End Width.

Arguments Returned {A} a.
Arguments Raised {A} msg.
Arguments Yielded {A} a.
Arguments obj {value thread} l.
Arguments slots {value thread} l.
Arguments wait {value thread} l.
Arguments mk_lmq {value thread} obj slots wait.

End LMQ.

(** ** The socket binding *)

Module LSocket.
Import Lua.

(** A [Socket*] userdata: the address of its block, and the platform
    socket it holds, [None] once destroyed. *)
Record lsocket_obj := mk_lsocket { self : Z; socket : option Z }.

(** Calls into the platform abstraction layer, in the order made. *)
Inductive pal_call :=
| pal_socket_set_timeout (o : Z) (ms : Z)
| pal_socket_enable_broadcast (o : Z)
| pal_socket_bind (o : Z) (addr : string) (port : Z)
| pal_socket_listen (o : Z) (backlog : Z)
| pal_socket_accept (o : Z)
| pal_socket_connect (o : Z) (addr : string) (port : Z)
| pal_socket_send (o : Z) (data : string) (all : bool)
| pal_socket_sendto (o : Z) (data : string) (addr : string) (port : Z)
| pal_socket_recv (o : Z) (maxlen : Z)
| pal_socket_readable (o : Z)
| pal_socket_destroy (o : Z).

(** What the platform hands back: the error code and the out
    parameters a call fills in. *)
Record pal_reply := mk_reply {
  r_err : Z;
  r_new : Z;
  r_addr : string;
  r_port : Z;
  r_len : Z;
  r_bool : bool
}.

(** The continuation functions given to [lua_yieldk]. *)
Inductive kfunction := k_finshaccept | k_finshconnect | k_finshsend | k_finshrecv.

Inductive outcome :=
| Return (vals : list value)
| Error (msg : string)
| Yield (k : kfunction) (extra : Z) (st : stack).

(** The socket after the call, what the call did and the calls it made
    to the platform. *)
Record effect := mk_effect {
  result : outcome;
  after : lsocket_obj;
  calls : list pal_call
}.

(** The error of a failed argument check, by argument index. *)
Definition bad_argument (i : Z) : string :=
  if i =? 2 then "bad argument #2"
  else if i =? 3 then "bad argument #3"
  else "bad argument #4".

(** [luaL_checkinteger], [luaL_checkstring], [luaL_checklstring] on one
    argument (conversions between numbers and strings left out). *)
Definition luaL_checkinteger (v : option value) : option Z :=
  match v with Some (LInteger n) => Some n | _ => None end.
Definition luaL_checkstring (v : option value) : option string :=
  match v with Some (LString s) => Some s | _ => None end.

Definition lua_pop (st : stack) (n : nat) : stack := take (length st - n)%nat st.

(** [lua_insert(L, -k)]: the top value moves to offset [k] from the top. *)
Definition lua_insert_top (st : stack) (k : nat) : stack :=
  match rev st with
  | [] => []
  | v :: below =>
      rev (take (k - 1)%nat below ++ v :: drop (k - 1)%nat below)
  end.

Definition of_bool (b : bool) : Z := if b then 1 else 0.
Definition to_bool (z : Z) : bool := negb (z =? 0).

Section Binding.

(** The enumerators of [pal_socket_err] that the binding switches on,
    the text of an error code, and the platform layer itself. *)
Variable PAL_SOCKET_ERR_OK : Z.
Variable PAL_SOCKET_ERR_IN_PROGRESS : Z.
Variable pal_socket_get_error_str : Z -> string.
Variable pal : pal_call -> pal_reply.

(** [lua_newuserdata] followed by [obj->socket = new_o]: the address
    of the block made for the accepted platform socket. *)
Variable lua_newuserdata : Z -> Z.

Definition destroyed_msg : string := "attemp to use a destroyed socket".

(** [lsocket_obj_get]: the platform socket, or the error raised. *)
Definition lsocket_obj_get (obj : lsocket_obj) : Z + string :=
  match socket obj with
  | Some o => inl o
  | None => inr destroyed_msg
  end.

Definition raise (obj : lsocket_obj) (msg : string) : effect :=
  mk_effect (Error msg) obj [].

Definition finshaccept (st : stack) (status : Z) (extra : Z) : outcome :=
  let err := lua_tointeger (top_index st 4) in
  if err =? PAL_SOCKET_ERR_OK then
    let new_o := lua_touserdata (top_index st 3) in
    Return (results (lua_insert_top (st ++ [LUserdata (lua_newuserdata new_o)]) 3) 3)
  else Error (pal_socket_get_error_str err).

Definition finshconnect (st : stack) (status : Z) (extra : Z) : outcome :=
  let err := lua_tointeger (top_index st 1) in
  if err =? PAL_SOCKET_ERR_OK then Return (results st 0)
  else if err =? PAL_SOCKET_ERR_IN_PROGRESS then Yield k_finshconnect extra st
  else Error (pal_socket_get_error_str err).

Definition finshsend (st : stack) (status : Z) (extra : Z) : outcome :=
  let all := to_bool extra in
  let err := lua_tointeger (top_index st 2) in
  if err =? PAL_SOCKET_ERR_OK then Return (results st (if all then 0 else 1))
  else if err =? PAL_SOCKET_ERR_IN_PROGRESS then Yield k_finshsend extra st
  else Error (pal_socket_get_error_str err).

Definition finshrecv (st : stack) (status : Z) (extra : Z) : outcome :=
  let isrecvfrom := to_bool extra in
  let err := lua_tointeger (top_index st 1) in
  if err =? PAL_SOCKET_ERR_OK then
    let st1 := lua_pop st 1 in
    if isrecvfrom then Return (results st1 3)
    else Return (results (lua_pop st1 2) 1)
  else if err =? PAL_SOCKET_ERR_IN_PROGRESS then Yield k_finshrecv extra st
  else Error (pal_socket_get_error_str err).

Definition continue (k : kfunction) : stack -> Z -> Z -> outcome :=
  match k with
  | k_finshaccept => finshaccept
  | k_finshconnect => finshconnect
  | k_finshsend => finshsend
  | k_finshrecv => finshrecv
  end.

(** Modelled from the spec: [lc_resumethread(co, L, narg)] is defined
    in the bridge's coroutine helpers, which are not among the
    sources; the completion callback "resumes exactly that
    continuation with the result values". As with [lua_resume], the
    continuation given to [lua_yieldk] then runs on the stack the C
    function left, with the [narg] pushed values on top. A coroutine
    that is not suspended is left as it is. *)
Definition lc_resumethread (suspended : outcome) (pushed : list value) : outcome :=
  match suspended with
  | Yield k extra st => continue k (st ++ pushed) LUA_YIELD extra
  | o => o
  end.

(** The completion callbacks the binding registers with the platform. *)
Definition lsocket_accepted_cb (co : outcome) (err : Z) (new_o : Z)
    (addr : string) (port : Z) : outcome :=
  lc_resumethread co [LInteger err; LLightUserdata new_o; LString addr; LInteger port].

Definition lsocket_connected_cb (co : outcome) (err : Z) : outcome :=
  lc_resumethread co [LInteger err].

Definition lsocket_sent_cb (co : outcome) (err : Z) (sent_len : Z) : outcome :=
  lc_resumethread co [LInteger err; LInteger sent_len].

Definition lsocket_recved_cb (co : outcome) (err : Z) (addr : string)
    (port : Z) (data : string) : outcome :=
  lc_resumethread co [LString data; LString addr; LInteger port; LInteger err].

(** The methods. [self] is the userdata at index 1 and [args] the
    values at indices 2 and up. *)
Definition self_value (obj : lsocket_obj) : value := LUserdata (self obj).

Definition port_ok (port : Z) : bool := (0 <=? port) && (port <=? 65535).

Definition lsocket_obj_settimeout (obj : lsocket_obj) (args : list value) : effect :=
  match lsocket_obj_get obj with
  | inr msg => raise obj msg
  | inl o =>
      match luaL_checkinteger (args !! 0%nat) with
      | None => raise obj (bad_argument 2)
      | Some ms =>
          if (0 <=? ms) && (ms <=? 4294967295)
          then mk_effect (Return []) obj [pal_socket_set_timeout o ms]
          else raise obj "ms out of range"
      end
  end.

Definition lsocket_obj_enablebroadcast (obj : lsocket_obj) (args : list value) : effect :=
  match lsocket_obj_get obj with
  | inr msg => raise obj msg
  | inl o =>
      let c := pal_socket_enable_broadcast o in
      let err := r_err (pal c) in
      if err =? PAL_SOCKET_ERR_OK then mk_effect (Return []) obj [c]
      else mk_effect (Error (pal_socket_get_error_str err)) obj [c]
  end.

Definition lsocket_obj_bind (obj : lsocket_obj) (args : list value) : effect :=
  match lsocket_obj_get obj with
  | inr msg => raise obj msg
  | inl o =>
      match luaL_checkstring (args !! 0%nat), luaL_checkinteger (args !! 1%nat) with
      | Some addr, Some port =>
          if port_ok port then
            let c := pal_socket_bind o addr port in
            let err := r_err (pal c) in
            if err =? PAL_SOCKET_ERR_OK then mk_effect (Return []) obj [c]
            else mk_effect (Error (pal_socket_get_error_str err)) obj [c]
          else raise obj "port out of range"
      | None, _ => raise obj (bad_argument 2)
      | _, None => raise obj (bad_argument 3)
      end
  end.

Definition lsocket_obj_listen (obj : lsocket_obj) (args : list value) : effect :=
  match lsocket_obj_get obj with
  | inr msg => raise obj msg
  | inl o =>
      match luaL_checkinteger (args !! 0%nat) with
      | None => raise obj (bad_argument 2)
      | Some backlog =>
          let c := pal_socket_listen o backlog in
          let err := r_err (pal c) in
          if err =? PAL_SOCKET_ERR_OK then mk_effect (Return []) obj [c]
          else mk_effect (Error (pal_socket_get_error_str err)) obj [c]
      end
  end.

Definition lsocket_obj_accept (obj : lsocket_obj) (args : list value) : effect :=
  match lsocket_obj_get obj with
  | inr msg => raise obj msg
  | inl o =>
      let st := self_value obj :: args in
      let c := pal_socket_accept o in
      let r := pal c in
      let err := r_err r in
      if err =? PAL_SOCKET_ERR_OK then
        mk_effect
          (Return (results (st ++ [LUserdata (lua_newuserdata (r_new r));
                                   LString (r_addr r);
                                   LInteger (r_port r)]) 3))
          obj [c]
      else if err =? PAL_SOCKET_ERR_IN_PROGRESS then
        mk_effect (Yield k_finshaccept (self obj) st) obj [c]
      else mk_effect (Error (pal_socket_get_error_str err)) obj [c]
  end.

Definition lsocket_obj_connect (obj : lsocket_obj) (args : list value) : effect :=
  match lsocket_obj_get obj with
  | inr msg => raise obj msg
  | inl o =>
      match luaL_checkstring (args !! 0%nat), luaL_checkinteger (args !! 1%nat) with
      | Some addr, Some port =>
          if port_ok port then
            let st := self_value obj :: args in
            let c := pal_socket_connect o addr port in
            mk_effect (finshconnect (st ++ [LInteger (r_err (pal c))]) 1 (self obj))
              obj [c]
          else raise obj "port out of range"
      | None, _ => raise obj (bad_argument 2)
      | _, None => raise obj (bad_argument 3)
      end
  end.

Definition lsocket_obj_sent_int (obj : lsocket_obj) (args : list value)
    (all : bool) : effect :=
  match lsocket_obj_get obj with
  | inr msg => raise obj msg
  | inl o =>
      match luaL_checkstring (args !! 0%nat) with
      | None => raise obj (bad_argument 2)
      | Some data =>
          let st := self_value obj :: args in
          let c := pal_socket_send o data all in
          let r := pal c in
          mk_effect
            (finshsend (st ++ [LInteger (r_err r); LInteger (r_len r)]) 2 (of_bool all))
            obj [c]
      end
  end.

Definition lsocket_obj_send (obj : lsocket_obj) (args : list value) : effect :=
  lsocket_obj_sent_int obj args false.

Definition lsocket_obj_sendall (obj : lsocket_obj) (args : list value) : effect :=
  lsocket_obj_sent_int obj args true.

Definition lsocket_obj_sendto (obj : lsocket_obj) (args : list value) : effect :=
  match lsocket_obj_get obj with
  | inr msg => raise obj msg
  | inl o =>
      match luaL_checkstring (args !! 0%nat), luaL_checkstring (args !! 1%nat),
            luaL_checkinteger (args !! 2%nat) with
      | Some data, Some addr, Some port =>
          if port_ok port then
            let st := self_value obj :: args in
            let c := pal_socket_sendto o data addr port in
            let r := pal c in
            mk_effect
              (finshsend (st ++ [LInteger (r_err r); LInteger (r_len r)]) 0 (of_bool false))
              obj [c]
          else raise obj "port out of range"
      | None, _, _ => raise obj (bad_argument 2)
      | _, None, _ => raise obj (bad_argument 3)
      | _, _, None => raise obj (bad_argument 4)
      end
  end.

Definition lsocket_obj_recv_int (obj : lsocket_obj) (args : list value)
    (isrecvfrom : bool) : effect :=
  match lsocket_obj_get obj with
  | inr msg => raise obj msg
  | inl o =>
      match luaL_checkinteger (args !! 0%nat) with
      | None => raise obj (bad_argument 2)
      | Some maxlen =>
          let st := self_value obj :: args in
          let c := pal_socket_recv o maxlen in
          mk_effect
            (finshrecv (st ++ [LInteger (r_err (pal c))]) 1 (of_bool isrecvfrom))
            obj [c]
      end
  end.

Definition lsocket_obj_recv (obj : lsocket_obj) (args : list value) : effect :=
  lsocket_obj_recv_int obj args false.

Definition lsocket_obj_recvfrom (obj : lsocket_obj) (args : list value) : effect :=
  lsocket_obj_recv_int obj args true.

Definition lsocket_obj_readable (obj : lsocket_obj) (args : list value) : effect :=
  match lsocket_obj_get obj with
  | inr msg => raise obj msg
  | inl o =>
      let c := pal_socket_readable o in
      mk_effect (Return [LBoolean (r_bool (pal c))]) obj [c]
  end.

Definition lsocket_obj_destroy (obj : lsocket_obj) (args : list value) : effect :=
  match lsocket_obj_get obj with
  | inr msg => raise obj msg
  | inl o => mk_effect (Return []) (mk_lsocket (self obj) None) [pal_socket_destroy o]
  end.

(** The [__gc] and [__close] metamethod. *)
Definition lsocket_obj_gc (obj : lsocket_obj) (args : list value) : effect :=
  match socket obj with
  | Some o => mk_effect (Return []) (mk_lsocket (self obj) None) [pal_socket_destroy o]
  | None => mk_effect (Return []) obj []
  end.

(** [lsocket_obj_meth]: the methods of a socket object, by name. *)
Definition lsocket_obj_meth : list (string * (lsocket_obj -> list value -> effect)) :=
  [ ("settimeout", lsocket_obj_settimeout);
    ("enablebroadcast", lsocket_obj_enablebroadcast);
    ("bind", lsocket_obj_bind);
    ("listen", lsocket_obj_listen);
    ("accept", lsocket_obj_accept);
    ("connect", lsocket_obj_connect);
    ("send", lsocket_obj_send);
    ("sendall", lsocket_obj_sendall);
    ("sendto", lsocket_obj_sendto);
    ("recv", lsocket_obj_recv);
    ("recvfrom", lsocket_obj_recvfrom);
    ("readable", lsocket_obj_readable);
    ("destroy", lsocket_obj_destroy) ].

(** A completion reported by the platform: which callback it calls,
    and with what. *)
Inductive completion :=
| accepted (err : Z) (new_o : Z) (addr : string) (port : Z)
| connected (err : Z)
| sent (err : Z) (sent_len : Z)
| recved (err : Z) (addr : string) (port : Z) (data : string).

Definition completion_err (c : completion) : Z :=
  match c with
  | accepted err _ _ _ | connected err | sent err _ | recved err _ _ _ => err
  end.

Definition complete (co : outcome) (c : completion) : outcome :=
  match c with
  | accepted err new_o addr port => lsocket_accepted_cb co err new_o addr port
  | connected err => lsocket_connected_cb co err
  | sent err sent_len => lsocket_sent_cb co err sent_len
  | recved err addr port data => lsocket_recved_cb co err addr port data
  end.

(** The callback that the operation behind a continuation gave to the
    platform: [lsocket_obj_accept] gives [lsocket_accepted_cb],
    [lsocket_obj_connect] gives [lsocket_connected_cb], the send
    operations give [lsocket_sent_cb], the receive operations give
    [lsocket_recved_cb]. *)
Definition completes (k : kfunction) (c : completion) : bool :=
  match k, c with
  | k_finshaccept, accepted _ _ _ _ => true
  | k_finshconnect, connected _ => true
  | k_finshsend, sent _ _ => true
  | k_finshrecv, recved _ _ _ _ => true
  | _, _ => false
  end.

(** Completions delivered one after the other to a suspended call. *)
Fixpoint deliver (co : outcome) (completions : list completion) : outcome :=
  match completions with
  | [] => co
  | c :: cs => deliver (complete co c) cs
  end.

End Binding.

End LSocket.

(** ** The DNS binding *)

Module LDNS.
Import Lua.

Inductive outcome :=
| Return (vals : list value)
| Error (msg : string)
| Yield (st : stack).

(** [ldns_family_strs]. *)
Definition ldns_family_strs : list string := [""; "IPV4"; "IPV6"].

Fixpoint index_of (s : string) (l : list string) (i : Z) : option Z :=
  match l with
  | [] => None
  | x :: l' => if String.eqb s x then Some i else index_of s l' (i + 1)
  end.

(** [luaL_checkoption(L, arg, def, lst)]: the default stands in for an
    absent or nil argument. *)
Definition luaL_checkoption (v : option value) (def : string) (lst : list string)
    : option Z :=
  match v with
  | None | Some LNil => index_of def lst 0
  | Some (LString s) => index_of s lst 0
  | Some _ => None
  end.

Definition luaL_checkstring (v : option value) : option string :=
  match v with Some (LString s) => Some s | _ => None end.

Definition finshresolve (st : stack) (status : Z) (extra : Z) : outcome :=
  if negb (status =? 1) || negb (lua_isstring (top_index st 1))
  then Error "failed to resolve"
  else Return (results st 1).

Section Binding.

(** [pal_dns_start_request(hostname, af, ldns_response_cb, L)]:
    whether the request was started. *)
Variable pal_dns_start_request : string -> Z -> bool.

(** [ldns_resolve] on the argument stack [st]. *)
Definition ldns_resolve (st : stack) : outcome :=
  match luaL_checkstring (st !! 0%nat) with
  | None => Error "bad argument #1"
  | Some hostname =>
      match luaL_checkoption (st !! 1%nat) "" ldns_family_strs with
      | None => Error "bad argument #2"
      | Some af =>
          if pal_dns_start_request hostname af
          then Yield st
          else Error "failed to start DNS resolution request"
      end
  end.

End Binding.

(** Modelled from the spec: [lc_resumethread(co, L, narg)] is defined
    in the bridge's coroutine helpers, which are not among the
    sources; the completion callback "resumes" the suspended caller
    "with a resolved address, or with none". As with [lua_resume], the
    continuation given to [lua_yieldk] then runs on the stack
    [ldns_resolve] left, with the [narg] pushed values on top, and is
    told [LUA_YIELD]. *)
Definition lc_resumethread (co : outcome) (pushed : list value) : outcome :=
  match co with
  | Yield st => finshresolve (st ++ pushed) LUA_YIELD 0
  | o => o
  end.

(** [ldns_response_cb(addr, co)]: the address is pushed when there is
    one, and the coroutine is resumed with that many values. *)
Definition ldns_response_cb (addr : option string) (co : outcome) : outcome :=
  lc_resumethread co (match addr with Some a => [LString a] | None => [] end).

End LDNS.

(** ** The run loop ([HAPPlatformRunLoop.c]) *)

Module Timer.

(** [struct HAPPlatformTimer], without its link: the list of timers
    is the chain of [nextTimer] pointers from [runLoop.timers]. *)
Record HAPPlatformTimer := mk_timer {
  deadline : N;
  callback : Z;
  context : Z
}.

End Timer.

Module RunLoop.

Record HAPPlatformFileHandleEvent := mk_event {
  isReadyForReading : bool;
  isReadyForWriting : bool;
  hasErrorConditionPending : bool
}.

(** [struct HAPPlatformFileHandle]. Pointers are addresses, [None] is
    NULL; a callback is the address of its function. *)
Record HAPPlatformFileHandle := mk_handle {
  fileDescriptor : Z;
  interests : HAPPlatformFileHandleEvent;
  callback : option Z;
  context : Z;
  prevFileHandle : option N;
  nextFileHandle : option N;
  isAwaitingEvents : bool
}.

Inductive HAPPlatformRunLoopState :=
| kHAPPlatformRunLoopState_Idle
| kHAPPlatformRunLoopState_Running
| kHAPPlatformRunLoopState_Stopping.

Inductive HAPError :=
| kHAPError_None
| kHAPError_Unknown
| kHAPError_OutOfResources.

(** The members of the global [runLoop] that hold file handles and
    timers. [handles] is the memory that holds file handle structs: the
    sentinel at address [fileHandles] and one struct per registration
    that has not been released. A handle reference is the address of a
    struct that [calloc] returned; it is never the sentinel's. *)
Record runLoop_t := mk_runLoop {
  handles : gmap N HAPPlatformFileHandle;
  fileHandleCursor : option N;
  timers : list (positive * Timer.HAPPlatformTimer);
  state : HAPPlatformRunLoopState
}.

(** [runLoop.fileHandles], the address of the sentinel. *)
Definition fileHandles : N := 0%N.

Definition no_events : HAPPlatformFileHandleEvent := mk_event false false false.

(** The static initialiser of [runLoop]. *)
Definition runLoop_init : runLoop_t :=
  {| handles := {[ fileHandles :=
                     mk_handle (-1) no_events None 0
                       (Some fileHandles) (Some fileHandles) false ]};
     fileHandleCursor := Some fileHandles;
     timers := [];
     state := kHAPPlatformRunLoopState_Idle |}.

Definition set_handles (h : gmap N HAPPlatformFileHandle) (s : runLoop_t) : runLoop_t :=
  {| handles := h; fileHandleCursor := fileHandleCursor s;
     timers := timers s; state := state s |}.

Definition set_cursor (c : option N) (s : runLoop_t) : runLoop_t :=
  {| handles := handles s; fileHandleCursor := c;
     timers := timers s; state := state s |}.

Definition set_timers (t : list (positive * Timer.HAPPlatformTimer)) (s : runLoop_t)
    : runLoop_t :=
  {| handles := handles s; fileHandleCursor := fileHandleCursor s;
     timers := t; state := state s |}.

Definition set_state (st : HAPPlatformRunLoopState) (s : runLoop_t) : runLoop_t :=
  {| handles := handles s; fileHandleCursor := fileHandleCursor s;
     timers := timers s; state := st |}.

(** Field assignments through a pointer. *)
Definition set_next (n : option N) (fh : HAPPlatformFileHandle) : HAPPlatformFileHandle :=
  mk_handle (fileDescriptor fh) (interests fh) (callback fh) (context fh)
    (prevFileHandle fh) n (isAwaitingEvents fh).

Definition set_prev (p : option N) (fh : HAPPlatformFileHandle) : HAPPlatformFileHandle :=
  mk_handle (fileDescriptor fh) (interests fh) (callback fh) (context fh)
    p (nextFileHandle fh) (isAwaitingEvents fh).

Definition set_awaiting (b : bool) (fh : HAPPlatformFileHandle) : HAPPlatformFileHandle :=
  mk_handle (fileDescriptor fh) (interests fh) (callback fh) (context fh)
    (prevFileHandle fh) (nextFileHandle fh) b.

Definition set_interests (i : HAPPlatformFileHandleEvent) (cb : option Z) (ctx : Z)
    (fh : HAPPlatformFileHandle) : HAPPlatformFileHandle :=
  mk_handle (fileDescriptor fh) i cb ctx
    (prevFileHandle fh) (nextFileHandle fh) (isAwaitingEvents fh).

(** [p->field = v]: a store through a pointer that holds no struct has
    no defined behaviour, the run stops there. *)
Definition store (p : N) (f : HAPPlatformFileHandle -> HAPPlatformFileHandle)
    (h : gmap N HAPPlatformFileHandle) : option (gmap N HAPPlatformFileHandle) :=
  match h !! p with
  | Some fh => Some (<[p := f fh]> h)
  | None => None
  end.

(** What a callback may call back into. *)
Inductive call :=
| CallFileHandleRegister (fd : Z) (i : HAPPlatformFileHandleEvent)
    (cb : option Z) (ctx : Z)
| CallFileHandleUpdateInterests (h : positive) (i : HAPPlatformFileHandleEvent)
    (cb : option Z) (ctx : Z)
| CallFileHandleDeregister (h : positive)
| CallTimerRegister (deadline : N) (cb : Z) (ctx : Z)
| CallTimerDeregister (t : positive)
| CallRunLoopStop.

(** What is observed of a run. *)
Inductive event :=
| EvVisit (h : N) (fh : HAPPlatformFileHandle)
| EvInvoke (h : N) (cb : Z) (ev : HAPPlatformFileHandleEvent) (ctx : Z)
| EvRegistered (h : positive)
| EvRegisterFailed
| EvUpdated (h : positive)
| EvDeregistered (h : positive)
| EvTimerRegistered (t : positive)
| EvTimerRegisterFailed
| EvTimerDeregistered (t : positive)
| EvFired (t : positive) (tm : Timer.HAPPlatformTimer)
| EvStop.

(** How a run of callbacks ended: normally, by the process being
    terminated (a failed precondition, assertion or [HAPFatalError],
    or a pointer used after release), or by the model's step budget. *)
Inductive status := Completed | Aborted | OutOfFuel.

(** The loop of [HAPPlatformTimerRegister] that walks [nextTimer]
    pointers; the comparison is against the [deadline] argument. *)
Fixpoint insert_timer (deadline : N) (new : positive * Timer.HAPPlatformTimer)
    (l : list (positive * Timer.HAPPlatformTimer))
    : list (positive * Timer.HAPPlatformTimer) :=
  match l with
  | [] => [new]
  | x :: l' =>
      if (deadline <? Timer.deadline (snd x))%N
      then new :: x :: l'
      else x :: insert_timer deadline new l'
  end.

(** The loop of [HAPPlatformTimerDeregister]; [None] when not found. *)
Fixpoint remove_timer (t : positive) (l : list (positive * Timer.HAPPlatformTimer))
    : option (list (positive * Timer.HAPPlatformTimer)) :=
  match l with
  | [] => None
  | x :: l' =>
      if decide (fst x = t) then Some l'
      else match remove_timer t l' with
           | Some r => Some (x :: r)
           | None => None
           end
  end.

(** The events of a file descriptor that are both of interest and
    signalled by [select]. *)
Definition selected (fh : HAPPlatformFileHandle) (rd wr er : gset Z)
    : HAPPlatformFileHandleEvent :=
  {| isReadyForReading :=
       isReadyForReading (interests fh) && bool_decide (fileDescriptor fh ∈ rd);
     isReadyForWriting :=
       isReadyForWriting (interests fh) && bool_decide (fileDescriptor fh ∈ wr);
     hasErrorConditionPending :=
       hasErrorConditionPending (interests fh) && bool_decide (fileDescriptor fh ∈ er) |}.

Definition any_event (ev : HAPPlatformFileHandleEvent) : bool :=
  isReadyForReading ev || isReadyForWriting ev || hasErrorConditionPending ev.

Section Loop.

(** [calloc] for a file handle and for a timer: the address of the
    new struct, or [None] when memory is exhausted. *)
Variable calloc_handle : runLoop_t -> option positive.
Variable calloc_timer : runLoop_t -> option positive.

(** What the code behind a callback pointer does when it is invoked:
    the calls it makes back into the run loop, in order. A file
    handle callback is given the handle, the events and the context,
    a timer callback the timer and the context. *)
Variable handle_callback :
  Z -> N -> HAPPlatformFileHandleEvent -> Z -> runLoop_t -> list call.
Variable timer_callback : Z -> positive -> Z -> runLoop_t -> list call.

Definition HAPPlatformFileHandleRegister (s : runLoop_t) (fileDescriptor : Z)
    (interests : HAPPlatformFileHandleEvent) (callback : option Z) (context : Z)
    : option (runLoop_t * HAPError * option positive) :=
  match calloc_handle s with
  | None => Some (s, kHAPError_OutOfResources, None)
  | Some a =>
      let fileHandle := Npos a in
      sentinel ← handles s !! fileHandles;
      let h1 := <[fileHandle :=
                    mk_handle fileDescriptor interests callback context
                      (prevFileHandle sentinel) (Some fileHandles) false]>
                  (handles s) in
      sentinel1 ← h1 !! fileHandles;
      tail ← prevFileHandle sentinel1;
      h2 ← store tail (set_next (Some fileHandle)) h1;
      h3 ← store fileHandles (set_prev (Some fileHandle)) h2;
      Some (set_handles h3 s, kHAPError_None, Some a)
  end.

Definition HAPPlatformFileHandleUpdateInterests (s : runLoop_t) (fileHandle_ : positive)
    (interests : HAPPlatformFileHandleEvent) (callback : option Z) (context : Z)
    : option runLoop_t :=
  h ← store (Npos fileHandle_) (set_interests interests callback context) (handles s);
  Some (set_handles h s).

Definition HAPPlatformFileHandleDeregister (s : runLoop_t) (fileHandle_ : positive)
    : option runLoop_t :=
  let fileHandle := Npos fileHandle_ in
  fh ← handles s !! fileHandle;
  _ ← prevFileHandle fh;
  _ ← nextFileHandle fh;
  let cursor :=
    if decide (Some fileHandle = fileHandleCursor s)
    then nextFileHandle fh else fileHandleCursor s in
  prev ← prevFileHandle fh;
  h1 ← store prev (set_next (nextFileHandle fh)) (handles s);
  fh1 ← h1 !! fileHandle;
  next ← nextFileHandle fh1;
  h2 ← store next (set_prev (prevFileHandle fh1)) h1;
  Some (set_cursor cursor (set_handles (delete fileHandle h2) s)).

Definition HAPPlatformTimerRegister (s : runLoop_t) (deadline : N) (callback : Z)
    (context : Z) : runLoop_t * HAPError * option positive :=
  match calloc_timer s with
  | None => (s, kHAPError_OutOfResources, None)
  | Some t =>
      let newTimer :=
        (t, Timer.mk_timer (if (deadline =? 0)%N then 1%N else deadline)
              callback context) in
      (set_timers (insert_timer deadline newTimer (timers s)) s,
       kHAPError_None, Some t)
  end.

Definition HAPPlatformTimerDeregister (s : runLoop_t) (timer_ : positive)
    : option runLoop_t :=
  l ← remove_timer timer_ (timers s);
  Some (set_timers l s).

Definition HAPPlatformRunLoopStop (s : runLoop_t) : runLoop_t :=
  match state s with
  | kHAPPlatformRunLoopState_Running => set_state kHAPPlatformRunLoopState_Stopping s
  | _ => s
  end.

(** One call made by a callback, with what it leaves in the trace. *)
Definition do_call (c : call) (s : runLoop_t) : option (runLoop_t * list event) :=
  match c with
  | CallFileHandleRegister fd i cb ctx =>
      r ← HAPPlatformFileHandleRegister s fd i cb ctx;
      match r with
      | (s', _, Some h) => Some (s', [EvRegistered h])
      | (s', _, None) => Some (s', [EvRegisterFailed])
      end
  | CallFileHandleUpdateInterests h i cb ctx =>
      s' ← HAPPlatformFileHandleUpdateInterests s h i cb ctx;
      Some (s', [EvUpdated h])
  | CallFileHandleDeregister h =>
      s' ← HAPPlatformFileHandleDeregister s h;
      Some (s', [EvDeregistered h])
  | CallTimerRegister d cb ctx =>
      match HAPPlatformTimerRegister s d cb ctx with
      | (s', _, Some t) => Some (s', [EvTimerRegistered t])
      | (s', _, None) => Some (s', [EvTimerRegisterFailed])
      end
  | CallTimerDeregister t =>
      s' ← HAPPlatformTimerDeregister s t;
      Some (s', [EvTimerDeregistered t])
  | CallRunLoopStop => Some (HAPPlatformRunLoopStop s, [EvStop])
  end.

Fixpoint run_calls (cs : list call) (s : runLoop_t) (tr : list event)
    : status * runLoop_t * list event :=
  match cs with
  | [] => (Completed, s, tr)
  | c :: cs' =>
      match do_call c s with
      | None => (Aborted, s, tr)
      | Some (s', evs) => run_calls cs' s' (tr ++ evs)
      end
  end.

(** The [while] loop of [ProcessSelectedFileHandles]. *)
Fixpoint ProcessSelectedFileHandles_loop (fuel : nat) (rd wr er : gset Z)
    (s : runLoop_t) (tr : list event) : status * runLoop_t * list event :=
  match fuel with
  | O => (OutOfFuel, s, tr)
  | S fuel' =>
      match fileHandleCursor s with
      | None => (Aborted, s, tr)
      | Some fileHandle =>
          if decide (fileHandle = fileHandles) then (Completed, s, tr)
          else
            match handles s !! fileHandle with
            | None => (Aborted, s, tr)
            | Some fh =>
                let s1 := set_cursor (nextFileHandle fh) s in
                if isAwaitingEvents fh then
                  if decide (fileDescriptor fh = -1) then (Aborted, s1, tr)
                  else
                    let s2 :=
                      set_handles (<[fileHandle := set_awaiting false fh]> (handles s1)) s1 in
                    let tr2 := tr ++ [EvVisit fileHandle fh] in
                    match callback fh with
                    | Some cb =>
                        let fileHandleEvents := selected fh rd wr er in
                        if any_event fileHandleEvents then
                          match run_calls
                                  (handle_callback cb fileHandle fileHandleEvents
                                     (context fh) s2)
                                  s2
                                  (tr2 ++ [EvInvoke fileHandle cb fileHandleEvents
                                             (context fh)]) with
                          | (Completed, s3, tr3) =>
                              ProcessSelectedFileHandles_loop fuel' rd wr er s3 tr3
                          | r => r
                          end
                        else ProcessSelectedFileHandles_loop fuel' rd wr er s2 tr2
                    | None => ProcessSelectedFileHandles_loop fuel' rd wr er s2 tr2
                    end
                else ProcessSelectedFileHandles_loop fuel' rd wr er s1 tr
            end
      end
  end.

Definition ProcessSelectedFileHandles (fuel : nat) (rd wr er : gset Z)
    (s : runLoop_t) : status * runLoop_t * list event :=
  match handles s !! fileHandles with
  | None => (Aborted, s, [])
  | Some sentinel =>
      ProcessSelectedFileHandles_loop fuel rd wr er
        (set_cursor (nextFileHandle sentinel) s) []
  end.

(** The [while] loop of [ProcessExpiredTimers], [now] being the
    clock value read before it. *)
Fixpoint ProcessExpiredTimers_loop (fuel : nat) (now : N)
    (s : runLoop_t) (tr : list event) : status * runLoop_t * list event :=
  match fuel with
  | O => (OutOfFuel, s, tr)
  | S fuel' =>
      match timers s with
      | [] => (Completed, s, tr)
      | (t, expiredTimer) :: nextTimer =>
          if (now <? Timer.deadline expiredTimer)%N then (Completed, s, tr)
          else
            let s1 := set_timers nextTimer s in
            match run_calls
                    (timer_callback (Timer.callback expiredTimer) t
                       (Timer.context expiredTimer) s1)
                    s1 (tr ++ [EvFired t expiredTimer]) with
            | (Completed, s2, tr2) => ProcessExpiredTimers_loop fuel' now s2 tr2
            | r => r
            end
      end
  end.

Definition ProcessExpiredTimers (fuel : nat) (now : N) (s : runLoop_t)
    : status * runLoop_t * list event :=
  ProcessExpiredTimers_loop fuel now s [].

(** A sequence of registrations made one after the other. *)
Fixpoint register_timers (regs : list (N * Z * Z)) (s : runLoop_t) : runLoop_t :=
  match regs with
  | [] => s
  | (d, cb, ctx) :: regs' =>
      register_timers regs' (fst (fst (HAPPlatformTimerRegister s d cb ctx)))
  end.

End Loop.

End RunLoop.

(** ** The loopback channel *)

Module Loopback.
Import RunLoop.

Abbreviation byte := Byte.byte.

Definition UINT8_MAX : nat := 255.

(** [(uint8_t) n]. *)
Definition uint8 (n : nat) : byte :=
  default Byte.x00 (Byte.of_nat (n mod 256)).

(** The loopback members of [runLoop]: the byte array and the number
    of bytes held in it. *)
Record loopback_t := mk_loopback {
  loopbackBytes : list byte;
  numLoopbackBytes : nat
}.

(** Modelled from the spec: [HAPRawBufferCopyBytes] is defined in the
    accessory protocol's base library, which is not among the
    sources; the receiver "compacts the buffer" with it. This is
    [HAPRawBufferCopyBytes(&a[dst], &a[src], n)] inside one array: the
    [n] bytes from offset [src] are moved to offset [dst], the ranges
    may overlap. *)
Definition HAPRawBufferCopyBytes (dst src n : nat) (a : list byte) : list byte :=
  take dst a ++ take n (drop src a) ++ drop (dst + n) a.

(** What [recv] on the receiving descriptor came back with, after the
    retries on [EINTR]: some bytes (none when it returned 0), [EAGAIN],
    or another error. *)
Inductive recv_result :=
| recv_bytes (data : list byte)
| recv_EAGAIN
| recv_error.

(** A callback invocation: the callback pointer (its bytes), the
    context argument (NULL when the size is 0) and the size. *)
Definition dispatch : Type := list byte * option (list byte) * nat.

Section Channel.

(** [sizeof (HAPPlatformRunLoopCallback)] and [PIPE_BUF]. *)
Variable sizeof_callback : nat.
Variable PIPE_BUF : nat.

(** [sizeof runLoop.loopbackBytes]. *)
Definition capacity : nat := sizeof_callback + 1 + UINT8_MAX.

(** The [for (;;)] loop of [HandleLoopbackFileHandleCallback]. [char]
    is unsigned on the targets of this port, the size byte reads as
    0..255. *)
Fixpoint dispatch_loop (fuel : nat) (lb : loopback_t) (log : list dispatch)
    : status * loopback_t * list dispatch :=
  match fuel with
  | O => (OutOfFuel, lb, log)
  | S fuel' =>
      let num := numLoopbackBytes lb in
      if (num <? sizeof_callback + 1)%nat then (Completed, lb, log)
      else
        let contextSize :=
          Byte.to_nat (nth sizeof_callback (loopbackBytes lb) Byte.x00) in
        if (num <? sizeof_callback + 1 + contextSize)%nat then (Completed, lb, log)
        else
          let callback := take sizeof_callback (loopbackBytes lb) in
          let bytes1 :=
            HAPRawBufferCopyBytes 0 (sizeof_callback + 1)
              (num - (sizeof_callback + 1)) (loopbackBytes lb) in
          let num1 := (num - (sizeof_callback + 1))%nat in
          let context :=
            if (contextSize =? 0)%nat then None else Some (take contextSize bytes1) in
          let bytes2 :=
            HAPRawBufferCopyBytes 0 contextSize (num1 - contextSize) bytes1 in
          dispatch_loop fuel' (mk_loopback bytes2 (num1 - contextSize))
            (log ++ [(callback, context, contextSize)])
  end.

Definition HandleLoopbackFileHandleCallback (r : recv_result) (lb : loopback_t)
    (log : list dispatch) : status * loopback_t * list dispatch :=
  let num := numLoopbackBytes lb in
  if negb (num <? capacity)%nat then (Aborted, lb, log)
  else
    match r with
    | recv_EAGAIN => (Completed, lb, log)
    | recv_error => (Aborted, lb, log)
    | recv_bytes data =>
        let n := length data in
        if (n =? 0)%nat then (Aborted, lb, log)
        else if (capacity - num <? n)%nat then (Aborted, lb, log)
        else
          let bytes :=
            take num (loopbackBytes lb) ++ data
              ++ drop (num + n) (loopbackBytes lb) in
          dispatch_loop (S (num + n)) (mk_loopback bytes (num + n)) log
    end.

(** [HAPPlatformRunLoopScheduleCallback]: the result, and the bytes
    given to [send] when it gets that far. [sent] tells whether
    [send] succeeded. [None] is a failed precondition. *)
Definition HAPPlatformRunLoopScheduleCallback (callback : list byte)
    (context : option (list byte)) (contextSize : nat) (sent : bool)
    : option (HAPError * option (list byte)) :=
  if negb (contextSize =? 0)%nat && negb (bool_decide (is_Some context)) then None
  else if (UINT8_MAX <? contextSize)%nat then Some (kHAPError_OutOfResources, None)
  else if (PIPE_BUF <? contextSize + 1 + sizeof_callback)%nat
  then Some (kHAPError_OutOfResources, None)
  else
    let bytes :=
      callback ++ [uint8 contextSize]
        ++ match context with
           | Some c => take contextSize c
           | None => []
           end in
    Some (if sent then kHAPError_None else kHAPError_Unknown, Some bytes).

(** [recv(fd, buf, want, 0)] on a connection holding [pending] unread
    bytes: at least one byte and at most [want], as many as the
    transport hands over at once ([S k] at most). *)
Definition recv (pending : list byte) (want : nat) (k : nat)
    : recv_result * list byte :=
  match pending with
  | [] => (recv_EAGAIN, [])
  | _ =>
      let n := Nat.min (S k) (Nat.min want (length pending)) in
      (recv_bytes (take n pending), drop n pending)
  end.

(** The receiver callback run once per element of [ks], each time on
    what [recv] hands over. *)
Fixpoint receive (ks : list nat) (pending : list byte) (lb : loopback_t)
    (log : list dispatch) : status * loopback_t * list dispatch * list byte :=
  match ks with
  | [] => (Completed, lb, log, pending)
  | k :: ks' =>
      let '(r, pending') := recv pending (capacity - numLoopbackBytes lb) k in
      match HandleLoopbackFileHandleCallback r lb log with
      | (Completed, lb', log') => receive ks' pending' lb' log'
      | (st, lb', log') => (st, lb', log', pending')
      end
  end.

(** A frame as it is written: callback pointer and context. *)
Record frame := mk_frame { f_callback : list byte; f_context : list byte }.

Definition frame_ok (f : frame) : Prop :=
  length (f_callback f) = sizeof_callback /\ (length (f_context f) <= UINT8_MAX)%nat.

Definition encode (f : frame) : list byte :=
  f_callback f ++ [uint8 (length (f_context f))] ++ f_context f.

Definition dispatch_of (f : frame) : dispatch :=
  (f_callback f,
   if (length (f_context f) =? 0)%nat then None else Some (f_context f),
   length (f_context f)).

(** The bytes of a frame that is not all there yet. *)
Definition incomplete (bs : list byte) : Prop :=
  (length bs < sizeof_callback + 1)%nat \/
  (length bs < sizeof_callback + 1 + Byte.to_nat (nth sizeof_callback bs Byte.x00))%nat.

End Channel.

End Loopback.

Module LDNS_inputs.

(** A platform on which a DNS request always starts, and one on which
    it never does. *)
Definition dns_starts (hostname : string) (af : Z) : bool := true.
Definition dns_refuses (hostname : string) (af : Z) : bool := false.

End LDNS_inputs.

(** ** Inputs and predicates used by the properties *)

Module LMQ_inputs.
Import LMQ.

(** [size_t] on the ESP32 has 32 bits. *)
Definition ILP32 : Z := 32.

(** [luaL_len] on the table of a message made of integers: none of
    them is nil, the only border is the number of them. *)
Definition no_nil : Z -> bool := fun _ => false.
Definition count : list Z -> nat := length.

(** A resumed coroutine that leaves the queue alone. *)
Definition inert : nat -> list Z -> lmq Z nat -> lmq Z nat := fun _ _ q => q.

(** A queue of capacity 2 on which coroutines 1 and 2 wait in [recv],
    1 being the older. *)
Definition two_waiters : lmq Z nat := mk_lmq (mk_obj 1 1 2) ∅ (Some [1; 2]%nat).

(** The capacity-1 queue right after [create]. *)
Definition fresh1 : lmq Z nat := mk_lmq (mk_obj 1 1 1) ∅ None.

(** The same queue after one [send] and one [recv]: empty again, no
    receiver waiting, the ring indices at 2. *)
Definition drained1 : lmq Z nat := mk_lmq (mk_obj 2 2 1) ∅ None.

End LMQ_inputs.

Module RunLoop_inputs.
Import RunLoop.

(** An allocator for timers that never reuses an address while only
    registrations are made: one past the number of pending timers. *)
Definition next_timer (s : runLoop_t) : option positive :=
  Some (Pos.of_succ_nat (length (timers s))).

(** An allocator for file handles: an address that holds no struct. *)
Definition next_handle (s : runLoop_t) : option positive :=
  match fresh (dom (handles s)) with
  | Npos p => Some p
  | N0 => None
  end.

(** A timer callback that calls nothing back. *)
Definition quiet_timer_callback (cb : Z) (t : positive) (ctx : Z) (s : runLoop_t)
    : list call := [].

(** The order of the timer list: by stored deadline. *)
Definition deadline_le (a b : positive * Timer.HAPPlatformTimer) : Prop :=
  (Timer.deadline (snd a) <= Timer.deadline (snd b))%N.

(** Stored deadlines are never zero. *)
Definition deadline_pos (a : positive * Timer.HAPPlatformTimer) : Prop :=
  (1 <= Timer.deadline (snd a))%N.

Definition expired (now : N) (a : positive * Timer.HAPPlatformTimer) : bool :=
  (Timer.deadline (snd a) <=? now)%N.

(** The timers a pass fires when callbacks are quiet: the leading
    ones that are due. *)
Fixpoint due (now : N) (l : list (positive * Timer.HAPPlatformTimer))
    : list (positive * Timer.HAPPlatformTimer) :=
  match l with
  | [] => []
  | x :: l' => if expired now x then x :: due now l' else []
  end.

End RunLoop_inputs.

Module Loopback_inputs.
Import RunLoop Loopback.

(** The bytes the array holds: the first [numLoopbackBytes]. *)
Definition held (lb : loopback_t) : list byte :=
  take (numLoopbackBytes lb) (loopbackBytes lb).

(** Frames written one after the other. *)
Definition encode_all (fs : list frame) : list byte :=
  concat (map encode fs).

(** Two frames as a 32-bit target writes them, the second without
    context, followed by the first byte of a third. *)
Definition two_frames : list frame :=
  [ mk_frame [Byte.x01; Byte.x02; Byte.x03; Byte.x04] [Byte.xaa; Byte.xbb];
    mk_frame [Byte.x05; Byte.x06; Byte.x07; Byte.x08] [] ].

Definition one_more_byte : list byte := [Byte.x09].

(** The receiver's array before anything has been read. *)
Definition empty_array : list byte := repeat Byte.x00 260.

End Loopback_inputs.

(** ** The list of file handles as a linked structure *)

Module FileHandle_inv.
Import RunLoop.

Abbreviation heap := (gmap N HAPPlatformFileHandle).

(** The link fields read through a pointer. *)
Definition nxt (h : heap) (p : N) : option N := fh ← h !! p; nextFileHandle fh.
Definition prv (h : heap) (p : N) : option N := fh ← h !! p; prevFileHandle fh.

(** What a struct holds besides its links. *)
Definition payload (fh : HAPPlatformFileHandle)
    : Z * HAPPlatformFileHandleEvent * option Z * Z * bool :=
  (fileDescriptor fh, interests fh, callback fh, context fh, isAwaitingEvents fh).

Definition payload_at (h : heap) (p : N)
    : option (Z * HAPPlatformFileHandleEvent * option Z * Z * bool) :=
  payload <$> h !! p.

(** [chain h a l z]: from [a] the next pointers run through [l] to
    [z], and the previous pointers run back. *)
Fixpoint chain (h : heap) (a : N) (l : list N) (z : N) : Prop :=
  match l with
  | [] => nxt h a = Some z /\ prv h z = Some a
  | p :: l' => nxt h a = Some p /\ prv h p = Some a /\ chain h p l' z
  end.

(** [handle_list s l]: the memory holds the sentinel and exactly the
    structs at the addresses [l], linked into a circular doubly-linked
    list in that order. *)
Definition handle_list (s : runLoop_t) (l : list N) : Prop :=
  NoDup (fileHandles :: l)
  /\ chain (handles s) fileHandles l fileHandles
  /\ (forall p, is_Some (handles s !! p) <-> p ∈ fileHandles :: l).

Definition awaiting (s : runLoop_t) (p : N) : bool :=
  match handles s !! p with
  | Some fh => isAwaitingEvents fh
  | None => false
  end.

(** The cursor stands at the first of the handles [rem] that the pass
    has not reached ([pre] are those behind it), or at the sentinel. *)
Definition at_cursor (s : runLoop_t) (pre rem : list N) : Prop :=
  handle_list s (pre ++ rem)
  /\ fileHandleCursor s = Some (hd fileHandles rem).

(** The number of handles of [l] that await events. *)
Definition count_awaiting (s : runLoop_t) (l : list N) : nat :=
  length (filter (fun p => awaiting s p = true) l).

(** *** A monitor for the trace of one pass

    The monitor reads the events of a pass in order. It keeps the
    handles that awaited events when the pass began and have neither
    been visited nor been deregistered since ([todo]), the invocation
    that the visit just seen calls for ([owed]), and the handles
    whose interests a callback has updated ([touched]). It rejects a
    visit of a handle that is not in [todo], a visit of an untouched
    handle whose struct is not as it was when the pass began, an
    invocation other than the owed one, anything else while an
    invocation is owed, and the registration of an address in
    [todo]. *)

#[global] Instance HAPPlatformFileHandleEvent_eq_dec : EqDecision HAPPlatformFileHandleEvent.
Proof. solve_decision. Defined.

#[global] Instance HAPPlatformFileHandle_eq_dec : EqDecision HAPPlatformFileHandle.
Proof. solve_decision. Defined.

#[global] Instance HAPPlatformTimer_eq_dec : EqDecision Timer.HAPPlatformTimer.
Proof. solve_decision. Defined.

#[global] Instance event_eq_dec : EqDecision event.
Proof. solve_decision. Defined.

(** An invocation: handle, callback, events, context. *)
Definition invocation_t : Type := N * Z * HAPPlatformFileHandleEvent * Z.

Definition invoke_event (x : invocation_t) : event :=
  match x with (h, cb, ev, ctx) => EvInvoke h cb ev ctx end.

Record monitor := mk_monitor {
  todo : list N;
  owed : option invocation_t;
  touched : list N
}.

(** The invocation that a visit of [h], found with struct [fh], makes. *)
Definition invocation (rd wr er : gset Z) (h : N) (fh : HAPPlatformFileHandle)
    : option invocation_t :=
  match callback fh with
  | Some cb =>
      if any_event (selected fh rd wr er)
      then Some (h, cb, selected fh rd wr er, context fh)
      else None
  | None => None
  end.

Definition monitor_step (rd wr er : gset Z)
    (p0 : N -> option (Z * HAPPlatformFileHandleEvent * option Z * Z * bool))
    (m : monitor) (e : event) : option monitor :=
  match owed m with
  | Some x =>
      if decide (e = invoke_event x)
      then Some (mk_monitor (todo m) None (touched m)) else None
  | None =>
      match e with
      | EvVisit h fh =>
          if decide (h ∈ todo m /\ (h ∈ touched m \/ p0 h = Some (payload fh)))
          then Some (mk_monitor (filter (fun x => x <> h) (todo m))
                       (invocation rd wr er h fh) (touched m))
          else None
      | EvInvoke _ _ _ _ => None
      | EvDeregistered a =>
          Some (mk_monitor (filter (fun x => x <> Npos a) (todo m)) None (touched m))
      | EvRegistered a =>
          if decide (Npos a ∈ todo m) then None else Some m
      | EvUpdated a => Some (mk_monitor (todo m) None (Npos a :: touched m))
      | _ => Some m
      end
  end.

Fixpoint monitor_run (rd wr er : gset Z)
    (p0 : N -> option (Z * HAPPlatformFileHandleEvent * option Z * Z * bool))
    (m : monitor) (tr : list event) : option monitor :=
  match tr with
  | [] => Some m
  | e :: tr' =>
      match monitor_step rd wr er p0 m e with
      | Some m' => monitor_run rd wr er p0 m' tr'
      | None => None
      end
  end.

(** The monitor agrees with the state of a pass: the cursor is where
    [rem] begins, no invocation is owed, [todo] are the handles of
    [rem] that await events, and those of them that no callback has
    updated hold what they held when the pass began. *)
Definition pass_inv
    (p0 : N -> option (Z * HAPPlatformFileHandleEvent * option Z * Z * bool))
    (s : runLoop_t) (pre rem : list N) (m : monitor) : Prop :=
  at_cursor s pre rem
  /\ owed m = None
  /\ (forall p, p ∈ todo m <-> p ∈ rem /\ awaiting s p = true)
  /\ (forall p, p ∈ todo m -> p ∉ touched m -> payload_at (handles s) p = p0 p).

(** The monitor when a pass begins on the list [l]. *)
Definition pass_monitor (s : runLoop_t) (l : list N) : monitor :=
  mk_monitor (filter (fun p => awaiting s p = true) l) None [].

(** *** How a pass ends

    A pass that does not complete has ended the process. *)

(** Every handle that awaits events has a descriptor, as the loop
    that prepares [select] leaves them. *)
Definition heap_ok (h : heap) : Prop :=
  forall p fh, h !! p = Some fh -> isAwaitingEvents fh = true -> fileDescriptor fh <> -1.

Definition has_descriptors (s : runLoop_t) : Prop := heap_ok (handles s).

(** The assertion on the descriptor fails: a handle that awaits
    events has none. *)
Definition no_descriptor (s : runLoop_t) : Prop :=
  exists h fh,
    handles s !! h = Some fh /\ isAwaitingEvents fh = true /\ fileDescriptor fh = -1.

(** A call that ends the process in state [s]: on a file handle that
    is not registered, or to deregister a timer that is not pending. *)
Definition fatal (c : call) (s : runLoop_t) : Prop :=
  match c with
  | CallFileHandleUpdateInterests a _ _ _ | CallFileHandleDeregister a =>
      handles s !! Npos a = None
  | CallTimerDeregister t => t ∉ map fst (timers s)
  | _ => False
  end.

(** What ended a pass that left the trace [tr] and the state [s']:
    the assertion on the descriptor, or a fatal call of a callback
    that the pass invoked. *)
Definition pass_stopped_by
    (handle_callback : Z -> N -> HAPPlatformFileHandleEvent -> Z -> runLoop_t -> list call)
    (s' : runLoop_t) (tr : list event) : Prop :=
  no_descriptor s'
  \/ exists h cb ev ctx s2 c,
       EvInvoke h cb ev ctx ∈ tr
       /\ c ∈ handle_callback cb h ev ctx s2
       /\ fatal c s'.

(** A pass that ends the process was stopped in one of these ways;
    a pass that completes has brought the cursor back to the
    sentinel and leaves a well-formed list. *)
Definition pass_end
    (handle_callback : Z -> N -> HAPPlatformFileHandleEvent -> Z -> runLoop_t -> list call)
    (st : status) (s' : runLoop_t) (tr : list event) : Prop :=
  (st = Aborted -> pass_stopped_by handle_callback s' tr)
  /\ (st = Completed ->
      fileHandleCursor s' = Some fileHandles /\ exists l', handle_list s' l').

(** *** A registry with three handles awaiting events

    Handles 1, 2 and 3 on descriptors 4, 5 and 6, each interested in
    reading, with callbacks 100, 200 and 300. *)
Definition reading : HAPPlatformFileHandleEvent := mk_event true false false.

Definition three_handles : runLoop_t :=
  {| handles :=
       {[ 0%N := mk_handle (-1) no_events None 0 (Some 3%N) (Some 1%N) false;
          1%N := mk_handle 4 reading (Some 100) 0 (Some 0%N) (Some 2%N) true;
          2%N := mk_handle 5 reading (Some 200) 0 (Some 1%N) (Some 3%N) true;
          3%N := mk_handle 6 reading (Some 300) 0 (Some 2%N) (Some 0%N) true ]};
     fileHandleCursor := Some fileHandles;
     timers := [];
     state := kHAPPlatformRunLoopState_Running |}.

(** Callback 100 deregisters handle 2 and registers descriptor 7;
    the other callbacks call nothing back. *)
Definition busy_callback (cb : Z) (h : N) (ev : HAPPlatformFileHandleEvent)
    (ctx : Z) (s : runLoop_t) : list call :=
  if cb =? 100
  then [CallFileHandleDeregister 2; CallFileHandleRegister 7 reading (Some 400) 0]
  else [].

(** [select] reports every descriptor readable. *)
Definition all_readable : gset Z := {[ 4; 5; 6; 7 ]}.

End FileHandle_inv.

Module LSocket_inputs.
Import Lua LSocket.

Definition error_text (err : Z) : string := "socket error".

(** A platform on which every request is still in progress. *)
Definition busy_platform (c : pal_call) : pal_reply := mk_reply 1 0 "" 0 0 false.

(** A platform that completes every request at once; a send of three
    bytes is reported as three bytes written. *)
Definition ready_platform (c : pal_call) : pal_reply := mk_reply 0 0 "" 0 3 true.

(** A socket object at address 100 holding platform socket 7, and one
    that has been destroyed. *)
Definition live_socket : lsocket_obj := mk_lsocket 100 (Some 7).
Definition dead_socket : lsocket_obj := mk_lsocket 100 None.

Definition connect_args : list value := [LString "10.0.0.2"; LInteger 80].

End LSocket_inputs.

(** ** The message queue as a ring *)

Module LMQ_ring.
Import LMQ.

(** The slot [i] places behind slot [f] in a ring of [c + 1] slots
    numbered from 1. *)
Definition slot_after (c f i : Z) : Z := (f - 1 + i) mod (c + 1) + 1.

Section Ring.

Variable SIZE_WIDTH : Z.
Context {value thread : Type}.
Variable luaL_len : list value -> nat.

(** [buffered q ms]: the ring indices are in range, and the slots
    from [first] on hold the messages [ms], oldest first, up to
    [last]. *)
Definition buffered (q : lmq value thread) (ms : list (list value)) : Prop :=
  1 <= size (obj q)
  /\ size (obj q) + 2 < 2 ^ SIZE_WIDTH
  /\ 1 <= first (obj q) <= size (obj q) + 1
  /\ Z.of_nat (length ms) <= size (obj q)
  /\ last (obj q) = slot_after (size (obj q)) (first (obj q)) (Z.of_nat (length ms))
  /\ forall (i : nat) m, ms !! i = Some m ->
       slots q !! slot_after (size (obj q)) (first (obj q)) (Z.of_nat i) = Some m.

(** Coroutines calling [recv] one after the other; [None] when one
    of the calls did not suspend. *)
Fixpoint recv_each (cs : list thread) (q : lmq value thread)
    : option (lmq value thread) :=
  match cs with
  | [] => Some q
  | co :: cs' =>
      match lmq_obj_recv SIZE_WIDTH value thread luaL_len q co with
      | Yielded (q', _) => recv_each cs' q'
      | _ => None
      end
  end.

End Ring.

(** A queue of capacity 3 whose ring has wrapped: [first] is the last
    slot, and two messages are buffered, in slots 4 and 1. *)
Definition wrapped_queue : lmq Z nat :=
  mk_lmq (mk_obj 4 2 3) {[ 4 := [10]; 1 := [20; 21] ]} None.

(** A new queue of capacity 2. *)
Definition fresh2 : lmq Z nat := mk_lmq (mk_obj 1 1 2) ∅ None.

(** Values that are an integer or nil, and a length operator that
    gives the first border of a table: the number of values in front
    of the first nil. *)
Definition is_none (v : option Z) : bool :=
  match v with
  | None => true
  | Some _ => false
  end.

Fixpoint first_border (m : list (option Z)) : nat :=
  match m with
  | Some _ :: m' => S (first_border m')
  | _ => 0%nat
  end.

(** A queue of capacity 3 that holds the message [(1, nil)] and
    behind it the message [(2, 3)]. *)
Definition queue_with_nil : lmq (option Z) nat :=
  mk_lmq (mk_obj 1 3 3) {[ 1 := [Some 1; None]; 2 := [Some 2; Some 3] ]} None.

End LMQ_ring.

(** ** Sequences of calls on one socket object *)

Module LSocket_session.
Import Lua LSocket.

(** The platform socket a call is made on. *)
Definition target (c : pal_call) : Z :=
  match c with
  | pal_socket_set_timeout o _ | pal_socket_enable_broadcast o
  | pal_socket_bind o _ _ | pal_socket_listen o _ | pal_socket_accept o
  | pal_socket_connect o _ _ | pal_socket_send o _ _ | pal_socket_sendto o _ _ _
  | pal_socket_recv o _ | pal_socket_readable o | pal_socket_destroy o => o
  end.

#[global] Instance pal_call_eq_dec : EqDecision pal_call.
Proof. solve_decision. Defined.

Section Session.

Variable PAL_SOCKET_ERR_OK : Z.
Variable PAL_SOCKET_ERR_IN_PROGRESS : Z.
Variable pal_socket_get_error_str : Z -> string.
Variable pal : pal_call -> pal_reply.
Variable lua_newuserdata : Z -> Z.

(** What ["%p"] prints for an address. *)
Variable pointer_text : Z -> string.

(** The [__tostring] metamethod. *)
Definition lsocket_obj_tostring (obj : lsocket_obj) (args : list value) : effect :=
  match socket obj with
  | Some o =>
      mk_effect (Return [LString ("socket (" ++ pointer_text o ++ ")")]) obj []
  | None => mk_effect (Return [LString "socket (destroyed)"]) obj []
  end.

(** [lsocket_obj_metameth], without the place holder for [__index]. *)
Definition lsocket_obj_metameth
    : list (string * (lsocket_obj -> list value -> effect)) :=
  [ ("__gc", lsocket_obj_gc);
    ("__close", lsocket_obj_gc);
    ("__tostring", lsocket_obj_tostring) ].

(** Everything that can be called on a socket object, by name. *)
Definition callable : list (string * (lsocket_obj -> list value -> effect)) :=
  lsocket_obj_meth PAL_SOCKET_ERR_OK PAL_SOCKET_ERR_IN_PROGRESS
    pal_socket_get_error_str pal lua_newuserdata
  ++ lsocket_obj_metameth.

Definition invoke (name : string) (obj : lsocket_obj) (args : list value)
    : option effect :=
  match find (fun m => String.eqb (fst m) name) callable with
  | Some m => Some (snd m obj args)
  | None => None
  end.

(** Calls made one after the other on the same object, each by name
    and with its arguments: the object in the end and the calls made
    to the platform, in order. A name that is not callable is an
    error in the script and does not reach the binding. *)
Fixpoint session (ops : list (string * list value)) (obj : lsocket_obj)
    : lsocket_obj * list pal_call :=
  match ops with
  | [] => (obj, [])
  | (name, args) :: ops' =>
      match invoke name obj args with
      | Some e =>
          let '(obj', cs) := session ops' (after e) in (obj', calls e ++ cs)
      | None => session ops' obj
      end
  end.

End Session.

(** A platform on which every request fails with code 5. *)
Definition failing_platform (c : pal_call) : pal_reply := mk_reply 5 0 "" 0 0 false.

(** A platform that accepts peer 10.0.0.9:4000 as platform socket 9 at
    once. *)
Definition accepting_platform (c : pal_call) : pal_reply :=
  mk_reply 0 9 "10.0.0.9" 4000 0 true.

Definition pointer_text (p : Z) : string := "0x7".

End LSocket_session.

(** ** The timer list across calls and passes *)

Module Timer_pass.
Import RunLoop RunLoop_inputs.

(** The registry keeps its timers ordered by stored deadline, and no
    stored deadline is zero. *)
Definition timers_ok (s : runLoop_t) : Prop :=
  StronglySorted deadline_le (timers s) /\ Forall deadline_pos (timers s).

(** The references of the pending timers. *)
Definition pending (s : runLoop_t) : list positive := map fst (timers s).

(** The number of pending timers that are due at [now]. *)
Definition count_due (now : N) (s : runLoop_t) : nat :=
  length (filter (fun x => expired now x = true) (timers s)).

(** A call that registers no timer due at [now]. *)
Definition registers_after (now : N) (c : call) : Prop :=
  match c with
  | CallTimerRegister d _ _ => (now < d)%N
  | _ => True
  end.

(** A timer callback that registers one timer to fire as soon as
    possible, as a periodic job of period zero does. *)
Definition rearming_callback (cb : Z) (t : positive) (ctx : Z) (s : runLoop_t)
    : list call := [CallTimerRegister 0 cb ctx].

(** A timer callback that registers a timer one second after the
    deadline 5, and cancels timer 2 when it runs for callback 10. *)
Definition careful_callback (cb : Z) (t : positive) (ctx : Z) (s : runLoop_t)
    : list call :=
  if cb =? 10 then [CallTimerRegister 1005 cb ctx; CallTimerDeregister 2]
  else [CallTimerRegister 1005 cb ctx].

(** A timer callback that cancels the timer it is called for. *)
Definition self_cancelling_callback (cb : Z) (t : positive) (ctx : Z) (s : runLoop_t)
    : list call := [CallTimerDeregister t].

(** An allocator for timers: a reference above those of the pending
    timers. *)
Definition fresh_timer (s : runLoop_t) : option positive :=
  Some (Pos.succ (foldr Pos.max 1%positive (map fst (timers s)))).

(** Three pending timers with deadlines 3, 3 and 9. *)
Definition three_timers : runLoop_t :=
  set_timers
    [ (1%positive, Timer.mk_timer 3 10 0);
      (2%positive, Timer.mk_timer 3 20 0);
      (3%positive, Timer.mk_timer 9 30 0) ]
    runLoop_init.

End Timer_pass.

(** ** [HAPPlatformRunLoopRun] *)

Module RunLoopRun.
Import RunLoop.

(** The three descriptor sets built for [select], and the largest
    descriptor put into them. *)
Record fd_sets := mk_fd_sets {
  readFileDescriptors : gset Z;
  writeFileDescriptors : gset Z;
  errorFileDescriptors : gset Z;
  maxFileDescriptor : Z
}.

(** [FD_ZERO] on the three sets, and [maxFileDescriptor = -1]. *)
Definition no_descriptors : fd_sets := mk_fd_sets ∅ ∅ ∅ (-1).

Inductive which_set := for_reading | for_writing | for_error.

(** [FD_SET(fd, set)] followed by
    [if (fd > maxFileDescriptor) maxFileDescriptor = fd]. *)
Definition FD_SET (w : which_set) (fd : Z) (sets : fd_sets) : fd_sets :=
  let m := if maxFileDescriptor sets <? fd then fd else maxFileDescriptor sets in
  match w with
  | for_reading =>
      mk_fd_sets ({[fd]} ∪ readFileDescriptors sets) (writeFileDescriptors sets)
        (errorFileDescriptors sets) m
  | for_writing =>
      mk_fd_sets (readFileDescriptors sets) ({[fd]} ∪ writeFileDescriptors sets)
        (errorFileDescriptors sets) m
  | for_error =>
      mk_fd_sets (readFileDescriptors sets) (writeFileDescriptors sets)
        ({[fd]} ∪ errorFileDescriptors sets) m
  end.

Record timeval := mk_timeval { tv_sec : Z; tv_usec : Z }.

(** What [select] does in one iteration: it returns with the sets of
    ready descriptors (all empty after a timeout), it is interrupted
    ([EINTR]), or it fails. *)
Inductive select_result :=
| select_returns (rd wr er : gset Z)
| select_EINTR
| select_fails.

(** What the world does in one iteration: the clock read for the
    timeout, what [select] does, the clock read for the timers. *)
Record tick := mk_tick {
  clock_at_timeout : N;
  select_does : select_result;
  clock_at_timers : N
}.

(** What is observed of a run: each call of [select] with its
    arguments, and the events of the passes. *)
Inductive run_event :=
| RunSelect (nfds : Z) (sets : fd_sets) (timeout : option timeval)
| RunPass (e : event).

(** A handle that [select] is to watch: it has a descriptor and an
    interest. *)
Definition watched (fh : HAPPlatformFileHandle) : bool :=
  negb (fileDescriptor fh =? -1) && any_event (interests fh).

Definition descriptors (w : which_set) (sets : fd_sets) : gset Z :=
  match w with
  | for_reading => readFileDescriptors sets
  | for_writing => writeFileDescriptors sets
  | for_error => errorFileDescriptors sets
  end.

Definition interested_in (w : which_set) (i : HAPPlatformFileHandleEvent) : bool :=
  match w with
  | for_reading => isReadyForReading i
  | for_writing => isReadyForWriting i
  | for_error => hasErrorConditionPending i
  end.

Section Run.

(** [FD_SETSIZE], and the number of bits of [time_t]. *)
Variable FD_SETSIZE : Z.
Variable TIME_T_BITS : Z.

(** One of the three blocks [if (fileHandle->interests.x) { ... }]:
    the two assertions, [FD_SET], the maximum, the flag. *)
Definition watch (interested : bool) (w : which_set)
    (x : HAPPlatformFileHandle * fd_sets)
    : option (HAPPlatformFileHandle * fd_sets) :=
  if interested then
    let fd := fileDescriptor (fst x) in
    if (0 <=? fd) && (fd <? FD_SETSIZE)
    then Some (set_awaiting true (fst x), FD_SET w fd (snd x))
    else None
  else Some x.

(** The body of the loop over the file handles for one handle;
    [None] is a failed assertion. *)
Definition mark (fh : HAPPlatformFileHandle) (sets : fd_sets)
    : option (HAPPlatformFileHandle * fd_sets) :=
  let x0 := (set_awaiting false fh, sets) in
  if decide (fileDescriptor fh = -1) then Some x0
  else
    x1 ← watch (isReadyForReading (interests fh)) for_reading x0;
    x2 ← watch (isReadyForWriting (interests fh)) for_writing x1;
    watch (hasErrorConditionPending (interests fh)) for_error x2.

(** The loop over the file handles that prepares [select]. *)
Fixpoint prepare_select (fuel : nat) (fileHandle : option N) (s : runLoop_t)
    (sets : fd_sets) : status * runLoop_t * fd_sets :=
  match fuel with
  | O => (OutOfFuel, s, sets)
  | S fuel' =>
      match fileHandle with
      | None => (Aborted, s, sets)
      | Some p =>
          if decide (p = fileHandles) then (Completed, s, sets)
          else
            match handles s !! p with
            | None => (Aborted, s, sets)
            | Some fh =>
                match mark fh sets with
                | None => (Aborted, s, sets)
                | Some (fh', sets') =>
                    prepare_select fuel' (nextFileHandle fh')
                      (set_handles (<[p := fh']> (handles s)) s) sets'
                end
            end
      end
  end.

(** [(time_t) z]: a signed integer of [TIME_T_BITS] bits. *)
Definition to_time_t (z : Z) : Z :=
  (z + 2 ^ (TIME_T_BITS - 1)) mod 2 ^ TIME_T_BITS - 2 ^ (TIME_T_BITS - 1).

(** The timeout given to [select]: [None] is the null pointer,
    [select] then waits without limit. [clock] is what
    [HAPPlatformClockGetCurrent] returns; it is read only when a
    deadline is pending. *)
Definition select_timeout (s : runLoop_t) (clock : N) : option timeval :=
  let nextDeadline :=
    match timers s with
    | (_, tm) :: _ => Timer.deadline tm
    | [] => 0%N
    end in
  if (nextDeadline =? 0)%N then None
  else
    let delta :=
      if (clock <? nextDeadline)%N then (nextDeadline - clock)%N else 0%N in
    Some (mk_timeval (to_time_t (Z.of_N (delta / 1000)))
            (Z.of_N ((delta mod 1000) * 1000))).

Variable calloc_handle : runLoop_t -> option positive.
Variable calloc_timer : runLoop_t -> option positive.
Variable handle_callback :
  Z -> N -> HAPPlatformFileHandleEvent -> Z -> runLoop_t -> list call.
Variable timer_callback : Z -> positive -> Z -> runLoop_t -> list call.

(** The body of the [do ... while] loop. [fuel] bounds each of the
    loops inside. An interrupted [select] goes on to the test of
    the loop at once. *)
Definition iteration (fuel : nat) (k : tick) (s : runLoop_t)
    : status * runLoop_t * list run_event :=
  match handles s !! fileHandles with
  | None => (Aborted, s, [])
  | Some sentinel =>
      match prepare_select fuel (nextFileHandle sentinel) s no_descriptors with
      | (Completed, s1, sets) =>
          let timeout := select_timeout s1 (clock_at_timeout k) in
          if (maxFileDescriptor sets <? -1) || (FD_SETSIZE <=? maxFileDescriptor sets)
          then (Aborted, s1, [])
          else
            let sel := RunSelect (maxFileDescriptor sets + 1) sets timeout in
            match select_does k with
            | select_EINTR => (Completed, s1, [sel])
            | select_fails => (Aborted, s1, [sel])
            | select_returns rd wr er =>
                match ProcessExpiredTimers calloc_handle calloc_timer timer_callback
                        fuel (clock_at_timers k) s1 with
                | (Completed, s2, tr2) =>
                    match ProcessSelectedFileHandles calloc_handle calloc_timer
                            handle_callback fuel rd wr er s2 with
                    | (st, s3, tr3) => (st, s3, sel :: map RunPass (tr2 ++ tr3))
                    end
                | (st, s2, tr2) => (st, s2, sel :: map RunPass tr2)
                end
            end
      | (st, s1, _) => (st, s1, [])
      end
  end.

(** The [do ... while (runLoop.state == Running)] loop, one
    iteration for each tick of the world. *)
Fixpoint run_loop (fuel : nat) (ticks : list tick) (s : runLoop_t)
    (tr : list run_event) : status * runLoop_t * list run_event :=
  match ticks with
  | [] => (OutOfFuel, s, tr)
  | k :: ticks' =>
      match iteration fuel k s with
      | (Completed, s', evs) =>
          match state s' with
          | kHAPPlatformRunLoopState_Running => run_loop fuel ticks' s' (tr ++ evs)
          | _ => (Completed, s', tr ++ evs)
          end
      | (st, s', evs) => (st, s', tr ++ evs)
      end
  end.

Definition HAPPlatformRunLoopRun (fuel : nat) (ticks : list tick) (s : runLoop_t)
    : status * runLoop_t * list run_event :=
  match state s with
  | kHAPPlatformRunLoopState_Idle =>
      match run_loop fuel ticks (set_state kHAPPlatformRunLoopState_Running s) [] with
      | (Completed, s', tr) =>
          match state s' with
          | kHAPPlatformRunLoopState_Stopping =>
              (Completed, set_state kHAPPlatformRunLoopState_Idle s', tr)
          | _ => (Aborted, s', tr)
          end
      | r => r
      end
  | _ => (Aborted, s, [])
  end.

End Run.

(** A change of the loop's state between two points of a run is a
    stop request, seen in the events between them. *)
Definition stop_only (s s' : runLoop_t) (evs : list event) : Prop :=
  state s' = state s
  \/ (state s' = kHAPPlatformRunLoopState_Stopping /\ EvStop ∈ evs).

(** The file handle callback 300 stops the loop, the others call
    nothing back. *)
Definition stopping_callback (cb : Z) (h : N) (ev : HAPPlatformFileHandleEvent)
    (ctx : Z) (s : runLoop_t) : list call :=
  if cb =? 300 then [CallRunLoopStop] else [].

(** Three handles on descriptors 4, 5 and 6 and no timer, the loop
    being idle; the first handle is not interested in anything. *)
Definition idle_loop : runLoop_t :=
  {| handles :=
       {[ 0%N := mk_handle (-1) no_events None 0 (Some 3%N) (Some 1%N) false;
          1%N := mk_handle 4 no_events (Some 100) 0 (Some 0%N) (Some 2%N) true;
          2%N := mk_handle 5 (mk_event true true false) (Some 200) 0
                   (Some 1%N) (Some 3%N) false;
          3%N := mk_handle 6 (mk_event true false false) (Some 300) 0
                   (Some 2%N) (Some 0%N) false ]};
     fileHandleCursor := Some fileHandles;
     timers := [];
     state := kHAPPlatformRunLoopState_Idle |}.

(** Two ticks: first descriptor 5 is ready for reading, then 6. *)
Definition two_ticks : list tick :=
  [ mk_tick 0 (select_returns {[5]} ∅ ∅) 0;
    mk_tick 0 (select_returns {[6]} ∅ ∅) 0 ].

End RunLoopRun.

(** ** The searcher of embedded modules ([app.c]) *)

Module App.
Import Lua Stdlib.Strings.Ascii.

Definition NUL : ascii := Ascii.zero.

(** A [char] array that is written before it is read: [None] is a
    byte that has not been written yet. *)
Abbreviation buffer := (list (option ascii)).

(** [buf[i] = c]; [None] is a write outside the array. *)
Definition store (i : nat) (c : ascii) (buf : buffer) : option buffer :=
  if (i <? length buf)%nat then Some (<[i := Some c]> buf) else None.

(** The C string that starts at the beginning of [buf]: the bytes
    before the first NUL. [None] is a read of a byte that was never
    written, or past the end of the array. *)
Fixpoint c_string (buf : buffer) : option (list ascii) :=
  match buf with
  | [] => None
  | None :: _ => None
  | Some c :: buf' =>
      if Ascii.eqb c NUL then Some [] else cons c <$> c_string buf'
  end.

(** [HAPRawBufferCopyBytes(&buf[i], src, n)], of the accessory
    protocol's base library: the first [n] bytes of [src] are copied
    to [buf] from offset [i] on. [None] is a copy that leaves one of
    the two arrays. *)
Definition HAPRawBufferCopyBytes (i : nat) (src : list ascii) (n : nat)
    (buf : buffer) : option buffer :=
  if (i + n <=? length buf)%nat && (n <=? length src)%nat
  then Some (take i buf ++ (Some <$> take n src) ++ drop (i + n) buf)
  else None.

(** The array [".luac"]; its [sizeof] counts the NUL that ends it. *)
Definition dot_luac : list ascii :=
  ["."; "l"; "u"; "a"; "c"; NUL]%char.

(** The [for] loop of [gen_filename]: [name] is the memory from the
    pointer [name] on, [i] the offset of the pointer [buf] in the
    array it points into. [None] when the loop leaves one of the
    arrays. *)
Fixpoint gen_filename_loop (name : list ascii) (i : nat) (buf : buffer)
    : option (nat * buffer) :=
  match name with
  | [] => None
  | c :: name' =>
      if Ascii.eqb c NUL then Some (i, buf)
      else
        buf' ← store i (if Ascii.eqb c "."%char then "/"%char else c) buf;
        gen_filename_loop name' (S i) buf'
  end.

Definition gen_filename (name : list ascii) (buf : buffer) : option buffer :=
  '(i, buf') ← gen_filename_loop name 0 buf;
  HAPRawBufferCopyBytes i dot_luac (length dot_luac) buf'.

Inductive outcome :=
| Return (vals : list value)
| Error (msg : string).

Section Searcher.

(** [embedfs_find_file(&BRIDGE_EMBEDFS_ROOT, filename)]: the data of
    the file of that path, if there is one. *)
Variable embedfs_find_file : string -> option string.

(** What [luaL_loadbufferx(L, data, len, NULL, "const")] pushes: the
    loaded chunk, or an error message. *)
Variable luaL_loadbufferx : string -> value.

(** [searcher_embedfs] called, as [require] does, with the name of
    a module. A Lua string of length [len] is [len] bytes followed
    by a NUL; the array [filename] has [len + sizeof(".luac")]
    bytes, none written yet. [None] is an access outside an array
    or a read of a byte never written. *)
Definition searcher_embedfs (name : string) : option outcome :=
  let len := String.length name in
  let filename0 : buffer := replicate (len + length dot_luac) None in
  filename1 ← gen_filename (list_ascii_of_string name ++ [NUL]) filename0;
  filename ← c_string filename1;
  Some (Return
    [ match embedfs_find_file (string_of_list_ascii filename) with
      | Some data => luaL_loadbufferx data
      | None =>
          LString ("no file '" ++ string_of_list_ascii filename
                     ++ "' in bridge embedfs")
      end ]).

End Searcher.

(** The bytes of a Lua string that C code reading it as a C string
    sees: those before its first NUL. *)
Fixpoint before_nul (s : list ascii) : list ascii :=
  match s with
  | [] => []
  | c :: s' => if Ascii.eqb c NUL then [] else c :: before_nul s'
  end.

Definition dot_to_slash (c : ascii) : ascii :=
  if Ascii.eqb c "."%char then "/"%char else c.

(** The path of the compiled module [name]. *)
Definition luac_path (name : string) : string :=
  string_of_list_ascii (dot_to_slash <$> before_nul (list_ascii_of_string name))
    ++ ".luac".

(** An embedded file system with one file. *)
Definition one_file (path : string) : option string :=
  if String.eqb path "miio/protocol.luac" then Some "chunk" else None.

Definition loaded (data : string) : value := LString ("loaded " ++ data).

End App.

(** ** The miIO message format ([plugins/miio/protocol.lua]) *)

Module Miio.

(** A Lua string: a sequence of bytes. *)
Abbreviation bytes := (list Byte.byte).

(** The outcome of a Lua function: its value, or the error raised. *)
Inductive result (A : Type) :=
| Ok (a : A)
| Raise (msg : string).
Arguments Ok {A} a.
Arguments Raise {A} msg.

#[global] Instance result_ret : MRet result := fun A a => Ok a.
#[global] Instance result_bind : MBind result := fun A B f r =>
  match r with
  | Ok a => f a
  | Raise msg => Raise msg
  end.
#[global] Instance result_fmap : FMap result := fun A B f r =>
  match r with
  | Ok a => Ok (f a)
  | Raise msg => Raise msg
  end.

#[global] Instance byte_eq : EqDecision Byte.byte := Byte.byte_eq_dec.

Definition byte_of (z : Z) : Byte.byte :=
  default Byte.x00 (Byte.of_N (Z.to_N (z mod 256))).

(** An unsigned integer in [size] bytes, the most significant first,
    as [string.pack] writes it after [>]. *)
Fixpoint packint (size : nat) (n : Z) : bytes :=
  match size with
  | O => []
  | S k => byte_of (n / 256 ^ Z.of_nat k) :: packint k n
  end.

(** The unsigned integer that bytes stand for, the most significant
    first, as [string.unpack] reads it after [>]. *)
Fixpoint unpackint (bs : bytes) (acc : Z) : Z :=
  match bs with
  | [] => acc
  | b :: bs' => unpackint bs' (acc * 256 + Z.of_N (Byte.to_N b))
  end.

(** One item [>I size] of [string.pack], [size] being below the size
    of a Lua integer: Lua checks
    [(lua_Unsigned) n < (lua_Unsigned) 1 << (size * 8)], which a
    negative [n] fails. *)
Definition pack_uint (size : nat) (n : Z) : result bytes :=
  if (0 <=? n) && (n <? 2 ^ (8 * Z.of_nat size))
  then Ok (packint size n)
  else Raise "unsigned overflow".

(** [string.pack] with a format made of items [>I size], on the
    integers given for them. *)
Fixpoint string_pack (items : list (nat * Z)) : result bytes :=
  match items with
  | [] => Ok []
  | (size, n) :: items' =>
      b ← pack_uint size n;
      bs ← string_pack items';
      Ok (b ++ bs)
  end.

(** The first result of [string.unpack(">I size", s, pos)]. Lua
    raises an error when [s] has fewer than [size] bytes from
    position [pos] on. *)
Definition unpack_uint (size : nat) (s : bytes) (pos : nat) : result Z :=
  if (pos - 1 + size <=? length s)%nat
  then Ok (unpackint (take size (drop (pos - 1) s)) 0)
  else Raise "data string too short".

(** The first result of [string.unpack("c" .. size, s, pos)]. *)
Definition unpack_c (size : nat) (s : bytes) (pos : nat) : result bytes :=
  if (pos - 1 + size <=? length s)%nat
  then Ok (take size (drop (pos - 1) s))
  else Raise "data string too short".

(** [MiioMessage]; [data] is [None] for [nil]. *)
Record MiioMessage := mk_message {
  unknown : Z;
  did : Z;
  stamp : Z;
  data : option bytes
}.

Definition ffffffff : Z := 0xffffffff.

Section Format.

(** [md5(data)]: the digest that the hash library gives. *)
Variable md5 : bytes -> bytes.

(** [pack(unknown, did, stamp, token, data)]; [None] is [nil]. The
    length of a string is far from the largest Lua integer, the
    sum [len + #data] does not wrap. *)
Definition pack (unknown did stamp : Z) (token data : option bytes)
    : result bytes :=
  let len :=
    match data with
    | Some d => 32 + Z.of_nat (length d)
    | None => 32
    end in
  header ←
    string_pack
      [(2%nat, 0x2131); (2%nat, len); (4%nat, unknown); (4%nat, did); (4%nat, stamp)];
  checksum ←
    match token with
    | Some t => Ok (md5 (header ++ t ++ default [] data))
    | None =>
        string_pack
          [(4%nat, ffffffff); (4%nat, ffffffff); (4%nat, ffffffff); (4%nat, ffffffff)]
    end;
  if negb (length checksum =? 16)%nat then Raise "assertion failed!"
  else Ok (header ++ checksum ++ default [] data).

(** [unpack(package, token)]. *)
Definition unpack (package : bytes) (token : option bytes) : result MiioMessage :=
  magic ← unpack_uint 2 package 1;
  if negb (magic =? 0x2131) then Raise "Invalid magic number."
  else
    len ← unpack_uint 2 package 3;
    if (len <? 32) || negb (len =? Z.of_nat (length package))
    then Raise "Invalid package length."
    else
      data ←
        (if 32 <? len
         then Some <$> unpack_c (Z.to_nat (len - 32)) package 33
         else Ok None);
      _ ←
        match token with
        | Some t =>
            h ← unpack_c 16 package 1;
            let checksum := md5 (h ++ t ++ default [] data) in
            if negb (length checksum =? 16)%nat then Raise "assertion failed!"
            else
              c ← unpack_c 16 package 17;
              if bool_decide (checksum = c) then Ok ()
              else Raise "Got checksum error which indicates use of an invalid token."
        | None => Ok ()
        end;
      unknown ← unpack_uint 4 package 5;
      did ← unpack_uint 4 package 9;
      stamp ← unpack_uint 4 package 13;
      Ok (mk_message unknown did stamp data).

End Format.

(** What [unpack] gives for the data that [pack] was given: an empty
    string comes back as [nil]. *)
Definition unpacked_data (data : option bytes) : option bytes :=
  match data with
  | Some (b :: d) => Some (b :: d)
  | _ => None
  end.

(** A function of 16 bytes in the place of the digest: the sum of
    the bytes of its argument, modulo 256, 16 times. *)
Definition sample_digest (s : bytes) : bytes :=
  replicate 16 (byte_of (foldr (fun b acc => Z.of_N (Byte.to_N b) + acc) 0 s)).

Definition sample_token : bytes := replicate 16 Byte.x2a.

(** A message for device 7 with one byte of data, as [pack] writes
    it with [sample_digest] and [sample_token]. *)
Definition sample_package : bytes :=
  let header :=
    packint 2 0x2131 ++ packint 2 33 ++ packint 4 0 ++ packint 4 7 ++ packint 4 9 in
  header ++ sample_digest (header ++ sample_token ++ [Byte.x01]) ++ [Byte.x01].

End Miio.

(** * Properties *)


(** ** Message queue *)

Module LMQ_facts.
Import LMQ LMQ_inputs.

Section Generic.

Variable SIZE_WIDTH : Z.
Context {value thread : Type}.
Variable luaL_len : list value -> nat.
Variable resume : thread -> list value -> lmq value thread -> lmq value thread.

Local Abbreviation wrap := (wrap SIZE_WIDTH).
Local Abbreviation lmq_size := (lmq_size SIZE_WIDTH).
Local Abbreviation lmq_create := (lmq_create SIZE_WIDTH).
Local Abbreviation lmq_obj_send := (lmq_obj_send SIZE_WIDTH).
Local Abbreviation lmq_obj_recv := (lmq_obj_recv SIZE_WIDTH).
Local Abbreviation send_many := (send_many SIZE_WIDTH).

Lemma resume_waiters_spec (pre rest : list thread) args q log :
  resume_waiters value thread resume (pre ++ rest) (S (length pre)) (length rest) args q log
  = (foldl (fun s co => resume co args s) q rest,
     log ++ map (fun co => (co, args)) rest).
Proof.
  revert pre q log.
  induction rest as [|co rest IH]; intros pre q log; simpl.
  - by rewrite app_nil_r.
  - rewrite Nat.sub_0_r.
    rewrite lookup_app_r by lia.
    rewrite Nat.sub_diag. simpl.
    specialize (IH (pre ++ [co]) (resume co args q) (log ++ [(co, args)])).
    rewrite <- app_assoc in IH. simpl in IH.
    rewrite length_app in IH. simpl in IH.
    rewrite Nat.add_1_r in IH.
    rewrite IH. by rewrite <- app_assoc.
Qed.

(** C3, as the code has it. A send on a queue with waiting
    continuations detaches the whole waiter list and resumes every
    waiter, oldest first, each with the sent values. The send itself
    buffers nothing: the queue the first waiter sees has the same
    ring indices and slots, and no waiter list. When the resumed
    coroutines leave the queue alone, that is also the state the send
    returns: nobody is left waiting. *)
Theorem send_resumes_every_waiter (q : lmq value thread) (args : list value)
    (ws : list thread) :
  wait q = Some ws ->
  exists q',
    lmq_obj_send value thread resume q args
      = Returned (q', map (fun co => (co, args)) ws)
    /\ q' = foldl (fun s co => resume co args s) (set_wait value thread None q) ws
    /\ obj (set_wait value thread None q) = obj q
    /\ slots (set_wait value thread None q) = slots q
    /\ ((forall co a s, resume co a s = s) ->
        obj q' = obj q /\ slots q' = slots q /\ wait q' = None).
Proof.
  intros Hw. eexists. unfold lmq_obj_send. rewrite Hw.
  pose proof (resume_waiters_spec [] ws args (set_wait value thread None q) []) as H.
  simpl in H. rewrite H.
  split; [reflexivity|]. split; [reflexivity|].
  split; [reflexivity|]. split; [reflexivity|].
  intros Hinert.
  assert (forall l s, foldl (fun s co => resume co args s) s l = s) as Hid.
  { induction l as [|x l IH]; intros s; simpl; [done|]. by rewrite Hinert, IH. }
  rewrite Hid. done.
Qed.

(** *** Runs of sends on a queue without waiters *)

Lemma wrap_small z : 0 <= z < 2 ^ SIZE_WIDTH -> wrap z = z.
Proof. intros H. unfold wrap. by apply Z.mod_small. Qed.

Lemma send_many_app n1 n2 (q : lmq value thread) args :
  send_many value thread resume (n1 + n2) q args
  = (fst (send_many value thread resume n1 q args)
       ++ fst (send_many value thread resume n2
                 (snd (send_many value thread resume n1 q args)) args),
     snd (send_many value thread resume n2
            (snd (send_many value thread resume n1 q args)) args)).
Proof.
  revert q. induction n1 as [|n1 IH]; intros q; simpl.
  - by destruct (send_many _ _ _ n2 q args).
  - rewrite IH.
    destruct (send_many _ _ _ n1 _ args) as [r1 q1]. simpl.
    by destruct (send_many _ _ _ n2 q1 args).
Qed.

(** A send that finds no waiter and room in the buffer. *)
Lemma send_buffers (q : lmq value thread) args f l c :
  wait q = None -> obj q = mk_obj f l c ->
  lmq_size (mk_obj f l c) <> c ->
  lmq_obj_send value thread resume q args
  = Returned (mk_lmq
                (mk_obj f (if wrap (l + 1) >? wrap (c + 1) then 1 else wrap (l + 1)) c)
                (<[l := args]> (slots q)) None, []).
Proof.
  intros Hw Ho Hs. unfold lmq_obj_send. rewrite Hw, Ho. simpl.
  destruct (Z.eqb_spec (lmq_size (mk_obj f l c)) c); [done|]. done.
Qed.

(** A [recv] that finds a message. *)
Lemma recv_buffered (q : lmq value thread) co f l c vs :
  obj q = mk_obj f l c -> l <> f -> slots q !! f = Some vs ->
  lmq_obj_recv value thread luaL_len q co
  = Returned (mk_lmq
                (mk_obj (if wrap (f + 1) >? wrap (c + 1) then 1 else wrap (f + 1)) l c)
                (delete f (slots q)) (wait q), take (luaL_len vs) vs).
Proof.
  intros Ho Hne Hvs. unfold lmq_obj_recv. rewrite Ho. simpl.
  destruct (Z.eqb_spec l f); [done|]. rewrite Hvs. done.
Qed.

(** Sends that stay below the end of the ring: with [k] messages
    buffered from slot [f] on, [n] more are accepted as long as the
    capacity and the last slot are not exceeded. *)
Lemma sends_before_wrap (c : Z) args :
  c + 2 < 2 ^ SIZE_WIDTH ->
  forall n (q : lmq value thread) f k,
    wait q = None -> obj q = mk_obj f (f + k) c ->
    1 <= f -> 0 <= k ->
    f + k + Z.of_nat n <= c + 1 -> k + Z.of_nat n <= c ->
    (forall j, f <= j < f + k -> is_Some (slots q !! j)) ->
    exists q',
      send_many value thread resume n q args = (replicate n true, q')
      /\ wait q' = None
      /\ obj q' = mk_obj f (f + k + Z.of_nat n) c
      /\ (forall j, f <= j < f + k + Z.of_nat n -> is_Some (slots q' !! j)).
Proof.
  intros Hc. induction n as [|n IH]; intros q f k Hw Ho Hf Hk Hlast Hcap Hslots.
  - exists q. simpl. rewrite Z.add_0_r. done.
  - assert (lmq_size (mk_obj f (f + k) c) = k) as Hsize.
    { unfold lmq_size. simpl. destruct (Z.gtb_spec f (f + k)); [lia|].
      replace (f + k - f) with k by lia. apply wrap_small. lia. }
    rewrite Nat2Z.inj_succ in Hlast, Hcap.
    assert (lmq_obj_send value thread resume q args
            = Returned (mk_lmq (mk_obj f (f + (k + 1)) c)
                          (<[f + k := args]> (slots q)) None, [])) as Hsend.
    { rewrite (send_buffers q args f (f + k) c Hw Ho) by lia.
      rewrite !wrap_small by lia.
      destruct (Z.gtb_spec (f + k + 1) (c + 1)); [lia|].
      by rewrite Z.add_assoc. }
    destruct (IH (mk_lmq (mk_obj f (f + (k + 1)) c) (<[f + k := args]> (slots q)) None)
                f (k + 1)) as (q' & Hrun & Hw' & Ho' & Hs'); try done; try lia.
    { intros j Hj. simpl. destruct (decide (j = f + k)) as [->|Hne].
      - rewrite lookup_insert_eq. eauto.
      - rewrite lookup_insert_ne by done. apply Hslots. lia. }
    exists q'. simpl. rewrite Hsend. simpl. rewrite Hrun.
    split_and!; [done|done| |].
    + rewrite Ho'. f_equal. lia.
    + intros j Hj. apply Hs'. lia.
Qed.

(** On a queue that has not wrapped yet the capacity is enforced: a
    new queue of capacity [c] accepts [c] sends, refuses the next
    with the full error, and accepts one more after a [recv]. *)
Lemma new_queue_capacity (c : nat) fname args co :
  (1 <= c)%nat -> Z.of_nat c + 2 < 2 ^ SIZE_WIDTH ->
  exists q0 q1 q2 vs,
    lmq_create value thread fname (Z.of_nat c) = Returned q0
    /\ send_many value thread resume c q0 args = (replicate c true, q1)
    /\ is_full_error (lmq_obj_send value thread resume q1 args) = true
    /\ lmq_obj_recv value thread luaL_len q1 co = Returned (q2, vs)
    /\ succeeded (lmq_obj_send value thread resume q2 args) = true.
Proof.
  intros Hc1 Hc2. set (C := Z.of_nat c) in *.
  assert (1 <= C) as HC by (unfold C; lia).
  set (q0 := mk_lmq (mk_obj 1 1 C) ∅ None : lmq value thread).
  destruct (sends_before_wrap C args Hc2 c q0 1 0) as (q1 & Hrun & Hw & Ho & Hs);
    try done; try (unfold C; lia).
  fold C in Ho, Hs. replace (1 + 0 + C) with (C + 1) in Ho, Hs by lia.
  destruct (Hs 1) as [vs Hvs]; [lia|].
  exists q0, q1, (mk_lmq (mk_obj 2 (C + 1) C) (delete 1 (slots q1)) (wait q1)),
    (take (luaL_len vs) vs).
  split_and!.
  - unfold lmq_create. rewrite wrap_small by lia.
    destruct (Z.gtb_spec C 0); [done|lia].
  - done.
  - unfold lmq_obj_send. rewrite Hw, Ho. unfold lmq_size. simpl.
    destruct (Z.gtb_spec 1 (C + 1)); [lia|].
    replace (C + 1 - 1) with C by lia.
    rewrite wrap_small by lia. rewrite Z.eqb_refl. done.
  - rewrite (recv_buffered q1 co 1 (C + 1) C vs Ho) by (done || lia).
    rewrite !wrap_small by lia.
    destruct (Z.gtb_spec (1 + 1) (C + 1)); [lia|]. done.
  - rewrite (send_buffers _ args 2 (C + 1) C); [done|by simpl|done|].
    unfold lmq_size. simpl. destruct (Z.gtb_spec 2 (C + 1)); [lia|].
    rewrite wrap_small by lia. lia.
Qed.

(** Once the ring indices have moved on, it is not: whatever the
    capacity [c], a queue that is empty with its indices at 2 (as
    after one send and one recv) accepts [c + 1] sends in a row, and
    then has [first = last] again. *)
Lemma overrun_for_every_capacity (c : nat) (q : lmq value thread) args :
  (1 <= c)%nat -> Z.of_nat c + 2 < 2 ^ SIZE_WIDTH ->
  wait q = None -> obj q = mk_obj 2 2 (Z.of_nat c) ->
  exists q',
    send_many value thread resume (S c) q args = (replicate (S c) true, q')
    /\ obj q' = mk_obj 2 2 (Z.of_nat c).
Proof.
  intros Hc1 Hc2 Hw Ho. set (C := Z.of_nat c) in *.
  assert (1 <= C) as HC by (unfold C; lia).
  destruct c as [|c']; [lia|].
  destruct (sends_before_wrap C args Hc2 c' q 2 0) as (q1 & Hrun & Hw1 & Ho1 & _);
    try done; try (unfold C; lia).
  replace (2 + 0 + Z.of_nat c') with (C + 1) in Ho1 by (unfold C; lia).
  assert (lmq_obj_send value thread resume q1 args
          = Returned (mk_lmq (mk_obj 2 1 C) (<[C + 1 := args]> (slots q1)) None, []))
    as Hsend1.
  { rewrite (send_buffers q1 args 2 (C + 1) C Hw1 Ho1).
    - rewrite !wrap_small by (unfold C; lia).
      destruct (Z.gtb_spec (C + 1 + 1) (C + 1)); [done|lia].
    - unfold lmq_size. simpl. destruct (Z.gtb_spec 2 (C + 1)); [unfold C in *; lia|].
      rewrite wrap_small by (unfold C; lia). lia. }
  assert (lmq_size (mk_obj 2 1 C) = C - 1) as Hsize.
  { unfold lmq_size. simpl. unfold wrap.
    rewrite Z.add_mod_idemp_l by lia.
    replace (C - 2 + 1) with (C - 1) by lia.
    apply Z.mod_small. unfold C. lia. }
  assert (lmq_obj_send value thread resume
            (mk_lmq (mk_obj 2 1 C) (<[C + 1 := args]> (slots q1)) None) args
          = Returned (mk_lmq (mk_obj 2 2 C)
                        (<[1 := args]> (<[C + 1 := args]> (slots q1))) None, []))
    as Hsend2.
  { rewrite (send_buffers _ args 2 1 C); [|done|done|lia].
    rewrite !wrap_small by lia.
    destruct (Z.gtb_spec (1 + 1) (C + 1)); [lia|]. done. }
  exists (mk_lmq (mk_obj 2 2 C) (<[1 := args]> (<[C + 1 := args]> (slots q1))) None).
  split; [|reflexivity].
  replace (S (S c')) with (c' + 2)%nat by lia.
  rewrite send_many_app, Hrun. simpl. rewrite Hsend1. simpl. rewrite Hsend2. simpl.
  f_equal. rewrite replicate_add. done.
Qed.

End Generic.

Lemma send_resumes_every_waiter_witness :
  wait two_waiters = Some [1; 2]%nat /\
  exists q',
    lmq_obj_send ILP32 Z nat inert two_waiters [42]
      = Returned (q', map (fun co => (co, [42])) [1; 2]%nat)
    /\ q' = foldl (fun s co => inert co [42] s) (set_wait Z nat None two_waiters) [1; 2]%nat
    /\ obj (set_wait Z nat None two_waiters) = obj two_waiters
    /\ slots (set_wait Z nat None two_waiters) = slots two_waiters
    /\ ((forall co a s, inert co a s = s) ->
        obj q' = obj two_waiters /\ slots q' = slots two_waiters /\ wait q' = None).
Proof.
  split; [reflexivity|].
  apply (send_resumes_every_waiter ILP32 inert two_waiters [42] [1; 2]%nat).
  reflexivity.
Defined.

(** C3 as stated fails: with two waiters, a send resumes the second
    waiter too and leaves nobody waiting, where the statement has only
    waiter 1 resumed and waiter 2 still in the list. *)
Lemma send_two_waiters_resumes_both :
  lmq_obj_send ILP32 Z nat inert two_waiters [42]
    = Returned (mk_lmq (mk_obj 1 1 2) ∅ None, [(1%nat, [42]); (2%nat, [42])])
  /\ lmq_obj_send ILP32 Z nat inert two_waiters [42]
    <> Returned (mk_lmq (mk_obj 1 1 2) ∅ (Some [2%nat]), [(1%nat, [42])]).
Proof.
  split; [reflexivity|].
  intros H. vm_compute in H. discriminate H.
Qed.

(** The number of integers in a message is the border of its table. *)
Lemma count_is_border m : border no_nil m (count m).
Proof.
  unfold count. split_and!.
  - done.
  - destruct m as [|z m]; [by left|right].
    destruct (lookup_lt_is_Some_2 (z :: m) (length (z :: m) - 1)) as [v Hv];
      [simpl; lia|].
    by exists v.
  - intros v Hv. apply lookup_lt_Some in Hv. lia.
Qed.

Lemma pow_ge_4 W : 2 <= W -> 4 <= 2 ^ W.
Proof. intros H. change 4 with (2 ^ 2). apply Z.pow_le_mono_r; lia. Qed.

(** C4 on the code, whatever the width of [size_t]. A capacity-1
    queue that has carried one message is empty with nobody waiting;
    the first send succeeds, and so does the second, which the
    specification has failing with "queue full": [lmq_size] computes
    0 for [first = 2], [last = 1]. After it [first = last], the queue
    reads as empty and a [recv] suspends. *)
Theorem send_beyond_capacity_after_wrap (SIZE_WIDTH : Z) :
  2 <= SIZE_WIDTH ->
  lmq_create SIZE_WIDTH Z nat "create" 1 = Returned fresh1
  /\ lmq_obj_send SIZE_WIDTH Z nat inert fresh1 [7]
       = Returned (mk_lmq (mk_obj 1 2 1) {[1 := [7]]} None, [])
  /\ lmq_obj_recv SIZE_WIDTH Z nat count (mk_lmq (mk_obj 1 2 1) {[1 := [7]]} None) 5%nat
       = Returned (drained1, [7])
  /\ lmq_obj_send SIZE_WIDTH Z nat inert drained1 [8]
       = Returned (mk_lmq (mk_obj 2 1 1) {[2 := [8]]} None, [])
  /\ lmq_size SIZE_WIDTH (mk_obj 2 1 1) = 0
  /\ lmq_obj_send SIZE_WIDTH Z nat inert (mk_lmq (mk_obj 2 1 1) {[2 := [8]]} None) [9]
       = Returned (mk_lmq (mk_obj 2 2 1) (<[1 := [9]]> {[2 := [8]]}) None, [])
  /\ is_full_error
       (lmq_obj_send SIZE_WIDTH Z nat inert (mk_lmq (mk_obj 2 1 1) {[2 := [8]]} None) [9])
     = false
  /\ lmq_obj_recv SIZE_WIDTH Z nat count
       (mk_lmq (mk_obj 2 2 1) (<[1 := [9]]> {[2 := [8]]}) None) 5%nat
       = Yielded (mk_lmq (mk_obj 2 2 1) (<[1 := [9]]> {[2 := [8]]}) (Some [5%nat]), []).
Proof.
  intros HW. pose proof (pow_ge_4 SIZE_WIDTH HW) as H4.
  assert (forall z, 0 <= z < 4 -> wrap SIZE_WIDTH z = z) as Hsmall.
  { intros z Hz. apply wrap_small. lia. }
  assert (lmq_size SIZE_WIDTH (mk_obj 2 1 1) = 0) as Hsize.
  { unfold lmq_size, wrap. cbn [first last size]. change (2 >? 1) with true. cbv iota.
    rewrite Z.add_mod_idemp_l by lia. change (1 - 2 + 1) with 0.
    apply Z.mod_0_l. lia. }
  assert (lmq_obj_send SIZE_WIDTH Z nat inert (mk_lmq (mk_obj 2 1 1) {[2 := [8]]} None) [9]
          = Returned (mk_lmq (mk_obj 2 2 1) (<[1 := [9]]> {[2 := [8]]}) None, []))
    as Hsend.
  { unfold lmq_obj_send. cbn [wait obj slots first last size]. rewrite Hsize.
    change (0 =? 1) with false. cbv iota.
    rewrite !Hsmall by lia. reflexivity. }
  split_and!.
  - unfold lmq_create. rewrite Hsmall by lia. reflexivity.
  - unfold lmq_obj_send, fresh1, lmq_size. cbn [wait obj slots first last size].
    change (1 >? 1) with false. cbv iota. rewrite !Hsmall by lia. reflexivity.
  - unfold lmq_obj_recv, drained1. cbn [wait obj slots first last size].
    change (2 =? 1) with false. cbv iota. rewrite lookup_singleton_eq.
    rewrite !Hsmall by lia. rewrite delete_singleton_eq. reflexivity.
  - unfold lmq_obj_send, drained1, lmq_size. cbn [wait obj slots first last size].
    change (2 >? 2) with false. cbv iota. rewrite !Hsmall by lia. reflexivity.
  - exact Hsize.
  - exact Hsend.
  - rewrite Hsend. reflexivity.
  - reflexivity.
Qed.

Lemma send_beyond_capacity_after_wrap_witness :
  2 <= ILP32
  /\ lmq_size ILP32 (mk_obj 2 1 1) = 0
  /\ is_full_error
       (lmq_obj_send ILP32 Z nat inert (mk_lmq (mk_obj 2 1 1) {[2 := [8]]} None) [9])
     = false.
Proof.
  assert (2 <= ILP32) as H by (unfold ILP32; lia).
  split; [exact H|].
  destruct (send_beyond_capacity_after_wrap ILP32 H) as (_ & _ & _ & _ & H5 & _ & H7 & _).
  split; [exact H5|exact H7].
Defined.

End LMQ_facts.

(** ** Socket binding *)

Module LSocket_facts.
Import Lua LSocket LSocket_inputs.

Section Facts.

Variable OK IN_PROGRESS : Z.
Variable error_str : Z -> string.
Variable pal : pal_call -> pal_reply.
Variable newud : Z -> Z.

(** Distinct enumerators of one enumeration. *)
Hypothesis in_progress_not_ok : IN_PROGRESS <> OK.

Local Abbreviation complete := (complete OK IN_PROGRESS error_str newud).
Local Abbreviation deliver := (deliver OK IN_PROGRESS error_str newud).

Lemma top_index_app_1 st v : top_index (st ++ [v]) 1 = v.
Proof. unfold top_index. rewrite rev_app_distr. reflexivity. Qed.

Lemma top_index_app_2 st v w : top_index (st ++ [v; w]) 2 = v.
Proof. unfold top_index. rewrite rev_app_distr. reflexivity. Qed.

Lemma top_index_app_4 st a b c d : top_index (st ++ [a; b; c; d]) 1 = d.
Proof. unfold top_index. rewrite rev_app_distr. reflexivity. Qed.

Lemma results_app st vs : results (st ++ vs) (length vs) = vs.
Proof.
  unfold results. rewrite length_app.
  replace (length st + length vs - length vs)%nat with (length st) by lia.
  by rewrite drop_app_length.
Qed.

Lemma results_0 st : results st 0 = [].
Proof. unfold results. rewrite Nat.sub_0_r. apply drop_all. Qed.

Lemma results_snoc2 st a b : results (st ++ [a; b]) 1 = [b].
Proof.
  change [a; b] with ([a] ++ [b]). rewrite app_assoc.
  apply (results_app _ [b]).
Qed.

Lemma complete_in_progress k extra st c :
  completes k c = true ->
  k <> k_finshaccept ->
  completion_err c = IN_PROGRESS ->
  exists st', complete (Yield k extra st) c = Yield k extra st'.
Proof using in_progress_not_ok.
  assert ((IN_PROGRESS =? OK) = false) as Hne by (apply Z.eqb_neq; done).
  intros Hk Hacc Herr.
  destruct k, c; try done; simpl in Herr; subst err;
    unfold LSocket.complete, lsocket_connected_cb, lsocket_sent_cb, lsocket_recved_cb,
      lc_resumethread, continue.
  - unfold finshconnect. rewrite top_index_app_1. cbn [lua_tointeger].
    rewrite Hne, Z.eqb_refl. eauto.
  - unfold finshsend. rewrite top_index_app_2. cbn [lua_tointeger].
    rewrite Hne, Z.eqb_refl. eauto.
  - unfold finshrecv. rewrite top_index_app_4. cbn [lua_tointeger].
    rewrite Hne, Z.eqb_refl. eauto.
Qed.

(** The methods that suspend do so with their own continuation. *)
Lemma connect_suspends obj args k extra st :
  result (lsocket_obj_connect OK IN_PROGRESS error_str pal obj args) = Yield k extra st ->
  k = k_finshconnect.
Proof.
  unfold lsocket_obj_connect, raise.
  destruct (lsocket_obj_get obj); [|done].
  destruct (luaL_checkstring _); [|done].
  destruct (luaL_checkinteger _); [|done].
  destruct (port_ok _); [|done]. simpl. unfold finshconnect.
  repeat case_match; congruence.
Qed.

Lemma sent_int_suspends obj args all k extra st :
  result (lsocket_obj_sent_int OK IN_PROGRESS error_str pal obj args all) = Yield k extra st ->
  k = k_finshsend /\ extra = of_bool all.
Proof.
  unfold lsocket_obj_sent_int, raise.
  destruct (lsocket_obj_get obj); [|done].
  destruct (luaL_checkstring _); [|done]. simpl. unfold finshsend.
  repeat case_match; intros; simplify_eq; done.
Qed.

Lemma sendto_suspends obj args k extra st :
  result (lsocket_obj_sendto OK IN_PROGRESS error_str pal obj args) = Yield k extra st ->
  k = k_finshsend /\ extra = of_bool false.
Proof.
  unfold lsocket_obj_sendto, raise.
  destruct (lsocket_obj_get obj); [|done].
  destruct (luaL_checkstring _); [|done].
  destruct (luaL_checkstring _); [|done].
  destruct (luaL_checkinteger _); [|done].
  destruct (port_ok _); [|done]. simpl. unfold finshsend.
  repeat case_match; intros; simplify_eq; done.
Qed.

Lemma recv_int_suspends obj args b k extra st :
  result (lsocket_obj_recv_int OK IN_PROGRESS error_str pal obj args b) = Yield k extra st ->
  k = k_finshrecv /\ extra = of_bool b.
Proof.
  unfold lsocket_obj_recv_int, raise.
  destruct (lsocket_obj_get obj); [|done].
  destruct (luaL_checkinteger _); [|done]. simpl. unfold finshrecv.
  repeat case_match; intros; simplify_eq; done.
Qed.

Lemma deliver_in_progress k extra completions :
  k <> k_finshaccept ->
  Forall (fun c => completes k c = true /\ completion_err c = IN_PROGRESS) completions ->
  forall st, exists st', deliver (Yield k extra st) completions = Yield k extra st'.
Proof using in_progress_not_ok.
  intros Hk. induction 1 as [|c cs [Hc He] _ IH]; intros st; simpl.
  - eauto.
  - destruct (complete_in_progress k extra st c Hc Hk He) as [st1 ->]. apply IH.
Qed.


(** C7, as the code has it. Every method of a destroyed socket,
    [destroy] included, raises the destroyed-socket error, leaves the
    object as it is and makes no call to the platform; explicit
    destruction is therefore not idempotent. The finaliser is: on a
    destroyed socket it returns normally without a platform call. On
    a live socket [destroy] releases the platform socket once and
    clears the field. *)
Theorem destroyed_socket_rejects_every_method obj args name m :
  socket obj = None ->
  In (name, m) (lsocket_obj_meth OK IN_PROGRESS error_str pal newud) ->
  m obj args = mk_effect (Error destroyed_msg) obj []
  /\ lsocket_obj_gc obj args = mk_effect (Return []) obj []
  /\ (forall a o,
        lsocket_obj_destroy (mk_lsocket a (Some o)) args
          = mk_effect (Return []) (mk_lsocket a None) [pal_socket_destroy o]
        /\ lsocket_obj_destroy (after (lsocket_obj_destroy (mk_lsocket a (Some o)) args)) args
          = mk_effect (Error destroyed_msg) (mk_lsocket a None) []).
Proof.
  intros Hs Hin. split; [|split].
  - assert (lsocket_obj_get obj = inr destroyed_msg) as Hg
      by (unfold lsocket_obj_get; rewrite Hs; done).
    simpl in Hin.
    repeat (destruct Hin as [Hin|Hin]; [inversion Hin; subst; clear Hin|]);
      try (destruct Hin).
    all: unfold lsocket_obj_settimeout, lsocket_obj_enablebroadcast, lsocket_obj_bind,
      lsocket_obj_listen, lsocket_obj_accept, lsocket_obj_connect, lsocket_obj_send,
      lsocket_obj_sendall, lsocket_obj_sent_int, lsocket_obj_sendto, lsocket_obj_recv,
      lsocket_obj_recvfrom, lsocket_obj_recv_int, lsocket_obj_readable,
      lsocket_obj_destroy; rewrite Hg; reflexivity.
  - unfold lsocket_obj_gc. rewrite Hs. done.
  - intros a o. split; reflexivity.
Qed.

(** C8, as the code has it. When the platform reports success,
    [sendall] returns no value at all and the plain [send] returns
    one value, the byte count the platform reported for the write;
    the same holds when success is reported later, to the suspended
    call, by the completion callback. *)
Theorem send_results obj o data rest :
  socket obj = Some o ->
  r_err (pal (pal_socket_send o data true)) = OK ->
  r_err (pal (pal_socket_send o data false)) = OK ->
  result (lsocket_obj_sendall OK IN_PROGRESS error_str pal obj (LString data :: rest))
    = Return []
  /\ result (lsocket_obj_send OK IN_PROGRESS error_str pal obj (LString data :: rest))
    = Return [LInteger (r_len (pal (pal_socket_send o data false)))]
  /\ (forall st sent_len,
        lsocket_sent_cb OK IN_PROGRESS error_str newud
          (Yield k_finshsend (of_bool true) st) OK sent_len = Return [])
  /\ (forall st sent_len,
        lsocket_sent_cb OK IN_PROGRESS error_str newud
          (Yield k_finshsend (of_bool false) st) OK sent_len = Return [LInteger sent_len]).
Proof.
  intros Hs Ht Hf.
  assert (forall all,
      r_err (pal (pal_socket_send o data all)) = OK ->
      result (lsocket_obj_sent_int OK IN_PROGRESS error_str pal obj
                (LString data :: rest) all)
      = Return (results
                  (self_value obj :: (LString data :: rest)
                     ++ [LInteger OK; LInteger (r_len (pal (pal_socket_send o data all)))])
                  (if all then 0 else 1))) as Hsync.
  { intros all Hall.
    unfold lsocket_obj_sent_int, lsocket_obj_get. rewrite Hs.
    cbn [lookup list_lookup luaL_checkstring result]. unfold finshsend.
    rewrite Hall, app_comm_cons, top_index_app_2. cbn [lua_tointeger].
    rewrite Z.eqb_refl. destruct all; reflexivity. }
  split; [|split; [|split]].
  - unfold lsocket_obj_sendall. rewrite Hsync by done. f_equal. apply results_0.
  - unfold lsocket_obj_send. rewrite Hsync by done. f_equal.
    rewrite app_comm_cons. apply results_snoc2.
  - intros st n. unfold lsocket_sent_cb, lc_resumethread, continue, finshsend.
    rewrite top_index_app_2. cbn [lua_tointeger]. rewrite Z.eqb_refl.
    simpl. f_equal. apply results_0.
  - intros st n. unfold lsocket_sent_cb, lc_resumethread, continue, finshsend.
    rewrite top_index_app_2. cbn [lua_tointeger]. rewrite Z.eqb_refl.
    simpl. f_equal. apply results_snoc2.
Qed.

End Facts.


Lemma destroyed_socket_rejects_every_method_witness :
  lsocket_obj_recv 0 1 error_text busy_platform dead_socket [LInteger 16]
    = mk_effect (Error destroyed_msg) dead_socket [].
Proof.
  refine (proj1 (destroyed_socket_rejects_every_method 0 1 error_text busy_platform
            (fun z => z) dead_socket [LInteger 16] "recv"
            (lsocket_obj_recv 0 1 error_text busy_platform) _ _)).
  - reflexivity.
  - simpl. do 9 right. left. reflexivity.
Defined.

(** C7 as stated fails: the second [destroy] on the same socket does
    not succeed, it raises the destroyed-socket error. *)
Lemma second_destroy_raises :
  let first := lsocket_obj_destroy live_socket [] in
  result first = Return []
  /\ result (lsocket_obj_destroy (after first) []) = Error destroyed_msg
  /\ result (lsocket_obj_destroy (after first) []) <> Return [].
Proof. repeat split. discriminate. Qed.

Lemma send_results_witness :
  result (lsocket_obj_sendall 0 1 error_text ready_platform live_socket [LString "abc"])
    = Return []
  /\ result (lsocket_obj_send 0 1 error_text ready_platform live_socket [LString "abc"])
    = Return [LInteger 3].
Proof.
  pose proof (send_results 0 1 error_text ready_platform (fun z => z)
                live_socket 7 "abc" [] eq_refl eq_refl eq_refl) as H.
  split; [exact (proj1 H) | exact (proj1 (proj2 H))].
Defined.

(** C8 as stated fails: a successful [sendall] of three bytes returns
    no value, not the byte count 3. *)
Lemma sendall_returns_nothing :
  result (lsocket_obj_sendall 0 1 error_text ready_platform live_socket [LString "abc"])
    = Return []
  /\ result (lsocket_obj_sendall 0 1 error_text ready_platform live_socket [LString "abc"])
    <> Return [LInteger 3].
Proof. split; [reflexivity | discriminate]. Qed.

End LSocket_facts.

(** ** DNS binding *)

Module LDNS_facts.
Import Lua LDNS LDNS_inputs.

Lemma top_index_snoc st v : top_index (st ++ [v]) 1 = v.
Proof. unfold top_index. rewrite rev_app_distr. reflexivity. Qed.

Lemma results_snoc st v : results (st ++ [v]) 1 = [v].
Proof.
  unfold results. rewrite length_app. simpl.
  replace (length st + 1 - 1)%nat with (length st) by lia.
  by rewrite drop_app_length.
Qed.

(** A request that does not start raises at once. *)
Lemma resolve_start_failure start (st : stack) hostname af :
  luaL_checkstring (st !! 0%nat) = Some hostname ->
  luaL_checkoption (st !! 1%nat) "" ldns_family_strs = Some af ->
  start hostname af = false ->
  ldns_resolve start st = Error "failed to start DNS resolution request".
Proof. intros H1 H2 H3. unfold ldns_resolve. by rewrite H1, H2, H3. Qed.

(** A request that starts suspends the caller on the stack it came with. *)
Lemma resolve_suspends start (st : stack) hostname af :
  luaL_checkstring (st !! 0%nat) = Some hostname ->
  luaL_checkoption (st !! 1%nat) "" ldns_family_strs = Some af ->
  start hostname af = true ->
  ldns_resolve start st = Yield st.
Proof. intros H1 H2 H3. unfold ldns_resolve. by rewrite H1, H2, H3. Qed.

(** Resumed with an address, the caller returns that address. *)
Lemma resolve_returns_address (st : stack) addr :
  ldns_response_cb (Some addr) (Yield st) = Return [LString addr].
Proof.
  unfold ldns_response_cb, lc_resumethread, finshresolve.
  rewrite top_index_snoc, results_snoc. reflexivity.
Qed.

(** C9 on the code. [resolve("example.com", "IPV4")] starts and
    suspends; the completion callback reports no address and resumes
    the caller with no value. The continuation then inspects the top of
    the stack [ldns_resolve] left, which is the caller's own last
    argument, a string: no error is raised, and the family name (or,
    with one argument, the host name) is returned as the address. The
    specification has the caller raise "failed to resolve" there. *)
Theorem unresolved_name_returns_argument :
  ldns_resolve dns_starts [LString "example.com"; LString "IPV4"]
    = Yield [LString "example.com"; LString "IPV4"]
  /\ ldns_response_cb None
       (ldns_resolve dns_starts [LString "example.com"; LString "IPV4"])
     = Return [LString "IPV4"]
  /\ ldns_response_cb None (ldns_resolve dns_starts [LString "example.com"])
     = Return [LString "example.com"]
  /\ ldns_response_cb None
       (ldns_resolve dns_starts [LString "example.com"; LString "IPV4"])
     <> Error "failed to resolve".
Proof. repeat split. discriminate. Qed.

End LDNS_facts.

(** ** Timers *)

Module Timer_facts.
Import RunLoop RunLoop_inputs.

Section Registry.

Variable calloc_timer : runLoop_t -> option positive.

(** Where [HAPPlatformTimerRegister] puts a timer: behind every
    timer whose stored deadline is at most the requested deadline,
    in front of the others. *)
Lemma insert_timer_split d new l :
  StronglySorted deadline_le l ->
  exists l1 l2,
    l = l1 ++ l2
    /\ insert_timer d new l = l1 ++ new :: l2
    /\ Forall (fun x => (Timer.deadline (snd x) <= d)%N) l1
    /\ Forall (fun x => (d < Timer.deadline (snd x))%N) l2.
Proof.
  induction 1 as [|x l Hs IH Hx]; simpl.
  - exists [], []. repeat split; constructor.
  - destruct (N.ltb_spec d (Timer.deadline (snd x))) as [Hlt|Hge].
    + exists [], (x :: l). repeat split; [constructor|].
      constructor; [done|].
      eapply Forall_impl; [exact Hx|]. unfold deadline_le. intros y Hy. simpl in Hy. lia.
    + destruct IH as (l1 & l2 & -> & -> & H1 & H2).
      exists (x :: l1), l2. repeat split; [|done].
      constructor; done.
Qed.

(** The timer list stays ordered by stored deadline, whatever the
    requested deadlines are, zero included. *)
Lemma insert_timer_sorted d t cb ctx l :
  StronglySorted deadline_le l ->
  Forall deadline_pos l ->
  let new := (t, Timer.mk_timer (if (d =? 0)%N then 1%N else d) cb ctx) in
  StronglySorted deadline_le (insert_timer d new l)
  /\ Forall deadline_pos (insert_timer d new l).
Proof.
  intros Hs Hp new.
  destruct (insert_timer_split d new l Hs) as (l1 & l2 & -> & -> & H1 & H2).
  assert (Timer.deadline (snd new) = (if (d =? 0)%N then 1%N else d)) as Hd by done.
  apply Forall_app in Hp as [Hp1 Hp2].
  split.
  - revert Hs H1 Hp1. induction l1 as [|y l1 IH]; simpl; intros Hs H1 Hp1.
    + constructor; [done|].
      rewrite Forall_forall in H2, Hp2. apply Forall_forall. intros z Hz.
      specialize (H2 z Hz). specialize (Hp2 z Hz).
      unfold deadline_le, deadline_pos in *. rewrite Hd.
      destruct (N.eqb_spec d 0); lia.
    + inversion Hs as [|? ? Hs1 Hy]; subst.
      inversion H1 as [|? ? Hy1 H1']; subst.
      inversion Hp1 as [|? ? Hyp Hp1']; subst.
      constructor; [by apply IH|].
      apply Forall_app in Hy as [Hya Hyb].
      apply Forall_app. split; [done|]. constructor; [|done].
      unfold deadline_le, deadline_pos in *. rewrite Hd.
      destruct (N.eqb_spec d 0); lia.
  - apply Forall_app. split; [done|]. constructor; [|done].
    unfold deadline_pos. rewrite Hd. destruct (N.eqb_spec d 0); lia.
Qed.

Lemma register_timers_sorted regs s :
  StronglySorted deadline_le (timers s) ->
  Forall deadline_pos (timers s) ->
  StronglySorted deadline_le (timers (register_timers calloc_timer regs s))
  /\ Forall deadline_pos (timers (register_timers calloc_timer regs s)).
Proof.
  revert s. induction regs as [|[[d cb] ctx] regs IH]; intros s Hs Hp; simpl; [done|].
  apply IH; unfold HAPPlatformTimerRegister;
    destruct (calloc_timer s) as [t|]; simpl; try done;
    by apply insert_timer_sorted.
Qed.

(** With callbacks that call nothing back, a pass fires the due
    timers at the front of the list, in list order, and leaves the
    others. *)
Lemma quiet_pass_fires_due calloc_handle now s tr :
  ProcessExpiredTimers_loop calloc_handle calloc_timer quiet_timer_callback
    (S (length (timers s))) now s tr
  = (Completed,
     set_timers (drop (length (due now (timers s))) (timers s)) s,
     tr ++ map (fun x => EvFired (fst x) (snd x)) (due now (timers s))).
Proof.
  remember (timers s) as l eqn:Hl. revert s tr Hl.
  induction l as [|[t tm] l IH]; intros s tr Hl; simpl.
  - rewrite <- Hl. rewrite app_nil_r. destruct s; simpl in *; by subst.
  - rewrite <- Hl. unfold expired. simpl.
    destruct (N.ltb_spec now (Timer.deadline tm)) as [Hlt|Hge].
    + destruct (N.leb_spec (Timer.deadline tm) now); [lia|]. simpl.
      rewrite app_nil_r. destruct s; simpl in *; by subst.
    + destruct (N.leb_spec (Timer.deadline tm) now); [|lia]. simpl.
      specialize (IH (set_timers l s) (tr ++ [EvFired t tm]) eq_refl).
      simpl in IH. rewrite IH. rewrite <- app_assoc. reflexivity.
Qed.

End Registry.

(** C1 on the code. Two timers registered with deadline 0, callback 10
    first and callback 20 second, are both stored with deadline 1, and
    the second is put in front of the first; so is a timer registered
    with deadline 0 after one registered with deadline 1. The pass that
    finds them due fires the later registration first, where the
    specification (and the comment in [HAPPlatformTimerRegister]) has
    timers of equal deadline fire in order of registration. *)
Theorem zero_deadline_timers_fire_out_of_order :
  timers (register_timers next_timer [(0%N, 10, 1); (0%N, 20, 2)] runLoop_init)
    = [(2%positive, Timer.mk_timer 1 20 2); (1%positive, Timer.mk_timer 1 10 1)]
  /\ snd (ProcessExpiredTimers next_handle next_timer quiet_timer_callback 3 5%N
            (register_timers next_timer [(0%N, 10, 1); (0%N, 20, 2)] runLoop_init))
     = [EvFired 2 (Timer.mk_timer 1 20 2); EvFired 1 (Timer.mk_timer 1 10 1)]
  /\ timers (register_timers next_timer [(1%N, 10, 1); (0%N, 20, 2)] runLoop_init)
    = [(2%positive, Timer.mk_timer 1 20 2); (1%positive, Timer.mk_timer 1 10 1)]
  /\ snd (ProcessExpiredTimers next_handle next_timer quiet_timer_callback 3 5%N
            (register_timers next_timer [(1%N, 10, 1); (0%N, 20, 2)] runLoop_init))
     = [EvFired 2 (Timer.mk_timer 1 20 2); EvFired 1 (Timer.mk_timer 1 10 1)].
Proof. repeat split. Qed.

End Timer_facts.

(** ** File handles *)

Module FileHandle_facts.
Import RunLoop RunLoop_inputs FileHandle_inv.

(** Membership in a list built from conses and appends. *)
Ltac in_list :=
  repeat (rewrite ?elem_of_cons, ?elem_of_app, ?elem_of_nil, ?list_elem_of_singleton in * );
  naive_solver.

(** *** Reading fields after a store *)

Lemma store_Some p f (h h' : heap) :
  store p f h = Some h' -> exists fh, h !! p = Some fh /\ h' = <[p := f fh]> h.
Proof. unfold store. destruct (h !! p) as [fh|]; [|done]. intros [= <-]. eauto. Qed.

Lemma nxt_insert (h : heap) p fh q :
  nxt (<[p := fh]> h) q = if decide (p = q) then nextFileHandle fh else nxt h q.
Proof.
  unfold nxt. rewrite lookup_insert. destruct (decide (p = q)); done.
Qed.

Lemma prv_insert (h : heap) p fh q :
  prv (<[p := fh]> h) q = if decide (p = q) then prevFileHandle fh else prv h q.
Proof.
  unfold prv. rewrite lookup_insert. destruct (decide (p = q)); done.
Qed.

Lemma payload_insert (h : heap) p fh q :
  payload_at (<[p := fh]> h) q = if decide (p = q) then Some (payload fh) else payload_at h q.
Proof.
  unfold payload_at. rewrite lookup_insert. destruct (decide (p = q)); done.
Qed.

Lemma nxt_delete (h : heap) p q :
  nxt (delete p h) q = if decide (p = q) then None else nxt h q.
Proof. unfold nxt. rewrite lookup_delete. destruct (decide (p = q)); done. Qed.

Lemma prv_delete (h : heap) p q :
  prv (delete p h) q = if decide (p = q) then None else prv h q.
Proof. unfold prv. rewrite lookup_delete. destruct (decide (p = q)); done. Qed.

Lemma payload_delete (h : heap) p q :
  payload_at (delete p h) q = if decide (p = q) then None else payload_at h q.
Proof. unfold payload_at. rewrite lookup_delete. destruct (decide (p = q)); done. Qed.

(** A store to a link field: the other link, the payloads and the
    set of allocated addresses stay. *)
Lemma store_next p n (h h' : heap) :
  store p (set_next n) h = Some h' ->
  (forall q, nxt h' q = if decide (p = q) then n else nxt h q)
  /\ (forall q, prv h' q = prv h q)
  /\ (forall q, payload_at h' q = payload_at h q)
  /\ (forall q, is_Some (h' !! q) <-> is_Some (h !! q)).
Proof.
  intros (fh & Hp & ->)%store_Some. split_and!; intros q.
  - rewrite nxt_insert. done.
  - rewrite prv_insert. destruct (decide (p = q)) as [<-|]; [|done].
    unfold prv. rewrite Hp. done.
  - rewrite payload_insert. destruct (decide (p = q)) as [<-|]; [|done].
    unfold payload_at. rewrite Hp. done.
  - rewrite lookup_insert. destruct (decide (p = q)) as [<-|]; [|done].
    rewrite Hp. split; eauto.
Qed.

Lemma store_prev p n (h h' : heap) :
  store p (set_prev n) h = Some h' ->
  (forall q, prv h' q = if decide (p = q) then n else prv h q)
  /\ (forall q, nxt h' q = nxt h q)
  /\ (forall q, payload_at h' q = payload_at h q)
  /\ (forall q, is_Some (h' !! q) <-> is_Some (h !! q)).
Proof.
  intros (fh & Hp & ->)%store_Some. split_and!; intros q.
  - rewrite prv_insert. done.
  - rewrite nxt_insert. destruct (decide (p = q)) as [<-|]; [|done].
    unfold nxt. rewrite Hp. done.
  - rewrite payload_insert. destruct (decide (p = q)) as [<-|]; [|done].
    unfold payload_at. rewrite Hp. done.
  - rewrite lookup_insert. destruct (decide (p = q)) as [<-|]; [|done].
    rewrite Hp. split; eauto.
Qed.

Lemma store_is_Some p f (h : heap) : is_Some (h !! p) -> is_Some (store p f h).
Proof. intros [fh Hfh]. unfold store. rewrite Hfh. eauto. Qed.

(** *** Chains *)

Lemma chain_ext (h h' : heap) a l z :
  (forall x, x ∈ a :: l -> nxt h' x = nxt h x) ->
  (forall x, x ∈ l ++ [z] -> prv h' x = prv h x) ->
  chain h a l z -> chain h' a l z.
Proof.
  revert a. induction l as [|p l IH]; intros a Hn Hp; simpl.
  - intros [H1 H2]. rewrite Hn, Hp by in_list. done.
  - intros (H1 & H2 & H3). rewrite Hn, Hp by in_list. split_and!; [done|done|].
    apply IH; [| |done]; intros x Hx; [apply Hn|apply Hp]; in_list.
Qed.

Lemma chain_app (h : heap) a l1 p l2 z :
  chain h a (l1 ++ p :: l2) z <-> chain h a l1 p /\ chain h p l2 z.
Proof.
  revert a. induction l1 as [|x l1 IH]; intros a; simpl.
  - tauto.
  - rewrite IH. tauto.
Qed.

Lemma chain_snoc (h : heap) a l p z :
  chain h a (l ++ [p]) z <-> chain h a l p /\ nxt h p = Some z /\ prv h z = Some p.
Proof. rewrite chain_app. simpl. tauto. Qed.

Lemma last_cons_default (x : N) l d : List.last (x :: l) d = List.last l x.
Proof.
  revert x d. induction l as [|y l IH]; intros x d; [done|].
  change (List.last (x :: y :: l) d) with (List.last (y :: l) d).
  rewrite (IH y d), (IH y x). done.
Qed.

Lemma last_elem_of (a : N) l : List.last l a ∈ a :: l.
Proof.
  revert a. induction l as [|x l IH]; intros a; [in_list|].
  rewrite last_cons_default. specialize (IH x). in_list.
Qed.

Lemma chain_prev_of_end (h : heap) a l z :
  chain h a l z -> prv h z = Some (List.last l a).
Proof.
  revert a. induction l as [|p l IH]; intros a; simpl.
  - tauto.
  - intros (_ & _ & H). apply IH in H. rewrite H. f_equal.
    symmetry. apply last_cons_default.
Qed.

Lemma chain_next_of_start (h : heap) a l z :
  chain h a l z -> nxt h a = Some (hd z l).
Proof. destruct l; simpl; tauto. Qed.

(** The end of a chain is redirected: the last node of [a :: l] gets a
    new successor [z'], nothing else on the chain changes. *)
Lemma chain_redirect (h h' : heap) a l z z' :
  NoDup (a :: l) ->
  (forall x, x ∈ a :: l -> x <> List.last l a -> nxt h' x = nxt h x) ->
  (forall x, x ∈ l -> prv h' x = prv h x) ->
  nxt h' (List.last l a) = Some z' ->
  prv h' z' = Some (List.last l a) ->
  chain h a l z -> chain h' a l z'.
Proof.
  revert a. induction l as [|p l IH]; intros a Hnd Hn Hp Hl1 Hl2; simpl.
  - intros _. simpl in *. done.
  - intros (H1 & H2 & H3).
    rewrite last_cons_default in Hl1, Hl2.
    apply NoDup_cons in Hnd as [Ha Hnd].
    assert (a <> List.last l p) as Hne.
    { intros ->. apply Ha. apply last_elem_of. }
    split_and!.
    + rewrite Hn; [done|in_list|]. rewrite last_cons_default. done.
    + rewrite Hp by in_list. done.
    + apply IH; try done.
      * intros x Hx Hxl. apply Hn; [in_list|]. rewrite last_cons_default. done.
      * intros x Hx. apply Hp. in_list.
Qed.

(** *** The registry operations on a well-formed list *)

Lemma handle_list_sentinel s l :
  handle_list s l ->
  exists sen, handles s !! fileHandles = Some sen
              /\ prevFileHandle sen = Some (List.last l fileHandles)
              /\ nextFileHandle sen = Some (hd fileHandles l).
Proof.
  intros (Hnd & Hch & Hdom).
  pose proof (chain_prev_of_end _ _ _ _ Hch) as Hp.
  pose proof (chain_next_of_start _ _ _ _ Hch) as Hn.
  unfold prv, nxt in *.
  destruct (handles s !! fileHandles) as [sen|]; [|done].
  exists sen. simpl in *. done.
Qed.

Lemma handle_list_lookup s l p :
  handle_list s l -> p ∈ l -> is_Some (handles s !! p) /\ p <> fileHandles.
Proof.
  intros (Hnd & Hch & Hdom) Hp. split.
  - apply Hdom. in_list.
  - intros ->. apply NoDup_cons in Hnd as [Hnd _]. done.
Qed.

Section Registry.

Variable calloc_handle : runLoop_t -> option positive.

(** [calloc] returns memory that is not in use. *)
Hypothesis calloc_fresh :
  forall s a, calloc_handle s = Some a -> handles s !! Npos a = None.

Lemma register_spec s l fd i cb ctx a :
  handle_list s l ->
  calloc_handle s = Some a ->
  exists s',
    HAPPlatformFileHandleRegister calloc_handle s fd i cb ctx
      = Some (s', kHAPError_None, Some a)
    /\ handle_list s' (l ++ [Npos a])
    /\ (Npos a ∉ fileHandles :: l)
    /\ fileHandleCursor s' = fileHandleCursor s
    /\ timers s' = timers s
    /\ state s' = state s
    /\ payload_at (handles s') (Npos a) = Some (fd, i, cb, ctx, false)
    /\ (forall q, q <> Npos a -> payload_at (handles s') q = payload_at (handles s) q).
Proof using calloc_fresh.
  intros Hl Hc.
  pose proof (calloc_fresh s a Hc) as Hfresh.
  destruct (handle_list_sentinel s l Hl) as (sen & Hsen & Hprev & Hnext).
  destruct Hl as (Hnd & Hch & Hdom).
  set (p := Npos a) in *.
  assert (p ∉ fileHandles :: l) as Hpl.
  { intros Hin. apply Hdom in Hin. rewrite Hfresh in Hin. by destruct Hin. }
  assert (p <> fileHandles) as Hp0 by done.
  set (tl := List.last l fileHandles) in *.
  assert (tl ∈ fileHandles :: l) as Htl by apply last_elem_of.
  assert (tl <> p) as Htlp by (intros Heq; apply Hpl; by rewrite <- Heq).
  unfold HAPPlatformFileHandleRegister. rewrite Hc. fold p.
  rewrite Hsen. cbn [mbind option_bind].
  set (new := mk_handle fd i cb ctx (prevFileHandle sen) (Some fileHandles) false).
  set (h1 := <[p := new]> (handles s)).
  assert (h1 !! fileHandles = Some sen) as Hsen1.
  { unfold h1. rewrite lookup_insert_ne by done. done. }
  rewrite Hsen1. cbn [mbind option_bind]. rewrite Hprev. cbn [mbind option_bind].
  assert (is_Some (h1 !! tl)) as Htl1.
  { unfold h1. rewrite lookup_insert_ne by done. by apply Hdom. }
  destruct (store_is_Some tl (set_next (Some p)) h1 Htl1) as [h2 Hh2].
  rewrite Hh2. cbn [mbind option_bind].
  destruct (store_next _ _ _ _ Hh2) as (Hn2 & Hp2 & Hpay2 & Hal2).
  assert (is_Some (h2 !! fileHandles)) as Hs2 by (apply Hal2; rewrite Hsen1; eauto).
  destruct (store_is_Some fileHandles (set_prev (Some p)) h2 Hs2) as [h3 Hh3].
  rewrite Hh3. cbn [mbind option_bind].
  destruct (store_prev _ _ _ _ Hh3) as (Hp3 & Hn3 & Hpay3 & Hal3).
  eexists. split; [reflexivity|].
  assert (forall q, nxt h3 q = if decide (tl = q) then Some p
                               else if decide (p = q) then Some fileHandles
                                    else nxt (handles s) q) as Hnxt.
  { intros q. rewrite Hn3, Hn2. unfold h1. rewrite nxt_insert. done. }
  assert (forall q, prv h3 q = if decide (fileHandles = q) then Some p
                               else if decide (p = q) then Some tl
                                    else prv (handles s) q) as Hprv.
  { intros q. rewrite Hp3, Hp2. unfold h1. rewrite prv_insert. simpl.
    rewrite Hprev. done. }
  split_and!; try done.
  - split_and!.
    + apply NoDup_cons in Hnd as [H0 Hnd].
      apply NoDup_cons. split.
      * rewrite elem_of_app, list_elem_of_singleton. intros [?|?]; [done|].
        by apply Hp0.
      * apply NoDup_app. split_and!; [done| |apply NoDup_singleton].
        intros x Hx. rewrite list_elem_of_singleton. intros ->. apply Hpl. in_list.
    + simpl. apply chain_snoc. split_and!.
      * eapply (chain_redirect (handles s)); [done| | | | |exact Hch].
        -- intros x Hx Hxl. fold tl in Hxl. rewrite Hnxt.
           destruct (decide (tl = x)); [congruence|].
           destruct (decide (p = x)) as [<-|]; [done|done].
        -- intros x Hx. rewrite Hprv.
           destruct (decide (fileHandles = x)) as [<-|].
           { apply NoDup_cons in Hnd as [H0 _]. done. }
           destruct (decide (p = x)) as [<-|]; [|done].
           exfalso. apply Hpl. in_list.
        -- fold tl. rewrite Hnxt. rewrite decide_True by done. done.
        -- fold tl. rewrite Hprv. rewrite decide_False by done.
           rewrite decide_True by done. done.
      * rewrite Hnxt. rewrite decide_False by done. rewrite decide_True by done. done.
      * rewrite Hprv. rewrite decide_True by done. done.
    + intros q. simpl. rewrite Hal3, Hal2. unfold h1.
      rewrite lookup_insert. destruct (decide (p = q)) as [<-|Hne].
      * split; [in_list|eauto].
      * rewrite Hdom. in_list.
  - simpl. rewrite Hpay3, Hpay2. unfold h1. rewrite payload_insert.
    rewrite decide_True by done. done.
  - intros q Hq. simpl. rewrite Hpay3, Hpay2. unfold h1. rewrite payload_insert.
    rewrite decide_False by done. done.
Qed.

Lemma deregister_spec s l1 a l2 :
  handle_list s (l1 ++ Npos a :: l2) ->
  exists s',
    HAPPlatformFileHandleDeregister s a = Some s'
    /\ handle_list s' (l1 ++ l2)
    /\ fileHandleCursor s'
       = (if decide (Some (Npos a) = fileHandleCursor s)
          then Some (hd fileHandles l2) else fileHandleCursor s)
    /\ timers s' = timers s
    /\ state s' = state s
    /\ handles s' !! Npos a = None
    /\ (forall q, q <> Npos a -> payload_at (handles s') q = payload_at (handles s) q).
Proof.
  intros Hl. set (p := Npos a) in *.
  destruct Hl as (Hnd & Hch & Hdom).
  apply chain_app in Hch as [Hch1 Hch2].
  pose proof (chain_prev_of_end _ _ _ _ Hch1) as Hpv.
  pose proof (chain_next_of_start _ _ _ _ Hch2) as Hnx.
  set (pv := List.last l1 fileHandles) in *.
  set (nx := hd fileHandles l2) in *.
  assert (pv ∈ fileHandles :: l1) as Hpvin by apply last_elem_of.
  assert (NoDup (fileHandles :: l1) /\ (p ∉ fileHandles :: l1) /\ (p ∉ l2)
          /\ NoDup (p :: l2) /\ (fileHandles ∉ l2)
          /\ (forall x, x ∈ fileHandles :: l1 -> x ∉ l2)) as (Hnd1 & Hp1 & Hp2 & Hnd2 & H02 & Hdisj).
  { rewrite app_comm_cons in Hnd. apply NoDup_app in Hnd as (Ha & Hb & Hc).
    apply NoDup_cons in Hc as [Hc1 Hc2].
    split_and!; try done.
    - intros Hin. apply (Hb p Hin). in_list.
    - by apply NoDup_cons.
    - intros Hin. apply (Hb fileHandles); in_list.
    - intros x Hx Hx2. apply (Hb x Hx). in_list. }
  assert (pv <> p) as Hpvp by (intros Heq; apply Hp1; rewrite <- Heq; done).
  assert (nx <> p) as Hnxp.
  { unfold nx. destruct l2 as [|y l2']; simpl.
    - intros Heq. apply Hp1. rewrite <- Heq. in_list.
    - intros ->. apply Hp2. in_list. }
  unfold prv, nxt in Hpv, Hnx.
  destruct (handles s !! p) as [fh|] eqn:Hfh; [|done].
  simpl in Hpv, Hnx.
  unfold HAPPlatformFileHandleDeregister. fold p. rewrite Hfh.
  cbn [mbind option_bind]. rewrite Hpv. cbn [mbind option_bind].
  rewrite Hnx. cbn [mbind option_bind].
  assert (is_Some (handles s !! pv)) as Hpvs.
  { apply Hdom. in_list. }
  destruct (store_is_Some pv (set_next (Some nx)) (handles s) Hpvs) as [h1 Hh1].
  rewrite Hh1. cbn [mbind option_bind].
  destruct (store_next _ _ _ _ Hh1) as (Hn1 & Hp1' & Hpay1 & Hal1).
  assert (h1 !! p = Some fh) as Hfh1.
  { apply store_Some in Hh1 as (f & _ & ->). rewrite lookup_insert_ne by done. done. }
  rewrite Hfh1. cbn [mbind option_bind]. rewrite Hnx. cbn [mbind option_bind].
  assert (nx ∈ fileHandles :: l1 ++ p :: l2) as Hnxin.
  { unfold nx. destruct l2; simpl; in_list. }
  assert (is_Some (h1 !! nx)) as Hnxs by (apply Hal1, Hdom; done).
  rewrite Hpv.
  destruct (store_is_Some nx (set_prev (Some pv)) h1 Hnxs) as [h2 Hh2].
  rewrite Hh2. cbn [mbind option_bind].
  destruct (store_prev _ _ _ _ Hh2) as (Hp2' & Hn2 & Hpay2 & Hal2).
  eexists. split; [reflexivity|].
  set (h3 := delete p h2).
  assert (forall q, nxt h3 q = if decide (p = q) then None
                               else if decide (pv = q) then Some nx
                                    else nxt (handles s) q) as Hnxt.
  { intros q. unfold h3. rewrite nxt_delete, Hn2, Hn1. done. }
  assert (forall q, prv h3 q = if decide (p = q) then None
                               else if decide (nx = q) then Some pv
                                    else prv (handles s) q) as Hprv.
  { intros q. unfold h3. rewrite prv_delete, Hp2', Hp1'. done. }
  split_and!; try done.
  - split_and!.
    + rewrite app_comm_cons. apply NoDup_app. split_and!; [done| |].
      * intros x Hx Hx2. by apply (Hdisj x).
      * by apply NoDup_cons in Hnd2 as [_ ?].
    + simpl. destruct l2 as [|y l2'].
      * rewrite app_nil_r. simpl in nx.
        eapply (chain_redirect (handles s)); [done| | | | |exact Hch1].
        -- intros x Hx Hxl. fold pv in Hxl. rewrite Hnxt.
           rewrite decide_False by (intros <-; done).
           rewrite decide_False by done. done.
        -- intros x Hx. rewrite Hprv.
           rewrite decide_False by (intros <-; apply Hp1; in_list).
           rewrite decide_False; [done|].
           unfold nx. intros <-. apply NoDup_cons in Hnd1 as [? _]. done.
        -- fold pv. rewrite Hnxt. rewrite decide_False by done.
           rewrite decide_True by done. done.
        -- fold pv. rewrite Hprv. rewrite decide_False by done.
           rewrite decide_True by done. done.
      * simpl in nx. apply chain_app. simpl in Hch2.
        destruct Hch2 as (_ & _ & Hch2). split.
        -- eapply (chain_redirect (handles s)); [done| | | | |exact Hch1].
           ++ intros x Hx Hxl. fold pv in Hxl. rewrite Hnxt.
              rewrite decide_False by (intros <-; done).
              rewrite decide_False by done. done.
           ++ intros x Hx. rewrite Hprv.
              rewrite decide_False by (intros <-; apply Hp1; in_list).
              rewrite decide_False; [done|].
              unfold nx. intros <-. apply (Hdisj y); in_list.
           ++ fold pv. rewrite Hnxt. rewrite decide_False by done.
              rewrite decide_True by done. done.
           ++ fold pv. rewrite Hprv. rewrite decide_False by done.
              rewrite decide_True by done. done.
        -- eapply (chain_ext (handles s)); [| |exact Hch2].
           ++ intros x Hx. rewrite Hnxt.
              rewrite decide_False by (intros <-; apply Hp2; done).
              rewrite decide_False; [done|].
              intros <-. apply (Hdisj pv); done.
           ++ intros x Hx. rewrite Hprv.
              rewrite decide_False.
              2:{ intros <-. apply elem_of_app in Hx as [Hx|Hx].
                  - apply Hp2. in_list.
                  - apply list_elem_of_singleton in Hx. done. }
              rewrite decide_False; [done|].
              unfold nx. intros <-. apply NoDup_cons in Hnd2 as [_ Hnd2].
              apply NoDup_cons in Hnd2 as [Hy _].
              apply elem_of_app in Hx as [Hx|Hx]; [done|].
              apply list_elem_of_singleton in Hx. apply H02. rewrite <- Hx. in_list.
    + intros q. simpl. fold h3. unfold h3.
      rewrite lookup_delete. destruct (decide (p = q)) as [<-|Hne].
      * split; [intros [? ?]; done|]. intros Hin. exfalso.
        apply elem_of_cons in Hin as [Hin|Hin].
        -- apply Hp1. rewrite Hin. in_list.
        -- apply elem_of_app in Hin as [Hin|Hin]; [apply Hp1; in_list|done].
      * rewrite Hal2, Hal1, Hdom. in_list.
  - simpl. apply lookup_delete_eq.
  - intros q Hq. unfold set_cursor, set_handles. cbn [handles].
    fold h3. unfold h3. rewrite payload_delete. rewrite decide_False by done.
    rewrite Hpay2, Hpay1. done.
Qed.

(** A reference that is not (or no longer) registered stops the run. *)
Lemma deregister_unknown s l a :
  handle_list s l -> Npos a ∉ l -> HAPPlatformFileHandleDeregister s a = None.
Proof.
  intros (Hnd & Hch & Hdom) Hnot.
  unfold HAPPlatformFileHandleDeregister.
  destruct (handles s !! Npos a) as [fh|] eqn:Hfh; [|done].
  exfalso. assert (Npos a ∈ fileHandles :: l) as Hin by (apply Hdom; eauto).
  apply elem_of_cons in Hin as [Hin|Hin]; done.
Qed.

Lemma update_spec s l a i cb ctx fh :
  handle_list s l ->
  handles s !! Npos a = Some fh ->
  HAPPlatformFileHandleUpdateInterests s a i cb ctx
    = Some (set_handles (<[Npos a := set_interests i cb ctx fh]> (handles s)) s)
  /\ handle_list
       (set_handles (<[Npos a := set_interests i cb ctx fh]> (handles s)) s) l.
Proof.
  intros (Hnd & Hch & Hdom) Hfh.
  unfold HAPPlatformFileHandleUpdateInterests, store. rewrite Hfh.
  split; [done|]. split_and!; [done| |].
  - simpl. eapply chain_ext; [| |exact Hch].
    + intros x _. rewrite nxt_insert. destruct (decide (Npos a = x)) as [<-|]; [|done].
      unfold nxt. rewrite Hfh. done.
    + intros x _. rewrite prv_insert. destruct (decide (Npos a = x)) as [<-|]; [|done].
      unfold prv. rewrite Hfh. done.
  - intros q. simpl. rewrite lookup_insert.
    destruct (decide (Npos a = q)) as [<-|]; [|apply Hdom].
    rewrite <- Hdom, Hfh. split; eauto.
Qed.

End Registry.

(** *** Awaiting flags and payloads *)

Lemma awaiting_payload s s' q :
  payload_at (handles s') q = payload_at (handles s) q -> awaiting s' q = awaiting s q.
Proof.
  unfold payload_at, awaiting.
  destruct (handles s' !! q) as [f'|], (handles s !! q) as [f|]; simpl; try done.
  intros [= _ _ _ _ ->]. done.
Qed.

Lemma count_awaiting_le s s' l l' :
  NoDup l' ->
  (forall q, q ∈ l' -> awaiting s' q = true -> q ∈ l /\ awaiting s q = true) ->
  (count_awaiting s' l' <= count_awaiting s l)%nat.
Proof.
  intros Hnd Hsub. unfold count_awaiting.
  apply submseteq_length, NoDup_submseteq.
  - by apply NoDup_filter.
  - intros q. rewrite !list_elem_of_filter. intros [Ha Hq].
    destruct (Hsub q Hq Ha). done.
Qed.

Lemma count_awaiting_lt s s' l l' c :
  NoDup l' -> NoDup l ->
  c ∈ l -> awaiting s c = true ->
  (forall q, q ∈ l' -> awaiting s' q = true -> q ∈ l /\ awaiting s q = true /\ q <> c) ->
  (count_awaiting s' l' < count_awaiting s l)%nat.
Proof.
  intros Hnd' Hnd Hc Hac Hsub. unfold count_awaiting.
  assert (c :: filter (fun p => awaiting s' p = true) l'
            ⊆+ filter (fun p => awaiting s p = true) l) as Hsm.
  { apply NoDup_submseteq.
    - apply NoDup_cons. split; [|by apply NoDup_filter].
      rewrite list_elem_of_filter. intros [Ha Hq].
      destruct (Hsub c Hq Ha) as (_ & _ & ?). done.
    - intros q. rewrite elem_of_cons, !list_elem_of_filter.
      intros [->|[Ha Hq]]; [done|].
      destruct (Hsub q Hq Ha) as (? & ? & _). done. }
  apply submseteq_length in Hsm. simpl in Hsm. lia.
Qed.

(** *** The monitor *)

Section Monitor.

Variables rd wr er : gset Z.
Variable p0 : N -> option (Z * HAPPlatformFileHandleEvent * option Z * Z * bool).

Local Abbreviation step := (monitor_step rd wr er p0).
Local Abbreviation run := (monitor_run rd wr er p0).

Lemma monitor_run_app m t1 t2 :
  run m (t1 ++ t2) = m1 ← run m t1; run m1 t2.
Proof.
  revert m. induction t1 as [|e t1 IH]; intros m; simpl; [done|].
  destruct (step m e) as [m'|]; [apply IH|done].
Qed.

Lemma monitor_run_split m t1 e t2 m' :
  run m (t1 ++ e :: t2) = Some m' ->
  exists m1 m2, run m t1 = Some m1 /\ step m1 e = Some m2 /\ run m2 t2 = Some m'.
Proof.
  rewrite monitor_run_app. destruct (run m t1) as [m1|]; [|done]. simpl.
  destruct (step m1 e) as [m2|] eqn:He; [|done]. eauto.
Qed.

Lemma monitor_step_todo m e m' q :
  step m e = Some m' -> q ∈ todo m' -> q ∈ todo m.
Proof.
  unfold monitor_step. destruct (owed m) as [e'|].
  - case_decide; [|done]. intros [= <-]. done.
  - destruct e; try (intros [= <-]; done).
    + case_decide; [|done]. intros [= <-]. simpl.
      rewrite list_elem_of_filter. tauto.
    + case_decide; [done|]. intros [= <-]. done.
    + intros [= <-]. simpl. rewrite list_elem_of_filter. tauto.
Qed.

Lemma monitor_run_todo m tr m' q :
  run m tr = Some m' -> q ∈ todo m' -> q ∈ todo m.
Proof.
  revert m. induction tr as [|e tr IH]; intros m; simpl.
  - intros [= <-]. done.
  - destruct (step m e) as [m1|] eqn:He; [|done].
    intros Hr Hq. eapply monitor_step_todo; [exact He|]. eauto.
Qed.

(** A handle of [todo] stays there until it is visited or deregistered. *)
Lemma monitor_step_leaves m e m' q :
  step m e = Some m' -> q ∈ todo m ->
  q ∈ todo m'
  \/ (exists fh, e = EvVisit q fh)
  \/ (exists a, q = Npos a /\ e = EvDeregistered a).
Proof.
  unfold monitor_step. destruct (owed m) as [e'|].
  - case_decide; [|done]. intros [= <-]. by left.
  - destruct e; try (intros [= <-]; by left).
    + case_decide; [|done]. intros [= <-] Hq. simpl.
      destruct (decide (q = h)) as [->|Hne]; [right; left; eauto|].
      left. rewrite list_elem_of_filter. done.
    + case_decide; [done|]. intros [= <-]. by left.
    + intros [= <-] Hq. simpl.
      destruct (decide (q = Npos h)) as [->|Hne]; [right; right; eauto|].
      left. rewrite list_elem_of_filter. done.
Qed.

Lemma monitor_run_leaves m tr m' q :
  run m tr = Some m' -> q ∈ todo m ->
  q ∈ todo m'
  \/ (exists fh, EvVisit q fh ∈ tr)
  \/ (exists a, q = Npos a /\ EvDeregistered a ∈ tr).
Proof.
  revert m. induction tr as [|e tr IH]; intros m; simpl.
  - intros [= <-]. by left.
  - destruct (step m e) as [m1|] eqn:He; [|done].
    intros Hr Hq.
    destruct (monitor_step_leaves _ _ _ _ He Hq) as [H1|[(fh & ->)|(a & -> & ->)]].
    + destruct (IH _ Hr H1) as [?|[(fh & ?)|(a & ? & ?)]]; [by left| |].
      * right; left. exists fh. in_list.
      * right; right. exists a. split; [done|in_list].
    + right; left. exists fh. in_list.
    + right; right. exists a. split; [done|in_list].
Qed.

(** What the monitor accepts a visit for. *)
Lemma monitor_step_visit m h fh m' :
  step m (EvVisit h fh) = Some m' ->
  owed m = None
  /\ h ∈ todo m
  /\ (h ∈ touched m \/ p0 h = Some (payload fh))
  /\ m' = mk_monitor (filter (fun x => x <> h) (todo m))
            (invocation rd wr er h fh) (touched m).
Proof.
  unfold monitor_step. destruct (owed m) as [[[[h' cb] ev] ctx]|].
  - case_decide; [done|done].
  - case_decide; [|done]. intros [= <-]. tauto.
Qed.

Lemma monitor_step_invoke m h cb ev ctx m' :
  step m (EvInvoke h cb ev ctx) = Some m' ->
  owed m = Some (h, cb, ev, ctx) /\ m' = mk_monitor (todo m) None (touched m).
Proof.
  unfold monitor_step. destruct (owed m) as [[[[h' cb'] ev'] ctx']|]; [|done].
  case_decide as Heq; [|done]. simpl in Heq. injection Heq as -> -> -> ->.
  intros [= <-]. done.
Qed.

(** While an invocation is owed, only that invocation is accepted. *)
Lemma monitor_step_owed m e m' x :
  step m e = Some m' -> owed m = Some x -> e = invoke_event x.
Proof.
  unfold monitor_step. intros He Ho. rewrite Ho in He.
  case_decide; [done|done].
Qed.

Lemma invocation_handle h fh x :
  invocation rd wr er h fh = Some x ->
  exists cb, callback fh = Some cb
             /\ any_event (selected fh rd wr er) = true
             /\ x = (h, cb, selected fh rd wr er, context fh).
Proof.
  unfold invocation. destruct (callback fh) as [cb|]; [|done].
  destruct (any_event _) eqn:Ha; [|done]. intros [= <-]. eauto.
Qed.

(** A handle that is not in [todo] is not visited. *)
Lemma monitor_run_no_visit m tr m' q fh :
  run m tr = Some m' -> q ∉ todo m -> EvVisit q fh ∉ tr.
Proof.
  intros Hr Hq Hin.
  apply list_elem_of_split in Hin as (t1 & t2 & ->).
  apply monitor_run_split in Hr as (m1 & m2 & Hr1 & He & _).
  apply monitor_step_visit in He as (_ & Hin & _).
  apply Hq. eapply monitor_run_todo; eauto.
Qed.

(** An owed invocation comes from the visit just before. *)
Lemma monitor_run_owed m tr m' x :
  run m tr = Some m' -> owed m = None -> owed m' = Some x ->
  exists t0 h fh, tr = t0 ++ [EvVisit h fh] /\ invocation rd wr er h fh = Some x.
Proof.
  revert m'. induction tr as [|e t0 _] using rev_ind; intros m' Hr Hm Hm'.
  - simpl in Hr. injection Hr as <-. congruence.
  - apply monitor_run_split in Hr as (m1 & m2 & Hr1 & He & Hr2).
    simpl in Hr2. injection Hr2 as <-.
    unfold monitor_step in He. destruct (owed m1) as [y|] eqn:Ho.
    + case_decide; [|done]. injection He as <-. simpl in Hm'. done.
    + destruct e; try done; try (injection He as <-; congruence).
      * case_decide; [|done]. injection He as <-. simpl in Hm'. eauto.
      * case_decide; [done|]. injection He as <-. congruence.
      * injection He as <-. simpl in Hm'. done.
      * injection He as <-. simpl in Hm'. done.
Qed.

(** Every invocation is the one called for by the visit just before. *)
Lemma monitor_run_invoke m tr m' t1 h cb ev ctx t2 :
  run m tr = Some m' -> owed m = None ->
  tr = t1 ++ EvInvoke h cb ev ctx :: t2 ->
  exists t0 fh,
    t1 = t0 ++ [EvVisit h fh]
    /\ callback fh = Some cb
    /\ ev = selected fh rd wr er
    /\ any_event ev = true
    /\ ctx = context fh.
Proof.
  intros Hr Hm ->.
  apply monitor_run_split in Hr as (m1 & m2 & Hr1 & He & _).
  apply monitor_step_invoke in He as [Ho _].
  destruct (monitor_run_owed _ _ _ _ Hr1 Hm Ho) as (t0 & h' & fh & -> & Hinv).
  apply invocation_handle in Hinv as (cb' & Hcb & Hany & [= -> -> -> ->]).
  exists t0, fh. done.
Qed.

Lemma monitor_run_touched m tr m' q :
  run m tr = Some m' -> q ∈ touched m' ->
  q ∈ touched m \/ exists a, q = Npos a /\ EvUpdated a ∈ tr.
Proof.
  revert m. induction tr as [|e tr IH]; intros m; simpl.
  - intros [= <-]. by left.
  - destruct (step m e) as [m1|] eqn:He; [|done].
    intros Hr Hq. destruct (IH _ Hr Hq) as [H1|(a & -> & Ha)].
    2:{ right. exists a. split; [done|in_list]. }
    unfold monitor_step in He. destruct (owed m) as [y|].
    + case_decide; [|done]. injection He as <-. by left.
    + destruct e; try done; try (injection He as <-; by left).
      * case_decide; [|done]. injection He as <-. by left.
      * case_decide; [done|]. injection He as <-. by left.
      * injection He as <-. simpl in H1.
        apply elem_of_cons in H1 as [->|H1]; [|by left].
        right. exists h. split; [done|in_list].
Qed.

(** Every visit is of a handle that is still to do, found as it was
    when the pass began unless a callback updated it, and it is
    followed by the invocation it calls for. *)
Lemma monitor_run_visit m tr m' t1 h fh t2 :
  run m tr = Some m' -> owed m' = None ->
  tr = t1 ++ EvVisit h fh :: t2 ->
  h ∈ todo m
  /\ (forall fh', EvVisit h fh' ∉ t1)
  /\ (h ∉ touched m -> (forall a, h = Npos a -> EvUpdated a ∉ t1) ->
      p0 h = Some (payload fh))
  /\ (forall x, invocation rd wr er h fh = Some x ->
                exists t2', t2 = invoke_event x :: t2').
Proof.
  intros Hr Hm' ->.
  apply monitor_run_split in Hr as (m1 & m2 & Hr1 & He & Hr2).
  apply monitor_step_visit in He as (Ho1 & Hin & Hpay & ->).
  split_and!.
  - eapply monitor_run_todo; eauto.
  - intros fh' Hv. apply list_elem_of_split in Hv as (u1 & u2 & ->).
    apply monitor_run_split in Hr1 as (n1 & n2 & _ & He' & Hr').
    apply monitor_step_visit in He' as (_ & _ & _ & ->).
    apply (monitor_run_todo _ _ _ h Hr') in Hin. simpl in Hin.
    apply list_elem_of_filter in Hin as [Hne _]. done.
  - intros Hnt Hnu. destruct Hpay as [Ht|Hp]; [|done].
    destruct (monitor_run_touched _ _ _ _ Hr1 Ht) as [?|(a & -> & Ha)]; [done|].
    exfalso. by apply (Hnu a).
  - intros x Hx. destruct t2 as [|e t2'].
    + simpl in Hr2. injection Hr2 as <-. simpl in Hm'. congruence.
    + simpl in Hr2. destruct (step _ e) as [m3|] eqn:He; [|done].
      apply (monitor_step_owed _ _ _ x) in He; [|done]. subst e. eauto.
Qed.

(** Once an address has left [todo] (or never was in it) and no
    invocation is owed, it is neither visited nor invoked. *)
Lemma monitor_run_out m tr m' q e :
  run m tr = Some m' -> owed m = None -> q ∉ todo m -> e ∈ tr ->
  (forall fh, e <> EvVisit q fh) /\ (forall cb ev ctx, e <> EvInvoke q cb ev ctx).
Proof.
  intros Hr Hm Hq He. split.
  - intros fh ->. by eapply monitor_run_no_visit.
  - intros cb ev ctx ->. apply list_elem_of_split in He as (t1 & t2 & ->).
    destruct (monitor_run_invoke _ _ _ _ _ _ _ _ _ Hr Hm eq_refl)
      as (t0 & fh & -> & _).
    eapply (monitor_run_no_visit _ _ _ q fh); [exact Hr|done|]. in_list.
Qed.

Lemma monitor_run_after_deregister m tr m' t1 a t2 e :
  run m tr = Some m' ->
  tr = t1 ++ EvDeregistered a :: t2 -> e ∈ t2 ->
  (forall fh, e <> EvVisit (Npos a) fh)
  /\ (forall cb ev ctx, e <> EvInvoke (Npos a) cb ev ctx).
Proof.
  intros Hr -> He.
  apply monitor_run_split in Hr as (m1 & m2 & _ & Hs & Hr2).
  assert (owed m2 = None /\ Npos a ∉ todo m2) as [Ho Hq].
  { unfold monitor_step in Hs. destruct (owed m1) as [y|].
    - case_decide as Heq; [|done]. destruct y as [[[? ?] ?] ?]. done.
    - injection Hs as <-. simpl. split; [done|].
      rewrite list_elem_of_filter. intros [? _]. done. }
  by eapply monitor_run_out.
Qed.

Lemma monitor_run_after_register m tr m' t1 a t2 e :
  run m tr = Some m' ->
  tr = t1 ++ EvRegistered a :: t2 -> e ∈ t2 ->
  (forall fh, e <> EvVisit (Npos a) fh)
  /\ (forall cb ev ctx, e <> EvInvoke (Npos a) cb ev ctx).
Proof.
  intros Hr -> He.
  apply monitor_run_split in Hr as (m1 & m2 & _ & Hs & Hr2).
  assert (owed m2 = None /\ Npos a ∉ todo m2) as [Ho Hq].
  { unfold monitor_step in Hs. destruct (owed m1) as [y|] eqn:Hy.
    - case_decide as Heq; [|done]. destruct y as [[[? ?] ?] ?]. done.
    - case_decide; [done|]. injection Hs as <-. done. }
  by eapply monitor_run_out.
Qed.

End Monitor.

(** *** Callbacks keep the pass consistent *)

Lemma elem_of_remove_middle (l1 l2 : list N) (p q : N) :
  NoDup (l1 ++ p :: l2) ->
  q ∈ l1 ++ l2 <-> q ∈ l1 ++ p :: l2 /\ q <> p.
Proof.
  intros Hnd. apply NoDup_app in Hnd as (_ & Hdisj & Hnd2).
  apply NoDup_cons in Hnd2 as [Hp2 _].
  rewrite !elem_of_app, elem_of_cons. split.
  - intros [Hq|Hq].
    + split; [by left|]. intros ->. apply (Hdisj p Hq). in_list.
    + split; [by right; right|]. intros ->. done.
  - intros [[Hq|[->|Hq]] Hne]; [by left|done|by right].
Qed.

Section Pass.

Variable calloc_handle : runLoop_t -> option positive.
Variables rd wr er : gset Z.
Variable p0 : N -> option (Z * HAPPlatformFileHandleEvent * option Z * Z * bool).

Hypothesis calloc_fresh :
  forall s a, calloc_handle s = Some a -> handles s !! Npos a = None.

Local Abbreviation run := (monitor_run rd wr er p0).
Local Abbreviation inv := (pass_inv p0).

Lemma pass_inv_frame s s' pre rem m :
  handles s' = handles s -> fileHandleCursor s' = fileHandleCursor s ->
  inv s pre rem m -> inv s' pre rem m.
Proof.
  intros Hh Hc ((Hl & Hcur) & Ho & Htodo & Hpay).
  unfold pass_inv, at_cursor, handle_list, awaiting in *.
  rewrite Hh, Hc. done.
Qed.

Lemma pass_inv_register s pre rem m fd i cb ctx a s' err :
  inv s pre rem m ->
  HAPPlatformFileHandleRegister calloc_handle s fd i cb ctx
    = Some (s', err, Some a) ->
  exists pre' rem',
    run m [EvRegistered a] = Some m
    /\ inv s' pre' rem' m
    /\ (count_awaiting s' (pre' ++ rem') <= count_awaiting s (pre ++ rem))%nat.
Proof using calloc_fresh.
  intros ((Hl & Hcur) & Ho & Htodo & Hpay) Hreg.
  assert (calloc_handle s = Some a) as Hc.
  { unfold HAPPlatformFileHandleRegister in Hreg.
    destruct (calloc_handle s) as [a'|]; [|done].
    repeat (match type of Hreg with
            | (mbind _ ?x = Some _) => destruct x; [|done]; cbn [mbind option_bind] in Hreg
            end).
    by injection Hreg as _ _ ->. }
  destruct (register_spec calloc_handle calloc_fresh s (pre ++ rem) fd i cb ctx a Hl Hc)
    as (s1 & Hreg1 & Hl1 & Hfresh & Hcur1 & _ & _ & Hpnew & Hpold).
  rewrite Hreg in Hreg1. injection Hreg1 as <- _.
  set (p := Npos a) in *.
  assert (forall q, q ∈ pre ++ rem -> q <> p) as Hne.
  { intros q Hq ->. apply Hfresh. in_list. }
  assert (awaiting s' p = false) as Hap.
  { unfold awaiting. unfold payload_at in Hpnew.
    destruct (handles s' !! p) as [f|]; [|done]. simpl in Hpnew.
    by injection Hpnew as _ _ _ _ ->. }
  assert (forall q, q <> p -> awaiting s' q = awaiting s q) as Haq.
  { intros q Hq. apply awaiting_payload. by apply Hpold. }
  exists (match rem with [] => pre ++ [p] | _ => pre end),
         (match rem with [] => [] | _ => rem ++ [p] end).
  assert ((match rem with [] => pre ++ [p] | _ => pre end)
            ++ (match rem with [] => [] | _ => rem ++ [p] end)
          = (pre ++ rem) ++ [p]) as Hlist.
  { destruct rem; [by rewrite !app_nil_r|by rewrite app_assoc]. }
  split_and!.
  - simpl. unfold monitor_step. rewrite Ho.
    rewrite decide_False; [done|].
    intros Hin. apply Htodo in Hin as [Hin _]. apply (Hne p); [in_list|done].
  - split_and!; [split| | |].
    + by rewrite Hlist.
    + rewrite Hcur1, Hcur. destruct rem; done.
    + done.
    + intros q. rewrite Htodo. split.
      * intros [Hq Ha]. assert (q <> p) by (apply Hne; in_list).
        rewrite Haq by done. split; [|done].
        destruct rem; [by apply elem_of_nil in Hq|in_list].
      * intros [Hq Ha]. destruct rem as [|c r]; [by apply elem_of_nil in Hq|].
        apply elem_of_app in Hq as [Hq|Hq].
        -- assert (q <> p) by (apply Hne; in_list). rewrite <- Haq by done. done.
        -- apply list_elem_of_singleton in Hq. subst q. congruence.
    + intros q Hq Hnt. rewrite <- (Hpay q Hq Hnt). apply Hpold.
      apply Htodo in Hq as [Hq _]. apply Hne. in_list.
  - rewrite Hlist. apply count_awaiting_le.
    + destruct Hl1 as (Hnd & _). by apply NoDup_cons in Hnd as [_ ?].
    + intros q Hq Ha. apply elem_of_app in Hq as [Hq|Hq].
      * split; [done|]. rewrite <- Haq; [done|]. by apply Hne.
      * apply list_elem_of_singleton in Hq. subst q. congruence.
Qed.

Lemma pass_inv_deregister s pre rem m a s' :
  inv s pre rem m ->
  HAPPlatformFileHandleDeregister s a = Some s' ->
  exists pre' rem' m',
    run m [EvDeregistered a] = Some m'
    /\ inv s' pre' rem' m'
    /\ (count_awaiting s' (pre' ++ rem') <= count_awaiting s (pre ++ rem))%nat.
Proof.
  intros ((Hl & Hcur) & Ho & Htodo & Hpay) Hder.
  set (p := Npos a) in *.
  assert (p ∈ pre ++ rem) as Hin.
  { destruct (decide (p ∈ pre ++ rem)) as [|Hn]; [done|].
    rewrite (deregister_unknown s (pre ++ rem) a Hl Hn) in Hder. done. }
  assert (NoDup (pre ++ rem) /\ fileHandles ∉ pre ++ rem) as [Hnd H0].
  { destruct Hl as (Hnd & _). apply NoDup_cons in Hnd. tauto. }
  assert (exists l1 l2 pre' rem',
             pre ++ rem = l1 ++ p :: l2
             /\ l1 ++ l2 = pre' ++ rem'
             /\ (forall q, q ∈ rem' <-> q ∈ rem /\ q <> p)
             /\ (if decide (Some p = fileHandleCursor s)
                 then Some (hd fileHandles l2) else fileHandleCursor s)
                = Some (hd fileHandles rem'))
    as (l1 & l2 & pre' & rem' & Heq & Heq' & Hrem & Hcursor).
  { apply elem_of_app in Hin as [Hp|Hp].
    - apply list_elem_of_split in Hp as (a1 & a2 & ->).
      exists a1, (a2 ++ rem), (a1 ++ a2), rem.
      rewrite <- !app_assoc. split_and!; try done.
      + intros q. split; [|tauto]. intros Hq. split; [done|]. intros ->.
        rewrite <- app_assoc in Hnd. apply NoDup_app in Hnd as (_ & _ & Hnd).
        simpl in Hnd. apply NoDup_cons in Hnd as [Hnd _]. apply Hnd. in_list.
      + rewrite Hcur. rewrite decide_False; [done|].
        intros [= Hhd]. destruct rem as [|c r]; simpl in Hhd.
        * apply H0. rewrite <- Hhd. in_list.
        * rewrite <- app_assoc in Hnd. apply NoDup_app in Hnd as (_ & _ & Hnd).
          simpl in Hnd. apply NoDup_cons in Hnd as [Hnd _]. apply Hnd.
          rewrite Hhd. in_list.
    - apply list_elem_of_split in Hp as (r1 & r2 & ->).
      exists (pre ++ r1), r2, pre, (r1 ++ r2).
      rewrite <- !app_assoc. split_and!; try done.
      + intros q. apply elem_of_remove_middle.
        by apply NoDup_app in Hnd as (_ & _ & ?).
      + rewrite Hcur. destruct r1 as [|y r1]; simpl.
        * rewrite decide_True by done. done.
        * rewrite decide_False; [done|]. intros [= ->].
          apply NoDup_app in Hnd as (_ & _ & Hnd).
          apply NoDup_cons in Hnd as [Hnd _]. apply Hnd. in_list. }
  rewrite Heq in Hl.
  destruct (deregister_spec s l1 a l2 Hl)
    as (s1 & Hder1 & Hl1 & Hcur1 & _ & _ & Hgone & Hpold).
  fold p in Hcur1, Hgone, Hpold.
  rewrite Hder in Hder1. injection Hder1 as <-.
  assert (awaiting s' p = false) as Hap.
  { unfold awaiting. by rewrite Hgone. }
  assert (forall q, q <> p -> awaiting s' q = awaiting s q) as Haq.
  { intros q Hq. apply awaiting_payload. by apply Hpold. }
  exists pre', rem',
    (mk_monitor (filter (fun x => x <> p) (todo m)) None (touched m)).
  split_and!.
  - simpl. unfold monitor_step. rewrite Ho. done.
  - split_and!; [split| | |].
    + by rewrite <- Heq'.
    + rewrite Hcur1. done.
    + done.
    + intros q. simpl. rewrite list_elem_of_filter, Htodo, Hrem. split.
      * intros (Hne & Hq & Ha). rewrite Haq by done. done.
      * intros ((Hq & Hne) & Ha). rewrite <- Haq by done. done.
    + intros q. simpl. rewrite list_elem_of_filter. intros [Hne Hq] Hnt.
      rewrite <- (Hpay q Hq Hnt). by apply Hpold.
  - rewrite <- Heq'. apply count_awaiting_le.
    + destruct Hl1 as (Hnd1 & _). by apply NoDup_cons in Hnd1 as [_ ?].
    + intros q Hq Ha.
      assert (q ∈ pre ++ rem /\ q <> p) as [Hq' Hne].
      { rewrite Heq. apply elem_of_remove_middle; [|done]. by rewrite <- Heq. }
      split; [done|]. rewrite <- Haq; done.
Qed.

Lemma pass_inv_update s pre rem m a i cb ctx s' :
  inv s pre rem m ->
  HAPPlatformFileHandleUpdateInterests s a i cb ctx = Some s' ->
  exists m',
    run m [EvUpdated a] = Some m'
    /\ inv s' pre rem m'
    /\ (count_awaiting s' (pre ++ rem) <= count_awaiting s (pre ++ rem))%nat.
Proof.
  intros ((Hl & Hcur) & Ho & Htodo & Hpay) Hup.
  set (p := Npos a) in *.
  destruct (handles s !! p) as [fh|] eqn:Hfh.
  2:{ unfold HAPPlatformFileHandleUpdateInterests, store in Hup.
      fold p in Hup. rewrite Hfh in Hup. done. }
  destruct (update_spec s (pre ++ rem) a i cb ctx fh Hl Hfh) as [Hup1 Hl1].
  rewrite Hup in Hup1. injection Hup1 as ->.
  fold p in Hl1.
  set (s' := set_handles (<[p := set_interests i cb ctx fh]> (handles s)) s) in *.
  assert (forall q, awaiting s' q = awaiting s q) as Haq.
  { intros q. unfold awaiting, s'. simpl. rewrite lookup_insert.
    destruct (decide (p = q)) as [<-|]; [|done]. rewrite Hfh. done. }
  assert (forall q, q <> p -> payload_at (handles s') q = payload_at (handles s) q) as Hpold.
  { intros q Hq. unfold s'. simpl. rewrite payload_insert.
    rewrite decide_False by done. done. }
  exists (mk_monitor (todo m) None (p :: touched m)).
  split_and!.
  - simpl. unfold monitor_step. rewrite Ho. done.
  - split_and!; [split| | |].
    + done.
    + done.
    + done.
    + intros q. simpl. rewrite Htodo, Haq. done.
    + intros q. simpl. intros Hq Hnt. rewrite <- (Hpay q Hq).
      * apply Hpold. intros ->. apply Hnt. in_list.
      * intros Hin. apply Hnt. in_list.
  - apply count_awaiting_le.
    + destruct Hl as (Hnd & _). by apply NoDup_cons in Hnd as [_ ?].
    + intros q Hq Ha. rewrite <- Haq. done.
Qed.

Lemma register_failed s fd i cb ctx s' err :
  HAPPlatformFileHandleRegister calloc_handle s fd i cb ctx = Some (s', err, None) ->
  s' = s.
Proof.
  unfold HAPPlatformFileHandleRegister.
  destruct (calloc_handle s) as [a'|]; [|by intros [= <-]].
  intros Hreg.
  repeat (match type of Hreg with
          | (mbind _ ?x = Some _) => destruct x; [|done]; cbn [mbind option_bind] in Hreg
          end).
  done.
Qed.

Variable calloc_timer : runLoop_t -> option positive.

Lemma do_call_inv c s pre rem m s' evs :
  inv s pre rem m ->
  do_call calloc_handle calloc_timer c s = Some (s', evs) ->
  exists pre' rem' m',
    run m evs = Some m'
    /\ inv s' pre' rem' m'
    /\ (count_awaiting s' (pre' ++ rem') <= count_awaiting s (pre ++ rem))%nat.
Proof using calloc_fresh.
  intros Hinv Hcall.
  assert (owed m = None) as Ho by (destruct Hinv as (_ & ? & _); done).
  assert (forall s1 e,
             handles s1 = handles s -> fileHandleCursor s1 = fileHandleCursor s ->
             monitor_step rd wr er p0 m e = Some m ->
             exists pre' rem' m',
               run m [e] = Some m'
               /\ inv s1 pre' rem' m'
               /\ (count_awaiting s1 (pre' ++ rem') <= count_awaiting s (pre ++ rem))%nat)
    as Hframe.
  { intros s1 e Hh Hc He. exists pre, rem, m. split_and!.
    - simpl. rewrite He. done.
    - by apply (pass_inv_frame s).
    - unfold count_awaiting, awaiting. rewrite Hh. done. }
  destruct c as [fd i cb ctx|h i cb ctx|h|d cb ctx|t|]; simpl in Hcall.
  - destruct (HAPPlatformFileHandleRegister calloc_handle s fd i cb ctx)
      as [[[s1 err] [a|]]|] eqn:Hreg; [| |done]; simpl in Hcall;
      injection Hcall as <- <-.
    + destruct (pass_inv_register _ _ _ _ _ _ _ _ _ _ _ Hinv Hreg)
        as (pre' & rem' & ? & ? & ?).
      exists pre', rem', m. done.
    + apply register_failed in Hreg as ->.
      apply Hframe; [done|done|]. unfold monitor_step. by rewrite Ho.
  - destruct (HAPPlatformFileHandleUpdateInterests s h i cb ctx) as [s1|] eqn:Hup;
      [|done]. simpl in Hcall. injection Hcall as <- <-.
    destruct (pass_inv_update _ _ _ _ _ _ _ _ _ Hinv Hup) as (m' & ? & ? & ?).
    exists pre, rem, m'. done.
  - destruct (HAPPlatformFileHandleDeregister s h) as [s1|] eqn:Hder; [|done].
    simpl in Hcall. injection Hcall as <- <-.
    by apply (pass_inv_deregister s).
  - unfold HAPPlatformTimerRegister in Hcall.
    destruct (calloc_timer s) as [t|]; injection Hcall as <- <-.
    + apply Hframe; [done|done|]. unfold monitor_step. by rewrite Ho.
    + apply Hframe; [done|done|]. unfold monitor_step. by rewrite Ho.
  - unfold HAPPlatformTimerDeregister in Hcall.
    destruct (remove_timer t (timers s)) as [l|]; [|done].
    simpl in Hcall. injection Hcall as <- <-.
    apply Hframe; [done|done|]. unfold monitor_step. by rewrite Ho.
  - injection Hcall as <- <-.
    apply Hframe.
    + unfold HAPPlatformRunLoopStop. by destruct (state s).
    + unfold HAPPlatformRunLoopStop. by destruct (state s).
    + unfold monitor_step. by rewrite Ho.
Qed.

(** The calls of one callback: the run ends, completed or aborted,
    and leaves the pass consistent. *)
Lemma run_calls_inv cs :
  forall s pre rem m tr st s' tr',
    inv s pre rem m ->
    run_calls calloc_handle calloc_timer cs s tr = (st, s', tr') ->
    st <> OutOfFuel
    /\ exists evs pre' rem' m',
        tr' = tr ++ evs
        /\ run m evs = Some m'
        /\ inv s' pre' rem' m'
        /\ (count_awaiting s' (pre' ++ rem') <= count_awaiting s (pre ++ rem))%nat.
Proof using calloc_fresh.
  induction cs as [|c cs IH]; intros s pre rem m tr st s' tr' Hinv Hrun; simpl in Hrun.
  - injection Hrun as <- <- <-. split; [done|].
    exists [], pre, rem, m. rewrite app_nil_r. done.
  - destruct (do_call calloc_handle calloc_timer c s) as [[s1 evs]|] eqn:Hc.
    + destruct (do_call_inv _ _ _ _ _ _ _ Hinv Hc) as (pre1 & rem1 & m1 & Hr1 & Hinv1 & Hle1).
      destruct (IH _ _ _ _ _ _ _ _ Hinv1 Hrun)
        as (Hst & evs2 & pre2 & rem2 & m2 & -> & Hr2 & Hinv2 & Hle2).
      split; [done|]. exists (evs ++ evs2), pre2, rem2, m2.
      split_and!; [by rewrite app_assoc| |done|lia].
      rewrite monitor_run_app, Hr1. done.
    + injection Hrun as <- <- <-. split; [done|].
      exists [], pre, rem, m. rewrite app_nil_r. done.
Qed.

(** A call that fails at a consistent point of a pass is a fatal
    one: a registration cannot fail there. *)
Lemma do_call_fatal c s pre rem m :
  inv s pre rem m ->
  do_call calloc_handle calloc_timer c s = None -> fatal c s.
Proof using calloc_fresh.
  intros ((Hl & _) & _) Hcall.
  destruct c as [fd i cb ctx|h i cb ctx|h|d cb ctx|t|]; simpl in Hcall; simpl.
  - exfalso.
    destruct (calloc_handle s) as [a|] eqn:Ha.
    + destruct (register_spec calloc_handle calloc_fresh s _ fd i cb ctx a Hl Ha)
        as (s' & Hreg & _).
      rewrite Hreg in Hcall. done.
    + unfold HAPPlatformFileHandleRegister in Hcall. rewrite Ha in Hcall. done.
  - unfold HAPPlatformFileHandleUpdateInterests, store in Hcall.
    destruct (handles s !! Npos h); [done|done].
  - destruct (handles s !! Npos h) as [fh|] eqn:Hfh; [|done]. exfalso.
    assert (Npos h ∈ pre ++ rem) as Hin.
    { destruct Hl as (_ & _ & Hdom).
      assert (Npos h ∈ fileHandles :: pre ++ rem) as Hx by (apply Hdom; eauto).
      apply elem_of_cons in Hx as [Hx|Hx]; done. }
    apply list_elem_of_split in Hin as (l1 & l2 & Heq). rewrite Heq in Hl.
    destruct (deregister_spec s l1 h l2 Hl) as (s' & Hder & _).
    rewrite Hder in Hcall. done.
  - exfalso. unfold HAPPlatformTimerRegister in Hcall.
    destruct (calloc_timer s); done.
  - unfold HAPPlatformTimerDeregister in Hcall.
    destruct (remove_timer t (timers s)) as [l|] eqn:Hrem; [done|].
    clear Hcall. revert Hrem. generalize (timers s). intros l.
    induction l as [|x l IH]; simpl; intros Hrem; [by apply not_elem_of_nil|].
    destruct (decide (x.1 = t)) as [|Hne]; [done|].
    destruct (remove_timer t l); [done|].
    apply not_elem_of_cons. split; [done|by apply IH].
  - done.
Qed.

Lemma run_calls_aborted cs :
  forall s tr s' tr',
    run_calls calloc_handle calloc_timer cs s tr = (Aborted, s', tr') ->
    exists c, c ∈ cs /\ do_call calloc_handle calloc_timer c s' = None.
Proof.
  induction cs as [|c cs IH]; intros s tr s' tr' Hrun; simpl in Hrun; [done|].
  destruct (do_call calloc_handle calloc_timer c s) as [[s1 evs]|] eqn:Hc.
  - destruct (IH _ _ _ _ Hrun) as (c' & Hin & Hnone).
    exists c'. split; [by right|done].
  - injection Hrun as <- <-. exists c. split; [by left|done].
Qed.

Variable handle_callback :
  Z -> N -> HAPPlatformFileHandleEvent -> Z -> runLoop_t -> list call.

Local Abbreviation loop :=
  (ProcessSelectedFileHandles_loop calloc_handle calloc_timer handle_callback).

Lemma pass_end_app pfx st s' sfx :
  pass_end handle_callback st s' sfx -> pass_end handle_callback st s' (pfx ++ sfx).
Proof.
  intros [Ha Hc]. split; [|exact Hc].
  intros Hst. destruct (Ha Hst) as [Hd|(h & cb & ev & ctx & s2 & c & Hin & Hc' & Hf)].
  - by left.
  - right. exists h, cb, ev, ctx, s2, c. split; [|done].
    apply elem_of_app. by right.
Qed.

(** The loop from any consistent point of a pass: it ends, and the
    monitor accepts everything it adds to the trace; when it
    completes, nothing is left to do. *)
Lemma loop_spec :
  forall n k s pre rem m tr,
    inv s pre rem m ->
    (count_awaiting s (pre ++ rem) <= n)%nat ->
    (length rem <= k)%nat ->
    exists fuel st s' sfx m',
      loop fuel rd wr er s tr = (st, s', tr ++ sfx)
      /\ st <> OutOfFuel
      /\ run m sfx = Some m'
      /\ owed m' = None
      /\ (st = Completed -> todo m' = [])
      /\ pass_end handle_callback st s' sfx.
Proof using calloc_fresh.
  induction n as [n IHn] using lt_wf_ind.
  induction k as [|k IHk]; intros s pre rem m tr Hinv Hn Hk.
  - destruct rem as [|c rem']; [|simpl in Hk; lia].
    destruct Hinv as ((Hl & Hcur) & Ho & Htodo & Hpay).
    exists 1%nat, Completed, s, [], m. simpl. rewrite Hcur. simpl.
    rewrite app_nil_r.
    split_and!; try done.
    + intros _. apply elem_of_nil_inv. intros q Hq.
      apply Htodo in Hq as [Hq _]. by apply elem_of_nil in Hq.
    + split; [done|]. intros _. split; [done|].
      exists pre. by rewrite app_nil_r in Hl.
  - destruct rem as [|c rem'].
    { apply (IHk s pre [] m tr); [done|done|simpl; lia]. }
    pose proof Hinv as ((Hl & Hcur) & Ho & Htodo & Hpay).
    pose proof Hl as (Hnd & Hch & Hdom).
    assert (NoDup (pre ++ c :: rem') /\ fileHandles ∉ pre ++ c :: rem') as [Hnd' H0].
    { apply NoDup_cons in Hnd. tauto. }
    assert (c <> fileHandles) as Hc0 by (intros ->; apply H0; in_list).
    assert (c ∉ rem') as Hcrem.
    { apply NoDup_app in Hnd' as (_ & _ & Hx). by apply NoDup_cons in Hx as [? _]. }
    destruct (handles s !! c) as [fh|] eqn:Hfh.
    2:{ exfalso. assert (is_Some (handles s !! c)) as [? ?] by (apply Hdom; in_list).
        congruence. }
    assert (nextFileHandle fh = Some (hd fileHandles rem')) as Hnext.
    { apply chain_app in Hch as [_ Hch2]. apply chain_next_of_start in Hch2.
      unfold nxt in Hch2. rewrite Hfh in Hch2. done. }
    set (s1 := set_cursor (nextFileHandle fh) s).
    destruct (isAwaitingEvents fh) eqn:Haw.
    + (* the handle awaits events *)
      destruct (decide (fileDescriptor fh = -1)) as [Hfd|Hfd].
      { (* the assertion on the descriptor stops the run *)
        exists 1%nat, Aborted, s1, [], m. rewrite app_nil_r.
        split_and!; try done.
        - cbn [ProcessSelectedFileHandles_loop]. rewrite Hcur. cbn [hd].
          rewrite decide_False by done. rewrite Hfh, Haw.
          rewrite decide_True by done. done.
        - split; [|done]. intros _. left. exists c, fh. done. }
      assert (awaiting s c = true) as Hac by (unfold awaiting; by rewrite Hfh).
      set (s2 := set_handles (<[c := set_awaiting false fh]> (handles s1)) s1).
      set (m1 := mk_monitor (filter (fun x => x <> c) (todo m)) None (touched m)).
      assert (monitor_step rd wr er p0 m (EvVisit c fh)
              = Some (mk_monitor (filter (fun x => x <> c) (todo m))
                        (invocation rd wr er c fh) (touched m))) as Hstep.
      { unfold monitor_step. rewrite Ho. rewrite decide_True; [done|]. split.
        - apply Htodo. split; [in_list|done].
        - destruct (decide (c ∈ touched m)) as [|Hnt]; [by left|right].
          rewrite <- Hpay; [|apply Htodo; split; [in_list|done]|done].
          unfold payload_at. by rewrite Hfh. }
      assert (forall q, q <> c -> payload_at (handles s2) q = payload_at (handles s) q)
        as Hpold.
      { intros q Hq. unfold s2, s1. simpl. rewrite payload_insert.
        by rewrite decide_False. }
      assert (awaiting s2 c = false) as Hac2.
      { unfold awaiting, s2, s1. simpl. by rewrite lookup_insert_eq. }
      assert (inv s2 (pre ++ [c]) rem' m1) as Hinv2.
      { split_and!; [split| | |].
        - rewrite <- app_assoc. simpl. split_and!; [done| |].
          + unfold s2, s1. simpl. eapply chain_ext; [| |exact Hch].
            * intros x _. rewrite nxt_insert.
              destruct (decide (c = x)) as [<-|]; [|done]. unfold nxt. by rewrite Hfh.
            * intros x _. rewrite prv_insert.
              destruct (decide (c = x)) as [<-|]; [|done]. unfold prv. by rewrite Hfh.
          + intros q. unfold s2, s1. simpl. rewrite lookup_insert.
            destruct (decide (c = q)) as [<-|]; [|apply Hdom].
            rewrite <- Hdom, Hfh. split; eauto.
        - unfold s2, s1. simpl. done.
        - done.
        - intros q. simpl. rewrite list_elem_of_filter, Htodo, elem_of_cons. split.
          + intros (Hne & [?|Hq] & Ha); [done|].
            split; [done|]. rewrite (awaiting_payload s s2); [done|by apply Hpold].
          + intros (Hq & Ha). assert (q <> c) as Hne by (intros ->; done).
            split_and!; [done|by right|].
            rewrite <- (awaiting_payload s s2); [done|by apply Hpold].
        - intros q. simpl. rewrite list_elem_of_filter. intros [Hne Hq] Hnt.
          rewrite <- (Hpay q Hq Hnt). by apply Hpold. }
      assert (count_awaiting s2 ((pre ++ [c]) ++ rem') < count_awaiting s (pre ++ c :: rem'))%nat
        as Hlt.
      { rewrite <- app_assoc. simpl.
        apply (count_awaiting_lt s s2 _ _ c); try done; [in_list|].
        intros q Hq Ha. assert (q <> c) as Hne by (intros ->; congruence).
        split_and!; [done| |done].
        rewrite <- (awaiting_payload s s2); [done|by apply Hpold]. }
      destruct (invocation rd wr er c fh) as [x|] eqn:Hinvk.
      * (* the callback is invoked *)
        apply invocation_handle in Hinvk as (cb & Hcb & Hany & ->).
        set (ev := selected fh rd wr er) in *.
        set (tr2 := (tr ++ [EvVisit c fh]) ++ [EvInvoke c cb ev (context fh)]).
        destruct (run_calls calloc_handle calloc_timer
                    (handle_callback cb c ev (context fh) s2) s2 tr2)
          as [[st3 s3] tr3] eqn:Hcalls.
        destruct (run_calls_inv _ _ _ _ _ _ _ _ _ Hinv2 Hcalls)
          as (Hst3 & evs & pre3 & rem3 & m3 & -> & Hr3 & Hinv3 & Hle3).
        assert (run m ([EvVisit c fh; EvInvoke c cb ev (context fh)] ++ evs) = Some m3)
          as Hrun3.
        { simpl. rewrite Hstep. unfold monitor_step at 1. simpl.
          rewrite decide_True by done. exact Hr3. }
        destruct st3.
        -- destruct (IHn (count_awaiting s3 (pre3 ++ rem3)) ltac:(lia) (length rem3)
                       s3 pre3 rem3 m3 (tr2 ++ evs) Hinv3 ltac:(lia) ltac:(lia))
             as (fuel & st & s4 & sfx & m4 & Hloop & Hst & Hr4 & Ho4 & Hdone & Hend).
           exists (S fuel), st, s4,
             (([EvVisit c fh; EvInvoke c cb ev (context fh)] ++ evs) ++ sfx), m4.
           split_and!; try done.
           ++ cbn [ProcessSelectedFileHandles_loop]. rewrite Hcur. cbn [hd].
              rewrite decide_False by done. rewrite Hfh, Haw.
              rewrite decide_False by done. rewrite Hcb. fold ev. rewrite Hany.
              fold s1 s2 tr2. rewrite Hcalls. rewrite Hloop.
              unfold tr2. rewrite <- !app_assoc. done.
           ++ rewrite monitor_run_app, Hrun3. done.
           ++ by apply pass_end_app.
        -- exists 1%nat, Aborted, s3,
             ([EvVisit c fh; EvInvoke c cb ev (context fh)] ++ evs), m3.
           split_and!; try done.
           ++ cbn [ProcessSelectedFileHandles_loop]. rewrite Hcur. cbn [hd].
              rewrite decide_False by done. rewrite Hfh, Haw.
              rewrite decide_False by done. rewrite Hcb. fold ev. rewrite Hany.
              fold s1 s2 tr2. rewrite Hcalls.
              unfold tr2. rewrite <- !app_assoc. done.
           ++ by destruct Hinv3 as (_ & ? & _).
           ++ split; [|done]. intros _. right.
              destruct (run_calls_aborted _ _ _ _ _ Hcalls) as (c0 & Hin0 & Hnone).
              exists c, cb, ev, (context fh), s2, c0. split_and!; [in_list|done|].
              by apply (do_call_fatal c0 s3 pre3 rem3 m3).
        -- done.
      * (* no callback, or no event of interest *)
        destruct (IHn (count_awaiting s2 ((pre ++ [c]) ++ rem')) ltac:(lia) (length rem')
                    s2 (pre ++ [c]) rem' m1 (tr ++ [EvVisit c fh]) Hinv2
                    ltac:(lia) ltac:(lia))
          as (fuel & st & s4 & sfx & m4 & Hloop & Hst & Hr4 & Ho4 & Hdone & Hend).
        exists (S fuel), st, s4, ([EvVisit c fh] ++ sfx), m4.
        split_and!; try done.
        -- cbn [ProcessSelectedFileHandles_loop]. rewrite Hcur. cbn [hd].
           rewrite decide_False by done. rewrite Hfh, Haw.
           rewrite decide_False by done. fold s1 s2.
           unfold invocation in Hinvk.
           destruct (callback fh) as [cb|].
           ++ destruct (any_event (selected fh rd wr er)); [done|].
              rewrite Hloop. by rewrite <- app_assoc.
           ++ rewrite Hloop. by rewrite <- app_assoc.
        -- simpl. rewrite Hstep. exact Hr4.
        -- by apply pass_end_app.
    + (* the handle does not await events: the cursor moves on *)
      assert (awaiting s c = false) as Hac by (unfold awaiting; by rewrite Hfh).
      assert (inv s1 (pre ++ [c]) rem' m) as Hinv1.
      { split_and!; [split| | |].
        - rewrite <- app_assoc. done.
        - unfold s1. simpl. done.
        - done.
        - intros q. rewrite Htodo, elem_of_cons. split.
          + intros ([->|Hq] & Ha); [congruence|done].
          + intros (Hq & Ha). split; [by right|done].
        - done. }
      destruct (IHk s1 (pre ++ [c]) rem' m tr Hinv1) as
        (fuel & st & s4 & sfx & m4 & Hloop & Hst & Hr4 & Ho4 & Hdone & Hend).
      { rewrite <- app_assoc. done. }
      { simpl in Hk. lia. }
      exists (S fuel), st, s4, sfx, m4.
      split_and!; try done.
      cbn [ProcessSelectedFileHandles_loop]. rewrite Hcur. cbn [hd].
      rewrite decide_False by done. rewrite Hfh, Haw. fold s1. exact Hloop.
Qed.

End Pass.

(** *** Fuel, and the descriptors of the handles that await events *)

Section Ends.

Variable calloc_handle : runLoop_t -> option positive.
Variable calloc_timer : runLoop_t -> option positive.
Variable handle_callback :
  Z -> N -> HAPPlatformFileHandleEvent -> Z -> runLoop_t -> list call.
Variables rd wr er : gset Z.

Local Abbreviation loop :=
  (ProcessSelectedFileHandles_loop calloc_handle calloc_timer handle_callback).

(** A pass that ends within its step budget ends the same way
    within any larger one. *)
Lemma loop_fuel_mono fuel :
  forall fuel' s tr st s' tr',
    loop fuel rd wr er s tr = (st, s', tr') -> st <> OutOfFuel ->
    (fuel <= fuel')%nat ->
    loop fuel' rd wr er s tr = (st, s', tr').
Proof.
  induction fuel as [|fuel IH]; intros fuel' s tr st s' tr' Hrun Hst Hle.
  - simpl in Hrun. congruence.
  - destruct fuel' as [|fuel']; [lia|].
    cbn [ProcessSelectedFileHandles_loop] in *.
    repeat case_match; try done; try (apply IH; [done|done|lia]).
Qed.

Lemma pass_fuel_mono fuel fuel' s st s' tr :
  ProcessSelectedFileHandles calloc_handle calloc_timer handle_callback
    fuel rd wr er s = (st, s', tr) ->
  st <> OutOfFuel -> (fuel <= fuel')%nat ->
  ProcessSelectedFileHandles calloc_handle calloc_timer handle_callback
    fuel' rd wr er s = (st, s', tr).
Proof.
  unfold ProcessSelectedFileHandles. destruct (handles s !! fileHandles); [|done].
  apply loop_fuel_mono.
Qed.

Lemma heap_ok_insert (h : heap) p fh :
  heap_ok h -> (isAwaitingEvents fh = true -> fileDescriptor fh <> -1) ->
  heap_ok (<[p := fh]> h).
Proof.
  intros Hok Hfh q fh'. rewrite lookup_insert.
  destruct (decide (p = q)); [intros [= <-]; done|apply Hok].
Qed.

Lemma heap_ok_delete (h : heap) p : heap_ok h -> heap_ok (delete p h).
Proof.
  intros Hok q fh'. rewrite lookup_delete.
  destruct (decide (p = q)); [done|apply Hok].
Qed.

Lemma heap_ok_store (h h' : heap) p f :
  heap_ok h -> store p f h = Some h' ->
  (forall fh, isAwaitingEvents (f fh) = isAwaitingEvents fh
              /\ fileDescriptor (f fh) = fileDescriptor fh) ->
  heap_ok h'.
Proof.
  intros Hok Hst Hf. unfold store in Hst.
  destruct (h !! p) as [fh|] eqn:Hfh; [|done]. injection Hst as <-.
  apply heap_ok_insert; [done|].
  destruct (Hf fh) as [-> ->]. by apply (Hok p).
Qed.

Lemma do_call_has_descriptors c s s' evs :
  has_descriptors s ->
  do_call calloc_handle calloc_timer c s = Some (s', evs) ->
  has_descriptors s'.
Proof.
  unfold has_descriptors. intros Hok Hcall.
  destruct c as [fd i cb ctx|h i cb ctx|h|d cb ctx|t|]; simpl in Hcall.
  - unfold HAPPlatformFileHandleRegister in Hcall.
    destruct (calloc_handle s) as [a|]; [|by injection Hcall as <- <-].
    destruct (handles s !! fileHandles) as [sen|]; [|done]. cbn in Hcall.
    destruct (<[Npos a:=_]> (handles s) !! fileHandles) as [sen1|]; [|done].
    cbn in Hcall.
    destruct (prevFileHandle sen1) as [tail|]; [|done]. cbn in Hcall.
    destruct (store tail _ _) as [h2|] eqn:H2; [|done]. cbn in Hcall.
    destruct (store fileHandles _ h2) as [h3|] eqn:H3; [|done]. cbn in Hcall.
    injection Hcall as <- <-. simpl.
    eapply heap_ok_store; [|exact H3|done].
    eapply heap_ok_store; [|exact H2|done].
    apply heap_ok_insert; done.
  - unfold HAPPlatformFileHandleUpdateInterests in Hcall.
    destruct (store (Npos h) _ (handles s)) as [h1|] eqn:H1; [|done].
    cbn in Hcall. injection Hcall as <- <-. simpl.
    eapply heap_ok_store; [done|exact H1|done].
  - unfold HAPPlatformFileHandleDeregister in Hcall.
    destruct (handles s !! Npos h) as [fh|]; [|done]. cbn in Hcall.
    destruct (prevFileHandle fh) as [prev|]; [|done]. cbn in Hcall.
    destruct (nextFileHandle fh) as [next|]; [|done]. cbn in Hcall.
    destruct (store prev _ (handles s)) as [h1|] eqn:H1; [|done]. cbn in Hcall.
    destruct (h1 !! Npos h) as [fh1|]; [|done]. cbn in Hcall.
    destruct (nextFileHandle fh1) as [next1|]; [|done]. cbn in Hcall.
    destruct (store next1 _ h1) as [h2|] eqn:H2; [|done]. cbn in Hcall.
    injection Hcall as <- <-. simpl.
    apply heap_ok_delete.
    eapply heap_ok_store; [|exact H2|done].
    eapply heap_ok_store; [done|exact H1|done].
  - unfold HAPPlatformTimerRegister in Hcall.
    destruct (calloc_timer s); by injection Hcall as <- <-.
  - unfold HAPPlatformTimerDeregister in Hcall.
    destruct (remove_timer t (timers s)); [|done].
    cbn in Hcall. by injection Hcall as <- <-.
  - injection Hcall as <- <-. unfold HAPPlatformRunLoopStop. by destruct (state s).
Qed.

Lemma run_calls_has_descriptors cs :
  forall s tr st s' tr',
    has_descriptors s ->
    run_calls calloc_handle calloc_timer cs s tr = (st, s', tr') ->
    has_descriptors s'.
Proof.
  induction cs as [|c cs IH]; intros s tr st s' tr' Hok Hrun; simpl in Hrun.
  - by injection Hrun as <- <- <-.
  - destruct (do_call calloc_handle calloc_timer c s) as [[s1 evs]|] eqn:Hc.
    + apply (IH _ _ _ _ _ (do_call_has_descriptors _ _ _ _ Hok Hc) Hrun).
    + by injection Hrun as <- <- <-.
Qed.

(** The assertion on the descriptor does not fail in a pass that
    begins with a descriptor in every handle that awaits events:
    nothing a callback calls takes a descriptor away or makes a
    handle await events. *)
Lemma loop_has_descriptors fuel :
  forall s tr st s' tr',
    has_descriptors s ->
    loop fuel rd wr er s tr = (st, s', tr') ->
    has_descriptors s'.
Proof.
  induction fuel as [|fuel IH]; intros s tr st s' tr' Hok Hrun.
  - simpl in Hrun. by injection Hrun as <- <- <-.
  - cbn [ProcessSelectedFileHandles_loop] in Hrun.
    destruct (fileHandleCursor s) as [p|]; [|by injection Hrun as <- <- <-].
    destruct (decide (p = fileHandles)); [by injection Hrun as <- <- <-|].
    destruct (handles s !! p) as [fh|] eqn:Hfh; [|by injection Hrun as <- <- <-].
    set (s1 := set_cursor (nextFileHandle fh) s) in *.
    assert (has_descriptors s1) as Hok1 by done.
    destruct (isAwaitingEvents fh) eqn:Haw; [|by apply (IH _ _ _ _ _ Hok1 Hrun)].
    destruct (decide (fileDescriptor fh = -1)); [by injection Hrun as <- <- <-|].
    set (s2 := set_handles (<[p := set_awaiting false fh]> (handles s1)) s1) in *.
    assert (has_descriptors s2) as Hok2.
    { unfold has_descriptors, s2. simpl. apply heap_ok_insert; [done|]. done. }
    destruct (callback fh) as [cb|]; [|by apply (IH _ _ _ _ _ Hok2 Hrun)].
    destruct (any_event (selected fh rd wr er)); [|by apply (IH _ _ _ _ _ Hok2 Hrun)].
    destruct (run_calls calloc_handle calloc_timer _ s2 _) as [[st3 s3] tr3] eqn:Hcalls.
    pose proof (run_calls_has_descriptors _ _ _ _ _ _ Hok2 Hcalls) as Hok3.
    destruct st3; [by apply (IH _ _ _ _ _ Hok3 Hrun)|by injection Hrun as <- <- <-..].
Qed.

Lemma has_descriptors_not_no_descriptor s : has_descriptors s -> ~ no_descriptor s.
Proof. intros Hok (h & fh & Hfh & Haw & Hfd). by apply (Hok h fh). Qed.

End Ends.


(** C10. [HAPPlatformFileHandleUpdateInterests] on a registered handle
    writes the interests, the callback and the context of that handle:
    its descriptor, its links and its awaiting flag stay, every other
    struct stays, the handles are the same list in the same order, and
    the cursor, the timers and the state of the run loop stay. *)
Theorem update_interests_frame (s : runLoop_t) (l : list N) (a : positive)
    (i : HAPPlatformFileHandleEvent) (cb : option Z) (ctx : Z) :
  handle_list s l ->
  Npos a ∈ l ->
  exists fh s',
    handles s !! Npos a = Some fh
    /\ HAPPlatformFileHandleUpdateInterests s a i cb ctx = Some s'
    /\ handles s' !! Npos a
       = Some (mk_handle (fileDescriptor fh) i cb ctx
                 (prevFileHandle fh) (nextFileHandle fh) (isAwaitingEvents fh))
    /\ (forall q, q <> Npos a -> handles s' !! q = handles s !! q)
    /\ handle_list s' l
    /\ fileHandleCursor s' = fileHandleCursor s
    /\ timers s' = timers s
    /\ state s' = state s.
Proof.
  intros Hl Hin.
  destruct (handle_list_lookup s l _ Hl Hin) as [[fh Hfh] _].
  destruct (update_spec s l a i cb ctx fh Hl Hfh) as [Hup Hl'].
  exists fh. eexists. split_and!; [done|exact Hup| | |done|done|done|done].
  - simpl. by rewrite lookup_insert_eq.
  - intros q Hq. simpl. by rewrite lookup_insert_ne.
Qed.

(** *** The sample registry *)

Lemma next_handle_fresh s a :
  next_handle s = Some a -> handles s !! Npos a = None.
Proof.
  unfold next_handle.
  destruct (fresh (dom (handles s))) as [|p] eqn:Hf; [done|].
  intros [= <-]. apply not_elem_of_dom. rewrite <- Hf. apply is_fresh.
Qed.

Lemma three_handles_list : handle_list three_handles [1; 2; 3]%N.
Proof.
  split_and!.
  - unfold fileHandles. repeat (apply NoDup_cons; split; [in_list|]). apply NoDup_nil_2.
  - vm_compute. repeat split.
  - intros p. unfold three_handles, fileHandles. simpl.
    rewrite !elem_of_cons, elem_of_nil.
    destruct (decide (p = 0%N)) as [->|H0]; [split; [tauto|intros _; by eexists]|].
    rewrite lookup_insert_ne by done.
    destruct (decide (p = 1%N)) as [->|H1]; [split; [tauto|intros _; by eexists]|].
    rewrite lookup_insert_ne by done.
    destruct (decide (p = 2%N)) as [->|H2]; [split; [tauto|intros _; by eexists]|].
    rewrite lookup_insert_ne by done.
    destruct (decide (p = 3%N)) as [->|H3]; [split; [tauto|intros _; by eexists]|].
    rewrite lookup_singleton_ne by done.
    split; [intros [? ?]; done|]. intros [?|[?|[?|[?|[]]]]]; done.
Qed.

(** The pass over the sample registry when every descriptor is
    readable: the callback of handle 1 deregisters handle 2, on which
    the cursor stands, and registers a new handle at address 4. Handle
    2 is not taken, the new handle is not invoked, handle 3 is. *)
Example pass_over_three_handles :
  (let '(st, s', tr) :=
     ProcessSelectedFileHandles next_handle next_timer busy_callback
       10 all_readable ∅ ∅ three_handles in
   (st, fileHandleCursor s', tr))
  = (Completed, Some fileHandles,
     [ EvVisit 1 (mk_handle 4 reading (Some 100) 0 (Some 0%N) (Some 2%N) true);
       EvInvoke 1 100 reading 0;
       EvDeregistered 2;
       EvRegistered 4;
       EvVisit 3 (mk_handle 6 reading (Some 300) 0 (Some 1%N) (Some 4%N) true);
       EvInvoke 3 300 reading 0 ]).
Proof. vm_compute. reflexivity. Qed.

Lemma three_handles_have_descriptors : has_descriptors three_handles.
Proof.
  intros p fh Hfh Haw. unfold three_handles in Hfh. simpl in Hfh.
  destruct (decide (p = 0%N)) as [->|H0].
  { rewrite lookup_insert_eq in Hfh. injection Hfh as <-. done. }
  rewrite lookup_insert_ne in Hfh by done.
  destruct (decide (p = 1%N)) as [->|H1].
  { rewrite lookup_insert_eq in Hfh. injection Hfh as <-. done. }
  rewrite lookup_insert_ne in Hfh by done.
  destruct (decide (p = 2%N)) as [->|H2].
  { rewrite lookup_insert_eq in Hfh. injection Hfh as <-. done. }
  rewrite lookup_insert_ne in Hfh by done.
  destruct (decide (p = 3%N)) as [->|H3].
  { rewrite lookup_singleton_eq in Hfh. injection Hfh as <-. done. }
  by rewrite lookup_singleton_ne in Hfh.
Qed.


Lemma update_interests_frame_witness :
  handle_list three_handles [1; 2; 3]%N
  /\ 2%N ∈ [1; 2; 3]%N
  /\ exists fh s',
      handles three_handles !! 2%N = Some fh
      /\ HAPPlatformFileHandleUpdateInterests three_handles 2 no_events None 9 = Some s'
      /\ handles s' !! 2%N
         = Some (mk_handle (fileDescriptor fh) no_events None 9
                   (prevFileHandle fh) (nextFileHandle fh) (isAwaitingEvents fh))
      /\ (forall q, q <> 2%N -> handles s' !! q = handles three_handles !! q)
      /\ handle_list s' [1; 2; 3]%N
      /\ fileHandleCursor s' = fileHandleCursor three_handles
      /\ timers s' = timers three_handles
      /\ state s' = state three_handles.
Proof.
  assert (2%N ∈ [1; 2; 3]%N) as Hin by in_list.
  split; [exact three_handles_list|]. split; [exact Hin|].
  exact (update_interests_frame three_handles [1; 2; 3]%N 2 no_events None 9
           three_handles_list Hin).
Defined.

End FileHandle_facts.

(** ** Loopback channel *)

Module Loopback_facts.
Import RunLoop Loopback Loopback_inputs.

Lemma to_nat_uint8 (n : nat) : (n <= 255)%nat -> Byte.to_nat (uint8 n) = n.
Proof.
  intros Hn. unfold uint8.
  rewrite Nat.mod_small by lia.
  destruct (Byte.of_nat n) as [b|] eqn:Hb.
  - simpl. by apply Byte.to_of_nat.
  - apply Byte.of_nat_None_iff in Hb. lia.
Qed.

(** Moving [n] bytes from offset [src] to the front of the array. *)
Lemma copy_to_front_length (src n : nat) (a : list byte) :
  (src + n <= length a)%nat ->
  length (HAPRawBufferCopyBytes 0 src n a) = length a.
Proof.
  intros H. unfold HAPRawBufferCopyBytes. simpl.
  rewrite length_app, length_take, !length_drop. lia.
Qed.

Lemma copy_to_front_take (src n : nat) (a : list byte) :
  (src + n <= length a)%nat ->
  take n (HAPRawBufferCopyBytes 0 src n a) = take n (drop src a).
Proof.
  intros H. unfold HAPRawBufferCopyBytes. simpl.
  rewrite take_app_le by (rewrite length_take, length_drop; lia).
  rewrite take_take. f_equal. lia.
Qed.

Section Channel.

Variable P : nat.

Local Abbreviation frame_ok := (frame_ok P).
Local Abbreviation incomplete := (incomplete P).
Local Abbreviation capacity := (capacity P).

Lemma encode_length f :
  length (encode f) = (length (f_callback f) + 1 + length (f_context f))%nat.
Proof. unfold encode. rewrite !length_app. simpl. lia. Qed.

Lemma incomplete_short bs : incomplete bs -> (length bs < capacity)%nat.
Proof.
  unfold Loopback.incomplete, Loopback.capacity, UINT8_MAX.
  pose proof (Byte.to_nat_bounded (nth P bs Byte.x00)). lia.
Qed.

Lemma incomplete_prefix bs more : incomplete (bs ++ more) -> incomplete bs.
Proof.
  unfold Loopback.incomplete. rewrite length_app.
  intros [H|H]; [left; lia|].
  destruct (Nat.lt_ge_cases (length bs) (P + 1)) as [Hs|Hl]; [by left|right].
  rewrite app_nth1 in H by lia. lia.
Qed.

Lemma encode_prefix_incomplete f bs more :
  frame_ok f -> bs ++ more = encode f -> more <> [] -> incomplete bs.
Proof.
  intros [Hcb Hctx] Heq Hne. unfold Loopback.incomplete.
  assert (length bs < length (encode f))%nat as Hlen.
  { rewrite <- Heq, length_app. destruct more; [done|simpl; lia]. }
  rewrite encode_length, Hcb in Hlen.
  destruct (Nat.lt_ge_cases (length bs) (P + 1)) as [Hs|Hl]; [by left|right].
  assert (nth P bs Byte.x00 = uint8 (length (f_context f))) as ->.
  { rewrite <- (app_nth1 bs more) by lia. rewrite Heq. unfold encode.
    rewrite app_nth2 by lia. rewrite Hcb, Nat.sub_diag. reflexivity. }
  rewrite to_nat_uint8 by (unfold UINT8_MAX in Hctx; lia). lia.
Qed.

Lemma complete_not_incomplete f more :
  frame_ok f -> ~ incomplete (encode f ++ more).
Proof.
  intros [Hcb Hctx]. unfold Loopback.incomplete.
  rewrite length_app, encode_length, Hcb.
  assert (nth P (encode f ++ more) Byte.x00 = uint8 (length (f_context f))) as ->.
  { rewrite app_nth1 by (rewrite encode_length; lia). unfold encode.
    rewrite app_nth2 by lia. rewrite Hcb, Nat.sub_diag. reflexivity. }
  rewrite to_nat_uint8 by (unfold UINT8_MAX in Hctx; lia). lia.
Qed.

(** A prefix of a stream of frames is some whole frames followed by
    the bytes of one that is not all there. *)
Lemma prefix_of_frames gs rest p more :
  Forall frame_ok gs -> incomplete rest ->
  p ++ more = encode_all gs ++ rest ->
  exists m r,
    (m <= length gs)%nat
    /\ p = encode_all (take m gs) ++ r
    /\ incomplete r
    /\ r ++ more = encode_all (drop m gs) ++ rest.
Proof.
  intros Hok Hrest. revert p.
  induction Hok as [|g gs Hg Hgs IH]; intros p Heq.
  - exists 0%nat, p. simpl in *. split_and!; [lia|done| |done].
    apply (incomplete_prefix p more). by rewrite Heq.
  - unfold encode_all in Heq. simpl in Heq. rewrite <- app_assoc in Heq.
    fold (encode_all gs) in Heq.
    destruct (Nat.le_gt_cases (length (encode g)) (length p)) as [Hle|Hgt].
    + assert (p = encode g ++ drop (length (encode g)) p) as Hp.
      { rewrite <- (take_drop (length (encode g)) p) at 1. f_equal.
        apply (f_equal (take (length (encode g)))) in Heq.
        rewrite take_app_le in Heq by lia.
        rewrite take_app_length in Heq. done. }
      destruct (IH (drop (length (encode g)) p)) as (m & r & Hm & Hp' & Hr & Hrem).
      { apply (f_equal (drop (length (encode g)))) in Heq.
        rewrite drop_app_le in Heq by lia.
        rewrite drop_app_length in Heq. done. }
      exists (S m), r. simpl. split_and!; [lia| |done|done].
      unfold encode_all. simpl. fold (encode_all (take m gs)).
      rewrite <- app_assoc, <- Hp'. done.
    + exists 0%nat, p. simpl. split_and!; [lia|done| |].
      2:{ unfold encode_all. simpl. rewrite <- app_assoc. done. }
      assert (p ++ take (length (encode g) - length p) more = encode g) as Hpe.
      { apply (f_equal (take (length (encode g)))) in Heq.
        rewrite take_app_length in Heq.
        rewrite take_app_ge in Heq by lia. done. }
      apply (encode_prefix_incomplete g p _ Hg Hpe).
      intros Hnil. rewrite Hnil, app_nil_r in Hpe.
      rewrite Hpe in Hgt. lia.
Qed.

Lemma incomplete_no_frames gs rest r :
  Forall frame_ok gs -> incomplete r -> r = encode_all gs ++ rest -> gs = [].
Proof.
  intros Hok Hr Heq. destruct gs as [|g gs]; [done|].
  inversion Hok as [|? ? Hg Hgs]; subst.
  unfold encode_all in Hr. simpl in Hr. rewrite <- app_assoc in Hr.
  by apply complete_not_incomplete in Hr.
Qed.

Lemma encode_all_length_ge gs :
  (length gs <= length (encode_all gs))%nat.
Proof.
  induction gs as [|g gs IH]; simpl; [lia|].
  unfold encode_all in *. simpl. rewrite length_app, encode_length. lia.
Qed.

Lemma nth_take_lt (i n : nat) (l : list byte) d :
  (i < n)%nat -> nth i (take n l) d = nth i l d.
Proof.
  revert i n. induction l as [|x l IH]; intros i n Hi.
  - by rewrite take_nil.
  - destruct n; [lia|]. destruct i; simpl; [done|]. apply IH. lia.
Qed.

Lemma held_length lb :
  (numLoopbackBytes lb <= length (loopbackBytes lb))%nat ->
  length (held lb) = numLoopbackBytes lb.
Proof. intros H. unfold held. rewrite length_take. lia. Qed.

(** The dispatch loop on a buffer that holds whole frames followed by
    an incomplete one: every whole frame is dispatched, in order, and
    the incomplete one is what the buffer holds afterwards. *)
Lemma dispatch_loop_frames fs :
  forall fuel lb log rest,
    Forall frame_ok fs -> incomplete rest ->
    (numLoopbackBytes lb <= length (loopbackBytes lb))%nat ->
    held lb = encode_all fs ++ rest ->
    (length fs < fuel)%nat ->
    exists lb',
      dispatch_loop P fuel lb log = (Completed, lb', log ++ map dispatch_of fs)
      /\ held lb' = rest
      /\ length (loopbackBytes lb') = length (loopbackBytes lb)
      /\ numLoopbackBytes lb' = length rest.
Proof.
  induction fs as [|f fs IH]; intros fuel lb log rest Hok Hrest Hle Hheld Hfuel.
  - destruct fuel as [|fuel]; [simpl in Hfuel; lia|].
    pose proof (held_length lb Hle) as Hnum. rewrite Hheld in Hnum. simpl in Hnum.
    simpl in Hheld. simpl. rewrite app_nil_r.
    destruct (Nat.ltb_spec (numLoopbackBytes lb) (P + 1)) as [H1|H1].
    { exists lb. split_and!; done. }
    assert (nth P (loopbackBytes lb) Byte.x00 = nth P rest Byte.x00) as ->.
    { rewrite <- Hheld. unfold held. rewrite nth_take_lt by lia. done. }
    destruct Hrest as [Hr|Hr]; [lia|].
    destruct (Nat.ltb_spec (numLoopbackBytes lb)
                (P + 1 + Byte.to_nat (nth P rest Byte.x00))) as [H2|H2]; [|lia].
    exists lb. split_and!; done.
  - destruct fuel as [|fuel]; [simpl in Hfuel; lia|].
    inversion Hok as [|? ? Hf Hfs]; subst.
    destruct Hf as [Hcb Hctx]. unfold UINT8_MAX in Hctx.
    set (c := length (f_context f)) in *.
    set (tail := encode_all fs ++ rest).
    assert (held lb = encode f ++ tail) as Hheld'.
    { rewrite Hheld. unfold encode_all. simpl. rewrite <- app_assoc. done. }
    pose proof (held_length lb Hle) as Hnum.
    rewrite Hheld', length_app, encode_length, Hcb in Hnum. fold c in Hnum.
    assert (nth P (loopbackBytes lb) Byte.x00 = uint8 c) as Hsz.
    { rewrite <- (nth_take_lt P (numLoopbackBytes lb)) by lia.
      fold (held lb). rewrite Hheld'.
      rewrite app_nth1 by (rewrite encode_length; lia). unfold encode.
      rewrite app_nth2 by lia. rewrite Hcb, Nat.sub_diag. reflexivity. }
    cbn [dispatch_loop].
    destruct (Nat.ltb_spec (numLoopbackBytes lb) (P + 1)) as [H1|H1]; [lia|].
    rewrite Hsz, to_nat_uint8 by lia.
    destruct (Nat.ltb_spec (numLoopbackBytes lb) (P + 1 + c)) as [H2|H2]; [lia|].
    set (num1 := (numLoopbackBytes lb - (P + 1))%nat).
    set (bytes1 := HAPRawBufferCopyBytes 0 (P + 1) num1 (loopbackBytes lb)).
    assert (length bytes1 = length (loopbackBytes lb)) as Hlen1
      by (apply copy_to_front_length; lia).
    assert (take num1 bytes1 = f_context f ++ tail) as Hheld1.
    { unfold bytes1. rewrite copy_to_front_take by lia.
      rewrite take_drop_commute.
      replace (P + 1 + num1)%nat with (numLoopbackBytes lb) by lia.
      fold (held lb). rewrite Hheld'.
      replace (encode f ++ tail)
        with ((f_callback f ++ [uint8 c]) ++ (f_context f ++ tail))
        by (unfold encode; rewrite <- !app_assoc; done).
      rewrite drop_app_length'; [done|].
      rewrite length_app. simpl. lia. }
    assert (take c bytes1 = f_context f) as Hctxb.
    { replace c with (Nat.min c num1) by lia. rewrite <- take_take.
      rewrite Hheld1. rewrite take_app_length'; done. }
    assert (take P (loopbackBytes lb) = f_callback f) as Hcbb.
    { replace P with (Nat.min P (numLoopbackBytes lb)) at 1 by lia.
      rewrite <- take_take. fold (held lb). rewrite Hheld'. unfold encode.
      rewrite <- app_assoc. rewrite take_app_length'; [done|lia]. }
    set (bytes2 := HAPRawBufferCopyBytes 0 c (num1 - c) bytes1).
    assert (length bytes2 = length bytes1) as Hlen2
      by (apply copy_to_front_length; lia).
    assert (take (num1 - c) bytes2 = tail) as Hheld2.
    { unfold bytes2. rewrite copy_to_front_take by lia.
      rewrite take_drop_commute.
      replace (c + (num1 - c))%nat with num1 by lia.
      rewrite Hheld1. rewrite drop_app_length'; done. }
    destruct (IH fuel (mk_loopback bytes2 (num1 - c))
                (log ++ [(take P (loopbackBytes lb),
                          (if (c =? 0)%nat then None else Some (take c bytes1)), c)])
                rest Hfs Hrest) as (lb' & Hrun & Hh & Hl & Hn).
    { simpl. lia. }
    { unfold held. simpl. done. }
    { simpl in Hfuel. lia. }
    exists lb'. split_and!; [|done| |done].
    + rewrite Hrun. rewrite Hcbb, Hctxb. rewrite <- app_assoc. reflexivity.
    + rewrite Hl. simpl. lia.
Qed.

(** One run of the receiver callback on bytes that [recv] read. *)
Lemma handle_data lb log data fs rest :
  length (loopbackBytes lb) = capacity ->
  (numLoopbackBytes lb < capacity)%nat ->
  (0 < length data <= capacity - numLoopbackBytes lb)%nat ->
  Forall frame_ok fs -> incomplete rest ->
  held lb ++ data = encode_all fs ++ rest ->
  exists lb',
    HandleLoopbackFileHandleCallback P (recv_bytes data) lb log
      = (Completed, lb', log ++ map dispatch_of fs)
    /\ held lb' = rest
    /\ length (loopbackBytes lb') = capacity.
Proof.
  intros Hcap Hnum Hdata Hok Hrest Heq.
  unfold HandleLoopbackFileHandleCallback.
  destruct (Nat.ltb_spec (numLoopbackBytes lb) capacity) as [_|]; [|lia].
  cbn [negb].
  destruct (Nat.eqb_spec (length data) 0) as [|_]; [lia|].
  destruct (Nat.ltb_spec (capacity - numLoopbackBytes lb) (length data)) as [|_]; [lia|].
  set (bytes := take (numLoopbackBytes lb) (loopbackBytes lb) ++ data
                  ++ drop (numLoopbackBytes lb + length data) (loopbackBytes lb)).
  assert (length bytes = capacity) as Hlen.
  { unfold bytes. rewrite !length_app, length_take, length_drop. lia. }
  destruct (dispatch_loop_frames fs (S (numLoopbackBytes lb + length data))
              (mk_loopback bytes (numLoopbackBytes lb + length data)) log rest
              Hok Hrest) as (lb' & Hrun & Hh & Hl & Hn).
  { simpl. lia. }
  { unfold held. simpl. unfold bytes. rewrite app_assoc.
    rewrite take_app_length'; [done|].
    rewrite length_app, length_take. lia. }
  { pose proof (encode_all_length_ge fs) as Hge.
    apply (f_equal length) in Heq. rewrite !length_app in Heq.
    unfold held in Heq. rewrite length_take in Heq. lia. }
  exists lb'. split_and!; [done|done|].
  rewrite Hl. done.
Qed.

(** The state of the channel while the stream [encode_all fs ++ rest]
    is being read: the first [n] frames have been dispatched, and the
    buffer and the unread bytes make up the others. *)
Lemma receive_invariant fs rest :
  Forall frame_ok fs -> incomplete rest ->
  forall ks pending lb log n,
    length (loopbackBytes lb) = capacity ->
    (numLoopbackBytes lb <= capacity)%nat ->
    incomplete (held lb) ->
    (n <= length fs)%nat ->
    log = map dispatch_of (take n fs) ->
    held lb ++ pending = encode_all (drop n fs) ++ rest ->
    exists lb' pending' n',
      receive P ks pending lb log
        = (Completed, lb', map dispatch_of (take n' fs), pending')
      /\ (n' <= length fs)%nat
      /\ held lb' ++ pending' = encode_all (drop n' fs) ++ rest
      /\ incomplete (held lb')
      /\ ((length pending <= length ks)%nat -> pending' = []).
Proof.
  intros Hok Hrest.
  induction ks as [|k ks IH]; intros pending lb log n Hcap Hnumle Hinc Hn Hlog Heq.
  - simpl. exists lb, pending, n. subst log. split_and!; try done.
    simpl. intros Hp. destruct pending; [done|simpl in Hp; lia].
  - assert (length (held lb) = numLoopbackBytes lb) as Hhl
      by (apply held_length; lia).
    pose proof (incomplete_short _ Hinc) as Hshort. rewrite Hhl in Hshort.
    cbn [receive]. unfold recv.
    destruct pending as [|b pending0].
    + unfold HandleLoopbackFileHandleCallback.
      destruct (Nat.ltb_spec (numLoopbackBytes lb) capacity) as [_|]; [|lia].
      cbn [negb].
      destruct (IH [] lb log n Hcap Hnumle Hinc Hn Hlog Heq)
        as (lb' & pending' & n' & Hrun & Hn' & Heq' & Hinc' & Hdone).
      exists lb', pending', n'. split_and!; try done.
      intros _. apply Hdone. simpl. lia.
    + cbv iota.
      assert (0 < length (b :: pending0))%nat as Hpos by (simpl; lia).
      set (pending := b :: pending0) in *.
      set (nd := Nat.min (S k) (Nat.min (capacity - numLoopbackBytes lb) (length pending))).
      assert (0 < nd <= capacity - numLoopbackBytes lb)%nat as Hnd.
      { unfold nd. lia. }
      assert (nd <= length pending)%nat as Hndp by (unfold nd; lia).
      destruct (prefix_of_frames (drop n fs) rest (held lb ++ take nd pending)
                  (drop nd pending)) as (m & r & Hm & Hp & Hr & Hrem).
      { by apply Forall_drop. }
      { done. }
      { rewrite <- app_assoc, take_drop. done. }
      destruct (handle_data lb log (take nd pending) (take m (drop n fs)) r)
        as (lb1 & Hrun1 & Hh1 & Hl1); try done.
      { rewrite length_take. lia. }
      { by apply Forall_take, Forall_drop. }
      rewrite Hrun1.
      rewrite length_drop in Hm.
      destruct (IH (drop nd pending) lb1 (log ++ map dispatch_of (take m (drop n fs)))
                  (n + m)%nat)
        as (lb' & pending' & n' & Hrun & Hn' & Heq' & Hinc' & Hdone).
      { done. }
      { pose proof (incomplete_short _ Hr) as Hs. rewrite <- Hh1 in Hs.
        unfold held in Hs. rewrite length_take in Hs. lia. }
      { by rewrite Hh1. }
      { lia. }
      { rewrite Hlog, <- map_app, take_take_drop. done. }
      { rewrite Hh1, Hrem, drop_drop. done. }
      exists lb', pending', n'. split_and!; try done.
      intros Hlen. apply Hdone. rewrite length_drop.
      change (length (k :: ks)) with (S (length ks)) in Hlen. lia.
Qed.

(** C5. The receiver reads a stream of well-formed frames, followed
    by the first bytes of one more, in pieces of any sizes ([ks]),
    starting from an empty buffer. Whatever the pieces, the run
    completes; the callbacks dispatched so far are the first frames
    of the stream, each once, in order, each with its callback
    pointer, its context bytes and its context size; the buffer holds
    only bytes of a frame that is not complete yet, and together with
    the unread bytes these are the rest of the stream. Once
    everything has been read, every frame has been dispatched and the
    buffer holds the incomplete frame. *)
Theorem loopback_dispatches_each_frame_once fs rest ks bytes0 :
  Forall frame_ok fs ->
  incomplete rest ->
  length bytes0 = capacity ->
  exists lb' pending' n,
    receive P ks (encode_all fs ++ rest) (mk_loopback bytes0 0) []
      = (Completed, lb', map dispatch_of (take n fs), pending')
    /\ (n <= length fs)%nat
    /\ held lb' ++ pending' = encode_all (drop n fs) ++ rest
    /\ incomplete (held lb')
    /\ ((length (encode_all fs ++ rest) <= length ks)%nat ->
        pending' = [] /\ n = length fs /\ held lb' = rest).
Proof.
  intros Hok Hrest Hcap.
  destruct (receive_invariant fs rest Hok Hrest ks (encode_all fs ++ rest)
              (mk_loopback bytes0 0) [] 0%nat)
    as (lb' & pending' & n & Hrun & Hn & Heq & Hinc & Hdone); try done.
  { simpl. lia. }
  { unfold held. simpl. left. simpl. lia. }
  { lia. }
  exists lb', pending', n. split_and!; try done.
  intros Hlen. specialize (Hdone Hlen). subst pending'.
  rewrite app_nil_r in Heq.
  assert (drop n fs = []) as Hnil.
  { eapply incomplete_no_frames; [by apply Forall_drop|exact Hinc|exact Heq]. }
  rewrite Hnil in Heq. simpl in Heq.
  split_and!; [done| |done].
  apply (f_equal length) in Hnil. rewrite length_drop in Hnil. simpl in Hnil. lia.
Qed.

(** The frame [HAPPlatformRunLoopScheduleCallback] writes is the one
    the receiver parses. *)
Lemma schedule_writes_frame PIPE_BUF cb ctx :
  (length ctx <= UINT8_MAX)%nat ->
  (length ctx + 1 + P <= PIPE_BUF)%nat ->
  HAPPlatformRunLoopScheduleCallback P PIPE_BUF cb (Some ctx) (length ctx) true
    = Some (kHAPError_None, Some (encode (mk_frame cb ctx))).
Proof.
  intros H1 H2. unfold HAPPlatformRunLoopScheduleCallback.
  rewrite bool_decide_eq_true_2 by eauto.
  rewrite andb_false_r.
  destruct (Nat.ltb_spec UINT8_MAX (length ctx)); [lia|].
  destruct (Nat.ltb_spec PIPE_BUF (length ctx + 1 + P)); [lia|].
  unfold encode. simpl. rewrite firstn_all. done.
Qed.

End Channel.

(** The stream of [two_frames] read in pieces of 3, 1 and 5 bytes
    and then to the end: after nine bytes the first frame has been
    dispatched and two bytes of the second are held; in the end both
    frames have been dispatched, in order, and the odd byte is held. *)
Example receive_two_frames :
  (let '(st, lb, log, pending) :=
     receive 4 [2; 0; 4]%nat (encode_all two_frames ++ one_more_byte)
       (mk_loopback empty_array 0) [] in
   (st, held lb, log, pending))
  = (Completed, [Byte.x05; Byte.x06],
     [([Byte.x01; Byte.x02; Byte.x03; Byte.x04], Some [Byte.xaa; Byte.xbb], 2%nat)],
     [Byte.x07; Byte.x08; Byte.x00; Byte.x09])
  /\ (let '(st, lb, log, pending) :=
        receive 4 [2; 0; 4; 9; 9]%nat (encode_all two_frames ++ one_more_byte)
          (mk_loopback empty_array 0) [] in
      (st, held lb, log, pending))
     = (Completed, [Byte.x09],
        [([Byte.x01; Byte.x02; Byte.x03; Byte.x04], Some [Byte.xaa; Byte.xbb], 2%nat);
         ([Byte.x05; Byte.x06; Byte.x07; Byte.x08], None, 0%nat)],
        []).
Proof. split; vm_compute; reflexivity. Qed.

Lemma loopback_dispatches_each_frame_once_witness :
  Forall (frame_ok 4) two_frames
  /\ incomplete 4 one_more_byte
  /\ length empty_array = capacity 4
  /\ exists lb' pending' n,
      receive 4 [2; 0; 4; 9; 9]%nat (encode_all two_frames ++ one_more_byte)
        (mk_loopback empty_array 0) []
        = (Completed, lb', map dispatch_of (take n two_frames), pending')
      /\ (n <= length two_frames)%nat
      /\ held lb' ++ pending' = encode_all (drop n two_frames) ++ one_more_byte
      /\ incomplete 4 (held lb')
      /\ ((length (encode_all two_frames ++ one_more_byte)
           <= length [2; 0; 4; 9; 9]%nat)%nat ->
          pending' = [] /\ n = length two_frames /\ held lb' = one_more_byte).
Proof.
  assert (Forall (frame_ok 4) two_frames) as H1.
  { repeat constructor; simpl; lia. }
  assert (incomplete 4 one_more_byte) as H2.
  { left. simpl. lia. }
  assert (length empty_array = capacity 4) as H3 by reflexivity.
  split; [exact H1|]. split; [exact H2|]. split; [exact H3|].
  exact (loopback_dispatches_each_frame_once 4 two_frames one_more_byte
           [2; 0; 4; 9; 9]%nat empty_array H1 H2 H3).
Defined.

End Loopback_facts.

(** ** Message queue: the ring and the waiters *)

Module LMQ_ring_facts.
Import LMQ LMQ_inputs LMQ_ring.

(** *** Ring positions *)

Lemma slot_after_0 c f : 1 <= f <= c + 1 -> slot_after c f 0 = f.
Proof.
  intros H. unfold slot_after. rewrite Z.add_0_r, Z.mod_small by lia. lia.
Qed.

Lemma slot_after_range c f i : 1 <= c -> 1 <= slot_after c f i <= c + 1.
Proof.
  intros H. unfold slot_after.
  pose proof (Z.mod_pos_bound (f - 1 + i) (c + 1)). lia.
Qed.

(** Advancing an index as [send] and [recv] do is one step on the ring. *)
Lemma slot_after_succ c f i :
  1 <= c ->
  (if slot_after c f i + 1 >? c + 1 then 1 else slot_after c f i + 1)
  = slot_after c f (i + 1).
Proof.
  intros Hc. unfold slot_after.
  set (x := f - 1 + i). set (n := c + 1).
  replace (f - 1 + (i + 1)) with (x + 1) by (unfold x; lia).
  assert (0 < n) as Hn by (unfold n; lia).
  pose proof (Z.mod_pos_bound x n Hn) as Hb.
  pose proof (Z.div_mod x n ltac:(lia)) as Hx.
  destruct (Z.gtb_spec (x mod n + 1 + 1) n) as [Hgt|Hle].
  - assert (x mod n = n - 1) as Hr by lia.
    rewrite <- (Z.mod_unique (x + 1) n (x / n + 1) 0); [lia|lia|lia].
  - rewrite <- (Z.mod_unique (x + 1) n (x / n) (x mod n + 1)); [lia|lia|lia].
Qed.

Lemma slot_after_shift c f i :
  1 <= c -> slot_after c (slot_after c f 1) i = slot_after c f (i + 1).
Proof.
  intros Hc. unfold slot_after.
  replace ((f - 1 + 1) mod (c + 1) + 1 - 1 + i) with ((f - 1 + 1) mod (c + 1) + i) by lia.
  rewrite Z.add_mod_idemp_l by lia. f_equal. f_equal. lia.
Qed.

(** Fewer steps than there are slots lead to distinct slots. *)
Lemma slot_after_inj c f i j :
  1 <= c -> 0 <= i < j -> j <= c -> slot_after c f i <> slot_after c f j.
Proof.
  intros Hc Hij Hj. unfold slot_after. intros Heq.
  assert ((f - 1 + i) mod (c + 1) = (f - 1 + j) mod (c + 1)) as Hm by lia.
  pose proof (Z.div_mod (f - 1 + i) (c + 1) ltac:(lia)) as Hi.
  pose proof (Z.div_mod (f - 1 + j) (c + 1) ltac:(lia)) as Hj'.
  rewrite Hm in Hi.
  assert (j - i = (c + 1) * ((f - 1 + j) / (c + 1) - (f - 1 + i) / (c + 1))) as Hd by lia.
  set (d := (f - 1 + j) / (c + 1) - (f - 1 + i) / (c + 1)) in Hd.
  destruct (Z.le_gt_cases d 0); nia.
Qed.

(** What borders there are. *)
Lemma border_no_nil {value : Type} (is_nil : value -> bool) (m : list value) n :
  border is_nil m n -> Forall (fun v => is_nil v = false) m -> n = length m.
Proof.
  intros (Hle & _ & Hnext) Hall.
  destruct (decide (n = length m)) as [|Hne]; [done|].
  destruct (lookup_lt_is_Some_2 m n) as [v Hv]; [lia|].
  rewrite Forall_lookup in Hall. specialize (Hall n v Hv). simpl in Hall.
  specialize (Hnext v Hv). congruence.
Qed.

Lemma border_last_nil {value : Type} (is_nil : value -> bool) (m0 : list value) v n :
  border is_nil (m0 ++ [v]) n -> is_nil v = true -> (n <= length m0)%nat.
Proof.
  intros (Hle & Hkey & _) Hv. rewrite length_app in Hle. simpl in Hle.
  destruct (decide (n = S (length m0))) as [->|]; [|lia].
  destruct Hkey as [|(v' & Hv' & Hn)]; [done|].
  simpl in Hv'. rewrite Nat.sub_0_r in Hv'.
  rewrite lookup_app_r in Hv' by lia. rewrite Nat.sub_diag in Hv'. simpl in Hv'.
  congruence.
Qed.

Lemma first_border_is_border m : border is_none m (first_border m).
Proof.
  induction m as [|[z|] m (Hle & Hkey & Hnext)].
  - split_and!; [done|by left|]. intros v Hv. done.
  - split_and!.
    + simpl. lia.
    + right. simpl. rewrite Nat.sub_0_r.
      destruct Hkey as [->|(v & Hv & Hn)].
      * exists (Some z). done.
      * exists v. split; [|done].
        destruct (first_border m) as [|k].
        -- simpl in Hv. apply Hnext in Hv. congruence.
        -- simpl in *. by rewrite Nat.sub_0_r in Hv.
    + intros v Hv. simpl in Hv. by apply Hnext.
  - split_and!; [simpl; lia|by left|]. intros v Hv. simpl in Hv. by injection Hv as <-.
Qed.

Section Generic.

Variable SIZE_WIDTH : Z.
Context {value thread : Type}.
Variable is_nil : value -> bool.
Variable luaL_len : list value -> nat.
Variable resume : thread -> list value -> lmq value thread -> lmq value thread.

Local Abbreviation wrap := (wrap SIZE_WIDTH).
Local Abbreviation lmq_size := (lmq_size SIZE_WIDTH).
Local Abbreviation lmq_create := (lmq_create SIZE_WIDTH).
Local Abbreviation lmq_obj_send := (lmq_obj_send SIZE_WIDTH).
Local Abbreviation lmq_obj_recv := (lmq_obj_recv SIZE_WIDTH).
Local Abbreviation send_many := (send_many SIZE_WIDTH).
Local Abbreviation buffered := (buffered SIZE_WIDTH).
Local Abbreviation recv_each := (recv_each SIZE_WIDTH luaL_len).

Lemma wrap_in_range z : 0 <= z < 2 ^ SIZE_WIDTH -> wrap z = z.
Proof. intros H. unfold wrap. by apply Z.mod_small. Qed.

(** What [lmq_size] computes on a ring that holds [k] messages: [k]
    before the wrap, [k - 1] after it. *)
Lemma lmq_size_ring c f k :
  1 <= c -> c + 2 < 2 ^ SIZE_WIDTH -> 1 <= f <= c + 1 -> 0 <= k <= c ->
  lmq_size (mk_obj f (slot_after c f k) c)
  = if f - 1 + k <? c + 1 then k else k - 1.
Proof.
  intros Hc Hw Hf Hk. unfold lmq_size, slot_after. cbn [first last size].
  destruct (Z.ltb_spec (f - 1 + k) (c + 1)) as [Hlt|Hge].
  - rewrite Z.mod_small by lia.
    destruct (Z.gtb_spec f (f - 1 + k + 1)); [lia|].
    rewrite wrap_in_range by lia. lia.
  - assert ((f - 1 + k) mod (c + 1) = f - 1 + k - (c + 1)) as ->.
    { symmetry. apply (Z.mod_unique _ _ 1); lia. }
    destruct (Z.gtb_spec f (f - 1 + k - (c + 1) + 1)); [|lia].
    unfold wrap. rewrite Z.add_mod_idemp_l by lia.
    rewrite Z.mod_small; lia.
Qed.

Local Abbreviation send := (lmq_obj_send value thread resume).
Local Abbreviation recv := (lmq_obj_recv value thread luaL_len).

(** X1. Wherever the ring indices stand, the queue is a FIFO as long
    as fewer messages are buffered than its capacity: a send with
    nobody waiting succeeds, buffers nothing else and puts the
    message behind the buffered ones; a [recv] takes the oldest
    message and keeps the others in order; on an empty ring a
    [recv] suspends its caller behind the coroutines that wait
    already. What [recv] returns of the message are its values up
    to the length that Lua reports for its table, a border: all
    of them when none is nil, and not the last one when that is
    nil. *)
Theorem ring_is_fifo_below_capacity (q : lmq value thread) (ms : list (list value)) :
  (forall m, border is_nil m (luaL_len m)) ->
  buffered q ms ->
  (forall args,
      wait q = None -> Z.of_nat (length ms) < size (obj q) ->
      exists q',
        send q args = Returned (q', [])
        /\ buffered q' (ms ++ [args]) /\ wait q' = None
        /\ size (obj q') = size (obj q))
  /\ (forall co m ms',
      ms = m :: ms' ->
      exists q',
        recv q co = Returned (q', take (luaL_len m) m)
        /\ (Forall (fun v => is_nil v = false) m -> take (luaL_len m) m = m)
        /\ (forall m0 v, m = m0 ++ [v] -> is_nil v = true ->
              (luaL_len m <= length m0)%nat)
        /\ buffered q' ms' /\ wait q' = wait q
        /\ size (obj q') = size (obj q))
  /\ (forall co,
      ms = [] ->
      exists q',
        recv q co = Yielded (q', [])
        /\ buffered q' [] /\ wait q' = Some (default [] (wait q) ++ [co])
        /\ obj q' = obj q).
Proof.
  intros Hborder (Hc & Hw & Hf & Hk & Hl & Hs).
  destruct q as [[f l c] sl w]. cbn [obj slots wait first last size] in *.
  set (k := Z.of_nat (length ms)) in *.
  assert (0 <= k) as Hk0 by (unfold k; lia).
  split_and!.
  - intros args -> Hlt.
    pose proof (lmq_size_ring c f k Hc Hw Hf ltac:(lia)) as Hsz.
    rewrite <- Hl in Hsz.
    pose proof (slot_after_range c f k Hc) as Hlr. rewrite <- Hl in Hlr.
    eexists. split_and!.
    + unfold lmq_obj_send. cbn [wait obj first last size].
      destruct (Z.eqb_spec (lmq_size (mk_obj f l c)) c) as [He|_].
      { rewrite Hsz in He. destruct (f - 1 + k <? c + 1); lia. }
      reflexivity.
    + unfold buffered. cbn [obj slots first last size]. rewrite !wrap_in_range by lia.
      rewrite length_app. cbn [length].
      replace (Z.of_nat (length ms + 1)) with (k + 1) by (unfold k; lia).
      split_and!; try lia.
      * rewrite Hl. apply slot_after_succ. done.
      * intros i m Hi.
        destruct (decide (i = length ms)) as [->|Hne].
        -- rewrite lookup_app_r in Hi by lia. rewrite Nat.sub_diag in Hi.
           injection Hi as <-. fold k. rewrite <- Hl. by rewrite lookup_insert_eq.
        -- assert (i < length ms)%nat as Hil.
           { apply lookup_lt_Some in Hi. rewrite length_app in Hi. simpl in Hi. lia. }
           rewrite lookup_app_l in Hi by done.
           rewrite lookup_insert_ne; [by apply Hs|].
           rewrite Hl. intros Heq. symmetry in Heq. revert Heq.
           apply slot_after_inj; unfold k; lia.
    + done.
    + done.
  - intros co m ms' ->. cbn [length] in *.
    assert (1 <= k <= c) as Hk1 by (unfold k in *; lia).
    assert (l <> f) as Hne.
    { rewrite Hl. rewrite <- (slot_after_0 c f Hf) at 2.
      intros Heq. symmetry in Heq. revert Heq. apply slot_after_inj; lia. }
    assert (sl !! f = Some m) as Hm.
    { specialize (Hs 0%nat m eq_refl). by rewrite slot_after_0 in Hs. }
    pose proof (slot_after_succ c f 0 Hc) as Hf1.
    rewrite slot_after_0 in Hf1 by done. change (0 + 1) with 1 in Hf1.
    pose proof (slot_after_range c f 1 Hc) as Hf1r.
    eexists. split_and!.
    + unfold lmq_obj_recv. cbn [obj slots wait first last size].
      destruct (Z.eqb_spec l f) as [|_]; [done|]. rewrite Hm. reflexivity.
    + intros Hall. rewrite (border_no_nil is_nil m _ (Hborder m) Hall).
      apply firstn_all.
    + intros m0 v -> Hv. apply (border_last_nil is_nil m0 v); [apply Hborder|done].
    + unfold buffered. cbn [obj slots first last size]. rewrite !wrap_in_range by lia.
      rewrite Hf1. split_and!; try lia.
      * rewrite slot_after_shift by done. rewrite Hl. f_equal. unfold k. lia.
      * intros i x Hi. rewrite slot_after_shift by done.
        assert (i < length ms')%nat as Hil by (by apply lookup_lt_Some in Hi).
        rewrite lookup_delete_ne.
        -- replace (Z.of_nat i + 1) with (Z.of_nat (S i)) by lia. by apply Hs.
        -- rewrite <- (slot_after_0 c f Hf) at 1.
           apply slot_after_inj; unfold k in *; lia.
    + done.
    + done.
  - intros co ->. cbn [length] in *.
    assert (l = f) as -> by (rewrite Hl; by apply slot_after_0).
    eexists. split_and!.
    + unfold lmq_obj_recv. cbn [obj wait first last].
      rewrite Z.eqb_refl.
      instantiate (1 := mk_lmq (mk_obj f f c) sl (Some (default [] w ++ [co]))).
      destruct w; reflexivity.
    + unfold buffered. cbn [obj slots first last size length]. split_and!; try lia; try done.
    + done.
    + done.
Qed.

(** X2. With nobody waiting and the ring indices in range, a send
    fails with the full error exactly when [first] is the first
    slot and [last] the last one; in every other state it succeeds
    and stores the message at [last]. *)
Theorem full_error_iff_first_to_last (q : lmq value thread) (args : list value) :
  wait q = None ->
  1 <= size (obj q) -> size (obj q) + 2 < 2 ^ SIZE_WIDTH ->
  1 <= first (obj q) <= size (obj q) + 1 ->
  1 <= last (obj q) <= size (obj q) + 1 ->
  (is_full_error (send q args) = true
   <-> first (obj q) = 1 /\ last (obj q) = size (obj q) + 1)
  /\ (is_full_error (send q args) = false ->
      exists q', send q args = Returned (q', [])
                 /\ slots q' = <[last (obj q) := args]> (slots q)
                 /\ first (obj q') = first (obj q)).
Proof.
  clear is_nil luaL_len.
  destruct q as [[f l c] sl w]. cbn [obj slots wait first last size].
  intros -> Hc Hw Hf Hl.
  assert (lmq_size (mk_obj f l c) = c <-> f = 1 /\ l = c + 1) as Hsz.
  { unfold lmq_size. cbn [first last size].
    destruct (Z.gtb_spec f l) as [Hgt|Hle].
    - destruct (decide (f = c + 1)) as [->|Hne].
      + replace (c - (c + 1)) with (-1) by lia.
        unfold wrap. rewrite Z.add_mod_idemp_l by lia.
        rewrite <- (Z.mod_unique (-1 + l) (2 ^ SIZE_WIDTH) 0 (l - 1)); lia.
      + rewrite (wrap_in_range (c - f)) by lia. rewrite wrap_in_range by lia. lia.
    - rewrite wrap_in_range by lia. lia. }
  unfold lmq_obj_send. cbn [obj slots wait first last size].
  destruct (Z.eqb_spec (lmq_size (mk_obj f l c)) c) as [He|Hne].
  - split; [simpl; tauto|]. simpl. done.
  - split.
    + simpl. split; [done|]. intros H. by apply Hsz in H.
    + intros _. eexists. split_and!; reflexivity.
Qed.

(** X3. Coroutines that call [recv] on an empty queue are suspended
    and listed in the order of their calls, the queue itself is
    left as it was; the next send resumes them in that order, each
    with the sent values. *)
Theorem waiters_resumed_in_order_of_recv (q : lmq value thread)
    (cs : list thread) (args : list value) :
  wait q = None -> last (obj q) = first (obj q) -> cs <> [] ->
  exists q1 q2,
    recv_each cs q = Some q1
    /\ wait q1 = Some cs /\ obj q1 = obj q /\ slots q1 = slots q
    /\ send q1 args = Returned (q2, map (fun co => (co, args)) cs).
Proof.
  intros Hw He Hcs.
  assert (forall cs' (q0 : lmq value thread) ws,
             last (obj q0) = first (obj q0) -> wait q0 = Some ws ->
             exists q1, recv_each cs' q0 = Some q1
                        /\ wait q1 = Some (ws ++ cs')
                        /\ obj q1 = obj q0 /\ slots q1 = slots q0) as Hmore.
  { induction cs' as [|co cs' IH]; intros q0 ws He0 Hw0.
    - exists q0. rewrite app_nil_r. done.
    - cbn [recv_each]. unfold lmq_obj_recv. rewrite He0, Z.eqb_refl, Hw0.
      destruct (IH (set_wait value thread (Some (ws ++ [co])) q0) (ws ++ [co]))
        as (q1 & Hr & Hw1 & Ho1 & Hs1); [done|done|].
      exists q1. rewrite <- app_assoc in Hw1. done. }
  destruct cs as [|co cs]; [done|].
  cbn [recv_each]. unfold lmq_obj_recv. rewrite He, Z.eqb_refl, Hw.
  destruct (Hmore cs (set_wait value thread (Some [co]) q) [co])
    as (q1 & Hr & Hw1 & Ho1 & Hs1); [done|done|].
  exists q1. eexists. split_and!; [done|done|done|done|].
  unfold lmq_obj_send. rewrite Hw1.
  pose proof (LMQ_facts.resume_waiters_spec resume [] (co :: cs) args
                (set_wait value thread None q1) []) as H.
  simpl in H. simpl. rewrite H. reflexivity.
Qed.

(** X4. [create] converts its argument to [size_t] before it checks
    it. It is refused, with the argument error "size out of
    range", exactly when it is a multiple of 2 to the width of
    [size_t]: 0 always, and with a [size_t] of 32 bits 2^32 as
    well. Any other argument makes a queue: the capacity is the
    argument itself when that fits [size_t], and for a negative
    argument what the conversion makes of it, so that
    [create(-1)] has the largest capacity there is. A new queue
    is an empty ring with nobody waiting. *)
Theorem create_checks_converted_size (fname : string) (n : Z) :
  0 < SIZE_WIDTH ->
  (lmq_create value thread fname n
   = Raised ("bad argument #1 to '" ++ fname ++ "' (size out of range)")
   <-> (2 ^ SIZE_WIDTH | n))
  /\ (forall c,
        0 < c < 2 ^ SIZE_WIDTH -> n = c \/ n = c - 2 ^ SIZE_WIDTH ->
        lmq_create value thread fname n = Returned (mk_lmq (mk_obj 1 1 c) ∅ None)
        /\ (c + 2 < 2 ^ SIZE_WIDTH ->
            buffered (mk_lmq (mk_obj 1 1 c) ∅ None : lmq value thread) [])).
Proof.
  intros HW.
  assert (0 < 2 ^ SIZE_WIDTH) as Hpow by (apply Z.pow_pos_nonneg; lia).
  pose proof (Z.mod_pos_bound n (2 ^ SIZE_WIDTH) Hpow) as Hb.
  unfold lmq_create, LMQ.lmq_create, LMQ.wrap. split_and!.
  - rewrite <- Z.mod_divide by lia.
    destruct (Z.gtb_spec (n mod 2 ^ SIZE_WIDTH) 0) as [Hgt|Hle].
    + split; [done|lia].
    + split; [lia|done].
  - intros c Hc Hn.
    assert (n mod 2 ^ SIZE_WIDTH = c) as ->.
    { destruct Hn as [->| ->].
      - apply Z.mod_small. lia.
      - symmetry. apply (Z.mod_unique _ _ (-1)); lia. }
    destruct (Z.gtb_spec c 0); [|lia]. split; [reflexivity|].
    intros Hc2. unfold buffered, LMQ_ring.buffered.
    cbn [obj slots first last size length].
    split_and!; try lia.
    + by rewrite slot_after_0 by lia.
    + intros i m Hi. done.
Qed.

(** X5. The queue that [create(-1)] makes never delivers, whatever
    the width of [size_t]: each send succeeds and leaves
    [first = last], so the ring reads as empty after any number of
    sends, and a [recv] suspends its caller. *)
Theorem negative_size_queue_loses_messages (k : nat) (args : list value) (co : thread) :
  2 <= SIZE_WIDTH ->
  exists q0 q,
    lmq_create value thread "create" (-1) = Returned q0
    /\ send_many value thread resume k q0 args = (replicate k true, q)
    /\ obj q = obj q0 /\ wait q = None
    /\ exists q', recv q co = Yielded (q', []).
Proof.
  intros HW.
  assert (4 <= 2 ^ SIZE_WIDTH) as H4.
  { change 4 with (2 ^ 2). apply Z.pow_le_mono_r; lia. }
  set (C := 2 ^ SIZE_WIDTH - 1).
  set (q0 := mk_lmq (mk_obj 1 1 C) ∅ None : lmq value thread).
  assert (wrap (-1) = C) as Hminus.
  { unfold wrap, LMQ.wrap, C. symmetry. apply (Z.mod_unique _ _ (-1)); lia. }
  assert (wrap (C + 1) = 0) as Htop.
  { unfold wrap, LMQ.wrap, C. replace (2 ^ SIZE_WIDTH - 1 + 1) with (2 ^ SIZE_WIDTH) by lia.
    apply Z.mod_same. lia. }
  assert (lmq_size (mk_obj 1 1 C) = 0) as Hsize.
  { unfold lmq_size, LMQ.lmq_size. cbn [first last size].
    change (1 >? 1) with false. cbv iota. apply wrap_in_range. lia. }
  assert (forall k (q : lmq value thread),
             obj q = obj q0 -> wait q = None ->
             exists q1, send_many value thread resume k q args = (replicate k true, q1)
                        /\ obj q1 = obj q0 /\ wait q1 = None) as Hrun.
  { clear k. induction k as [|k IH]; intros q Ho Hw.
    - exists q. done.
    - cbn [LMQ.send_many]. unfold LMQ.lmq_obj_send at 1 2. rewrite Hw, Ho.
      cbn [obj first last size q0 succeeded state_of]. rewrite Hsize.
      destruct (Z.eqb_spec 0 C) as [|_]; [unfold C in *; lia|].
      cbn [succeeded state_of]. rewrite Htop.
      rewrite (wrap_in_range (1 + 1)) by lia. change (1 + 1 >? 0) with true. cbv iota.
      destruct (IH (mk_lmq (mk_obj 1 1 C) (<[1 := args]> (slots q)) None))
        as (q1 & Hr & Ho1 & Hw1); [reflexivity|done|].
      exists q1. rewrite Hr. done. }
  destruct (Hrun k q0 eq_refl eq_refl) as (q & Hr & Ho & Hw).
  exists q0, q. split_and!; [|done|done|done|].
  - unfold LMQ.lmq_create. fold (wrap (-1)). rewrite Hminus.
    destruct (Z.gtb_spec C 0); [done|unfold C in *; lia].
  - unfold LMQ.lmq_obj_recv. rewrite Ho, Hw. cbn [obj first last q0].
    rewrite Z.eqb_refl. eauto.
Qed.

End Generic.

Lemma ring_is_fifo_below_capacity_witness :
  (forall m, border is_none m (first_border m))
  /\ buffered ILP32 queue_with_nil [[Some 1; None]; [Some 2; Some 3]]
  /\ (exists q',
        lmq_obj_send ILP32 (option Z) nat (fun _ _ q => q) queue_with_nil [None; Some 4]
          = Returned (q', [])
        /\ buffered ILP32 q' [[Some 1; None]; [Some 2; Some 3]; [None; Some 4]])
  /\ (exists q',
        lmq_obj_recv ILP32 (option Z) nat first_border queue_with_nil 7%nat
          = Returned (q', [Some 1])
        /\ buffered ILP32 q' [[Some 2; Some 3]]).
Proof.
  assert (buffered ILP32 queue_with_nil [[Some 1; None]; [Some 2; Some 3]]) as H.
  { unfold buffered, queue_with_nil, ILP32. cbn [obj slots first last size length].
    split_and!; try lia; try reflexivity.
    intros i m Hi. destruct i as [|[|i]]; simpl in Hi; [| |done];
      injection Hi as <-; reflexivity. }
  split; [exact first_border_is_border|]. split; [exact H|].
  destruct (ring_is_fifo_below_capacity ILP32 is_none first_border (fun _ _ q => q)
              queue_with_nil [[Some 1; None]; [Some 2; Some 3]]
              first_border_is_border H) as (Hsend & Hrecv & _).
  split.
  - destruct (Hsend [None; Some 4]) as (q' & Hs & Hb & _); [reflexivity|simpl; lia|].
    exists q'. split; [exact Hs|exact Hb].
  - destruct (Hrecv 7%nat [Some 1; None] [[Some 2; Some 3]] eq_refl)
      as (q' & Hr & _ & _ & Hb & _).
    exists q'. split; [exact Hr|exact Hb].
Defined.

Lemma full_error_iff_first_to_last_witness :
  wait wrapped_queue = None
  /\ 1 <= size (obj wrapped_queue)
  /\ size (obj wrapped_queue) + 2 < 2 ^ ILP32
  /\ 1 <= first (obj wrapped_queue) <= size (obj wrapped_queue) + 1
  /\ 1 <= last (obj wrapped_queue) <= size (obj wrapped_queue) + 1
  /\ (is_full_error (lmq_obj_send ILP32 Z nat inert wrapped_queue [30]) = true
      <-> first (obj wrapped_queue) = 1
          /\ last (obj wrapped_queue) = size (obj wrapped_queue) + 1)
  /\ (is_full_error (lmq_obj_send ILP32 Z nat inert wrapped_queue [30]) = false ->
      exists q', lmq_obj_send ILP32 Z nat inert wrapped_queue [30] = Returned (q', [])
                 /\ slots q' = <[last (obj wrapped_queue) := [30]]> (slots wrapped_queue)
                 /\ first (obj q') = first (obj wrapped_queue)).
Proof.
  assert (wait wrapped_queue = None) as H1 by reflexivity.
  assert (1 <= size (obj wrapped_queue)) as H2 by (simpl; lia).
  assert (size (obj wrapped_queue) + 2 < 2 ^ ILP32) as H3
    by (unfold ILP32; simpl; lia).
  assert (1 <= first (obj wrapped_queue) <= size (obj wrapped_queue) + 1) as H4
    by (simpl; lia).
  assert (1 <= last (obj wrapped_queue) <= size (obj wrapped_queue) + 1) as H5
    by (simpl; lia).
  split; [exact H1|]. split; [exact H2|]. split; [exact H3|].
  split; [exact H4|]. split; [exact H5|].
  exact (full_error_iff_first_to_last ILP32 inert wrapped_queue [30] H1 H2 H3 H4 H5).
Defined.

Lemma waiters_resumed_in_order_of_recv_witness :
  wait fresh2 = None
  /\ last (obj fresh2) = first (obj fresh2)
  /\ [5; 3; 8]%nat <> []
  /\ exists q1 q2,
      recv_each ILP32 count [5; 3; 8]%nat fresh2 = Some q1
      /\ wait q1 = Some [5; 3; 8]%nat /\ obj q1 = obj fresh2 /\ slots q1 = slots fresh2
      /\ lmq_obj_send ILP32 Z nat inert q1 [42]
         = Returned (q2, map (fun co => (co, [42])) [5; 3; 8]%nat).
Proof.
  assert (wait fresh2 = None) as H1 by reflexivity.
  assert (last (obj fresh2) = first (obj fresh2)) as H2 by reflexivity.
  assert ([5; 3; 8]%nat <> []) as H3 by discriminate.
  split; [exact H1|]. split; [exact H2|]. split; [exact H3|].
  exact (waiters_resumed_in_order_of_recv ILP32 count inert fresh2 [5; 3; 8]%nat [42]
           H1 H2 H3).
Defined.

(** On the ESP32 [create(2^32)] is refused, and [create(-1)] makes a
    queue of capacity 2^32 - 1. *)
Lemma create_checks_converted_size_witness :
  0 < ILP32
  /\ lmq_create ILP32 Z nat "create" (2 ^ 32)
     = Raised "bad argument #1 to 'create' (size out of range)"
  /\ lmq_create ILP32 Z nat "create" (-1)
     = Returned (mk_lmq (mk_obj 1 1 (2 ^ 32 - 1)) ∅ None).
Proof.
  assert (0 < ILP32) as H by (unfold ILP32; lia).
  split; [exact H|]. split.
  - apply (create_checks_converted_size ILP32 (value := Z) (thread := nat) "create"
             (2 ^ 32) H).
    exists 1. reflexivity.
  - apply (create_checks_converted_size ILP32 (value := Z) (thread := nat) "create"
             (-1) H).
    + unfold ILP32. lia.
    + right. unfold ILP32. lia.
Defined.

Lemma negative_size_queue_loses_messages_witness :
  2 <= ILP32
  /\ exists q0 q,
      lmq_create ILP32 Z nat "create" (-1) = Returned q0
      /\ send_many ILP32 Z nat inert 3 q0 [7] = (replicate 3 true, q)
      /\ obj q = obj q0 /\ wait q = None
      /\ exists q', lmq_obj_recv ILP32 Z nat count q 5%nat = Yielded (q', []).
Proof.
  assert (2 <= ILP32) as H by (unfold ILP32; lia).
  split; [exact H|].
  exact (negative_size_queue_loses_messages ILP32 count inert 3 [7] 5%nat H).
Defined.

End LMQ_ring_facts.

(** ** Socket binding: checks, results and the life of a socket *)

Module LSocket_session_facts.
Import Lua LSocket LSocket_inputs LSocket_session.

Ltac unfold_methods :=
  unfold lsocket_obj_settimeout, lsocket_obj_enablebroadcast, lsocket_obj_bind,
    lsocket_obj_listen, lsocket_obj_accept, lsocket_obj_connect, lsocket_obj_send,
    lsocket_obj_sendall, lsocket_obj_sent_int, lsocket_obj_sendto, lsocket_obj_recv,
    lsocket_obj_recvfrom, lsocket_obj_recv_int, lsocket_obj_readable,
    lsocket_obj_destroy, lsocket_obj_gc, lsocket_obj_tostring, raise.

(** [lua_pop] takes off what was pushed last. *)
Lemma lua_pop_app (st mid top : list value) :
  lua_pop (st ++ mid ++ top) (length top) = st ++ mid.
Proof.
  unfold lua_pop. rewrite app_assoc, length_app.
  replace (length (st ++ mid) + length top - length top)%nat
    with (length (st ++ mid)) by lia.
  apply take_app_length.
Qed.

Section Session.

Variable OK IN_PROGRESS : Z.
Variable error_str : Z -> string.
Variable pal : pal_call -> pal_reply.
Variable newud : Z -> Z.
Variable ptext : Z -> string.

Local Abbreviation callable := (callable OK IN_PROGRESS error_str pal newud ptext).
Local Abbreviation invoke := (invoke OK IN_PROGRESS error_str pal newud ptext).
Local Abbreviation session := (session OK IN_PROGRESS error_str pal newud ptext).

(** One call on a live socket: either the object stays as it is and
    whatever call is made to the platform is on its socket and is not
    the release, or the object is cleared and the one call made is
    the release. *)
Lemma call_on_live name m obj args o :
  socket obj = Some o ->
  In (name, m) callable ->
  (after (m obj args) = obj
   /\ Forall (fun c => target c = o /\ c <> pal_socket_destroy o) (calls (m obj args)))
  \/ (after (m obj args) = mk_lsocket (self obj) None
      /\ calls (m obj args) = [pal_socket_destroy o]).
Proof.
  intros Hs Hin.
  assert (lsocket_obj_get obj = inl o) as Hg
    by (unfold lsocket_obj_get; rewrite Hs; done).
  unfold LSocket_session.callable, lsocket_obj_meth, lsocket_obj_metameth in Hin.
  simpl in Hin.
  repeat (destruct Hin as [Hin|Hin]; [inversion Hin; subst; clear Hin|]);
    try (destruct Hin).
  all: unfold_methods; rewrite ?Hg, ?Hs.
  all: try (right; split; reflexivity).
  all: left; repeat case_match; cbn [after calls]; split; try done;
    repeat constructor; done.
Qed.

Lemma call_on_destroyed name m obj args :
  socket obj = None ->
  In (name, m) callable ->
  after (m obj args) = obj /\ calls (m obj args) = [].
Proof.
  intros Hs Hin.
  assert (lsocket_obj_get obj = inr destroyed_msg) as Hg
    by (unfold lsocket_obj_get; rewrite Hs; done).
  unfold LSocket_session.callable, lsocket_obj_meth, lsocket_obj_metameth in Hin.
  simpl in Hin.
  repeat (destruct Hin as [Hin|Hin]; [inversion Hin; subst; clear Hin|]);
    try (destruct Hin).
  all: unfold_methods; rewrite ?Hg, ?Hs; done.
Qed.

Lemma invoke_callable name obj args e :
  invoke name obj args = Some e ->
  exists n m, In (n, m) callable /\ e = m obj args.
Proof.
  unfold LSocket_session.invoke.
  destruct (find _ callable) as [[n m]|] eqn:Hf; [|done].
  intros [= <-]. apply find_some in Hf as [Hin _]. eauto.
Qed.

Lemma session_destroyed ops obj :
  socket obj = None -> session ops obj = (obj, []).
Proof.
  intros Hs. induction ops as [|[name args] ops IH]; [done|].
  cbn [LSocket_session.session].
  destruct (invoke name obj args) as [e|] eqn:He; [|done].
  apply invoke_callable in He as (n & m & Hin & ->).
  destruct (call_on_destroyed n m obj args Hs Hin) as [-> ->].
  rewrite IH. done.
Qed.

(** X6. Whatever is called on a socket object, in whatever order
    and with whatever arguments (methods, [__gc], [__close],
    [__tostring]): every call made to the platform is on the
    object's own platform socket, that socket is released at most
    once, no call to the platform follows its release, and the
    object is cleared exactly when it has been released. *)
Theorem platform_socket_released_at_most_once ops obj o :
  socket obj = Some o ->
  Forall (fun c => target c = o) (snd (session ops obj))
  /\ (forall i,
        snd (session ops obj) !! i = Some (pal_socket_destroy o) ->
        S i = length (snd (session ops obj)))
  /\ (socket (fst (session ops obj)) = None
      <-> pal_socket_destroy o ∈ snd (session ops obj))
  /\ (socket (fst (session ops obj)) = None
      \/ socket (fst (session ops obj)) = Some o)
  /\ self (fst (session ops obj)) = self obj.
Proof.
  revert obj. induction ops as [|[name args] ops IH]; intros obj Hs.
  - cbn. split_and!; [constructor|done| |by right|done].
    rewrite Hs. split; [done|]. intros H. by apply elem_of_nil in H.
  - cbn [LSocket_session.session].
    destruct (invoke name obj args) as [e|] eqn:He; [|by apply IH].
    apply invoke_callable in He as (n & m & Hin & ->).
    destruct (call_on_live n m obj args o Hs Hin) as [[Ha Hc]|[Ha Hc]].
    + rewrite Ha. specialize (IH obj Hs).
      destruct (session ops obj) as [obj' cs]. cbn [fst snd] in *.
      destruct IH as (IH1 & IH2 & IH3 & IH4 & IH5).
      assert (pal_socket_destroy o ∉ calls (m obj args)) as Hnot.
      { intros Hd. rewrite Forall_forall in Hc. by destruct (Hc _ Hd). }
      split_and!; [| | |done|done].
      * apply Forall_app. split; [|done].
        eapply Forall_impl; [exact Hc|]. simpl. tauto.
      * intros i Hi. rewrite length_app.
        destruct (decide (i < length (calls (m obj args)))%nat) as [Hlt|Hge].
        -- rewrite lookup_app_l in Hi by done.
           exfalso. apply Hnot. by eapply list_elem_of_lookup_2.
        -- rewrite lookup_app_r in Hi by lia. apply IH2 in Hi. lia.
      * rewrite IH3, elem_of_app. tauto.
    + rewrite Ha, Hc.
      rewrite session_destroyed by done. cbn [fst snd app socket self].
      split_and!; [by repeat constructor| | |by left|done].
      * intros [|i] Hi; [done|]. done.
      * split; [intros _; by apply list_elem_of_singleton|done].
Qed.

End Session.

Section Results.

Variable OK IN_PROGRESS : Z.
Variable error_str : Z -> string.
Variable pal : pal_call -> pal_reply.
Variable newud : Z -> Z.

(** X7. The range checks come before the platform is called: a
    port outside 0..65535 given to [bind], [connect] or [sendto],
    or a time outside 0..4294967295 given to [settimeout], raises
    the range error, leaves the object as it is and makes no call
    to the platform; a time in the range is handed to the platform
    as it is. *)
Theorem range_checks_precede_platform obj o addr data (n : Z) rest :
  socket obj = Some o ->
  (~ 0 <= n <= 65535 ->
    lsocket_obj_bind OK error_str pal obj
      (LString addr :: LInteger n :: rest)
      = mk_effect (Error "port out of range") obj []
    /\ lsocket_obj_connect OK IN_PROGRESS error_str pal obj
         (LString addr :: LInteger n :: rest)
       = mk_effect (Error "port out of range") obj []
    /\ lsocket_obj_sendto OK IN_PROGRESS error_str pal obj
         (LString data :: LString addr :: LInteger n :: rest)
       = mk_effect (Error "port out of range") obj [])
  /\ (~ 0 <= n <= 4294967295 ->
      lsocket_obj_settimeout obj (LInteger n :: rest)
      = mk_effect (Error "ms out of range") obj [])
  /\ (0 <= n <= 4294967295 ->
      lsocket_obj_settimeout obj (LInteger n :: rest)
      = mk_effect (Return []) obj [pal_socket_set_timeout o n]).
Proof.
  intros Hs.
  assert (lsocket_obj_get obj = inl o) as Hg
    by (unfold lsocket_obj_get; rewrite Hs; done).
  split_and!.
  - intros Hn.
    assert (port_ok n = false) as Hp.
    { unfold port_ok. destruct (Z.leb_spec 0 n), (Z.leb_spec n 65535); simpl; lia. }
    unfold_methods. rewrite Hg. cbn [lookup list_lookup luaL_checkstring luaL_checkinteger].
    rewrite Hp. done.
  - intros Hn. unfold_methods. rewrite Hg.
    cbn [lookup list_lookup luaL_checkinteger].
    destruct (Z.leb_spec 0 n), (Z.leb_spec n 4294967295); simpl; try done; lia.
  - intros Hn. unfold_methods. rewrite Hg.
    cbn [lookup list_lookup luaL_checkinteger].
    destruct (Z.leb_spec 0 n), (Z.leb_spec n 4294967295); simpl; try done; lia.
Qed.

(** X8. An error that a method of a live socket raises is either
    one of the argument errors, raised before any call to the
    platform, or the platform's own text for the code that the one
    call made to the platform returned, a code other than success. *)
Theorem errors_are_argument_or_platform_errors obj o args name m msg :
  socket obj = Some o ->
  In (name, m) (lsocket_obj_meth OK IN_PROGRESS error_str pal newud) ->
  result (m obj args) = Error msg ->
  (calls (m obj args) = []
   /\ In msg [bad_argument 2; bad_argument 3; bad_argument 4;
              "port out of range"; "ms out of range"])
  \/ (exists c,
        calls (m obj args) = [c]
        /\ r_err (pal c) <> OK
        /\ msg = error_str (r_err (pal c))).
Proof.
  intros Hs Hin.
  assert (lsocket_obj_get obj = inl o) as Hg
    by (unfold lsocket_obj_get; rewrite Hs; done).
  unfold lsocket_obj_meth in Hin. simpl in Hin.
  repeat (destruct Hin as [Hin|Hin]; [inversion Hin; subst; clear Hin|]);
    try (destruct Hin).
  all: unfold_methods; rewrite ?Hg;
    unfold finshconnect, finshsend, finshrecv;
    repeat case_match; cbn [result calls]; intros Hr; simplify_eq;
    try (left; split; [reflexivity|simpl; tauto]).
  all: right; eexists; split; [reflexivity|].
  all: repeat match goal with
         | H : (_ =? _) = false |- _ => apply Z.eqb_neq in H
         | H : (_ =? _) = true |- _ => apply Z.eqb_eq in H
         end.
  all: unfold top_index in *; cbn [rev] in *; rewrite ?rev_app_distr in *;
    cbn [rev app nth lua_tointeger] in *; done.
Qed.

Hypothesis in_progress_not_ok : IN_PROGRESS <> OK.

(** X9. When the completion callback reports a failure to a
    suspended call, the call raises the platform's text for the
    reported code, whichever operation is suspended. For a
    suspended [accept] the in-progress code counts as a failure
    too. *)
Theorem completion_error_is_raised k extra st c :
  completes k c = true ->
  completion_err c <> OK ->
  (k <> k_finshaccept -> completion_err c <> IN_PROGRESS) ->
  complete OK IN_PROGRESS error_str newud (Yield k extra st) c
  = Error (error_str (completion_err c)).
Proof.
  intros Hk Hne Hnp.
  destruct k, c; try done; cbn [completion_err] in *;
    unfold complete, lsocket_accepted_cb, lsocket_connected_cb, lsocket_sent_cb,
      lsocket_recved_cb, lc_resumethread, continue.
  - unfold finshaccept.
    assert (top_index (st ++ [LInteger err; LLightUserdata new_o; LString addr;
                              LInteger port]) 4 = LInteger err) as ->.
    { unfold top_index. rewrite rev_app_distr. reflexivity. }
    cbn [lua_tointeger]. by rewrite (proj2 (Z.eqb_neq err OK)).
  - unfold finshconnect. rewrite LSocket_facts.top_index_app_1. cbn [lua_tointeger].
    rewrite (proj2 (Z.eqb_neq err OK)) by done.
    rewrite (proj2 (Z.eqb_neq err IN_PROGRESS)); [done|]. by apply Hnp.
  - unfold finshsend. rewrite LSocket_facts.top_index_app_2. cbn [lua_tointeger].
    rewrite (proj2 (Z.eqb_neq err OK)) by done.
    rewrite (proj2 (Z.eqb_neq err IN_PROGRESS)); [done|]. by apply Hnp.
  - unfold finshrecv. rewrite LSocket_facts.top_index_app_4. cbn [lua_tointeger].
    rewrite (proj2 (Z.eqb_neq err OK)) by done.
    rewrite (proj2 (Z.eqb_neq err IN_PROGRESS)); [done|]. by apply Hnp.
Qed.

(** X10. A [recv] or [recvfrom] that the platform leaves in
    progress suspends its caller; when the completion callback
    reports success, [recv] returns one value, the data, and
    [recvfrom] returns three: the data, the sender's address and
    its port. *)
Theorem recv_results obj o maxlen rest data addr port :
  socket obj = Some o ->
  r_err (pal (pal_socket_recv o maxlen)) = IN_PROGRESS ->
  exists st,
    lsocket_obj_recv OK IN_PROGRESS error_str pal obj (LInteger maxlen :: rest)
    = mk_effect (Yield k_finshrecv (of_bool false) st) obj [pal_socket_recv o maxlen]
    /\ lsocket_obj_recvfrom OK IN_PROGRESS error_str pal obj (LInteger maxlen :: rest)
       = mk_effect (Yield k_finshrecv (of_bool true) st) obj [pal_socket_recv o maxlen]
    /\ lsocket_recved_cb OK IN_PROGRESS error_str newud
         (Yield k_finshrecv (of_bool false) st) OK addr port data
       = Return [LString data]
    /\ lsocket_recved_cb OK IN_PROGRESS error_str newud
         (Yield k_finshrecv (of_bool true) st) OK addr port data
       = Return [LString data; LString addr; LInteger port].
Proof using in_progress_not_ok.
  intros Hs Hp.
  assert (lsocket_obj_get obj = inl o) as Hg
    by (unfold lsocket_obj_get; rewrite Hs; done).
  assert ((IN_PROGRESS =? OK) = false) as Hne by (by apply Z.eqb_neq).
  eexists. split_and!.
  - unfold_methods. rewrite Hg. cbn [lookup list_lookup luaL_checkinteger].
    unfold finshrecv. rewrite LSocket_facts.top_index_app_1, Hp.
    cbn [lua_tointeger]. rewrite Hne, Z.eqb_refl. reflexivity.
  - unfold_methods. rewrite Hg. cbn [lookup list_lookup luaL_checkinteger].
    unfold finshrecv. rewrite LSocket_facts.top_index_app_1, Hp.
    cbn [lua_tointeger]. rewrite Hne, Z.eqb_refl. reflexivity.
  - unfold lsocket_recved_cb, lc_resumethread, continue, finshrecv.
    rewrite LSocket_facts.top_index_app_4. cbn [lua_tointeger].
    rewrite Z.eqb_refl. cbn [of_bool to_bool Z.eqb negb].
    rewrite (lua_pop_app _ [LString data; LString addr; LInteger port] [LInteger OK]).
    rewrite (lua_pop_app _ [LString data] [LString addr; LInteger port]).
    f_equal. apply (LSocket_facts.results_app _ [LString data]).
  - unfold lsocket_recved_cb, lc_resumethread, continue, finshrecv.
    rewrite LSocket_facts.top_index_app_4. cbn [lua_tointeger].
    rewrite Z.eqb_refl. cbn [of_bool to_bool Z.eqb negb].
    rewrite (lua_pop_app _ [LString data; LString addr; LInteger port] [LInteger OK]).
    f_equal. apply (LSocket_facts.results_app _ [LString data; LString addr; LInteger port]).
Qed.

(** X11. [accept] hands back the same three values on both of its
    paths: a new socket object that holds the accepted platform
    socket, the peer's address and its port, whether the platform
    accepts at once or the call is suspended and the completion
    callback reports the connection later. *)
Theorem accept_results obj o rest new_o addr port :
  socket obj = Some o ->
  (r_err (pal (pal_socket_accept o)) = OK ->
   lsocket_obj_accept OK IN_PROGRESS error_str pal newud obj rest
   = mk_effect
       (Return [LUserdata (newud (r_new (pal (pal_socket_accept o))));
                LString (r_addr (pal (pal_socket_accept o)));
                LInteger (r_port (pal (pal_socket_accept o)))])
       obj [pal_socket_accept o])
  /\ (r_err (pal (pal_socket_accept o)) = IN_PROGRESS ->
      exists st,
        lsocket_obj_accept OK IN_PROGRESS error_str pal newud obj rest
        = mk_effect (Yield k_finshaccept (self obj) st) obj [pal_socket_accept o]
        /\ lsocket_accepted_cb OK IN_PROGRESS error_str newud
             (Yield k_finshaccept (self obj) st) OK new_o addr port
           = Return [LUserdata (newud new_o); LString addr; LInteger port]).
Proof using in_progress_not_ok.
  intros Hs.
  assert (lsocket_obj_get obj = inl o) as Hg
    by (unfold lsocket_obj_get; rewrite Hs; done).
  assert ((IN_PROGRESS =? OK) = false) as Hne by (by apply Z.eqb_neq).
  split.
  - intros Hok. unfold_methods. rewrite Hg, Hok, Z.eqb_refl.
    f_equal. f_equal.
    apply (LSocket_facts.results_app _ [_; _; _]).
  - intros Hp. eexists. split.
    + unfold_methods. rewrite Hg, Hp, Hne, Z.eqb_refl. reflexivity.
    + unfold lsocket_accepted_cb, lc_resumethread, continue, finshaccept.
      set (st := self_value obj :: rest).
      assert (top_index (st ++ [LInteger OK; LLightUserdata new_o;
                                LString addr; LInteger port]) 4 = LInteger OK) as ->.
      { unfold top_index. rewrite rev_app_distr. reflexivity. }
      assert (top_index (st ++ [LInteger OK; LLightUserdata new_o;
                                LString addr; LInteger port]) 3
              = LLightUserdata new_o) as ->.
      { unfold top_index. rewrite rev_app_distr. reflexivity. }
      cbn [lua_tointeger lua_touserdata]. rewrite Z.eqb_refl.
      f_equal. unfold lua_insert_top.
      rewrite !rev_app_distr. cbn [rev app take drop Nat.sub].
      clearbody st. rewrite rev_involutive.
      rewrite <- (app_assoc _ [LString addr]), <- (app_assoc _ [LUserdata _]).
      cbn [app].
      apply (LSocket_facts.results_app _ [_; _; _]).
Qed.

End Results.

Lemma platform_socket_released_at_most_once_witness :
  socket live_socket = Some 7
  /\ Forall (fun c => target c = 7)
       (snd (session 0 1 error_text ready_platform (fun z => z) pointer_text
               [("connect", connect_args); ("send", [LString "abc"]);
                ("destroy", []); ("send", [LString "abc"]); ("__gc", [])]
               live_socket))
  /\ (forall i,
        snd (session 0 1 error_text ready_platform (fun z => z) pointer_text
               [("connect", connect_args); ("send", [LString "abc"]);
                ("destroy", []); ("send", [LString "abc"]); ("__gc", [])]
               live_socket) !! i = Some (pal_socket_destroy 7) ->
        S i = length
                (snd (session 0 1 error_text ready_platform (fun z => z) pointer_text
                        [("connect", connect_args); ("send", [LString "abc"]);
                         ("destroy", []); ("send", [LString "abc"]); ("__gc", [])]
                        live_socket)))
  /\ (socket
        (fst (session 0 1 error_text ready_platform (fun z => z) pointer_text
                [("connect", connect_args); ("send", [LString "abc"]);
                 ("destroy", []); ("send", [LString "abc"]); ("__gc", [])]
                live_socket)) = None
      <-> pal_socket_destroy 7
          ∈ snd (session 0 1 error_text ready_platform (fun z => z) pointer_text
                   [("connect", connect_args); ("send", [LString "abc"]);
                    ("destroy", []); ("send", [LString "abc"]); ("__gc", [])]
                   live_socket))
  /\ (socket
        (fst (session 0 1 error_text ready_platform (fun z => z) pointer_text
                [("connect", connect_args); ("send", [LString "abc"]);
                 ("destroy", []); ("send", [LString "abc"]); ("__gc", [])]
                live_socket)) = None
      \/ socket
           (fst (session 0 1 error_text ready_platform (fun z => z) pointer_text
                   [("connect", connect_args); ("send", [LString "abc"]);
                    ("destroy", []); ("send", [LString "abc"]); ("__gc", [])]
                   live_socket)) = Some 7)
  /\ self
       (fst (session 0 1 error_text ready_platform (fun z => z) pointer_text
               [("connect", connect_args); ("send", [LString "abc"]);
                ("destroy", []); ("send", [LString "abc"]); ("__gc", [])]
               live_socket)) = self live_socket.
Proof.
  assert (socket live_socket = Some 7) as H by reflexivity.
  split; [exact H|].
  exact (platform_socket_released_at_most_once 0 1 error_text ready_platform
           (fun z => z) pointer_text
           [("connect", connect_args); ("send", [LString "abc"]);
            ("destroy", []); ("send", [LString "abc"]); ("__gc", [])]
           live_socket 7 H).
Defined.

(** The calls of that sequence: the connect, the send and the
    release, and nothing after it. *)
Example session_of_five_calls :
  session 0 1 error_text ready_platform (fun z => z) pointer_text
    [("connect", connect_args); ("send", [LString "abc"]);
     ("destroy", []); ("send", [LString "abc"]); ("__gc", [])]
    live_socket
  = (dead_socket,
     [pal_socket_connect 7 "10.0.0.2" 80; pal_socket_send 7 "abc" false;
      pal_socket_destroy 7]).
Proof. reflexivity. Qed.

Lemma range_checks_precede_platform_witness :
  socket live_socket = Some 7
  /\ (~ 0 <= 70000 <= 65535 ->
      lsocket_obj_bind 0 error_text ready_platform live_socket
        (LString "0.0.0.0" :: LInteger 70000 :: [])
        = mk_effect (Error "port out of range") live_socket []
      /\ lsocket_obj_connect 0 1 error_text ready_platform live_socket
           (LString "0.0.0.0" :: LInteger 70000 :: [])
         = mk_effect (Error "port out of range") live_socket []
      /\ lsocket_obj_sendto 0 1 error_text ready_platform live_socket
           (LString "abc" :: LString "0.0.0.0" :: LInteger 70000 :: [])
         = mk_effect (Error "port out of range") live_socket [])
  /\ (~ 0 <= 70000 <= 4294967295 ->
      lsocket_obj_settimeout live_socket (LInteger 70000 :: [])
      = mk_effect (Error "ms out of range") live_socket [])
  /\ (0 <= 70000 <= 4294967295 ->
      lsocket_obj_settimeout live_socket (LInteger 70000 :: [])
      = mk_effect (Return []) live_socket [pal_socket_set_timeout 7 70000]).
Proof.
  assert (socket live_socket = Some 7) as H by reflexivity.
  split; [exact H|].
  exact (range_checks_precede_platform 0 1 error_text ready_platform
           live_socket 7 "0.0.0.0" "abc" 70000 [] H).
Defined.

Lemma errors_are_argument_or_platform_errors_witness :
  socket live_socket = Some 7
  /\ In ("bind", lsocket_obj_bind 0 error_text failing_platform)
       (lsocket_obj_meth 0 1 error_text failing_platform (fun z => z))
  /\ result (lsocket_obj_bind 0 error_text failing_platform live_socket
               [LString "0.0.0.0"; LInteger 80]) = Error "socket error"
  /\ ((calls (lsocket_obj_bind 0 error_text failing_platform live_socket
                [LString "0.0.0.0"; LInteger 80]) = []
       /\ In "socket error"
            [bad_argument 2; bad_argument 3; bad_argument 4;
             "port out of range"; "ms out of range"])
      \/ (exists c,
            calls (lsocket_obj_bind 0 error_text failing_platform live_socket
                     [LString "0.0.0.0"; LInteger 80]) = [c]
            /\ r_err (failing_platform c) <> 0
            /\ "socket error" = error_text (r_err (failing_platform c)))).
Proof.
  assert (socket live_socket = Some 7) as H1 by reflexivity.
  assert (In ("bind", lsocket_obj_bind 0 error_text failing_platform)
            (lsocket_obj_meth 0 1 error_text failing_platform (fun z => z))) as H2
    by (simpl; tauto).
  assert (result (lsocket_obj_bind 0 error_text failing_platform live_socket
                    [LString "0.0.0.0"; LInteger 80]) = Error "socket error") as H3
    by reflexivity.
  split; [exact H1|]. split; [exact H2|]. split; [exact H3|].
  exact (errors_are_argument_or_platform_errors 0 1 error_text failing_platform
           (fun z => z) live_socket 7 [LString "0.0.0.0"; LInteger 80] "bind"
           (lsocket_obj_bind 0 error_text failing_platform) "socket error" H1 H2 H3).
Defined.

Lemma completion_error_is_raised_witness :
  completes k_finshrecv (recved 5 "" 0 "") = true
  /\ completion_err (recved 5 "" 0 "") <> 0
  /\ (k_finshrecv <> k_finshaccept -> completion_err (recved 5 "" 0 "") <> 1)
  /\ complete 0 1 error_text (fun z => z)
       (Yield k_finshrecv 0 [LUserdata 100; LInteger 64; LInteger 1])
       (recved 5 "" 0 "")
     = Error (error_text (completion_err (recved 5 "" 0 ""))).
Proof.
  assert (completes k_finshrecv (recved 5 "" 0 "") = true) as H1 by reflexivity.
  assert (completion_err (recved 5 "" 0 "") <> 0) as H2 by (simpl; lia).
  assert (k_finshrecv <> k_finshaccept -> completion_err (recved 5 "" 0 "") <> 1) as H3
    by (simpl; lia).
  split; [exact H1|]. split; [exact H2|]. split; [exact H3|].
  exact (completion_error_is_raised 0 1 error_text (fun z => z) k_finshrecv 0
           [LUserdata 100; LInteger 64; LInteger 1] (recved 5 "" 0 "") H1 H2 H3).
Defined.

Lemma recv_results_witness :
  (1 <> 0)
  /\ socket live_socket = Some 7
  /\ r_err (busy_platform (pal_socket_recv 7 64)) = 1
  /\ exists st,
      lsocket_obj_recv 0 1 error_text busy_platform live_socket (LInteger 64 :: [])
      = mk_effect (Yield k_finshrecv (of_bool false) st) live_socket
          [pal_socket_recv 7 64]
      /\ lsocket_obj_recvfrom 0 1 error_text busy_platform live_socket
           (LInteger 64 :: [])
         = mk_effect (Yield k_finshrecv (of_bool true) st) live_socket
             [pal_socket_recv 7 64]
      /\ lsocket_recved_cb 0 1 error_text (fun z => z)
           (Yield k_finshrecv (of_bool false) st) 0 "10.0.0.9" 4000 "hello"
         = Return [LString "hello"]
      /\ lsocket_recved_cb 0 1 error_text (fun z => z)
           (Yield k_finshrecv (of_bool true) st) 0 "10.0.0.9" 4000 "hello"
         = Return [LString "hello"; LString "10.0.0.9"; LInteger 4000].
Proof.
  assert (1 <> 0) as H0 by lia.
  assert (socket live_socket = Some 7) as H1 by reflexivity.
  assert (r_err (busy_platform (pal_socket_recv 7 64)) = 1) as H2 by reflexivity.
  split; [exact H0|]. split; [exact H1|]. split; [exact H2|].
  exact (recv_results 0 1 error_text busy_platform (fun z => z) H0
           live_socket 7 64 [] "hello" "10.0.0.9" 4000 H1 H2).
Defined.

Lemma accept_results_witness :
  (1 <> 0)
  /\ socket live_socket = Some 7
  /\ (r_err (accepting_platform (pal_socket_accept 7)) = 0 ->
      lsocket_obj_accept 0 1 error_text accepting_platform (fun z => z) live_socket []
      = mk_effect
          (Return [LUserdata (r_new (accepting_platform (pal_socket_accept 7)));
                   LString (r_addr (accepting_platform (pal_socket_accept 7)));
                   LInteger (r_port (accepting_platform (pal_socket_accept 7)))])
          live_socket [pal_socket_accept 7])
  /\ (r_err (accepting_platform (pal_socket_accept 7)) = 1 ->
      exists st,
        lsocket_obj_accept 0 1 error_text accepting_platform (fun z => z) live_socket []
        = mk_effect (Yield k_finshaccept (self live_socket) st) live_socket
            [pal_socket_accept 7]
        /\ lsocket_accepted_cb 0 1 error_text (fun z => z)
             (Yield k_finshaccept (self live_socket) st) 0 9 "10.0.0.9" 4000
           = Return [LUserdata 9; LString "10.0.0.9"; LInteger 4000]).
Proof.
  assert (1 <> 0) as H0 by lia.
  assert (socket live_socket = Some 7) as H1 by reflexivity.
  split; [exact H0|]. split; [exact H1|].
  exact (accept_results 0 1 error_text accepting_platform (fun z => z) H0
           live_socket 7 [] 9 "10.0.0.9" 4000 H1).
Defined.

End LSocket_session_facts.

(** ** Timers: the registry and the pass over expired timers *)

Module Timer_pass_facts.
Import RunLoop RunLoop_inputs Timer_pass.

(** *** Insertion and removal *)

Lemma insert_timer_middle d new l :
  exists l1 l2, l = l1 ++ l2 /\ insert_timer d new l = l1 ++ new :: l2.
Proof.
  induction l as [|x l (l1 & l2 & -> & IH)]; simpl.
  - by exists [], [].
  - destruct (d <? Timer.deadline (snd x))%N.
    + by exists [], (x :: l1 ++ l2).
    + exists (x :: l1), l2. by rewrite IH.
Qed.

Lemma remove_timer_middle t l l' :
  remove_timer t l = Some l' ->
  exists l1 tm l2, l = l1 ++ (t, tm) :: l2 /\ l' = l1 ++ l2 /\ (t ∉ map fst l1).
Proof.
  revert l'. induction l as [|[t0 tm0] l IH]; intros l'; simpl; [done|].
  destruct (decide (t0 = t)) as [->|Hne].
  - intros [= <-]. exists [], tm0, l. split_and!; [done|done|]. apply not_elem_of_nil.
  - destruct (remove_timer t l) as [r|]; [|done]. intros [= <-].
    destruct (IH r eq_refl) as (l1 & tm & l2 & -> & -> & Hnot).
    exists ((t0, tm0) :: l1), tm, l2. split_and!; [done|done|].
    simpl. rewrite not_elem_of_cons. done.
Qed.

Lemma remove_timer_found t tm l1 l2 :
  t ∉ map fst l1 -> remove_timer t (l1 ++ (t, tm) :: l2) = Some (l1 ++ l2).
Proof.
  induction l1 as [|[t0 tm0] l1 IH]; simpl; intros Hnot.
  - by rewrite decide_True.
  - apply not_elem_of_cons in Hnot as [Hne Hnot].
    rewrite decide_False by done. by rewrite IH.
Qed.

Lemma remove_timer_missing t l : t ∉ map fst l -> remove_timer t l = None.
Proof.
  induction l as [|[t0 tm0] l IH]; simpl; [done|]. intros Hnot.
  apply not_elem_of_cons in Hnot as [Hne Hnot].
  rewrite decide_False by done. by rewrite IH.
Qed.

Lemma sorted_remove_middle (l1 l2 : list (positive * Timer.HAPPlatformTimer)) x :
  StronglySorted deadline_le (l1 ++ x :: l2) -> StronglySorted deadline_le (l1 ++ l2).
Proof.
  induction l1 as [|y l1 IH]; simpl; intros Hs.
  - by inversion Hs.
  - inversion Hs as [|? ? Hs' Hy]; subst. constructor; [by apply IH|].
    apply Forall_app in Hy as [H1 H2]. inversion H2; subst.
    apply Forall_app. done.
Qed.

Lemma set_timers_same s : set_timers (timers s) s = s.
Proof. by destruct s. Qed.

Section Registry.

Variable calloc_handle : runLoop_t -> option positive.
Variable calloc_timer : runLoop_t -> option positive.

Local Abbreviation register := (HAPPlatformTimerRegister calloc_timer).
Local Abbreviation do_call := (do_call calloc_handle calloc_timer).
Local Abbreviation run_calls := (run_calls calloc_handle calloc_timer).

(** X12. A timer registered with a deadline other than zero is
    stored with that deadline, behind every pending timer of the
    same or an earlier deadline and in front of every later one:
    the order among the pending timers is kept, and timers of one
    deadline stand in the order of their registration. *)
Theorem timer_registration_is_stable s d cb ctx t :
  (d <> 0)%N ->
  StronglySorted deadline_le (timers s) ->
  calloc_timer s = Some t ->
  exists l1 l2,
    timers s = l1 ++ l2
    /\ register s d cb ctx
       = (set_timers (l1 ++ (t, Timer.mk_timer d cb ctx) :: l2) s,
          kHAPError_None, Some t)
    /\ Forall (fun x => (Timer.deadline (snd x) <= d)%N) l1
    /\ Forall (fun x => (d < Timer.deadline (snd x))%N) l2.
Proof.
  intros Hd Hs Hc.
  destruct (Timer_facts.insert_timer_split d (t, Timer.mk_timer d cb ctx) (timers s) Hs)
    as (l1 & l2 & Hl & Hi & H1 & H2).
  exists l1, l2. split_and!; [done| |done|done].
  unfold HAPPlatformTimerRegister. rewrite Hc.
  destruct (N.eqb_spec d 0) as [|_]; [done|]. by rewrite Hi.
Qed.

(** The file handle operations and [HAPPlatformRunLoopStop] leave
    the timers alone. *)
Lemma handle_register_timers s fd i cb ctx s' err r :
  HAPPlatformFileHandleRegister calloc_handle s fd i cb ctx = Some (s', err, r) ->
  timers s' = timers s /\ state s' = state s.
Proof.
  unfold HAPPlatformFileHandleRegister.
  destruct (calloc_handle s); [|by intros [= <- _ _]].
  intros Hreg.
  repeat (match type of Hreg with
          | (mbind _ ?x = Some _) =>
              destruct x; [|done]; cbn [mbind option_bind] in Hreg
          end).
  by injection Hreg as <- _ _.
Qed.

Lemma handle_update_timers s h i cb ctx s' :
  HAPPlatformFileHandleUpdateInterests s h i cb ctx = Some s' ->
  timers s' = timers s /\ state s' = state s.
Proof.
  unfold HAPPlatformFileHandleUpdateInterests.
  destruct (store _ _ _); [|done]. by intros [= <-].
Qed.

Lemma handle_deregister_timers s h s' :
  HAPPlatformFileHandleDeregister s h = Some s' ->
  timers s' = timers s /\ state s' = state s.
Proof.
  unfold HAPPlatformFileHandleDeregister. intros Hder.
  repeat (match type of Hder with
          | (mbind _ ?x = Some _) =>
              destruct x; [|done]; cbn [mbind option_bind] in Hder
          end).
  by injection Hder as <-.
Qed.

(** Every call a callback can make keeps the timer list ordered and
    its deadlines positive. *)
Lemma do_call_timers_ok c s s' evs :
  timers_ok s -> do_call c s = Some (s', evs) -> timers_ok s'.
Proof.
  intros [Hs Hp] Hc. unfold timers_ok.
  destruct c as [fd i cb ctx|h i cb ctx|h|d cb ctx|t|]; simpl in Hc.
  - destruct (HAPPlatformFileHandleRegister calloc_handle s fd i cb ctx)
      as [[[s1 err] r]|] eqn:Hreg; [|done].
    apply handle_register_timers in Hreg as [Ht _].
    destruct r; simpl in Hc; injection Hc as <- <-; by rewrite Ht.
  - destruct (HAPPlatformFileHandleUpdateInterests s h i cb ctx) as [s1|] eqn:Hup;
      [|done].
    apply handle_update_timers in Hup as [Ht _].
    simpl in Hc; injection Hc as <- <-; by rewrite Ht.
  - destruct (HAPPlatformFileHandleDeregister s h) as [s1|] eqn:Hder; [|done].
    apply handle_deregister_timers in Hder as [Ht _].
    simpl in Hc; injection Hc as <- <-; by rewrite Ht.
  - unfold HAPPlatformTimerRegister in Hc.
    destruct (calloc_timer s) as [t|]; injection Hc as <- <-; [|done].
    by apply Timer_facts.insert_timer_sorted.
  - unfold HAPPlatformTimerDeregister in Hc.
    destruct (remove_timer t (timers s)) as [l|] eqn:Hr; [|done].
    simpl in Hc. injection Hc as <- <-.
    apply remove_timer_middle in Hr as (l1 & tm & l2 & Hl & -> & _).
    rewrite Hl in Hs, Hp. simpl. split.
    + by eapply sorted_remove_middle.
    + apply Forall_app in Hp as [H1 H2]. inversion H2; subst.
      apply Forall_app. done.
  - injection Hc as <- <-. unfold HAPPlatformRunLoopStop. by destruct (state s).
Qed.

Lemma run_calls_timers_ok cs :
  forall s tr st s' tr',
    timers_ok s -> run_calls cs s tr = (st, s', tr') -> timers_ok s'.
Proof.
  induction cs as [|c cs IH]; intros s tr st s' tr' Hok Hrun; simpl in Hrun.
  - by injection Hrun as _ <- _.
  - destruct (do_call c s) as [[s1 evs]|] eqn:Hc.
    + eapply IH; [|exact Hrun]. by eapply do_call_timers_ok.
    + by injection Hrun as _ <- _.
Qed.

(** X13. Whatever is called, in whatever order, from the initial
    state of the run loop: the timer list stays ordered by stored
    deadline, and no stored deadline is zero, also when timers are
    registered with deadline zero. *)
Theorem timer_list_stays_ordered (cs : list call) :
  timers_ok (snd (fst (run_calls cs runLoop_init []))).
Proof.
  destruct (run_calls cs runLoop_init []) as [[st s'] tr'] eqn:Hrun.
  eapply run_calls_timers_ok; [|exact Hrun].
  split; constructor.
Qed.

(** X14. Deregistering a pending timer takes exactly that timer out
    of the list and keeps the others in their order; deregistering
    a timer that is not pending, because it never was or because
    it has fired, ends the process. *)
Theorem timer_deregistration s t :
  (t ∈ pending s ->
   exists l1 tm l2,
     timers s = l1 ++ (t, tm) :: l2 /\ (t ∉ map fst l1)
     /\ HAPPlatformTimerDeregister s t = Some (set_timers (l1 ++ l2) s))
  /\ (t ∉ pending s -> HAPPlatformTimerDeregister s t = None).
Proof.
  unfold pending, HAPPlatformTimerDeregister. split.
  - intros Hin.
    destruct (remove_timer t (timers s)) as [l'|] eqn:Hr.
    + apply remove_timer_middle in Hr as (l1 & tm & l2 & Hl & -> & Hnot).
      exists l1, tm, l2. done.
    + exfalso. revert Hin Hr. generalize (timers s). intros l.
      induction l as [|[t0 tm0] l IH]; simpl; intros Hin Hr.
      * by apply elem_of_nil in Hin.
      * destruct (decide (t0 = t)); [done|].
        apply elem_of_cons in Hin as [->|Hin]; [done|].
        destruct (remove_timer t l); [done|]. by apply IH.
  - intros Hnot. by rewrite remove_timer_missing.
Qed.

(** X15. Registering a timer and deregistering it again leaves the
    run loop exactly as it was, wherever the deadline put the
    timer in the list. *)
Theorem timer_register_deregister s d cb ctx t :
  calloc_timer s = Some t ->
  t ∉ pending s ->
  exists s',
    register s d cb ctx = (s', kHAPError_None, Some t)
    /\ t ∈ pending s'
    /\ HAPPlatformTimerDeregister s' t = Some s.
Proof using Type.
  intros Hc Hnew. unfold HAPPlatformTimerRegister. rewrite Hc.
  set (new := (t, Timer.mk_timer (if (d =? 0)%N then 1%N else d) cb ctx)).
  destruct (insert_timer_middle d new (timers s)) as (l1 & l2 & Hl & Hi).
  eexists. split; [reflexivity|].
  unfold pending in Hnew |- *. cbn [timers set_timers]. rewrite Hi. split.
  - rewrite map_app. simpl. rewrite elem_of_app, elem_of_cons. right. by left.
  - unfold HAPPlatformTimerDeregister. cbn [timers set_timers].
    unfold new. rewrite remove_timer_found.
    + simpl. rewrite <- Hl. f_equal. by destruct s.
    + intros Hin. apply Hnew. rewrite Hl, map_app, elem_of_app. by left.
Qed.

(** *** The pass over the expired timers *)

Variable timer_callback : Z -> positive -> Z -> runLoop_t -> list call.

Local Abbreviation loop :=
  (ProcessExpiredTimers_loop calloc_handle calloc_timer timer_callback).

Lemma do_call_fires_nothing c s s' evs t tm :
  do_call c s = Some (s', evs) -> EvFired t tm ∉ evs.
Proof.
  intros Hc Hin.
  destruct c as [fd i cb ctx|h i cb ctx|h|d cb ctx|t'|]; simpl in Hc.
  - destruct (HAPPlatformFileHandleRegister calloc_handle s fd i cb ctx)
      as [[[s1 err] [r|]]|]; [| |done]; simpl in Hc; injection Hc as <- <-;
      apply list_elem_of_singleton in Hin; done.
  - destruct (HAPPlatformFileHandleUpdateInterests s h i cb ctx); [|done].
    simpl in Hc; injection Hc as <- <-. apply list_elem_of_singleton in Hin; done.
  - destruct (HAPPlatformFileHandleDeregister s h); [|done].
    simpl in Hc; injection Hc as <- <-. apply list_elem_of_singleton in Hin; done.
  - destruct (HAPPlatformTimerRegister calloc_timer s d cb ctx) as [[s1 err] [r|]];
      injection Hc as <- <-; apply list_elem_of_singleton in Hin; done.
  - destruct (HAPPlatformTimerDeregister s t'); [|done].
    simpl in Hc; injection Hc as <- <-. apply list_elem_of_singleton in Hin; done.
  - injection Hc as <- <-. apply list_elem_of_singleton in Hin; done.
Qed.

Lemma run_calls_fires_nothing cs :
  forall s tr st s' tr',
    run_calls cs s tr = (st, s', tr') ->
    st <> OutOfFuel
    /\ exists evs, tr' = tr ++ evs /\ forall t tm, EvFired t tm ∉ evs.
Proof.
  induction cs as [|c cs IH]; intros s tr st s' tr' Hrun; simpl in Hrun.
  - injection Hrun as <- _ <-. split; [done|]. exists []. rewrite app_nil_r.
    split; [done|]. intros t tm. apply not_elem_of_nil.
  - destruct (do_call c s) as [[s1 evs]|] eqn:Hc.
    + destruct (IH _ _ _ _ _ Hrun) as (Hst & evs2 & -> & Hno).
      split; [done|]. exists (evs ++ evs2). rewrite app_assoc. split; [done|].
      intros t tm Hin. apply elem_of_app in Hin as [Hin|Hin].
      * by eapply do_call_fires_nothing.
      * by eapply Hno.
    + injection Hrun as <- _ <-. split; [done|]. exists []. rewrite app_nil_r.
      split; [done|]. intros t tm. apply not_elem_of_nil.
Qed.

Lemma loop_sound now :
  forall fuel s tr st s' tr',
    timers_ok s ->
    loop fuel now s tr = (st, s', tr') ->
    exists evs,
      tr' = tr ++ evs
      /\ (forall t tm, EvFired t tm ∈ evs -> (Timer.deadline tm <= now)%N)
      /\ timers_ok s'
      /\ (st = Completed ->
          Forall (fun x => (now < Timer.deadline (snd x))%N) (timers s')).
Proof.
  induction fuel as [|fuel IH]; intros s tr st s' tr' Hok Hrun; simpl in Hrun.
  - injection Hrun as <- <- <-. exists []. rewrite app_nil_r.
    split_and!; [done| |done|done]. intros t tm Hin. by apply elem_of_nil in Hin.
  - destruct (timers s) as [|[t0 tm0] rest] eqn:Ht.
    + injection Hrun as <- <- <-. exists []. rewrite app_nil_r.
      split_and!; [done| |done|].
      * intros t tm Hin. by apply elem_of_nil in Hin.
      * intros _. rewrite Ht. constructor.
    + destruct (N.ltb_spec now (Timer.deadline tm0)) as [Hlt|Hge].
      * injection Hrun as <- <- <-. exists []. rewrite app_nil_r.
        split_and!; [done| |done|].
        -- intros t tm Hin. by apply elem_of_nil in Hin.
        -- intros _. rewrite Ht. destruct Hok as [Hs _]. rewrite Ht in Hs.
           inversion Hs as [|? ? _ Hall]; subst. constructor; [done|].
           eapply Forall_impl; [exact Hall|]. unfold deadline_le. simpl.
           intros x Hx. lia.
      * assert (timers_ok (set_timers rest s)) as Hok1.
        { destruct Hok as [Hs Hp]. rewrite Ht in Hs, Hp. split; simpl.
          - by inversion Hs.
          - by inversion Hp. }
        destruct (run_calls _ (set_timers rest s) (tr ++ [EvFired t0 tm0]))
          as [[st1 s2] tr2] eqn:Hrc.
        pose proof (run_calls_timers_ok _ _ _ _ _ _ Hok1 Hrc) as Hok2.
        destruct (run_calls_fires_nothing _ _ _ _ _ _ Hrc) as (Hst1 & evs1 & -> & Hno).
        assert (forall t tm, EvFired t tm ∈ [EvFired t0 tm0] ++ evs1 ->
                             (Timer.deadline tm <= now)%N) as Hfired.
        { intros t tm Hin. apply elem_of_app in Hin as [Hin|Hin].
          - apply list_elem_of_singleton in Hin. by injection Hin as -> ->.
          - by apply Hno in Hin. }
        destruct st1.
        -- destruct (IH _ _ _ _ _ Hok2 Hrun) as (evs & -> & Hf & Hok' & Hdone).
           exists ([EvFired t0 tm0] ++ evs1 ++ evs).
           split_and!; [by rewrite <- !app_assoc| |done|done].
           intros t tm Hin. rewrite app_assoc in Hin.
           apply elem_of_app in Hin as [Hin|Hin]; [by apply (Hfired t)|by apply (Hf t)].
        -- injection Hrun as <- <- <-. exists ([EvFired t0 tm0] ++ evs1).
           split_and!; [by rewrite <- !app_assoc|done|done|done].
        -- done.
Qed.

(** X16. Whatever the timer callbacks call back, a pass over the
    expired timers fires no timer before its deadline, keeps the
    list ordered, and, when it completes, leaves only timers whose
    deadline is still ahead. *)
Theorem expired_timers_pass_is_sound fuel now s st s' tr :
  timers_ok s ->
  ProcessExpiredTimers calloc_handle calloc_timer timer_callback fuel now s
    = (st, s', tr) ->
  (forall t tm, EvFired t tm ∈ tr -> (Timer.deadline tm <= now)%N)
  /\ timers_ok s'
  /\ (st = Completed ->
      Forall (fun x => (now < Timer.deadline (snd x))%N) (timers s')).
Proof.
  intros Hok Hrun. unfold ProcessExpiredTimers in Hrun.
  destruct (loop_sound now fuel s [] st s' tr Hok Hrun) as (evs & -> & H1 & H2 & H3).
  done.
Qed.

(** *** Whether the pass ends *)

Lemma count_due_middle now (l1 l2 : list (positive * Timer.HAPPlatformTimer)) x :
  length (filter (fun x => expired now x = true) (l1 ++ x :: l2))
  = (length (filter (fun x => expired now x = true) (l1 ++ l2))
     + (if expired now x then 1 else 0))%nat.
Proof.
  rewrite !filter_app, filter_cons, !length_app.
  destruct (expired now x) eqn:He.
  - rewrite decide_True by done. simpl. lia.
  - rewrite decide_False by (by intros ?). lia.
Qed.

Lemma do_call_count_due now c s s' evs :
  registers_after now c ->
  do_call c s = Some (s', evs) ->
  (count_due now s' <= count_due now s)%nat.
Proof.
  intros Hafter Hc. unfold count_due.
  destruct c as [fd i cb ctx|h i cb ctx|h|d cb ctx|t|]; simpl in Hc.
  - destruct (HAPPlatformFileHandleRegister calloc_handle s fd i cb ctx)
      as [[[s1 err] r]|] eqn:Hreg; [|done].
    apply handle_register_timers in Hreg as [Ht _].
    destruct r; simpl in Hc; injection Hc as <- <-; by rewrite Ht.
  - destruct (HAPPlatformFileHandleUpdateInterests s h i cb ctx) as [s1|] eqn:Hup;
      [|done].
    apply handle_update_timers in Hup as [Ht _].
    simpl in Hc; injection Hc as <- <-; by rewrite Ht.
  - destruct (HAPPlatformFileHandleDeregister s h) as [s1|] eqn:Hder; [|done].
    apply handle_deregister_timers in Hder as [Ht _].
    simpl in Hc; injection Hc as <- <-; by rewrite Ht.
  - unfold HAPPlatformTimerRegister in Hc. simpl in Hafter.
    destruct (calloc_timer s) as [t|]; injection Hc as <- <-; [|done].
    cbn [timers set_timers].
    destruct (insert_timer_middle d
                (t, Timer.mk_timer (if (d =? 0)%N then 1%N else d) cb ctx) (timers s))
      as (l1 & l2 & Hl & ->).
    rewrite count_due_middle, <- Hl.
    destruct (N.eqb_spec d 0); [lia|].
    assert (expired now (t, Timer.mk_timer d cb ctx) = false) as ->
      by (unfold expired; simpl; apply N.leb_gt; lia).
    lia.
  - unfold HAPPlatformTimerDeregister in Hc.
    destruct (remove_timer t (timers s)) as [l|] eqn:Hr; [|done].
    simpl in Hc. injection Hc as <- <-. cbn [timers set_timers].
    apply remove_timer_middle in Hr as (l1 & tm & l2 & -> & -> & _).
    rewrite count_due_middle. lia.
  - injection Hc as <- <-. unfold HAPPlatformRunLoopStop. by destruct (state s).
Qed.

Lemma run_calls_count_due now cs :
  forall s tr st s' tr',
    Forall (registers_after now) cs ->
    run_calls cs s tr = (st, s', tr') ->
    (count_due now s' <= count_due now s)%nat.
Proof.
  induction cs as [|c cs IH]; intros s tr st s' tr' Hall Hrun; simpl in Hrun.
  - by injection Hrun as _ <- _.
  - inversion Hall as [|? ? Hc Hcs]; subst.
    destruct (do_call c s) as [[s1 evs]|] eqn:Hd.
    + pose proof (do_call_count_due now c s s1 evs Hc Hd).
      pose proof (IH _ _ _ _ _ Hcs Hrun). lia.
    + by injection Hrun as _ <- _.
Qed.

(** X17. When no timer callback registers a timer that is due
    already, the pass over the expired timers ends: one step of
    the loop for each timer that is due, and one more, are enough
    for it to complete or to end the process. *)
Theorem expired_timers_pass_ends now fuel s :
  (forall cb t ctx s0, Forall (registers_after now) (timer_callback cb t ctx s0)) ->
  (count_due now s < fuel)%nat ->
  fst (fst (ProcessExpiredTimers calloc_handle calloc_timer timer_callback fuel now s))
  <> OutOfFuel.
Proof.
  intros Hcb. unfold ProcessExpiredTimers. generalize (@nil event) as tr.
  revert s. induction fuel as [|fuel IH]; intros s tr Hlt; [lia|].
  simpl.
  destruct (timers s) as [|[t0 tm0] rest] eqn:Ht; [done|].
  destruct (N.ltb_spec now (Timer.deadline tm0)) as [Hnot|Hdue]; [done|].
  destruct (run_calls _ (set_timers rest s) (tr ++ [EvFired t0 tm0]))
    as [[st1 s2] tr2] eqn:Hrc.
  pose proof (run_calls_count_due now _ _ _ _ _ _ (Hcb _ _ _ _) Hrc) as Hle.
  destruct (run_calls_fires_nothing _ _ _ _ _ _ Hrc) as (Hst1 & _).
  assert (count_due now s = S (count_due now (set_timers rest s))) as Hs.
  { unfold count_due. rewrite Ht. cbn [timers set_timers].
    assert (expired now (t0, tm0) = true) as He
      by (unfold expired; simpl; apply N.leb_le; lia).
    rewrite filter_cons, decide_True by done. done. }
  destruct st1; [|done|done].
  apply IH. lia.
Qed.

(** X18. A timer callback that registers a timer which is due
    already keeps the pass going: when every callback does so, and
    memory for timers does not run out, the pass over the expired
    timers never returns once it has found one timer due, and the
    file handles are not served. *)
Theorem rearming_timers_starve_the_loop now fuel s :
  (1 <= now)%N ->
  (forall s0, calloc_timer s0 <> None) ->
  (forall cb t ctx s0,
      exists d cb' ctx',
        timer_callback cb t ctx s0 = [CallTimerRegister d cb' ctx'] /\ (d <= now)%N) ->
  (exists t tm rest, timers s = (t, tm) :: rest /\ (Timer.deadline tm <= now)%N) ->
  fst (fst (ProcessExpiredTimers calloc_handle calloc_timer timer_callback fuel now s))
  = OutOfFuel.
Proof.
  intros Hnow Hmem Hcb. unfold ProcessExpiredTimers. generalize (@nil event) as tr.
  revert s. induction fuel as [|fuel IH]; intros s tr (t0 & tm0 & rest & Ht & Hdue);
    [done|].
  simpl. rewrite Ht.
  destruct (N.ltb_spec now (Timer.deadline tm0)) as [|_]; [lia|].
  destruct (Hcb (Timer.callback tm0) t0 (Timer.context tm0) (set_timers rest s))
    as (d & cb' & ctx' & -> & Hd).
  cbn [RunLoop.run_calls RunLoop.do_call]. unfold HAPPlatformTimerRegister.
  destruct (calloc_timer (set_timers rest s)) as [t1|] eqn:Hc; [|by apply Hmem in Hc].
  apply IH. cbn [timers set_timers].
  set (new := (t1, Timer.mk_timer (if (d =? 0)%N then 1%N else d) cb' ctx')).
  assert ((Timer.deadline (snd new) <= now)%N) as Hnew.
  { unfold new. simpl. destruct (N.eqb_spec d 0); lia. }
  destruct rest as [|[t2 tm2] rest']; simpl.
  - exists t1, (snd new), []. done.
  - destruct (N.ltb_spec d (Timer.deadline tm2)) as [Hlt|Hge].
    + exists t1, (snd new), ((t2, tm2) :: rest'). done.
    + eexists t2, tm2, _. split; [reflexivity|]. lia.
Qed.

(** X19. A timer is taken out of the list before its callback is
    called: a callback that deregisters the timer it is called for
    finds it gone, and the process ends. *)
Theorem deregistering_the_fired_timer_is_fatal now fuel s t tm rest more :
  timers s = (t, tm) :: rest ->
  (Timer.deadline tm <= now)%N ->
  t ∉ map fst rest ->
  timer_callback (Timer.callback tm) t (Timer.context tm) (set_timers rest s)
    = CallTimerDeregister t :: more ->
  ProcessExpiredTimers calloc_handle calloc_timer timer_callback (S fuel) now s
  = (Aborted, set_timers rest s, [EvFired t tm]).
Proof.
  intros Ht Hdue Hnot Hcb. unfold ProcessExpiredTimers. simpl. rewrite Ht.
  destruct (N.ltb_spec now (Timer.deadline tm)) as [|_]; [lia|].
  rewrite Hcb. cbn [RunLoop.run_calls RunLoop.do_call].
  unfold HAPPlatformTimerDeregister. cbn [timers set_timers].
  rewrite remove_timer_missing by done. done.
Qed.

End Registry.

Lemma three_timers_ok : timers_ok three_timers.
Proof.
  split; simpl.
  - repeat constructor; unfold deadline_le; simpl; lia.
  - repeat constructor; unfold deadline_pos; simpl; lia.
Qed.

Lemma timer_registration_is_stable_witness :
  (3 <> 0)%N
  /\ StronglySorted deadline_le (timers three_timers)
  /\ fresh_timer three_timers = Some 4%positive
  /\ exists l1 l2,
      timers three_timers = l1 ++ l2
      /\ HAPPlatformTimerRegister fresh_timer three_timers 3 40 0
         = (set_timers (l1 ++ (4%positive, Timer.mk_timer 3 40 0) :: l2) three_timers,
            kHAPError_None, Some 4%positive)
      /\ Forall (fun x => (Timer.deadline (snd x) <= 3)%N) l1
      /\ Forall (fun x => (3 < Timer.deadline (snd x))%N) l2.
Proof.
  assert (3 <> 0)%N as H1 by lia.
  assert (StronglySorted deadline_le (timers three_timers)) as H2
    by (simpl; repeat constructor; unfold deadline_le; simpl; lia).
  assert (fresh_timer three_timers = Some 4%positive) as H3 by reflexivity.
  split; [exact H1|]. split; [exact H2|]. split; [exact H3|].
  exact (timer_registration_is_stable fresh_timer three_timers 3 40 0 4 H1 H2 H3).
Defined.

Lemma timer_register_deregister_witness :
  fresh_timer three_timers = Some 4%positive
  /\ (4%positive ∉ pending three_timers)
  /\ exists s',
      HAPPlatformTimerRegister fresh_timer three_timers 0 40 0
        = (s', kHAPError_None, Some 4%positive)
      /\ 4%positive ∈ pending s'
      /\ HAPPlatformTimerDeregister s' 4 = Some three_timers.
Proof.
  assert (fresh_timer three_timers = Some 4%positive) as H1 by reflexivity.
  assert (4%positive ∉ pending three_timers) as H2.
  { unfold pending. simpl. rewrite !not_elem_of_cons. split_and!; try done.
    apply not_elem_of_nil. }
  split; [exact H1|]. split; [exact H2|].
  exact (timer_register_deregister fresh_timer three_timers 0 40 0 4 H1 H2).
Defined.

Lemma expired_timers_pass_is_sound_witness :
  timers_ok three_timers
  /\ ProcessExpiredTimers next_handle fresh_timer careful_callback 10 5 three_timers
     = (Completed,
        set_timers
          [ (3%positive, Timer.mk_timer 9 30 0);
            (4%positive, Timer.mk_timer 1005 10 0) ]
          runLoop_init,
        [ EvFired 1 (Timer.mk_timer 3 10 0); EvTimerRegistered 4;
          EvTimerDeregistered 2 ])
  /\ (forall t tm,
        EvFired t tm ∈ [ EvFired 1 (Timer.mk_timer 3 10 0); EvTimerRegistered 4;
                         EvTimerDeregistered 2 ] ->
        (Timer.deadline tm <= 5)%N)
  /\ timers_ok
       (set_timers
          [ (3%positive, Timer.mk_timer 9 30 0);
            (4%positive, Timer.mk_timer 1005 10 0) ]
          runLoop_init)
  /\ (Completed = Completed ->
      Forall (fun x => (5 < Timer.deadline (snd x))%N)
        (timers
           (set_timers
              [ (3%positive, Timer.mk_timer 9 30 0);
                (4%positive, Timer.mk_timer 1005 10 0) ]
              runLoop_init))).
Proof.
  assert (ProcessExpiredTimers next_handle fresh_timer careful_callback 10 5 three_timers
          = (Completed,
             set_timers
               [ (3%positive, Timer.mk_timer 9 30 0);
                 (4%positive, Timer.mk_timer 1005 10 0) ]
               runLoop_init,
             [ EvFired 1 (Timer.mk_timer 3 10 0); EvTimerRegistered 4;
               EvTimerDeregistered 2 ])) as H2 by reflexivity.
  split; [exact three_timers_ok|]. split; [exact H2|].
  exact (expired_timers_pass_is_sound next_handle fresh_timer careful_callback 10 5
           three_timers _ _ _ three_timers_ok H2).
Defined.

Lemma expired_timers_pass_ends_witness :
  (forall cb t ctx s0, Forall (registers_after 5) (careful_callback cb t ctx s0))
  /\ (count_due 5 three_timers < 3)%nat
  /\ fst (fst (ProcessExpiredTimers next_handle fresh_timer careful_callback 3 5
                 three_timers))
     <> OutOfFuel.
Proof.
  assert (forall cb t ctx s0, Forall (registers_after 5) (careful_callback cb t ctx s0))
    as H1.
  { intros cb t ctx s0. unfold careful_callback.
    destruct (cb =? 10); repeat constructor; simpl; lia. }
  assert (count_due 5 three_timers < 3)%nat as H2 by (vm_compute; lia).
  split; [exact H1|]. split; [exact H2|].
  exact (expired_timers_pass_ends next_handle fresh_timer careful_callback 5 3
           three_timers H1 H2).
Defined.

Lemma rearming_timers_starve_the_loop_witness :
  (1 <= 5)%N
  /\ (forall s0, fresh_timer s0 <> None)
  /\ (forall cb t ctx s0,
        exists d cb' ctx',
          rearming_callback cb t ctx s0 = [CallTimerRegister d cb' ctx'] /\ (d <= 5)%N)
  /\ (exists t tm rest,
        timers three_timers = (t, tm) :: rest /\ (Timer.deadline tm <= 5)%N)
  /\ fst (fst (ProcessExpiredTimers next_handle fresh_timer rearming_callback 1000 5
                 three_timers))
     = OutOfFuel.
Proof.
  assert (1 <= 5)%N as H1 by lia.
  assert (forall s0, fresh_timer s0 <> None) as H2 by (intros s0; discriminate).
  assert (forall cb t ctx s0,
             exists d cb' ctx',
               rearming_callback cb t ctx s0 = [CallTimerRegister d cb' ctx']
               /\ (d <= 5)%N) as H3.
  { intros cb t ctx s0. exists 0%N, cb, ctx. split; [reflexivity|lia]. }
  assert (exists t tm rest,
             timers three_timers = (t, tm) :: rest /\ (Timer.deadline tm <= 5)%N) as H4.
  { eexists _, _, _. split; [reflexivity|]. simpl. lia. }
  split; [exact H1|]. split; [exact H2|]. split; [exact H3|]. split; [exact H4|].
  exact (rearming_timers_starve_the_loop next_handle fresh_timer rearming_callback
           5 1000 three_timers H1 H2 H3 H4).
Defined.

Lemma deregistering_the_fired_timer_is_fatal_witness :
  timers three_timers
    = (1%positive, Timer.mk_timer 3 10 0)
        :: [ (2%positive, Timer.mk_timer 3 20 0); (3%positive, Timer.mk_timer 9 30 0) ]
  /\ (Timer.deadline (Timer.mk_timer 3 10 0) <= 5)%N
  /\ (1%positive ∉ map fst [ (2%positive, Timer.mk_timer 3 20 0);
                             (3%positive, Timer.mk_timer 9 30 0) ])
  /\ self_cancelling_callback (Timer.callback (Timer.mk_timer 3 10 0)) 1
       (Timer.context (Timer.mk_timer 3 10 0))
       (set_timers [ (2%positive, Timer.mk_timer 3 20 0);
                     (3%positive, Timer.mk_timer 9 30 0) ] three_timers)
     = CallTimerDeregister 1 :: []
  /\ ProcessExpiredTimers next_handle fresh_timer self_cancelling_callback 3 5
       three_timers
     = (Aborted,
        set_timers [ (2%positive, Timer.mk_timer 3 20 0);
                     (3%positive, Timer.mk_timer 9 30 0) ] three_timers,
        [EvFired 1 (Timer.mk_timer 3 10 0)]).
Proof.
  assert (timers three_timers
          = (1%positive, Timer.mk_timer 3 10 0)
              :: [ (2%positive, Timer.mk_timer 3 20 0);
                   (3%positive, Timer.mk_timer 9 30 0) ]) as H1 by reflexivity.
  assert (Timer.deadline (Timer.mk_timer 3 10 0) <= 5)%N as H2 by (simpl; lia).
  assert (1%positive ∉ map fst [ (2%positive, Timer.mk_timer 3 20 0);
                                 (3%positive, Timer.mk_timer 9 30 0) ]) as H3.
  { simpl. rewrite !not_elem_of_cons. split_and!; try done. apply not_elem_of_nil. }
  assert (self_cancelling_callback (Timer.callback (Timer.mk_timer 3 10 0)) 1
            (Timer.context (Timer.mk_timer 3 10 0))
            (set_timers [ (2%positive, Timer.mk_timer 3 20 0);
                          (3%positive, Timer.mk_timer 9 30 0) ] three_timers)
          = CallTimerDeregister 1 :: []) as H4 by reflexivity.
  split; [exact H1|]. split; [exact H2|]. split; [exact H3|]. split; [exact H4|].
  exact (deregistering_the_fired_timer_is_fatal next_handle fresh_timer
           self_cancelling_callback 5 2 three_timers 1 (Timer.mk_timer 3 10 0)
           [ (2%positive, Timer.mk_timer 3 20 0); (3%positive, Timer.mk_timer 9 30 0) ]
           [] H1 H2 H3 H4).
Defined.

End Timer_pass_facts.

(** ** File handles: registering and deregistering *)

Module FileHandle_registry_facts.
Import RunLoop RunLoop_inputs FileHandle_inv FileHandle_facts.

(** Two memories that hold the same list agree on its links. *)
Lemma chain_same_next (h h' : heap) a l z :
  chain h a l z -> chain h' a l z ->
  forall x, x ∈ a :: l -> nxt h x = nxt h' x.
Proof.
  revert a. induction l as [|p l IH]; intros a; simpl.
  - intros [H1 _] [H1' _] x Hx. apply list_elem_of_singleton in Hx. subst.
    by rewrite H1, H1'.
  - intros (H1 & _ & H3) (H1' & _ & H3') x Hx.
    apply elem_of_cons in Hx as [->|Hx]; [by rewrite H1, H1'|].
    by apply (IH p).
Qed.

Lemma chain_same_prev (h h' : heap) a l z :
  chain h a l z -> chain h' a l z ->
  forall x, x ∈ l ++ [z] -> prv h x = prv h' x.
Proof.
  revert a. induction l as [|p l IH]; intros a; simpl.
  - intros [_ H2] [_ H2'] x Hx. apply list_elem_of_singleton in Hx. subst.
    by rewrite H2, H2'.
  - intros (_ & H2 & H3) (_ & H2' & H3') x Hx.
    apply elem_of_cons in Hx as [->|Hx]; [by rewrite H2, H2'|].
    by apply (IH p).
Qed.

(** A struct is its payload and its two links. *)
Lemma same_struct (h h' : heap) q :
  payload_at h q = payload_at h' q ->
  nxt h q = nxt h' q -> prv h q = prv h' q ->
  is_Some (h !! q) -> h !! q = h' !! q.
Proof.
  unfold payload_at, nxt, prv. intros Hp Hn Hv [fh Hfh]. rewrite Hfh in *.
  destruct (h' !! q) as [fh'|]; [|done]. simpl in *.
  destruct fh, fh'. unfold payload in Hp. simpl in *. by simplify_eq.
Qed.

Section Registry.

Variable calloc_handle : runLoop_t -> option positive.

(** [calloc] returns memory that is not in use. *)
Hypothesis calloc_fresh :
  forall s a, calloc_handle s = Some a -> handles s !! Npos a = None.

Local Abbreviation register := (HAPPlatformFileHandleRegister calloc_handle).

(** X20. A registration puts the new handle at the end of the list:
    the handles registered before keep their order and what they
    hold, the new one holds the descriptor, interests, callback and
    context it was registered with and does not await events; the
    cursor of a pass in progress, the timers and the state of the
    loop are not touched. When memory is exhausted nothing changes
    and no handle is returned. *)
Theorem registration_appends_the_handle s l fd i cb ctx :
  handle_list s l ->
  (forall a,
      calloc_handle s = Some a ->
      exists s',
        register s fd i cb ctx = Some (s', kHAPError_None, Some a)
        /\ handle_list s' (l ++ [Npos a])
        /\ (Npos a ∉ fileHandles :: l)
        /\ payload_at (handles s') (Npos a) = Some (fd, i, cb, ctx, false)
        /\ (forall q, q <> Npos a ->
                      payload_at (handles s') q = payload_at (handles s) q)
        /\ fileHandleCursor s' = fileHandleCursor s
        /\ timers s' = timers s
        /\ state s' = state s)
  /\ (calloc_handle s = None ->
      register s fd i cb ctx = Some (s, kHAPError_OutOfResources, None)).
Proof using calloc_fresh.
  intros Hl. split.
  - intros a Hc.
    destruct (register_spec calloc_handle calloc_fresh s l fd i cb ctx a Hl Hc)
      as (s' & H1 & H2 & H3 & H4 & H5 & H6 & H7 & H8).
    exists s'. done.
  - intros Hc. unfold HAPPlatformFileHandleRegister. by rewrite Hc.
Qed.

(** X21. Registering a handle and deregistering it again leaves the
    run loop exactly as it was: the list, every struct in memory
    and the cursor. *)
Theorem register_then_deregister_restores s l fd i cb ctx a :
  handle_list s l ->
  calloc_handle s = Some a ->
  fileHandleCursor s <> Some (Npos a) ->
  exists s',
    register s fd i cb ctx = Some (s', kHAPError_None, Some a)
    /\ HAPPlatformFileHandleDeregister s' a = Some s.
Proof using calloc_fresh.
  intros Hl Hc Hcur.
  destruct (register_spec calloc_handle calloc_fresh s l fd i cb ctx a Hl Hc)
    as (s1 & Hreg & Hl1 & Hnew & Hcur1 & Ht1 & Hst1 & _ & Hpay1).
  destruct (deregister_spec s1 l a [] Hl1)
    as (s2 & Hder & Hl2 & Hcur2 & Ht2 & Hst2 & Hgone & Hpay2).
  exists s1. split; [done|]. rewrite Hder. f_equal.
  rewrite app_nil_r in Hl2.
  assert (handles s2 = handles s) as Hh.
  { apply map_eq. intros q.
    destruct (decide (q = Npos a)) as [->|Hq].
    - rewrite Hgone. symmetry. by apply calloc_fresh.
    - destruct Hl as (Hnd & Hch & Hdom). destruct Hl2 as (_ & Hch2 & Hdom2).
      destruct (decide (q ∈ fileHandles :: l)) as [Hin|Hout].
      + apply same_struct.
        * rewrite Hpay2, Hpay1 by done. done.
        * by apply (chain_same_next _ _ _ _ _ Hch2 Hch).
        * apply (chain_same_prev _ _ _ _ _ Hch2 Hch).
          apply elem_of_cons in Hin as [->|Hin]; in_list.
        * by apply Hdom2.
      + destruct (handles s2 !! q) as [x|] eqn:H2.
        { exfalso. apply Hout, Hdom2. eauto. }
        destruct (handles s !! q) as [y|] eqn:H0; [|done].
        exfalso. apply Hout, Hdom. eauto. }
  assert (fileHandleCursor s2 = fileHandleCursor s) as Hc2.
  { rewrite Hcur2, Hcur1.
    destruct (decide (Some (Npos a) = fileHandleCursor s)) as [He|_]; [|done].
    by rewrite <- He in Hcur. }
  destruct s2, s. simpl in *. rewrite Hh, Hc2, Ht2, Ht1, Hst2, Hst1. reflexivity.
Qed.

End Registry.

(** X22. Deregistering a registered handle unlinks exactly that
    handle and releases its struct: the other handles keep their
    order and what they hold, and a pass that stood at the handle
    goes on with the one behind it. A reference that is not
    registered, or is deregistered a second time, ends the process. *)
Theorem deregistration_unlinks_the_handle s l1 a l2 :
  handle_list s (l1 ++ Npos a :: l2) ->
  exists s',
    HAPPlatformFileHandleDeregister s a = Some s'
    /\ handle_list s' (l1 ++ l2)
    /\ handles s' !! Npos a = None
    /\ (forall q, q <> Npos a -> payload_at (handles s') q = payload_at (handles s) q)
    /\ fileHandleCursor s'
       = (if decide (fileHandleCursor s = Some (Npos a))
          then Some (hd fileHandles l2) else fileHandleCursor s)
    /\ timers s' = timers s
    /\ state s' = state s
    /\ HAPPlatformFileHandleDeregister s' a = None.
Proof.
  intros Hl.
  destruct (deregister_spec s l1 a l2 Hl)
    as (s' & Hder & Hl' & Hcur & Ht & Hst & Hgone & Hpay).
  exists s'. split_and!; try done.
  - rewrite Hcur. destruct (decide (Some (Npos a) = fileHandleCursor s)) as [He|Hne].
    + by rewrite decide_True.
    + by rewrite decide_False.
  - unfold HAPPlatformFileHandleDeregister. by rewrite Hgone.
Qed.

Lemma registration_appends_the_handle_witness :
  (forall s a, next_handle s = Some a -> handles s !! Npos a = None)
  /\ handle_list three_handles [1; 2; 3]%N
  /\ (forall a,
        next_handle three_handles = Some a ->
        exists s',
          HAPPlatformFileHandleRegister next_handle three_handles 7 reading (Some 400) 0
            = Some (s', kHAPError_None, Some a)
          /\ handle_list s' ([1; 2; 3]%N ++ [Npos a])
          /\ (Npos a ∉ fileHandles :: [1; 2; 3]%N)
          /\ payload_at (handles s') (Npos a) = Some (7, reading, Some 400, 0, false)
          /\ (forall q, q <> Npos a ->
                        payload_at (handles s') q = payload_at (handles three_handles) q)
          /\ fileHandleCursor s' = fileHandleCursor three_handles
          /\ timers s' = timers three_handles
          /\ state s' = state three_handles)
  /\ (next_handle three_handles = None ->
      HAPPlatformFileHandleRegister next_handle three_handles 7 reading (Some 400) 0
      = Some (three_handles, kHAPError_OutOfResources, None)).
Proof.
  split; [exact next_handle_fresh|]. split; [exact three_handles_list|].
  exact (registration_appends_the_handle next_handle next_handle_fresh three_handles
           [1; 2; 3]%N 7 reading (Some 400) 0 three_handles_list).
Defined.

Lemma register_then_deregister_restores_witness :
  (forall s a, next_handle s = Some a -> handles s !! Npos a = None)
  /\ handle_list three_handles [1; 2; 3]%N
  /\ next_handle three_handles = Some 4%positive
  /\ fileHandleCursor three_handles <> Some 4%N
  /\ exists s',
      HAPPlatformFileHandleRegister next_handle three_handles 7 reading (Some 400) 0
        = Some (s', kHAPError_None, Some 4%positive)
      /\ HAPPlatformFileHandleDeregister s' 4 = Some three_handles.
Proof.
  assert (next_handle three_handles = Some 4%positive) as H1 by (vm_compute; reflexivity).
  assert (fileHandleCursor three_handles <> Some 4%N) as H2 by discriminate.
  split; [exact next_handle_fresh|]. split; [exact three_handles_list|].
  split; [exact H1|]. split; [exact H2|].
  exact (register_then_deregister_restores next_handle next_handle_fresh three_handles
           [1; 2; 3]%N 7 reading (Some 400) 0 4 three_handles_list H1 H2).
Defined.

Lemma deregistration_unlinks_the_handle_witness :
  handle_list three_handles ([1%N] ++ 2%N :: [3%N])
  /\ exists s',
      HAPPlatformFileHandleDeregister three_handles 2 = Some s'
      /\ handle_list s' ([1%N] ++ [3%N])
      /\ handles s' !! 2%N = None
      /\ (forall q, q <> 2%N ->
                    payload_at (handles s') q = payload_at (handles three_handles) q)
      /\ fileHandleCursor s'
         = (if decide (fileHandleCursor three_handles = Some 2%N)
            then Some (hd fileHandles [3%N]) else fileHandleCursor three_handles)
      /\ timers s' = timers three_handles
      /\ state s' = state three_handles
      /\ HAPPlatformFileHandleDeregister s' 2 = None.
Proof.
  split; [exact three_handles_list|].
  exact (deregistration_unlinks_the_handle three_handles [1%N] 2 [3%N]
           three_handles_list).
Defined.

End FileHandle_registry_facts.

(** ** The run loop: preparing [select], the timeout, and stopping *)

Module RunLoopRun_facts.
Import RunLoop RunLoop_inputs FileHandle_inv FileHandle_facts RunLoopRun.

Ltac ltb_cases :=
  repeat case_match;
  repeat match goal with
         | H : (_ <? _) = true |- _ => apply Z.ltb_lt in H
         | H : (_ <? _) = false |- _ => apply Z.ltb_ge in H
         end.

Section Prepare.

Variable FD_SETSIZE : Z.

Local Abbreviation mark := (mark FD_SETSIZE).
Local Abbreviation prepare_select := (prepare_select FD_SETSIZE).

(** One handle: it is flagged when it is watched, and its
    descriptor goes into the set of each of its interests. *)
Lemma mark_spec fh sets :
  (watched fh = true -> 0 <= fileDescriptor fh < FD_SETSIZE) ->
  exists sets',
    mark fh sets = Some (set_awaiting (watched fh) fh, sets')
    /\ (forall w x,
          x ∈ descriptors w sets'
          <-> x ∈ descriptors w sets
              \/ (x = fileDescriptor fh /\ x <> -1
                  /\ interested_in w (interests fh) = true))
    /\ maxFileDescriptor sets <= maxFileDescriptor sets'
    /\ (watched fh = true -> fileDescriptor fh <= maxFileDescriptor sets')
    /\ (maxFileDescriptor sets' = maxFileDescriptor sets
        \/ (watched fh = true /\ maxFileDescriptor sets' = fileDescriptor fh)).
Proof.
  destruct fh as [fd [r w e] cb ctx pv nx aw].
  destruct sets as [rd wr er m].
  unfold watched, RunLoopRun.mark, watch, any_event, FD_SET, set_awaiting.
  cbn [fileDescriptor interests isReadyForReading isReadyForWriting
       hasErrorConditionPending callback context prevFileHandle nextFileHandle
       isAwaitingEvents fst snd readFileDescriptors writeFileDescriptors
       errorFileDescriptors maxFileDescriptor].
  intros Hr.
  destruct (decide (fd = -1)) as [->|Hfd].
  { eexists. split; [reflexivity|]. cbn [maxFileDescriptor]. split_and!.
    - intros w0 x. split; [by left|]. intros [?|(-> & ? & _)]; done.
    - lia.
    - done.
    - by left. }
  rewrite (proj2 (Z.eqb_neq fd (-1))) in Hr |- * by done. cbn [negb andb] in Hr |- *.
  destruct r, w, e; cbn [orb andb] in Hr |- *;
    try (assert ((0 <=? fd) && (fd <? FD_SETSIZE) = true) as Hrange
           by (specialize (Hr eq_refl);
               apply andb_true_iff; split; [apply Z.leb_le|apply Z.ltb_lt]; lia));
    repeat (rewrite ?Hrange;
            cbn [mbind option_bind fst snd fileDescriptor interests callback context
                 prevFileHandle nextFileHandle isAwaitingEvents maxFileDescriptor
                 readFileDescriptors writeFileDescriptors errorFileDescriptors]);
    (eexists; split; [reflexivity|]);
    cbn [maxFileDescriptor];
    (split_and!;
     [ intros [| |] x; cbn [descriptors interested_in readFileDescriptors
                             writeFileDescriptors errorFileDescriptors
                             isReadyForReading isReadyForWriting
                             hasErrorConditionPending];
       set_solver
     | ltb_cases; lia
     | intros H; first [done | ltb_cases; lia]
     | ltb_cases; first [left; lia | right; split; [done|lia]] ]).
Qed.

(** Writing a struct back with its links as they were keeps the list. *)
Lemma handle_list_same_links s l p fh fh' :
  handle_list s l ->
  handles s !! p = Some fh ->
  nextFileHandle fh' = nextFileHandle fh ->
  prevFileHandle fh' = prevFileHandle fh ->
  handle_list (set_handles (<[p := fh']> (handles s)) s) l.
Proof.
  intros (Hnd & Hch & Hdom) Hfh Hn Hp. split_and!; [done| |].
  - simpl. eapply chain_ext; [| |exact Hch].
    + intros x _. rewrite nxt_insert. destruct (decide (p = x)) as [<-|]; [|done].
      unfold nxt. rewrite Hfh. simpl. by rewrite Hn.
    + intros x _. rewrite prv_insert. destruct (decide (p = x)) as [<-|]; [|done].
      unfold prv. rewrite Hfh. simpl. by rewrite Hp.
  - intros q. simpl. rewrite lookup_insert.
    destruct (decide (p = q)) as [<-|]; [|apply Hdom].
    rewrite <- Hdom, Hfh. split; eauto.
Qed.

(** The loop from any handle of the list on. *)
Lemma prepare_spec rem :
  forall pre s sets fuel,
    handle_list s (pre ++ rem) ->
    (length rem < fuel)%nat ->
    (forall p fh, p ∈ rem -> handles s !! p = Some fh -> watched fh = true ->
                  0 <= fileDescriptor fh < FD_SETSIZE) ->
    exists s' sets',
      prepare_select fuel (Some (hd fileHandles rem)) s sets = (Completed, s', sets')
      /\ handle_list s' (pre ++ rem)
      /\ (forall p fh, p ∈ rem -> handles s !! p = Some fh ->
                       handles s' !! p = Some (set_awaiting (watched fh) fh))
      /\ (forall q, q ∉ rem -> handles s' !! q = handles s !! q)
      /\ fileHandleCursor s' = fileHandleCursor s
      /\ timers s' = timers s
      /\ state s' = state s
      /\ (forall w x,
            x ∈ descriptors w sets'
            <-> x ∈ descriptors w sets
                \/ exists p fh,
                     p ∈ rem /\ handles s !! p = Some fh
                     /\ fileDescriptor fh = x /\ x <> -1
                     /\ interested_in w (interests fh) = true)
      /\ maxFileDescriptor sets <= maxFileDescriptor sets'
      /\ (forall p fh, p ∈ rem -> handles s !! p = Some fh -> watched fh = true ->
                       fileDescriptor fh <= maxFileDescriptor sets')
      /\ (maxFileDescriptor sets' = maxFileDescriptor sets
          \/ exists p fh,
               p ∈ rem /\ handles s !! p = Some fh /\ watched fh = true
               /\ maxFileDescriptor sets' = fileDescriptor fh).
Proof.
  induction rem as [|p rem IH]; intros pre s sets fuel Hl Hfuel Hrange.
  - destruct fuel as [|fuel]; [simpl in Hfuel; lia|].
    exists s, sets. cbn [RunLoopRun.prepare_select hd]. rewrite decide_True by done.
    split_and!.
    + done.
    + done.
    + intros p fh Hp. by apply elem_of_nil in Hp.
    + done.
    + done.
    + done.
    + done.
    + intros w x. split; [by left|]. intros [?|(p & fh & Hp & _)]; [done|].
      by apply elem_of_nil in Hp.
    + lia.
    + intros p fh Hp. by apply elem_of_nil in Hp.
    + by left.
  - destruct fuel as [|fuel]; [simpl in Hfuel; lia|].
    assert (p ∈ pre ++ p :: rem) as Hin by in_list.
    destruct (handle_list_lookup s _ p Hl Hin) as [[fh Hfh] Hp0].
    destruct Hl as (Hnd & Hch & Hdom).
    assert (p ∉ rem) as Hprem.
    { apply NoDup_cons in Hnd as [_ Hnd]. apply NoDup_app in Hnd as (_ & _ & Hnd).
      by apply NoDup_cons in Hnd as [? _]. }
    assert (nextFileHandle fh = Some (hd fileHandles rem)) as Hnext.
    { apply chain_app in Hch as [_ Hch2].
      apply chain_next_of_start in Hch2. unfold nxt in Hch2.
      rewrite Hfh in Hch2. done. }
    destruct (mark_spec fh sets) as (sets1 & Hmark & Hd1 & Hm1 & Hm2 & Hm3).
    { apply (Hrange p fh); [in_list|done]. }
    set (fh' := set_awaiting (watched fh) fh) in *.
    set (s1 := set_handles (<[p := fh']> (handles s)) s).
    assert (handle_list s1 ((pre ++ [p]) ++ rem)) as Hl1.
    { rewrite <- app_assoc. simpl.
      apply (handle_list_same_links s _ p fh fh'); done. }
    assert (forall q, q <> p -> handles s1 !! q = handles s !! q) as Hother.
    { intros q Hq. unfold s1. simpl. by rewrite lookup_insert_ne. }
    destruct (IH (pre ++ [p]) s1 sets1 fuel Hl1) as
      (s' & sets' & Hrun & Hl' & Hmarked & Hframe & Hc & Ht & Hst & Hd & Hmx1 & Hmx2 & Hmx3).
    { simpl in Hfuel. lia. }
    { intros q fq Hq Hfq. apply (Hrange q fq); [in_list|].
      rewrite <- Hother; [done|]. by intros ->. }
    exists s', sets'. split_and!.
    + cbn [RunLoopRun.prepare_select hd]. rewrite decide_False by done.
      rewrite Hfh, Hmark. cbn [nextFileHandle set_awaiting fh'].
      rewrite Hnext. exact Hrun.
    + by rewrite <- app_assoc in Hl'.
    + intros q fq Hq Hfq. apply elem_of_cons in Hq as [->|Hq].
      * rewrite Hframe by done. unfold s1. simpl. rewrite lookup_insert_eq.
        by simplify_eq.
      * apply Hmarked; [done|]. rewrite Hother; [done|]. by intros ->.
    + intros q Hq. apply not_elem_of_cons in Hq as [Hqp Hq].
      rewrite Hframe by done. by apply Hother.
    + done.
    + done.
    + done.
    + intros w x. rewrite Hd, Hd1. split.
      * intros [[?|(-> & ? & ?)]|(q & fq & Hq & Hfq & ? & ? & ?)].
        -- by left.
        -- right. exists p, fh. split_and!; [in_list|done|done|done|done].
        -- right. exists q, fq. split_and!; [in_list| |done|done|done].
           rewrite <- Hother; [done|]. by intros ->.
      * intros [?|(q & fq & Hq & Hfq & ? & ? & ?)]; [by left; left|].
        apply elem_of_cons in Hq as [->|Hq].
        -- left. right. by simplify_eq.
        -- right. exists q, fq. split_and!; try done.
           rewrite Hother; [done|]. by intros ->.
    + lia.
    + intros q fq Hq Hfq Hw. apply elem_of_cons in Hq as [->|Hq].
      * simplify_eq. specialize (Hm2 Hw). lia.
      * apply (Hmx2 q fq); [done| |done]. rewrite Hother; [done|]. by intros ->.
    + destruct Hmx3 as [Hsame|(q & fq & Hq & Hfq & Hw & Hmax)].
      * destruct Hm3 as [Hsame1|[Hw Hmax]].
        -- left. lia.
        -- right. exists p, fh. split_and!; [in_list|done|done|lia].
      * right. exists q, fq. split_and!; [in_list| |done|done].
        rewrite <- Hother; [done|]. by intros ->.
Qed.

(** X23. Before each [select], the loop over a well-formed list of
    handles whose watched descriptors are below [FD_SETSIZE]
    completes. It flags exactly the handles that have a descriptor
    and at least one interest, and changes nothing else of any
    handle; the set built for each kind of event holds exactly the
    descriptors of the handles interested in it; and the largest
    descriptor passed on bounds all of them, being one of them or
    -1 when there is none. *)
Theorem select_is_prepared_from_the_interests s l fuel :
  handle_list s l ->
  (length l < fuel)%nat ->
  (forall p fh, p ∈ l -> handles s !! p = Some fh -> watched fh = true ->
                0 <= fileDescriptor fh < FD_SETSIZE) ->
  exists s' sets,
    prepare_select fuel (nxt (handles s) fileHandles) s no_descriptors
      = (Completed, s', sets)
    /\ handle_list s' l
    /\ (forall p fh, p ∈ l -> handles s !! p = Some fh ->
                     handles s' !! p = Some (set_awaiting (watched fh) fh))
    /\ (forall q, q ∉ l -> handles s' !! q = handles s !! q)
    /\ fileHandleCursor s' = fileHandleCursor s
    /\ timers s' = timers s
    /\ state s' = state s
    /\ (forall w x,
          x ∈ descriptors w sets
          <-> exists p fh,
                p ∈ l /\ handles s !! p = Some fh
                /\ fileDescriptor fh = x /\ x <> -1
                /\ interested_in w (interests fh) = true)
    /\ (forall p fh, p ∈ l -> handles s !! p = Some fh -> watched fh = true ->
                     fileDescriptor fh <= maxFileDescriptor sets)
    /\ (maxFileDescriptor sets = -1
        \/ exists p fh,
             p ∈ l /\ handles s !! p = Some fh /\ watched fh = true
             /\ maxFileDescriptor sets = fileDescriptor fh).
Proof.
  intros Hl Hfuel Hrange.
  destruct (prepare_spec l [] s no_descriptors fuel Hl Hfuel Hrange)
    as (s' & sets & Hrun & Hl' & Hmarked & Hframe & Hc & Ht & Hst & Hd & _ & Hmx2 & Hmx3).
  exists s', sets.
  assert (nxt (handles s) fileHandles = Some (hd fileHandles l)) as ->.
  { destruct Hl as (_ & Hch & _). by apply chain_next_of_start in Hch. }
  split_and!; try done.
  intros w x. rewrite Hd. split; [|by right].
  intros [Hx|?]; [|done]. destruct w; simpl in Hx; by apply elem_of_empty in Hx.
Qed.

End Prepare.

Section Timeout.

Variable TIME_T_BITS : Z.

Lemma to_time_t_small z :
  1 <= TIME_T_BITS -> 0 <= z < 2 ^ (TIME_T_BITS - 1) ->
  to_time_t TIME_T_BITS z = z.
Proof.
  intros Hb Hz. unfold to_time_t.
  assert (2 ^ TIME_T_BITS = 2 * 2 ^ (TIME_T_BITS - 1)) as Hp.
  { replace TIME_T_BITS with (Z.succ (TIME_T_BITS - 1)) at 1 by lia.
    apply Z.pow_succ_r. lia. }
  rewrite Z.mod_small by lia. lia.
Qed.

(** X24. With the stored deadlines never zero, [select] is given no
    timeout exactly when no timer is pending. Otherwise the timeout
    is the time from the clock to the first deadline, zero when
    the deadline has passed, split into whole seconds and
    microseconds below one second, as long as the seconds fit
    [time_t]. *)
Theorem select_timeout_is_time_to_first_deadline s clock :
  Forall deadline_pos (timers s) ->
  1 <= TIME_T_BITS ->
  (select_timeout TIME_T_BITS s clock = None <-> timers s = [])
  /\ (forall t tm rest,
        timers s = (t, tm) :: rest ->
        Z.of_N ((Timer.deadline tm - clock) / 1000) < 2 ^ (TIME_T_BITS - 1) ->
        exists tv,
          select_timeout TIME_T_BITS s clock = Some tv
          /\ 0 <= tv_sec tv
          /\ 0 <= tv_usec tv < 1000000
          /\ tv_sec tv * 1000000 + tv_usec tv
             = 1000 * Z.of_N (Timer.deadline tm - clock)).
Proof.
  intros Hpos Hb. unfold select_timeout.
  destruct (timers s) as [|[t0 tm0] rest0] eqn:Ht.
  - split; [done|]. intros t tm rest Heq. done.
  - inversion Hpos as [|? ? Hd _]; subst. unfold deadline_pos in Hd. simpl in Hd.
    destruct (N.eqb_spec (Timer.deadline tm0) 0) as [|_]; [lia|].
    split; [split; done|].
    intros t tm rest [= <- <- <-] Hfit.
    set (d := Timer.deadline tm0) in *.
    assert ((if (clock <? d)%N then (d - clock)%N else 0%N) = (d - clock)%N) as ->.
    { destruct (N.ltb_spec clock d); lia. }
    set (delta := (d - clock)%N) in *.
    eexists. split; [reflexivity|]. cbn [tv_sec tv_usec].
    rewrite to_time_t_small; [|done|split; [apply N2Z.is_nonneg|done]].
    rewrite N2Z.inj_mul, N2Z.inj_mod, N2Z.inj_div in *.
    change (Z.of_N 1000) with 1000 in *.
    pose proof (Z.div_mod (Z.of_N delta) 1000 ltac:(lia)) as Hdm.
    pose proof (Z.mod_pos_bound (Z.of_N delta) 1000 ltac:(lia)) as Hm.
    assert (0 <= Z.of_N delta / 1000) by (apply Z.div_pos; lia).
    split_and!; lia.
Qed.

End Timeout.

(** *** Stopping *)

Lemma stop_only_frame s s' evs : state s' = state s -> stop_only s s' evs.
Proof. by left. Qed.

Lemma stop_only_trans s s1 s2 e1 e2 :
  stop_only s s1 e1 -> stop_only s1 s2 e2 -> stop_only s s2 (e1 ++ e2).
Proof.
  unfold stop_only. intros [H1|[H1 E1]] [H2|[H2 E2]].
  - left. congruence.
  - right. split; [done|]. apply elem_of_app. by right.
  - right. split; [congruence|]. apply elem_of_app. by left.
  - right. split; [done|]. apply elem_of_app. by right.
Qed.

Section Stopping.

Variable FD_SETSIZE : Z.
Variable TIME_T_BITS : Z.
Variable calloc_handle : runLoop_t -> option positive.
Variable calloc_timer : runLoop_t -> option positive.
Variable handle_callback :
  Z -> N -> HAPPlatformFileHandleEvent -> Z -> runLoop_t -> list call.
Variable timer_callback : Z -> positive -> Z -> runLoop_t -> list call.

Local Abbreviation do_call := (do_call calloc_handle calloc_timer).
Local Abbreviation run_calls := (run_calls calloc_handle calloc_timer).

Lemma do_call_stop_only c s s' evs :
  do_call c s = Some (s', evs) -> stop_only s s' evs.
Proof.
  intros Hc.
  destruct c as [fd i cb ctx|h i cb ctx|h|d cb ctx|t|]; simpl in Hc.
  - destruct (HAPPlatformFileHandleRegister calloc_handle s fd i cb ctx)
      as [[[s1 err] r]|] eqn:Hreg; [|done].
    apply Timer_pass_facts.handle_register_timers in Hreg as [_ Hst].
    destruct r; simpl in Hc; injection Hc as <- <-; by left.
  - destruct (HAPPlatformFileHandleUpdateInterests s h i cb ctx) as [s1|] eqn:Hup;
      [|done].
    apply Timer_pass_facts.handle_update_timers in Hup as [_ Hst].
    simpl in Hc; injection Hc as <- <-; by left.
  - destruct (HAPPlatformFileHandleDeregister s h) as [s1|] eqn:Hder; [|done].
    apply Timer_pass_facts.handle_deregister_timers in Hder as [_ Hst].
    simpl in Hc; injection Hc as <- <-; by left.
  - unfold HAPPlatformTimerRegister in Hc.
    destruct (calloc_timer s) as [t|]; injection Hc as <- <-; by left.
  - unfold HAPPlatformTimerDeregister in Hc.
    destruct (remove_timer t (timers s)) as [l|]; [|done].
    simpl in Hc. injection Hc as <- <-. by left.
  - injection Hc as <- <-. unfold HAPPlatformRunLoopStop.
    destruct (state s) eqn:Hs; [by left| |by left].
    right. split; [done|]. by apply list_elem_of_singleton.
Qed.

Lemma run_calls_stop_only cs :
  forall s tr st s' tr',
    run_calls cs s tr = (st, s', tr') ->
    exists evs, tr' = tr ++ evs /\ stop_only s s' evs.
Proof.
  induction cs as [|c cs IH]; intros s tr st s' tr' Hrun; simpl in Hrun.
  - injection Hrun as _ <- <-. exists []. rewrite app_nil_r. split; [done|by left].
  - destruct (do_call c s) as [[s1 evs]|] eqn:Hc.
    + destruct (IH _ _ _ _ _ Hrun) as (evs2 & -> & H2).
      exists (evs ++ evs2). rewrite app_assoc. split; [done|].
      eapply stop_only_trans; [|exact H2]. by eapply do_call_stop_only.
    + injection Hrun as _ <- <-. exists []. rewrite app_nil_r. split; [done|by left].
Qed.

Lemma timers_loop_stop_only now :
  forall fuel s tr st s' tr',
    ProcessExpiredTimers_loop calloc_handle calloc_timer timer_callback fuel now s tr
      = (st, s', tr') ->
    exists evs, tr' = tr ++ evs /\ stop_only s s' evs.
Proof.
  induction fuel as [|fuel IH]; intros s tr st s' tr' Hrun; simpl in Hrun.
  - injection Hrun as _ <- <-. exists []. rewrite app_nil_r. split; [done|by left].
  - destruct (timers s) as [|[t0 tm0] rest].
    { injection Hrun as _ <- <-. exists []. rewrite app_nil_r. split; [done|by left]. }
    destruct (now <? Timer.deadline tm0)%N.
    { injection Hrun as _ <- <-. exists []. rewrite app_nil_r. split; [done|by left]. }
    destruct (run_calls _ (set_timers rest s) (tr ++ [EvFired t0 tm0]))
      as [[st1 s2] tr2] eqn:Hrc.
    destruct (run_calls_stop_only _ _ _ _ _ _ Hrc) as (evs1 & -> & H1).
    assert (stop_only s s2 ([EvFired t0 tm0] ++ evs1)) as H01.
    { eapply stop_only_trans; [|exact H1]. by left. }
    destruct st1.
    + destruct (IH _ _ _ _ _ Hrun) as (evs2 & -> & H2).
      exists (([EvFired t0 tm0] ++ evs1) ++ evs2). split.
      * by rewrite <- !app_assoc.
      * by eapply stop_only_trans.
    + injection Hrun as _ <- <-. exists ([EvFired t0 tm0] ++ evs1).
      split; [by rewrite <- !app_assoc|done].
    + injection Hrun as _ <- <-. exists ([EvFired t0 tm0] ++ evs1).
      split; [by rewrite <- !app_assoc|done].
Qed.

Lemma handles_loop_stop_only rd wr er :
  forall fuel s tr st s' tr',
    ProcessSelectedFileHandles_loop calloc_handle calloc_timer handle_callback
      fuel rd wr er s tr = (st, s', tr') ->
    exists evs, tr' = tr ++ evs /\ stop_only s s' evs.
Proof.
  assert (forall s tr, exists evs : list event, tr = tr ++ evs /\ stop_only s s evs)
    as Hnone.
  { intros s tr. exists []. rewrite app_nil_r. split; [done|by left]. }
  induction fuel as [|fuel IH]; intros s tr st s' tr' Hrun; simpl in Hrun.
  - injection Hrun as _ <- <-. apply Hnone.
  - destruct (fileHandleCursor s) as [p|]; [|injection Hrun as _ <- <-; apply Hnone].
    destruct (decide (p = fileHandles)); [injection Hrun as _ <- <-; apply Hnone|].
    destruct (handles s !! p) as [fh|]; [|injection Hrun as _ <- <-; apply Hnone].
    destruct (isAwaitingEvents fh).
    2:{ destruct (IH _ _ _ _ _ Hrun) as (evs & -> & H). exists evs. split; [done|].
        destruct H as [H|H]; [by left|by right]. }
    destruct (decide (fileDescriptor fh = -1)).
    { injection Hrun as _ <- <-. exists []. rewrite app_nil_r. split; [done|by left]. }
    set (s2 := set_handles _ _) in Hrun.
    assert (state s2 = state s) as Hs2 by done.
    destruct (callback fh) as [cb|].
    2:{ destruct (IH _ _ _ _ _ Hrun) as (evs & -> & H).
        exists ([EvVisit p fh] ++ evs). split; [by rewrite <- app_assoc|].
        eapply stop_only_trans; [|exact H]. by left. }
    destruct (any_event (selected fh rd wr er)).
    2:{ destruct (IH _ _ _ _ _ Hrun) as (evs & -> & H).
        exists ([EvVisit p fh] ++ evs). split; [by rewrite <- app_assoc|].
        eapply stop_only_trans; [|exact H]. by left. }
    destruct (run_calls _ s2 _) as [[st1 s3] tr3] eqn:Hrc.
    destruct (run_calls_stop_only _ _ _ _ _ _ Hrc) as (evs1 & -> & H1).
    assert (stop_only s s3
              (([EvVisit p fh] ++ [EvInvoke p cb (selected fh rd wr er) (context fh)])
                 ++ evs1)) as H01.
    { eapply stop_only_trans; [|exact H1]. by left. }
    destruct st1.
    + destruct (IH _ _ _ _ _ Hrun) as (evs2 & -> & H2).
      eexists. split; [|by eapply stop_only_trans].
      by rewrite <- !app_assoc.
    + injection Hrun as _ <- <-. eexists. split; [|exact H01].
      by rewrite <- !app_assoc.
    + injection Hrun as _ <- <-. eexists. split; [|exact H01].
      by rewrite <- !app_assoc.
Qed.

Lemma prepare_select_state :
  forall fuel p s sets st s' sets',
    prepare_select FD_SETSIZE fuel p s sets = (st, s', sets') -> state s' = state s.
Proof.
  induction fuel as [|fuel IH]; intros p s sets st s' sets' Hrun; simpl in Hrun.
  - by injection Hrun as _ <- _.
  - destruct p as [p|]; [|by injection Hrun as _ <- _].
    destruct (decide (p = fileHandles)); [by injection Hrun as _ <- _|].
    destruct (handles s !! p) as [fh|]; [|by injection Hrun as _ <- _].
    destruct (mark FD_SETSIZE fh sets) as [[fh' sets1]|]; [|by injection Hrun as _ <- _].
    by apply IH in Hrun.
Qed.

Local Abbreviation iteration :=
  (iteration FD_SETSIZE TIME_T_BITS calloc_handle calloc_timer
     handle_callback timer_callback).
Local Abbreviation run_loop :=
  (run_loop FD_SETSIZE TIME_T_BITS calloc_handle calloc_timer
     handle_callback timer_callback).

Lemma iteration_stop_only fuel k s st s' evs :
  iteration fuel k s = (st, s', evs) ->
  exists es, stop_only s s' es /\ forall e, e ∈ es -> RunPass e ∈ evs.
Proof.
  assert (forall s1 (evs1 : list run_event),
             state s1 = state s ->
             exists es, stop_only s s1 es /\ forall e, e ∈ es -> RunPass e ∈ evs1)
    as Hnone.
  { intros s1 evs1 Hs. exists []. split; [by left|].
    intros e He. by apply elem_of_nil in He. }
  unfold RunLoopRun.iteration. intros Hrun.
  destruct (handles s !! fileHandles) as [sen|];
    [|injection Hrun as _ <- <-; by apply Hnone].
  destruct (prepare_select _ _ _ _ _) as [[st1 s1] sets] eqn:Hprep.
  apply prepare_select_state in Hprep.
  destruct st1; [|injection Hrun as _ <- <-; by apply Hnone
                 |injection Hrun as _ <- <-; by apply Hnone].
  destruct (_ || _); [injection Hrun as _ <- <-; by apply Hnone|].
  destruct (select_does k) as [rd wr er| |];
    [|injection Hrun as _ <- <-; by apply Hnone
     |injection Hrun as _ <- <-; by apply Hnone].
  destruct (ProcessExpiredTimers _ _ _ _ _ s1) as [[st2 s2] tr2] eqn:Ht.
  unfold ProcessExpiredTimers in Ht.
  destruct (timers_loop_stop_only _ _ _ _ _ _ _ Ht) as (e2 & He2 & H2).
  simpl in He2. subst e2.
  assert (stop_only s s2 tr2) as H02.
  { destruct H2 as [H2|H2]; [left; congruence|by right]. }
  assert (forall (tr : list event) sel e, e ∈ tr -> RunPass e ∈ sel :: map RunPass tr)
    as Hin.
  { intros tr sel e He. apply elem_of_cons. right.
    apply list_elem_of_fmap. by exists e. }
  destruct st2.
  - destruct (ProcessSelectedFileHandles _ _ _ _ _ _ _ s2) as [[st3 s3] tr3] eqn:Hh.
    injection Hrun as _ <- <-.
    unfold ProcessSelectedFileHandles in Hh.
    destruct (handles s2 !! fileHandles) as [sen2|].
    + destruct (handles_loop_stop_only _ _ _ _ _ _ _ _ _ Hh) as (e3 & He3 & H3).
      simpl in He3. subst e3.
      exists (tr2 ++ tr3). split; [|by apply Hin].
      eapply stop_only_trans; [exact H02|].
      destruct H3 as [H3|H3]; [by left|by right].
    + injection Hh as _ <- <-. exists (tr2 ++ []). split; [|by apply Hin].
      eapply stop_only_trans; [exact H02|by left].
  - injection Hrun as _ <- <-. exists tr2. split; [done|by apply Hin].
  - injection Hrun as _ <- <-. exists tr2. split; [done|by apply Hin].
Qed.

Lemma run_loop_stops fuel :
  forall ticks s tr s' tr',
    state s = kHAPPlatformRunLoopState_Running ->
    run_loop fuel ticks s tr = (Completed, s', tr') ->
    state s' = kHAPPlatformRunLoopState_Stopping
    /\ RunPass EvStop ∈ tr'.
Proof.
  induction ticks as [|k ticks IH]; intros s tr s' tr' Hs Hrun; simpl in Hrun; [done|].
  destruct (iteration fuel k s) as [[st1 s1] evs1] eqn:Hit.
  destruct (iteration_stop_only _ _ _ _ _ _ Hit) as (es & Hso & Hin).
  destruct st1; [|done|done].
  destruct (state s1) eqn:Hs1.
  - injection Hrun as <- <-. destruct Hso as [Hso|[Hso _]]; congruence.
  - destruct (IH _ _ _ _ Hs1 Hrun) as [H1 H2]. done.
  - injection Hrun as <- <-. split; [done|].
    destruct Hso as [Hso|[_ Hso]]; [congruence|].
    apply elem_of_app. right. by apply Hin.
Qed.

(** X25. [HAPPlatformRunLoopRun] returns only when a callback has
    asked for the stop while it ran: a run that returns was started
    on an idle loop, has a stop request among the events of its
    passes, and leaves the loop idle, ready to be run again.
    Started on a loop that is not idle it ends the process at
    once, and a stop request on a loop that is not running
    changes nothing. *)
Theorem run_returns_only_after_stop fuel ticks s :
  (forall s' tr,
      HAPPlatformRunLoopRun FD_SETSIZE TIME_T_BITS calloc_handle calloc_timer
        handle_callback timer_callback fuel ticks s = (Completed, s', tr) ->
      state s = kHAPPlatformRunLoopState_Idle
      /\ state s' = kHAPPlatformRunLoopState_Idle
      /\ RunPass EvStop ∈ tr)
  /\ (state s <> kHAPPlatformRunLoopState_Idle ->
      HAPPlatformRunLoopRun FD_SETSIZE TIME_T_BITS calloc_handle calloc_timer
        handle_callback timer_callback fuel ticks s = (Aborted, s, []))
  /\ (state s <> kHAPPlatformRunLoopState_Running -> HAPPlatformRunLoopStop s = s).
Proof.
  unfold HAPPlatformRunLoopRun. split_and!.
  - intros s' tr Hrun.
    destruct (state s) eqn:Hs; [|done|done].
    destruct (run_loop fuel ticks _ []) as [[st1 s1] tr1] eqn:Hloop.
    destruct st1; [|done|done].
    apply run_loop_stops in Hloop as [H1 H2]; [|done].
    rewrite H1 in Hrun. injection Hrun as <- <-. done.
  - intros Hs. destruct (state s); done.
  - intros Hs. unfold HAPPlatformRunLoopStop. destruct (state s); done.
Qed.

End Stopping.

Lemma idle_loop_list : handle_list idle_loop [1; 2; 3]%N.
Proof.
  split_and!.
  - unfold fileHandles. repeat (apply NoDup_cons; split; [in_list|]). apply NoDup_nil_2.
  - vm_compute. repeat split.
  - intros p. unfold idle_loop, fileHandles. simpl.
    rewrite !elem_of_cons, elem_of_nil.
    destruct (decide (p = 0%N)) as [->|H0]; [split; [tauto|intros _; by eexists]|].
    rewrite lookup_insert_ne by done.
    destruct (decide (p = 1%N)) as [->|H1]; [split; [tauto|intros _; by eexists]|].
    rewrite lookup_insert_ne by done.
    destruct (decide (p = 2%N)) as [->|H2]; [split; [tauto|intros _; by eexists]|].
    rewrite lookup_insert_ne by done.
    destruct (decide (p = 3%N)) as [->|H3]; [split; [tauto|intros _; by eexists]|].
    rewrite lookup_singleton_ne by done.
    split; [intros [? ?]; done|]. intros [?|[?|[?|[?|[]]]]]; done.
Qed.

Lemma idle_loop_descriptors p fh :
  p ∈ [1; 2; 3]%N -> handles idle_loop !! p = Some fh -> watched fh = true ->
  0 <= fileDescriptor fh < 1024.
Proof.
  rewrite !elem_of_cons, elem_of_nil.
  intros [->|[->|[->|[]]]] Hfh _; vm_compute in Hfh;
    injection Hfh as <-; simpl; lia.
Qed.

Lemma select_is_prepared_from_the_interests_witness :
  handle_list idle_loop [1; 2; 3]%N
  /\ (length [1; 2; 3]%N < 5)%nat
  /\ exists s' sets,
       prepare_select 1024 5 (nxt (handles idle_loop) fileHandles) idle_loop
         no_descriptors = (Completed, s', sets)
       /\ (forall p fh, p ∈ [1; 2; 3]%N -> handles idle_loop !! p = Some fh ->
                        handles s' !! p = Some (set_awaiting (watched fh) fh))
       /\ (forall w x,
             x ∈ descriptors w sets
             <-> exists p fh,
                   p ∈ [1; 2; 3]%N /\ handles idle_loop !! p = Some fh
                   /\ fileDescriptor fh = x /\ x <> -1
                   /\ interested_in w (interests fh) = true).
Proof.
  assert (length [1; 2; 3]%N < 5)%nat as Hfuel by (simpl; lia).
  split; [exact idle_loop_list|]. split; [exact Hfuel|].
  destruct (select_is_prepared_from_the_interests 1024 idle_loop [1; 2; 3]%N 5
              idle_loop_list Hfuel idle_loop_descriptors)
    as (s' & sets & Hrun & _ & Hmarked & _ & _ & _ & _ & Hsets & _).
  exists s', sets. split; [exact Hrun|]. split; [exact Hmarked|exact Hsets].
Defined.

Lemma select_timeout_is_time_to_first_deadline_witness :
  Forall deadline_pos (timers Timer_pass.three_timers)
  /\ 1 <= 64
  /\ exists tv,
       select_timeout 64 Timer_pass.three_timers 1 = Some tv
       /\ 0 <= tv_sec tv
       /\ 0 <= tv_usec tv < 1000000
       /\ tv_sec tv * 1000000 + tv_usec tv = 1000 * Z.of_N (3 - 1).
Proof.
  assert (Forall deadline_pos (timers Timer_pass.three_timers)) as Hpos.
  { repeat constructor; unfold deadline_pos; simpl; lia. }
  assert (1 <= 64) as Hb by lia.
  split; [exact Hpos|]. split; [exact Hb|].
  destruct (select_timeout_is_time_to_first_deadline 64 Timer_pass.three_timers 1
              Hpos Hb) as [_ Hsome].
  apply (Hsome 1%positive (Timer.mk_timer 3 10 0)
           [ (2%positive, Timer.mk_timer 3 20 0);
             (3%positive, Timer.mk_timer 9 30 0) ]).
  - reflexivity.
  - vm_compute. reflexivity.
Defined.

Lemma run_returns_only_after_stop_witness :
  exists s' tr,
    HAPPlatformRunLoopRun 1024 64 next_handle next_timer stopping_callback
      quiet_timer_callback 10 two_ticks idle_loop = (Completed, s', tr)
    /\ state idle_loop = kHAPPlatformRunLoopState_Idle
    /\ state s' = kHAPPlatformRunLoopState_Idle
    /\ RunPass EvStop ∈ tr.
Proof.
  destruct (HAPPlatformRunLoopRun 1024 64 next_handle next_timer stopping_callback
              quiet_timer_callback 10 two_ticks idle_loop) as [[st s'] tr] eqn:Hrun.
  assert (st = Completed) as ->.
  { apply (f_equal (fun x => fst (fst x))) in Hrun. vm_compute in Hrun. congruence. }
  exists s', tr. split; [reflexivity|].
  exact (proj1 (run_returns_only_after_stop 1024 64 next_handle next_timer
                  stopping_callback quiet_timer_callback 10 two_ticks idle_loop)
           s' tr Hrun).
Defined.

(** A run of two iterations: in the first, the callback of handle 2
    is called; in the second, that of handle 3, which asks for the
    stop. The run returns and the loop is idle. The handle without
    interests is watched in neither. *)
Example run_of_two_iterations :
  (let '(st, s', tr) :=
     HAPPlatformRunLoopRun 1024 64 next_handle next_timer stopping_callback
       quiet_timer_callback 10 two_ticks idle_loop in
   (st, state s',
    omap (fun e => match e with
                   | RunPass (EvInvoke _ _ _ _) | RunPass EvStop => Some e
                   | _ => None
                   end) tr))
  = (Completed, kHAPPlatformRunLoopState_Idle,
     [ RunPass (EvInvoke 2 200 (mk_event true false false) 0);
       RunPass (EvInvoke 3 300 (mk_event true false false) 0);
       RunPass EvStop ]).
Proof. vm_compute. reflexivity. Qed.

End RunLoopRun_facts.

(** ** From [HAPPlatformRunLoopScheduleCallback] to the receiver *)

Module Loopback_schedule_facts.
Import RunLoop Loopback Loopback_inputs Loopback_facts.

(** X26. A callback scheduled with a context of at most [UINT8_MAX]
    bytes, the frame fitting [PIPE_BUF], is written as one frame of
    [sizeof callback + 1 + contextSize] bytes. A receiver whose
    buffer is empty and that reads these bytes dispatches exactly
    this callback, once, with the first [contextSize] bytes of the
    context and with the size, and its buffer is empty again. A
    context of size 0 arrives as the null pointer, whatever pointer
    was given. *)
Theorem scheduled_callback_is_dispatched P PIPE_BUF cb context n lb log :
  length cb = P ->
  (n <= UINT8_MAX)%nat ->
  (n + 1 + P <= PIPE_BUF)%nat ->
  match context with Some c => (n <= length c)%nat | None => n = 0%nat end ->
  length (loopbackBytes lb) = capacity P ->
  numLoopbackBytes lb = 0%nat ->
  exists bytes lb',
    HAPPlatformRunLoopScheduleCallback P PIPE_BUF cb context n true
      = Some (kHAPError_None, Some bytes)
    /\ length bytes = (P + 1 + n)%nat
    /\ HandleLoopbackFileHandleCallback P (recv_bytes bytes) lb log
       = (Completed, lb',
          log ++ [(cb, if (n =? 0)%nat then None else option_map (take n) context, n)])
    /\ numLoopbackBytes lb' = 0%nat.
Proof.
  intros Hcb Hn Hpipe Hctx Hcap Hnum.
  set (ctx := match context with Some c => take n c | None => [] end).
  assert (length ctx = n) as Hlen.
  { unfold ctx. destruct context as [c|]; [rewrite length_take; lia|by subst]. }
  set (f := mk_frame cb ctx).
  assert (HAPPlatformRunLoopScheduleCallback P PIPE_BUF cb context n true
          = Some (kHAPError_None, Some (encode f))) as Hsend.
  { unfold HAPPlatformRunLoopScheduleCallback.
    assert (negb (n =? 0)%nat && negb (bool_decide (is_Some context)) = false) as ->.
    { destruct context as [c|].
      - rewrite bool_decide_eq_true_2 by eauto. apply andb_false_r.
      - subst n. done. }
    destruct (Nat.ltb_spec UINT8_MAX n); [lia|].
    destruct (Nat.ltb_spec PIPE_BUF (n + 1 + P)); [lia|].
    unfold encode, f. cbn [f_callback f_context]. rewrite Hlen. done. }
  assert (length (encode f) = (P + 1 + n)%nat) as Hsize.
  { rewrite encode_length. unfold f. cbn [f_callback f_context]. lia. }
  assert (numLoopbackBytes lb < capacity P)%nat as H1 by (unfold capacity; lia).
  assert (0 < length (encode f) <= capacity P - numLoopbackBytes lb)%nat as H2.
  { rewrite Hsize, Hnum. unfold capacity, UINT8_MAX in *. lia. }
  assert (Forall (frame_ok P) [f]) as H3.
  { constructor; [|constructor]. split; unfold f; cbn [f_callback f_context]; [done|lia]. }
  assert (incomplete P []) as H4 by (left; simpl; lia).
  assert (held lb ++ encode f = encode_all [f] ++ []) as H5.
  { unfold held. rewrite Hnum. unfold encode_all. simpl. by rewrite !app_nil_r. }
  destruct (handle_data P lb log (encode f) [f] [] Hcap H1 H2 H3 H4 H5)
    as (lb' & Hrun & Hheld & Hcap').
  - exists (encode f), lb'. split_and!; [done|done| |].
    + rewrite Hrun. do 2 f_equal. simpl. unfold dispatch_of, f.
      cbn [f_callback f_context]. rewrite Hlen.
      destruct (Nat.eqb_spec n 0) as [|Hn0]; [done|].
      destruct context as [c|]; [done|lia].
    + unfold held in Hheld. apply (f_equal length) in Hheld.
      rewrite length_take, Hcap' in Hheld. simpl in Hheld.
      unfold capacity in Hheld. lia.
Qed.

Lemma scheduled_callback_is_dispatched_witness :
  exists bytes lb',
    HAPPlatformRunLoopScheduleCallback 4 512
      [Byte.x01; Byte.x02; Byte.x03; Byte.x04]
      (Some [Byte.xaa; Byte.xbb; Byte.xcc]) 2 true
      = Some (kHAPError_None, Some bytes)
    /\ length bytes = (4 + 1 + 2)%nat
    /\ HandleLoopbackFileHandleCallback 4 (recv_bytes bytes)
         (mk_loopback empty_array 0) []
       = (Completed, lb',
          [] ++ [([Byte.x01; Byte.x02; Byte.x03; Byte.x04],
                  if (2 =? 0)%nat then None
                  else option_map (take 2) (Some [Byte.xaa; Byte.xbb; Byte.xcc]),
                  2%nat)])
    /\ numLoopbackBytes lb' = 0%nat.
Proof.
  apply (scheduled_callback_is_dispatched 4 512
           [Byte.x01; Byte.x02; Byte.x03; Byte.x04]
           (Some [Byte.xaa; Byte.xbb; Byte.xcc]) 2 (mk_loopback empty_array 0) []).
  - reflexivity.
  - unfold UINT8_MAX. lia.
  - lia.
  - simpl. lia.
  - reflexivity.
  - reflexivity.
Defined.

End Loopback_schedule_facts.

(** ** The searcher of embedded modules *)

Module App_facts.
Import Lua App Stdlib.Strings.Ascii.

Lemma gen_filename_loop_spec s :
  forall i buf,
    (i + length s < length buf)%nat ->
    gen_filename_loop (s ++ [NUL]) i buf
    = Some ((i + length (before_nul s))%nat,
            take i buf ++ (Some <$> (dot_to_slash <$> before_nul s))
              ++ drop (i + length (before_nul s)) buf).
Proof.
  induction s as [|c s IH]; intros i buf Hroom; simpl in *.
  - rewrite Nat.add_0_r, take_drop. done.
  - destruct (Ascii.eqb c NUL) eqn:Hc.
    + simpl. rewrite Nat.add_0_r, take_drop. done.
    + unfold store. destruct (Nat.ltb_spec i (length buf)) as [Hi|]; [|lia].
      cbn [mbind option_bind]. rewrite IH by (rewrite length_insert; lia).
      set (x := Some (if Ascii.eqb c "."%char then "/"%char else c)).
      assert (take (S i) (<[i:=x]> buf) = take i buf ++ [x]) as ->.
      { rewrite (take_S_r _ i x) by (apply list_lookup_insert_eq; lia).
        by rewrite take_insert_ge by lia. }
      rewrite drop_insert_lt by lia.
      rewrite <- app_assoc. simpl. rewrite Nat.add_succ_r. done.
Qed.

Lemma before_nul_length s : (length (before_nul s) <= length s)%nat.
Proof.
  induction s as [|c s IH]; simpl; [lia|].
  destruct (Ascii.eqb c NUL); simpl; lia.
Qed.

Lemma before_nul_no_nul s : Forall (fun c => Ascii.eqb c NUL = false) (before_nul s).
Proof.
  induction s as [|c s IH]; simpl; [constructor|].
  destruct (Ascii.eqb c NUL) eqn:Hc; constructor; done.
Qed.

Lemma c_string_app l rest :
  Forall (fun c => Ascii.eqb c NUL = false) l ->
  c_string ((Some <$> l) ++ Some NUL :: rest) = Some l.
Proof.
  induction 1 as [|c l Hc _ IH].
  - done.
  - rewrite fmap_cons. cbn [app c_string]. rewrite Hc, IH. done.
Qed.

Lemma gen_filename_spec s buf :
  length buf = (length s + length dot_luac)%nat ->
  exists buf',
    gen_filename (s ++ [NUL]) buf = Some buf'
    /\ length buf' = length buf
    /\ c_string buf'
       = Some ((dot_to_slash <$> before_nul s) ++ ["."; "l"; "u"; "a"; "c"]%char).
Proof.
  intros Hlen. unfold gen_filename.
  pose proof (before_nul_length s) as Hk.
  change (length dot_luac) with 6%nat in *.
  rewrite gen_filename_loop_spec by lia. simpl.
  set (k := length (before_nul s)) in *.
  set (p := dot_to_slash <$> before_nul s).
  assert (length p = k) as Hp by (unfold p; by rewrite length_fmap).
  unfold HAPRawBufferCopyBytes.
  rewrite !length_app, !length_fmap, length_drop. fold p. rewrite Hp.
  destruct (Nat.leb_spec (k + 6) (k + (length buf - k))) as [_|]; [|lia].
  change (length dot_luac) with 6%nat. simpl.
  eexists. split; [reflexivity|]. split.
  - rewrite length_app, length_take, !length_app, !length_fmap, length_drop.
    simpl. rewrite length_drop, !length_app, !length_fmap, length_drop. lia.
  - rewrite take_app_length' by (by rewrite length_fmap).
    generalize (drop (k + 6) ((Some <$> p) ++ drop k buf)). intros rest.
    change (c_string ((Some <$> p) ++ (Some <$> ["."; "l"; "u"; "a"; "c"]%char)
                        ++ Some NUL :: rest)
            = Some (p ++ ["."; "l"; "u"; "a"; "c"]%char)).
    rewrite app_assoc, <- fmap_app.
    apply c_string_app. apply Forall_app. split.
    + unfold p. apply Forall_fmap.
      eapply Forall_impl; [apply before_nul_no_nul|].
      intros c Hc. simpl. unfold dot_to_slash.
      destruct (Ascii.eqb c "."%char); [done|exact Hc].
    + repeat constructor.
Qed.

(** X27. [require] of a module name, whatever bytes it is made of,
    makes [searcher_embedfs] write its path without leaving the
    array [filename] and without reading a byte it has not
    written. The path looked up in the embedded file system is the
    name up to its first NUL, every dot replaced by a slash,
    followed by [.luac]. One value is returned: what loading the
    file of that path pushed, or the message that names the path
    when there is no such file. *)
Theorem embedfs_searcher_looks_up_the_luac_path find load name :
  searcher_embedfs find load name
  = Some (Return
      [ match find (luac_path name) with
        | Some data => load data
        | None => LString ("no file '" ++ luac_path name ++ "' in bridge embedfs")
        end ]).
Proof.
  unfold searcher_embedfs.
  destruct (gen_filename_spec (list_ascii_of_string name)
              (replicate (String.length name + length dot_luac) None))
    as (buf' & -> & _ & Hs).
  { rewrite length_replicate. f_equal.
    induction name as [|c name IH]; simpl; congruence. }
  simpl. rewrite Hs. simpl.
  assert (string_of_list_ascii
            ((dot_to_slash <$> before_nul (list_ascii_of_string name))
               ++ ["."; "l"; "u"; "a"; "c"]%char)
          = luac_path name) as ->; [|done].
  unfold luac_path.
  generalize (dot_to_slash <$> before_nul (list_ascii_of_string name)).
  intros l. induction l as [|c l IH]; simpl; [done|]. by rewrite IH.
Qed.

(** The module [miio.protocol] is found at [miio/protocol.luac], and
    a name with a NUL inside is cut there. *)
Example require_miio_protocol :
  searcher_embedfs one_file loaded "miio.protocol"
  = Some (Return [LString "loaded chunk"])
  /\ searcher_embedfs one_file loaded (String "a" (String NUL "b.c"))
     = Some (Return [LString "no file 'a.luac' in bridge embedfs"]).
Proof. split; vm_compute; reflexivity. Qed.

End App_facts.

(** ** The miIO message format *)

Module Miio_facts.
Import Miio.

Lemma byte_of_to_N b : byte_of (Z.of_N (Byte.to_N b)) = b.
Proof.
  unfold byte_of. pose proof (Byte.to_N_bounded b) as Hb.
  rewrite Z.mod_small by lia. rewrite N2Z.id, Byte.of_to_N. done.
Qed.

Lemma to_N_byte_of z : Z.of_N (Byte.to_N (byte_of z)) = z mod 256.
Proof.
  unfold byte_of. pose proof (Z.mod_pos_bound z 256 ltac:(lia)) as Hz.
  destruct (Byte.of_N (Z.to_N (z mod 256))) as [b|] eqn:Hb.
  - apply Byte.to_of_N in Hb. simpl. rewrite Hb. lia.
  - apply Byte.of_N_None_iff in Hb. lia.
Qed.

Lemma byte_of_mod z : byte_of (z mod 256) = byte_of z.
Proof. unfold byte_of. by rewrite Z.mod_mod by lia. Qed.

Lemma packint_length size n : length (packint size n) = size.
Proof. induction size as [|k IH]; simpl; congruence. Qed.

Lemma pow256_pos k : 0 < 256 ^ Z.of_nat k.
Proof. apply Z.pow_pos_nonneg; lia. Qed.

Lemma pow256_S k : 256 ^ Z.of_nat (S k) = 256 ^ Z.of_nat k * 256.
Proof. rewrite Nat2Z.inj_succ, Z.pow_succ_r by lia. lia. Qed.

Lemma unpackint_packint k :
  forall n acc,
    unpackint (packint k n) acc = acc * 256 ^ Z.of_nat k + n mod 256 ^ Z.of_nat k.
Proof.
  induction k as [|k IH]; intros n acc.
  - simpl. rewrite Z.mod_1_r. lia.
  - cbn [packint unpackint]. rewrite IH, to_N_byte_of, pow256_S.
    pose proof (pow256_pos k) as Hp.
    rewrite (Z.rem_mul_r n (256 ^ Z.of_nat k) 256) by lia. lia.
Qed.

Lemma unpackint_acc bs :
  forall acc,
    unpackint bs acc = acc * 256 ^ Z.of_nat (length bs) + unpackint bs 0
    /\ 0 <= unpackint bs 0 < 256 ^ Z.of_nat (length bs).
Proof.
  induction bs as [|b bs IH]; intros acc.
  - simpl. lia.
  - cbn [unpackint length]. rewrite pow256_S.
    pose proof (pow256_pos (length bs)) as Hp.
    pose proof (Byte.to_N_bounded b) as Hb.
    destruct (IH (acc * 256 + Z.of_N (Byte.to_N b))) as [-> Hr].
    destruct (IH (0 * 256 + Z.of_N (Byte.to_N b))) as [-> _].
    split; nia.
Qed.

Lemma packint_unpackint bs :
  forall acc, packint (length bs) (unpackint bs acc) = bs.
Proof.
  induction bs as [|b bs IH]; intros acc; [done|].
  cbn [length packint unpackint]. rewrite IH. f_equal.
  destruct (unpackint_acc bs (acc * 256 + Z.of_N (Byte.to_N b))) as [-> Hr].
  pose proof (pow256_pos (length bs)) as Hp.
  rewrite Z.div_add_l by lia. rewrite Z.div_small by lia.
  rewrite Z.add_0_r, <- byte_of_mod.
  rewrite Z.add_comm, Z.mod_add by lia.
  rewrite byte_of_mod. apply byte_of_to_N.
Qed.

Lemma pow_2_256 k : 2 ^ (8 * Z.of_nat k) = 256 ^ Z.of_nat k.
Proof. rewrite Z.pow_mul_r by lia. done. Qed.

(** A field read where it was written. *)
Lemma unpack_uint_at size n pre post s pos :
  0 <= n < 2 ^ (8 * Z.of_nat size) ->
  s = pre ++ packint size n ++ post ->
  pos = S (length pre) ->
  unpack_uint size s pos = Ok n.
Proof.
  intros Hn -> ->. unfold unpack_uint. rewrite !length_app, packint_length.
  simpl. rewrite Nat.sub_0_r.
  destruct (Nat.leb_spec (length pre + size) (length pre + (size + length post)))
    as [_|]; [|lia].
  rewrite drop_app_length.
  rewrite take_app_length' by (by rewrite packint_length).
  rewrite unpackint_packint. rewrite pow_2_256 in Hn.
  rewrite Z.mod_small by lia. done.
Qed.

Lemma unpack_c_at size x pre post s pos :
  length x = size ->
  s = pre ++ x ++ post ->
  pos = S (length pre) ->
  unpack_c size s pos = Ok x.
Proof.
  intros Hx -> ->. unfold unpack_c. rewrite !length_app, Hx.
  simpl. rewrite Nat.sub_0_r.
  destruct (Nat.leb_spec (length pre + size) (length pre + (size + length post)))
    as [_|]; [|lia].
  rewrite drop_app_length. by rewrite take_app_length'.
Qed.

Lemma pack_uint_ok size n :
  0 <= n < 2 ^ (8 * Z.of_nat size) -> pack_uint size n = Ok (packint size n).
Proof.
  intros Hn. unfold pack_uint.
  destruct (Z.leb_spec 0 n); [|lia]. destruct (Z.ltb_spec n (2 ^ (8 * Z.of_nat size))); [|lia].
  done.
Qed.

Lemma pack_uint_inv size n b :
  pack_uint size n = Ok b -> 0 <= n < 2 ^ (8 * Z.of_nat size) /\ b = packint size n.
Proof.
  unfold pack_uint.
  destruct (Z.leb_spec 0 n); [|done]. destruct (Z.ltb_spec n (2 ^ (8 * Z.of_nat size))); [|done].
  intros [= <-]. split; [lia|done].
Qed.

Lemma pack_unpack_field size bs :
  length bs = size -> pack_uint size (unpackint bs 0) = Ok bs.
Proof.
  intros <-. destruct (unpackint_acc bs 0) as [_ Hr].
  rewrite pack_uint_ok by (by rewrite pow_2_256).
  by rewrite packint_unpackint.
Qed.

(** The 16 bytes that [pack] writes first. *)
Definition header_of (len unknown did stamp : Z) : bytes :=
  packint 2 0x2131 ++ packint 2 len ++ packint 4 unknown ++ packint 4 did
    ++ packint 4 stamp ++ [].

Lemma header_length len u d s : length (header_of len u d s) = 16%nat.
Proof. reflexivity. Qed.

Lemma header_packed len u d s :
  0 <= len < 2 ^ 16 -> 0 <= u < 2 ^ 32 -> 0 <= d < 2 ^ 32 -> 0 <= s < 2 ^ 32 ->
  string_pack [(2%nat, 0x2131); (2%nat, len); (4%nat, u); (4%nat, d); (4%nat, s)]
  = Ok (header_of len u d s).
Proof.
  intros Hl Hu Hd Hs. cbn [string_pack].
  rewrite (pack_uint_ok 2 0x2131) by (simpl; lia).
  rewrite (pack_uint_ok 2 len) by (simpl; lia).
  rewrite (pack_uint_ok 4 u) by (simpl; lia).
  rewrite (pack_uint_ok 4 d) by (simpl; lia).
  rewrite (pack_uint_ok 4 s) by (simpl; lia).
  reflexivity.
Qed.

Lemma header_packed_inv len u d s h :
  string_pack [(2%nat, 0x2131); (2%nat, len); (4%nat, u); (4%nat, d); (4%nat, s)]
  = Ok h ->
  (0 <= len < 2 ^ 16 /\ 0 <= u < 2 ^ 32 /\ 0 <= d < 2 ^ 32 /\ 0 <= s < 2 ^ 32)
  /\ h = header_of len u d s.
Proof.
  cbn [string_pack]. intros H.
  destruct (pack_uint 2 0x2131) as [b0|] eqn:H0; [|done].
  destruct (pack_uint 2 len) as [b1|] eqn:H1; [|done].
  destruct (pack_uint 4 u) as [b2|] eqn:H2; [|done].
  destruct (pack_uint 4 d) as [b3|] eqn:H3; [|done].
  destruct (pack_uint 4 s) as [b4|] eqn:H4; [|done].
  apply pack_uint_inv in H0 as [_ ->], H1 as [? ->], H2 as [? ->],
      H3 as [? ->], H4 as [? ->].
  injection H as <-. split; [|reflexivity].
  change (2 ^ (8 * Z.of_nat 2)) with (2 ^ 16) in *.
  change (2 ^ (8 * Z.of_nat 4)) with (2 ^ 32) in *. done.
Qed.

Section Format.

Variable md5 : bytes -> bytes.

(** [unpack] on a package made of a header, 16 bytes in the place
    of the checksum, and data. *)
Lemma unpack_package u d s c dat token :
  0 <= u < 2 ^ 32 -> 0 <= d < 2 ^ 32 -> 0 <= s < 2 ^ 32 ->
  length c = 16%nat ->
  Z.of_nat (length dat) <= 65503 ->
  match token with
  | Some t => c = md5 (header_of (32 + Z.of_nat (length dat)) u d s ++ t ++ dat)
  | None => True
  end ->
  unpack md5 (header_of (32 + Z.of_nat (length dat)) u d s ++ c ++ dat) token
  = Ok (mk_message u d s (match dat with [] => None | _ => Some dat end)).
Proof.
  intros Hu Hd Hs Hc Hdat Htok.
  set (len := 32 + Z.of_nat (length dat)).
  assert (0 <= len < 2 ^ 16) as Hlen by (unfold len; change (2 ^ 16) with 65536; lia).
  set (h := header_of len u d s).
  set (p := h ++ c ++ dat).
  assert (length p = (32 + length dat)%nat) as Hp.
  { unfold p. rewrite !length_app, Hc. unfold h. rewrite header_length. lia. }
  unfold unpack.
  rewrite (unpack_uint_at 2 0x2131 []
             (packint 2 len ++ packint 4 u ++ packint 4 d ++ packint 4 s ++ []
                ++ c ++ dat) p 1);
    [|simpl; lia|unfold p, h, header_of; by rewrite <- !app_assoc|done].
  cbn [mbind result_bind]. change (negb (0x2131 =? 0x2131)) with false. cbv iota.
  rewrite (unpack_uint_at 2 len (packint 2 0x2131)
             (packint 4 u ++ packint 4 d ++ packint 4 s ++ [] ++ c ++ dat) p 3);
    [|simpl; lia|unfold p, h, header_of; by rewrite <- !app_assoc|done].
  cbn [mbind result_bind].
  destruct (Z.ltb_spec len 32) as [|_]; [unfold len in *; lia|].
  rewrite Hp.
  destruct (Z.eqb_spec len (Z.of_nat (32 + length dat))) as [_|];
    [|unfold len in *; lia].
  cbn [orb negb].
  assert ((if 32 <? len
           then Some <$> unpack_c (Z.to_nat (len - 32)) p 33
           else Ok None)
          = Ok (match dat with [] => None | _ => Some dat end)) as ->.
  { destruct (Z.ltb_spec 32 len) as [Hgt|Hle].
    - rewrite (unpack_c_at (Z.to_nat (len - 32)) dat (h ++ c) [] p 33).
      + destruct dat; [simpl in *; unfold len in *; simpl in *; lia|done].
      + unfold len. lia.
      + unfold p. by rewrite app_nil_r, <- app_assoc.
      + rewrite length_app, Hc. unfold h. by rewrite header_length.
    - destruct dat; [done|]. unfold len in Hle. simpl in Hle. lia. }
  cbn [mbind result_bind].
  assert (default [] (match dat with [] => None | _ => Some dat end) = dat) as Hdef.
  { by destruct dat. }
  assert (unpack_uint 4 p 5 = Ok u) as E5.
  { apply (unpack_uint_at 4 u (packint 2 0x2131 ++ packint 2 len)
             (packint 4 d ++ packint 4 s ++ [] ++ c ++ dat));
      [simpl; lia|unfold p, h, header_of; by rewrite <- !app_assoc|done]. }
  assert (unpack_uint 4 p 9 = Ok d) as E9.
  { apply (unpack_uint_at 4 d (packint 2 0x2131 ++ packint 2 len ++ packint 4 u)
             (packint 4 s ++ [] ++ c ++ dat));
      [simpl; lia|unfold p, h, header_of; by rewrite <- !app_assoc|done]. }
  assert (unpack_uint 4 p 13 = Ok s) as E13.
  { apply (unpack_uint_at 4 s
             (packint 2 0x2131 ++ packint 2 len ++ packint 4 u ++ packint 4 d)
             ([] ++ c ++ dat));
      [simpl; lia|unfold p, h, header_of; by rewrite <- !app_assoc|done]. }
  destruct token as [t|].
  - rewrite (unpack_c_at 16 h [] (c ++ dat) p 1); [|done|done|done].
    cbn [mbind result_bind]. rewrite Hdef. fold len h in Htok. rewrite <- Htok, Hc.
    cbn [Nat.eqb negb].
    rewrite (unpack_c_at 16 c h dat p 17); [|done|done|done].
    cbn [mbind result_bind]. rewrite bool_decide_eq_true_2 by done.
    rewrite E5, E9, E13. done.
  - rewrite E5, E9, E13. done.
Qed.

Lemma hello_checksum :
  exists c,
    string_pack
      [(4%nat, ffffffff); (4%nat, ffffffff); (4%nat, ffffffff); (4%nat, ffffffff)]
    = Ok c
    /\ length c = 16%nat.
Proof. eexists. split; [vm_compute; reflexivity|reflexivity]. Qed.

Lemma pack_in_range u d s token dat :
  (forall x, length (md5 x) = 16%nat) ->
  0 <= u < 2 ^ 32 -> 0 <= d < 2 ^ 32 -> 0 <= s < 2 ^ 32 ->
  Z.of_nat (length dat) <= 65503 ->
  forall data, default [] data = dat ->
  exists c,
    pack md5 u d s token data
    = Ok (header_of (32 + Z.of_nat (length dat)) u d s ++ c ++ dat)
    /\ length c = 16%nat
    /\ match token with
       | Some t => c = md5 (header_of (32 + Z.of_nat (length dat)) u d s ++ t ++ dat)
       | None => True
       end.
Proof.
  intros Hmd5 Hu Hd Hs Hdat data Hdata. unfold pack.
  assert (match data with
          | Some d0 => 32 + Z.of_nat (length d0)
          | None => 32
          end = 32 + Z.of_nat (length dat)) as ->.
  { destruct data; by subst dat. }
  rewrite header_packed; [|change (2 ^ 16) with 65536; lia|done|done|done].
  cbn [mbind result_bind]. rewrite Hdata.
  destruct token as [t|].
  - cbn [mbind result_bind]. rewrite Hmd5. cbn [Nat.eqb negb].
    eexists. split; [reflexivity|]. split; [apply Hmd5|done].
  - destruct hello_checksum as (c & -> & Hc).
    cbn [mbind result_bind]. rewrite Hc. cbn [Nat.eqb negb].
    by exists c.
Qed.

(** X28. A message packed with fields of 32 bits and at most 65503
    bytes of data is a package of 32 bytes more than the data, and
    unpacking it, with the same token or with none, gives the
    fields back. The data comes back as it was given, except that
    an empty string comes back as [nil]. The digest is taken to
    have 16 bytes. *)
Theorem unpack_inverts_pack u d s token data :
  (forall x, length (md5 x) = 16%nat) ->
  0 <= u < 2 ^ 32 -> 0 <= d < 2 ^ 32 -> 0 <= s < 2 ^ 32 ->
  Z.of_nat (length (default [] data)) <= 65503 ->
  exists package,
    pack md5 u d s token data = Ok package
    /\ length package = (32 + length (default [] data))%nat
    /\ unpack md5 package token = Ok (mk_message u d s (unpacked_data data))
    /\ unpack md5 package None = Ok (mk_message u d s (unpacked_data data)).
Proof.
  intros Hmd5 Hu Hd Hs Hdat.
  destruct (pack_in_range u d s token (default [] data) Hmd5 Hu Hd Hs Hdat data eq_refl)
    as (c & Hpack & Hc & Htok).
  eexists. split; [exact Hpack|].
  assert (match default [] data with [] => None | _ => Some (default [] data) end
          = unpacked_data data) as Hsame.
  { by destruct data as [[|b dd]|]. }
  split_and!.
  - rewrite !length_app, Hc, header_length. lia.
  - rewrite <- Hsame. by apply unpack_package.
  - rewrite <- Hsame. by apply unpack_package.
Qed.

(** X29. [pack] raises an error instead of writing a field that
    does not hold its value: it returns a package exactly when the
    three fields are within 32 bits and the data has at most 65503
    bytes, so that the length of the package is within 16
    bits. The digest is taken to have 16 bytes. *)
Theorem pack_raises_outside_the_format u d s token data :
  (forall x, length (md5 x) = 16%nat) ->
  (exists package, pack md5 u d s token data = Ok package)
  <-> (0 <= u < 2 ^ 32 /\ 0 <= d < 2 ^ 32 /\ 0 <= s < 2 ^ 32
       /\ Z.of_nat (length (default [] data)) <= 65503).
Proof.
  intros Hmd5. split.
  - intros [package Hpack]. unfold pack in Hpack.
    destruct (string_pack [_; _; _; _; _]) as [h|] eqn:Hh in Hpack; [|done].
    apply header_packed_inv in Hh as [(Hl & Hu & Hd & Hs) _].
    split; [exact Hu|]. split; [exact Hd|]. split; [exact Hs|].
    change (2 ^ 16) with 65536 in Hl. destruct data; simpl; lia.
  - intros (Hu & Hd & Hs & Hdat).
    destruct (pack_in_range u d s token (default [] data) Hmd5 Hu Hd Hs Hdat data
                eq_refl) as (c & Hpack & _).
    eexists. exact Hpack.
Qed.

Lemma split_package (p : bytes) :
  (32 <= length p)%nat ->
  take 16 (drop 0 p)
  = take 2 (drop 0 p) ++ take 2 (drop 2 p) ++ take 4 (drop 4 p)
      ++ take 4 (drop 8 p) ++ take 4 (drop 12 p) ++ []
  /\ p = take 16 (drop 0 p) ++ take 16 (drop 16 p) ++ drop 32 p.
Proof.
  intros Hp.
  do 32 (destruct p as [|? p]; [simpl in Hp; lia|]).
  split; reflexivity.
Qed.

Lemma unpack_uint_inv size p pos z :
  unpack_uint size p pos = Ok z ->
  (pos - 1 + size <= length p)%nat
  /\ z = unpackint (take size (drop (pos - 1) p)) 0.
Proof.
  unfold unpack_uint. destruct (Nat.leb_spec (pos - 1 + size) (length p)); [|done].
  by intros [= <-].
Qed.

Lemma unpack_c_inv size p pos x :
  unpack_c size p pos = Ok x ->
  (pos - 1 + size <= length p)%nat /\ x = take size (drop (pos - 1) p).
Proof.
  unfold unpack_c. destruct (Nat.leb_spec (pos - 1 + size) (length p)); [|done].
  by intros [= <-].
Qed.

(** X30. A package that [unpack] accepts with a token is the one
    that [pack] makes, with that token, of the message
    returned: the magic number, the length, the checksum and
    every byte of it are as [pack] writes them. *)
Theorem accepted_package_is_packed package token m :
  unpack md5 package (Some token) = Ok m ->
  pack md5 (unknown m) (did m) (stamp m) (Some token) (data m) = Ok package.
Proof.
  unfold unpack. intros H.
  destruct (unpack_uint 2 package 1) as [magic|] eqn:Hmagic; [|done].
  cbn [mbind result_bind] in H.
  destruct (Z.eqb_spec magic 0x2131) as [->|]; [|done]. cbn [negb] in H.
  destruct (unpack_uint 2 package 3) as [len|] eqn:Hlen; [|done].
  cbn [mbind result_bind] in H.
  destruct (Z.ltb_spec len 32) as [|Hge]; [done|].
  destruct (Z.eqb_spec len (Z.of_nat (length package))) as [Heq|]; [|done].
  cbn [orb negb] in H.
  assert (32 <= length package)%nat as Hp by lia.
  destruct (split_package package Hp) as [Hhead Hall].
  set (dat := if 32 <? len then Some (drop 32 package) else None).
  assert ((if 32 <? len
           then Some <$> unpack_c (Z.to_nat (len - 32)) package 33
           else Ok None) = Ok dat) as Hdat.
  { unfold dat. destruct (32 <? len); [|done].
    unfold unpack_c.
    destruct (Nat.leb_spec (33 - 1 + Z.to_nat (len - 32)) (length package)); [|lia].
    cbn [fmap result_fmap]. do 2 f_equal.
    apply take_ge. rewrite length_drop. lia. }
  rewrite Hdat in H. cbn [mbind result_bind] in H.
  assert (default [] dat = drop 32 package) as Hdef.
  { unfold dat. destruct (Z.ltb_spec 32 len); [done|].
    simpl. symmetry. apply drop_ge. lia. }
  rewrite Hdef in H.
  destruct (unpack_c 16 package 1) as [h|] eqn:Hh; [|done].
  cbn [mbind result_bind] in H.
  destruct (length (md5 (h ++ token ++ drop 32 package)) =? 16)%nat eqn:H16; [|done].
  cbn [negb] in H.
  destruct (unpack_c 16 package 17) as [c|] eqn:Hc; [|done].
  cbn [mbind result_bind] in H.
  destruct (bool_decide (md5 (h ++ token ++ drop 32 package) = c)) eqn:Hsum; [|done].
  apply bool_decide_eq_true_1 in Hsum.
  destruct (unpack_uint 4 package 5) as [u|] eqn:Hu; [|done].
  destruct (unpack_uint 4 package 9) as [d|] eqn:Hd; [|done].
  destruct (unpack_uint 4 package 13) as [s|] eqn:Hs; [|done].
  cbn [mbind result_bind] in H. injection H as <-.
  cbn [unknown did stamp data].
  apply unpack_uint_inv in Hmagic as [_ Hmagic], Hlen as [_ Hlen], Hu as [_ ->],
      Hd as [_ ->], Hs as [_ ->].
  apply unpack_c_inv in Hh as [_ ->], Hc as [_ ->].
  cbn [Nat.sub] in *.
  unfold pack.
  assert (match dat with
          | Some d0 => 32 + Z.of_nat (length d0)
          | None => 32
          end = len) as ->.
  { unfold dat. destruct (Z.ltb_spec 32 len); [|lia].
    rewrite length_drop. lia. }
  assert (string_pack
            [(2%nat, 0x2131); (2%nat, len);
             (4%nat, unpackint (take 4 (drop 4 package)) 0);
             (4%nat, unpackint (take 4 (drop 8 package)) 0);
             (4%nat, unpackint (take 4 (drop 12 package)) 0)]
          = Ok (take 16 (drop 0 package))) as ->.
  { rewrite Hhead. cbn [string_pack]. rewrite Hmagic, Hlen.
    rewrite !pack_unpack_field by (rewrite length_take, length_drop; lia).
    reflexivity. }
  cbn [mbind result_bind]. rewrite Hdef.
  rewrite Hsum at 1. rewrite length_take, length_drop.
  replace (16 `min` (length package - 16))%nat with 16%nat by lia.
  cbn [Nat.eqb negb]. rewrite Hsum. f_equal. symmetry. exact Hall.
Qed.

End Format.

Lemma sample_digest_length x : length (sample_digest x) = 16%nat.
Proof.
  unfold sample_digest. by rewrite length_replicate.
Qed.

Lemma unpack_inverts_pack_witness :
  exists package,
    pack sample_digest 0 7 9 (Some sample_token) (Some [Byte.x01]) = Ok package
    /\ length package = (32 + length (default [] (Some [Byte.x01])))%nat
    /\ unpack sample_digest package (Some sample_token)
       = Ok (mk_message 0 7 9 (unpacked_data (Some [Byte.x01])))
    /\ unpack sample_digest package None
       = Ok (mk_message 0 7 9 (unpacked_data (Some [Byte.x01]))).
Proof.
  apply (unpack_inverts_pack sample_digest 0 7 9 (Some sample_token) (Some [Byte.x01])).
  - exact sample_digest_length.
  - change (2 ^ 32) with 4294967296. lia.
  - change (2 ^ 32) with 4294967296. lia.
  - change (2 ^ 32) with 4294967296. lia.
  - simpl. lia.
Defined.

Lemma pack_raises_outside_the_format_witness :
  (exists package, pack sample_digest (-1) 7 9 None None = Ok package)
  <-> (0 <= -1 < 2 ^ 32 /\ 0 <= 7 < 2 ^ 32 /\ 0 <= 9 < 2 ^ 32
       /\ Z.of_nat (length (default [] (None : option bytes))) <= 65503).
Proof.
  exact (pack_raises_outside_the_format sample_digest (-1) 7 9 None None
           sample_digest_length).
Defined.

Lemma accepted_package_is_packed_witness :
  unpack sample_digest sample_package (Some sample_token)
  = Ok (mk_message 0 7 9 (Some [Byte.x01]))
  /\ pack sample_digest 0 7 9 (Some sample_token) (Some [Byte.x01]) = Ok sample_package.
Proof.
  assert (unpack sample_digest sample_package (Some sample_token)
          = Ok (mk_message 0 7 9 (Some [Byte.x01]))) as H by (vm_compute; reflexivity).
  split; [exact H|].
  exact (accepted_package_is_packed sample_digest sample_package sample_token _ H).
Defined.

(** A package whose last byte was changed is refused with the token
    and accepted without it. *)
Example changed_package_is_refused :
  unpack sample_digest (take 32 sample_package ++ [Byte.x02]) (Some sample_token)
  = Raise "Got checksum error which indicates use of an invalid token."
  /\ unpack sample_digest (take 32 sample_package ++ [Byte.x02]) None
     = Ok (mk_message 0 7 9 (Some [Byte.x02])).
Proof. split; vm_compute; reflexivity. Qed.

End Miio_facts.
